(** * Identical Code Folding in mold: a shallow embedding of [icf.cc]
    and of the priority assignment and the binning loop of [main.cc],
    with the properties of the specification stated and settled against
    them, and further properties of the code.

    Conventions of the embedding:
    - pointers ([InputSection *], [Symbol *]) are indices into a store
      (a list), a null pointer is [None];
    - C++ integers are [Z], with the wrap-around of the fixed-width types
      written out where the code relies on it;
    - an operation whose C++ behaviour is undefined (a vector indexed out
      of bounds, [back()] of an empty vector) or that throws
      ([string_view::substr] past the end) yields [None];
    - the [tbb::parallel_for] loops are run in index order. Apart from
      the insertions into the leaf table, every loop body writes only to
      the slots of its own index. The insertions into the leaf table are
      taken one after the other in [leaf_pass], in the order of the files
      and of their sections, and step by step under a schedule of the
      threads in [leaf_pass_par]. *)

From Stdlib Require Import ZArith Lia Bool List String Ascii.
From stdpp Require Import base tactics option list numbers sorting.

Open Scope Z_scope.
Open Scope list_scope.

(** ** Machine integers *)

(** The value of [z] in an integer type of [bits] bits. *)
Definition wrap (bits : Z) (signed : bool) (z : Z) : Z :=
  let m := z mod 2 ^ bits in
  if signed && (2 ^ (bits - 1) <=? m) then m - 2 ^ bits else m.

Definition to_int (z : Z) : Z := wrap 32 true z.
Definition to_u32 (z : Z) : Z := wrap 32 false z.
Definition to_u64 (z : Z) : Z := wrap 64 false z.

(** Byte strings; a byte is an integer in [0, 256). *)
Abbreviation bytes := (list Z).

(** The eight bytes of an [i64] as [SHA256_Update(&ctx, &val, 8)] reads
    them on x86-64 (little endian, two's complement). *)
Definition le64 (v : Z) : bytes :=
  map (fun k : nat => Z.land (Z.shiftr v (8 * Z.of_nat k)) 255) (seq 0 8).

(** [for (i64 i = from; i < from + n; i++) body(i)] over a state, stopping
    at the first undefined step. *)
Fixpoint for_loop {S : Type} (n : nat) (i : Z) (body : Z -> S -> option S) (s : S)
  : option S :=
  match n with
  | O => Some s
  | Datatypes.S n' =>
      match body i s with
      | Some s' => for_loop n' (i + 1) body s'
      | None => None
      end
  end.

(** [v[i]] for a signed index. *)
Definition at_index {A : Type} (v : list A) (i : Z) : option A :=
  if i <? 0 then None else v !! Z.to_nat i.

(** [v[i] = x] for a signed index. *)
Definition store_index {A : Type} (v : list A) (i : Z) (x : A) : option (list A) :=
  if (0 <=? i) && (i <? Z.of_nat (length v)) then Some (<[Z.to_nat i := x]> v) else None.

(** [v.back()]. *)
Definition back {A : Type} (v : list A) : option A := last v.

(** ** main.cc: file priorities *)

Module Main.

(** The fields of chibild.h's [ObjectFile] that [main] reads and writes
    between opening the files and discarding the dead archive members. *)
Record ObjectFile := mkObjectFile {
  is_in_archive : bool;
  is_alive : bool;
  priority : Z
}.

(** The integer type of the field [ObjectFile::priority]. Its declaration
    is in chibild.h, which is not part of the sources at hand, so the
    type is a parameter of the model. *)
Record int_type := mkIntType { it_bits : Z; it_signed : bool }.

Definition convert (ty : int_type) (z : Z) : Z := wrap (it_bits ty) (it_signed ty) z.

(** [files[i]->is_in_archive() ? i + (1 << 31) : i], an expression of
    type [int]: [1 << 31] is [INT_MIN]. *)
Definition priority_expr (in_archive : bool) (i : Z) : Z :=
  if in_archive then to_int (i + to_int (Z.shiftl 1 31)) else i.

Definition assign (ty : int_type) (i : nat) (f : ObjectFile) : ObjectFile :=
  {| is_in_archive := is_in_archive f;
     is_alive := is_alive f;
     priority := convert ty (priority_expr (is_in_archive f) (Z.of_nat i)) |}.

(** [for (int i = 0; i < files.size(); i++) files[i]->priority = ...] *)
Definition set_priorities (ty : int_type) (files : list ObjectFile) : list ObjectFile :=
  imap (assign ty) files.

(** [files.erase(std::remove_if(..., !file->is_alive), files.end())] *)
Definition eliminate_unused (files : list ObjectFile) : list ObjectFile :=
  List.filter is_alive files.

Definition final_files (ty : int_type) (files : list ObjectFile) : list ObjectFile :=
  eliminate_unused (set_priorities ty files).

Definition u32_t : int_type := mkIntType 32 false.

End Main.

(** ** The object model read by icf.cc *)

(** ELF constants of <elf.h>. *)
Definition SHF_WRITE : Z := 1.
Definition SHF_ALLOC : Z := 2.
Definition SHF_EXECINSTR : Z := 4.
Definition SHT_NOBITS : Z := 8.
Definition SHT_INIT_ARRAY : Z := 14.
Definition SHT_FINI_ARRAY : Z := 15.

Definition HASH_SIZE : nat := 16.

Record SectionFragment := mkFragment { frag_data : bytes }.

Record SectionFragmentRef := mkFragmentRef {
  ref_frag : SectionFragment;
  ref_addend : Z
}.

Record Symbol := mkSymbol {
  sym_frag : option SectionFragment;
  input_section : option nat;
  sym_value : Z
}.

Record ElfRela := mkRela {
  r_offset : Z;
  r_type : Z;
  r_sym : Z;
  r_addend : Z
}.

Record EhReloc := mkEhReloc {
  eh_sym : nat;
  eh_type : Z;
  eh_offset : Z;
  eh_addend : Z
}.

Record FdeRecord := mkFde {
  fde_contents : bytes;
  fde_rels : list EhReloc
}.

Record InputSection := mkInputSection {
  sh_flags : Z;
  sh_type : Z;
  name : string;
  contents : bytes;
  rels : list ElfRela;
  has_fragments : list bool;
  rel_fragments : list SectionFragmentRef;
  fdes : list FdeRecord;
  file : nat;
  priority : Z;
  leader : option nat;
  icf_eligible : bool;
  icf_leaf : bool;
  icf_idx : Z;
  is_dead : bool
}.

Record ObjectFile := mkObjectFile {
  sections : list (option nat);
  symbols : list nat
}.

(** The linker's object graph: the section and symbol stores that
    pointers index, and [out::objs]. *)
Record Linker := mkLinker {
  secs : list InputSection;
  syms : list Symbol;
  objs : list ObjectFile
}.

Definition set_leader (l : option nat) (s : InputSection) : InputSection :=
  mkInputSection (sh_flags s) (sh_type s) (name s) (contents s) (rels s) (has_fragments s)
    (rel_fragments s) (fdes s) (file s) (priority s) l (icf_eligible s) (icf_leaf s)
    (icf_idx s) (is_dead s).

Definition set_icf_eligible (b : bool) (s : InputSection) : InputSection :=
  mkInputSection (sh_flags s) (sh_type s) (name s) (contents s) (rels s) (has_fragments s)
    (rel_fragments s) (fdes s) (file s) (priority s) (leader s) b (icf_leaf s)
    (icf_idx s) (is_dead s).

Definition set_icf_leaf (b : bool) (s : InputSection) : InputSection :=
  mkInputSection (sh_flags s) (sh_type s) (name s) (contents s) (rels s) (has_fragments s)
    (rel_fragments s) (fdes s) (file s) (priority s) (leader s) (icf_eligible s) b
    (icf_idx s) (is_dead s).

Definition set_icf_idx (i : Z) (s : InputSection) : InputSection :=
  mkInputSection (sh_flags s) (sh_type s) (name s) (contents s) (rels s) (has_fragments s)
    (rel_fragments s) (fdes s) (file s) (priority s) (leader s) (icf_eligible s) (icf_leaf s)
    i (is_dead s).

(** Modelled from the spec: [InputSection::kill()] is defined in mold.h,
    which is not part of the sources at hand; the spec says that the
    folded section "is marked dead". *)
Definition kill (s : InputSection) : InputSection :=
  mkInputSection (sh_flags s) (sh_type s) (name s) (contents s) (rels s) (has_fragments s)
    (rel_fragments s) (fdes s) (file s) (priority s) (leader s) (icf_eligible s) (icf_leaf s)
    (icf_idx s) true.

(** Modelled from the spec: [InputSection::get_priority()] is defined in
    mold.h, which is not part of the sources at hand; the spec makes the
    priority an attribute of the section. *)
Definition get_priority (s : InputSection) : Z := priority s.

Definition get_contents (s : InputSection) : bytes := contents s.

(** ** The eligibility filter *)

Definition is_c_ident_start (c : ascii) : bool :=
  let n := nat_of_ascii c in
  ((65 <=? n) && (n <=? 90) || (97 <=? n) && (n <=? 122) || (n =? 95))%nat.

Definition is_c_ident_char (c : ascii) : bool :=
  let n := nat_of_ascii c in
  (is_c_ident_start c || (48 <=? n) && (n <=? 57))%nat.

Fixpoint all_chars (p : ascii -> bool) (s : string) : bool :=
  match s with
  | EmptyString => true
  | String c s' => p c && all_chars p s'
  end.

(** Modelled from the spec: [is_c_identifier] is defined outside icf.cc;
    the spec speaks of a name that "is a valid C identifier": a letter or
    an underscore followed by letters, digits and underscores. *)
Definition is_c_identifier (s : string) : bool :=
  match s with
  | EmptyString => false
  | String c s' => is_c_ident_start c && all_chars is_c_ident_char s'
  end.

Definition flag_set (flags mask : Z) : bool := negb (Z.land flags mask =? 0).

Definition is_eligible (isec : InputSection) : bool :=
  let is_alloc := flag_set (sh_flags isec) SHF_ALLOC in
  let is_executable := flag_set (sh_flags isec) SHF_EXECINSTR in
  let is_writable := flag_set (sh_flags isec) SHF_WRITE in
  let is_bss := sh_type isec =? SHT_NOBITS in
  let is_init := (sh_type isec =? SHT_INIT_ARRAY) || String.eqb (name isec) ".init" in
  let is_fini := (sh_type isec =? SHT_FINI_ARRAY) || String.eqb (name isec) ".fini" in
  let is_enumerable := is_c_identifier (name isec) in
  is_alloc && is_executable && negb is_writable && negb is_bss &&
  negb is_init && negb is_fini && negb is_enumerable.

Definition is_leaf (isec : InputSection) : bool :=
  if negb (Nat.eqb (length (rels isec)) 0) then false
  else forallb (fun fde => negb (1 <? length (fde_rels fde))%nat) (fdes isec).

(** ** Sequencing of steps that may be undefined *)

Fixpoint foldM {A S : Type} (f : S -> A -> option S) (s : S) (l : list A) : option S :=
  match l with
  | [] => Some s
  | x :: l' =>
      match f s x with
      | Some s' => foldM f s' l'
      | None => None
      end
  end.

(** The non-null entries of [file->sections], over all files in order:
    the sections the loops [for (InputSection *isec : out::objs[i]->sections)]
    visit past their [if (!isec ...) continue]. *)
Definition file_sections (f : ObjectFile) : list nat := omap id (sections f).

Definition all_sections (L : Linker) : list nat := concat (map file_sections (objs L)).

(** ** The leaf deduper *)

(** [std::string_view::substr(pos)]: throws when [pos > size()]. *)
Definition substr (s : bytes) (pos : nat) : option bytes :=
  if (pos <=? length s)%nat then Some (drop pos s) else None.

Definition bytes_eqb (a b : bytes) : bool := bool_decide (a = b).

(** The table [tbb::concurrent_unordered_map<InputSection *, InputSection *,
    LeafHasher, LeafEq>]: its entries (key, value), oldest first. *)
Abbreviation leaf_map := (list (nat * nat)).

Section LeafTable.

(** [std::hash<std::string_view>], a function of the standard library. *)
Variable std_hash : bytes -> Z.

Definition LeafHasher (isec : InputSection) : option Z :=
  foldM (fun h fde =>
           match substr (fde_contents fde) 8 with
           | Some tail =>
               let h2 := to_u64 (std_hash tail) in
               Some (Z.lxor h (to_u64 (h2 + 2654435769 + Z.shiftl h 6 + Z.shiftr h 2)))
           | None => None
           end)
        (to_u64 (std_hash (get_contents isec))) (fdes isec).

(** The loop of [LeafEq] over [a->fdes], reading [b->fdes[i]]. *)
Fixpoint fdes_eq (a b : list FdeRecord) : option bool :=
  match a with
  | [] => Some true
  | fa :: a' =>
      match b with
      | [] => None
      | fb :: b' =>
          if negb (Nat.eqb (length (fde_contents fa)) (length (fde_contents fb)))
          then Some false
          else
            match substr (fde_contents fa) 8, substr (fde_contents fb) 8 with
            | Some ta, Some tb =>
                if negb (bytes_eqb ta tb) then Some false else fdes_eq a' b'
            | _, _ => None
            end
      end
  end.

Definition LeafEq (a b : InputSection) : option bool :=
  if negb (bytes_eqb (get_contents a) (get_contents b)) then Some false
  else if negb (Nat.eqb (length (fdes a)) (length (fdes b))) then Some false
  else fdes_eq (fdes a) (fdes b).

(** A lookup in the table hashes the key it is given and returns the
    entry whose key [LeafEq] equates with it. *)

Fixpoint find_key (st : list InputSection) (m : leaf_map) (isec : InputSection)
  : option (option nat) :=
  match m with
  | [] => Some None
  | (k, _) :: m' =>
      match st !! k with
      | Some ksec =>
          match LeafEq ksec isec with
          | Some true => Some (Some O)
          | Some false =>
              match find_key st m' isec with
              | Some r => Some (S <$> r)
              | None => None
              end
          | None => None
          end
      | None => None
      end
  end.

Definition map_find (st : list InputSection) (m : leaf_map) (isec : InputSection)
  : option (option nat) :=
  match LeafHasher isec with
  | Some _ => find_key st m isec
  | None => None
  end.

(** [auto [it, inserted] = map.insert({isec, isec});
     if (!inserted && isec->get_priority() < it->second->get_priority())
       it->second = isec;] *)
Definition leaf_insert (st : list InputSection) (m : leaf_map) (p : nat)
  : option leaf_map :=
  isec ← st !! p;
  r ← map_find st m isec;
  match r with
  | None => Some (m ++ [(p, p)])
  | Some j =>
      e ← m !! j;
      vsec ← st !! (snd e);
      if get_priority isec <? get_priority vsec
      then Some (<[j := (fst e, p)]> m)
      else Some m
  end.

(** The body of the first loop of [icf_sections] for a non-null section. *)
Definition classify (sm : list InputSection * leaf_map) (p : nat)
  : option (list InputSection * leaf_map) :=
  isec ← fst sm !! p;
  if negb (is_eligible isec) then Some sm
  else if is_leaf isec then
    let st' := <[p := set_icf_leaf true isec]> (fst sm) in
    m' ← leaf_insert st' (snd sm) p;
    Some (st', m')
  else Some (<[p := set_icf_eligible true isec]> (fst sm), snd sm).

(** The body of the second loop: [isec->leader = map.find(isec)->second],
    after [assert(it != map.end())]. *)
Definition assign_leaf_leader (m : leaf_map) (st : list InputSection) (p : nat)
  : option (list InputSection) :=
  isec ← st !! p;
  if negb (icf_leaf isec) then Some st
  else
    r ← map_find st m isec;
    j ← r;
    e ← m !! j;
    Some (<[p := set_leader (Some (snd e)) isec]> st).

Definition leaf_pass (L : Linker) : option Linker :=
  sm ← foldM classify (secs L, []) (all_sections L);
  st ← foldM (assign_leaf_leader (snd sm)) (fst sm) (all_sections L);
  Some (mkLinker st (syms L) (objs L)).

(** *** The first loop as its threads run it

    [tbb::parallel_for] hands the files to threads that run the body of
    the first loop side by side, one file after the other on a thread.
    [map.insert] is an operation of the concurrent table and is taken as
    one step, together with the test of eligibility and the store to
    [icf_leaf] before it, which read and write the thread's own section
    only. The read of [it->second] for the comparison of the priorities
    and the store [it->second = isec] are two further steps, on a plain
    pointer, and steps of other threads may come between them. An
    iterator of the table stays valid when other threads insert; it is
    the position of the entry in the list, which only grows at its end.

    The place a file's traversal is at: before the body for the next
    section; after an insertion of section [p] that found entry [j], with
    the comparison to come; or after the comparison, with the store to
    come. *)
Inductive leaf_pc : Type :=
  | AtInsert
  | AtCompare (p j : nat)
  | AtStore (p j : nat).

(** The traversal of one file: the place it is at and the sections it
    has still to visit. *)
Record leaf_thread := mkLeafThread {
  at_pc : leaf_pc;
  to_visit : list nat
}.

(** The store, the table and the traversals, one per file. *)
Record leaf_state := mkLeafState {
  ls_secs : list InputSection;
  ls_map : leaf_map;
  ls_threads : list leaf_thread
}.

Definition thread_done (w : leaf_thread) : bool :=
  match at_pc w, to_visit w with
  | AtInsert, [] => true
  | _, _ => false
  end.

(** One step of the traversal of file [t]; nothing happens when it is
    through. *)
Definition leaf_step (s : leaf_state) (t : nat) : option leaf_state :=
  match ls_threads s !! t with
  | None => Some s
  | Some w =>
      let goto pc st m :=
        mkLeafState st m (<[t := mkLeafThread pc (tail (to_visit w))]> (ls_threads s)) in
      let stay pc :=
        mkLeafState (ls_secs s) (ls_map s)
          (<[t := mkLeafThread pc (to_visit w)]> (ls_threads s)) in
      match at_pc w with
      | AtInsert =>
          match to_visit w with
          | [] => Some s
          | p :: _ =>
              isec ← ls_secs s !! p;
              if negb (is_eligible isec) then Some (goto AtInsert (ls_secs s) (ls_map s))
              else if is_leaf isec then
                let st' := <[p := set_icf_leaf true isec]> (ls_secs s) in
                isec' ← st' !! p;
                r ← map_find st' (ls_map s) isec';
                match r with
                | None => Some (goto AtInsert st' (ls_map s ++ [(p, p)]))
                | Some j => Some (goto (AtCompare p j) st' (ls_map s))
                end
              else
                Some (goto AtInsert (<[p := set_icf_eligible true isec]> (ls_secs s)) (ls_map s))
          end
      | AtCompare p j =>
          isec ← ls_secs s !! p;
          e ← ls_map s !! j;
          vsec ← ls_secs s !! (snd e);
          if get_priority isec <? get_priority vsec
          then Some (stay (AtStore p j))
          else Some (stay AtInsert)
      | AtStore p j =>
          e ← ls_map s !! j;
          Some (mkLeafState (ls_secs s) (<[j := (fst e, p)]> (ls_map s))
                  (<[t := mkLeafThread AtInsert (to_visit w)]> (ls_threads s)))
      end
  end.

Definition leaf_start (L : Linker) : leaf_state :=
  mkLeafState (secs L) []
    (map (fun f => mkLeafThread AtInsert (file_sections f)) (objs L)).

(** The first loop under a schedule, the list of the files whose
    traversals take the steps, in order. The loop returns when every
    traversal is through: a schedule that stops before is none of the
    loop, and yields [None] as an undefined step does. *)
Definition leaf_loop_par (schedule : list nat) (L : Linker)
  : option (list InputSection * leaf_map) :=
  s ← foldM leaf_step (leaf_start L) schedule;
  if forallb thread_done (ls_threads s) then Some (ls_secs s, ls_map s) else None.

(** The leaf pass with the first loop under a schedule. The bodies of
    the second loop read the table and write the leader of their own
    section only. *)
Definition leaf_pass_par (schedule : list nat) (L : Linker) : option Linker :=
  sm ← leaf_loop_par schedule L;
  st ← foldM (assign_leaf_leader (snd sm)) (fst sm) (all_sections L);
  Some (mkLinker st (syms L) (objs L)).

End LeafTable.

(** The schedule that takes the files one after the other: a section
    takes three steps at most. *)
Definition program_order (L : Linker) : list nat :=
  concat (imap (fun t f => replicate (3 * length (file_sections f)) t) (objs L)).

(** ** The initial digester *)

(** [std::array<u8, HASH_SIZE>]. *)
Abbreviation Digest := (list Z).

Section Digests.

(** OpenSSL's SHA-256 of the bytes absorbed by the [SHA256_Update] calls
    on a context; a context is modelled by the bytes it has absorbed. *)
Variable SHA256 : bytes -> bytes.

Definition digest_final (ctx : bytes) : Digest := take HASH_SIZE (SHA256 ctx).

Definition hash_i64 (ctx : bytes) (val : Z) : bytes := ctx ++ le64 val.

Definition hash_string (ctx : bytes) (str : bytes) : bytes :=
  hash_i64 ctx (Z.of_nat (length str)) ++ str.

Definition hash_symbol (L : Linker) (ctx : bytes) (sym : Symbol) : option bytes :=
  ctx' ←
    match sym_frag sym with
    | Some frag => Some (hash_string (hash_i64 ctx 2) (frag_data frag))
    | None =>
        match input_section sym with
        | None => Some (hash_i64 ctx 3)
        | Some p =>
            isec ← secs L !! p;
            match leader isec with
            | Some l =>
                lsec ← secs L !! l;
                Some (hash_i64 (hash_i64 ctx 4) (get_priority lsec))
            | None =>
                if icf_eligible isec then Some (hash_i64 ctx 5)
                else Some (hash_i64 (hash_i64 ctx 6) (get_priority isec))
            end
        end
    end;
  Some (hash_i64 ctx' (sym_value sym)).

(** [std::span(fde.rels).subspan(1)]: undefined on an empty span. *)
Definition subspan1 {A : Type} (l : list A) : option (list A) :=
  match l with
  | [] => None
  | _ :: t => Some t
  end.

Definition hash_eh_reloc (L : Linker) (ctx : bytes) (rel : EhReloc) : option bytes :=
  sym ← syms L !! eh_sym rel;
  ctx1 ← hash_symbol L ctx sym;
  Some (hash_i64 (hash_i64 (hash_i64 ctx1 (eh_type rel)) (eh_offset rel)) (eh_addend rel)).

Definition hash_fde (L : Linker) (ctx : bytes) (fde : FdeRecord) : option bytes :=
  tail ← substr (fde_contents fde) 8;
  let ctx1 := hash_string ctx tail in
  let ctx2 := hash_i64 ctx1 (Z.of_nat (length (fde_rels fde))) in
  rest ← subspan1 (fde_rels fde);
  foldM (hash_eh_reloc L) ctx2 rest.

(** [*isec.file->symbols[rel.r_sym]] *)
Definition rel_symbol (L : Linker) (isec : InputSection) (rel : ElfRela) : option Symbol :=
  f ← objs L !! file isec;
  p ← at_index (symbols f) (r_sym rel);
  syms L !! p.

(** The body of the loop over [isec.rels], on the state (ctx, ref_idx). *)
Definition hash_rel (L : Linker) (isec : InputSection) (i : Z) (s : bytes * Z)
  : option (bytes * Z) :=
  rel ← at_index (rels isec) i;
  let ctx1 := hash_i64 (hash_i64 (hash_i64 (fst s) (r_offset rel)) (r_type rel)) (r_addend rel) in
  has ← at_index (has_fragments isec) i;
  if has : bool then
    ref ← at_index (rel_fragments isec) (snd s);
    Some (hash_string (hash_i64 (hash_i64 ctx1 1) (ref_addend ref)) (frag_data (ref_frag ref)),
          snd s + 1)
  else
    sym ← rel_symbol L isec rel;
    ctx2 ← hash_symbol L ctx1 sym;
    Some (ctx2, snd s).

(** The bytes [compute_digest] has fed to the context when it calls
    [digest_final]. *)
Definition digest_input (L : Linker) (isec : InputSection) : option bytes :=
  let ctx1 := hash_string [] (get_contents isec) in
  let ctx2 := hash_i64 ctx1 (sh_flags isec) in
  let ctx3 := hash_i64 ctx2 (Z.of_nat (length (fdes isec))) in
  let ctx4 := hash_i64 ctx3 (Z.of_nat (length (rels isec))) in
  ctx5 ← foldM (hash_fde L) ctx4 (fdes isec);
  s ← for_loop (length (rels isec)) 0 (hash_rel L isec) (ctx5, 0);
  Some (fst s).

Definition compute_digest (L : Linker) (isec : InputSection) : option Digest :=
  ctx ← digest_input L isec;
  Some (digest_final ctx).

Definition compute_digests (L : Linker) (sections : list nat) : option (list Digest) :=
  mapM (fun p => isec ← secs L !! p; compute_digest L isec) sections.

(** ** The propagator *)

(** The inner loop [for (i64 j = begin; j < end; j++)
    SHA256_Update(&ctx, digests[slot][edges[j]].data(), HASH_SIZE)]. *)
Definition absorb_neighbor (cur : list Digest) (edges : list Z) (j : Z) (ctx : bytes)
  : option bytes :=
  e ← at_index edges j;
  d ← at_index cur e;
  Some (ctx ++ take HASH_SIZE d).

(** The body of the [parallel_for] of [propagate] for index [i]. *)
Definition propagate_at (edges edge_indices : list Z) (slot : Z) (i : Z)
  (digests : list (list Digest)) : option (list (list Digest)) :=
  d0 ← at_index digests 0;
  begin ← at_index edge_indices i;
  end_ ← (if i + 1 =? Z.of_nat (length d0) then Some (Z.of_nat (length edges))
          else at_index edge_indices (i + 1));
  cur ← at_index digests slot;
  own ← at_index cur i;
  ctx ← for_loop (Z.to_nat (end_ - begin)) begin (absorb_neighbor cur edges) (take HASH_SIZE own);
  nxt ← at_index digests (Z.lxor slot 1);
  nxt' ← store_index nxt i (digest_final ctx);
  store_index digests (Z.lxor slot 1) nxt'.

Definition propagate (digests : list (list Digest)) (edges edge_indices : list Z) (slot : Z)
  : option (list (list Digest)) :=
  d0 ← at_index digests 0;
  for_loop (length d0) 0 (propagate_at edges edge_indices slot) digests.

End Digests.

(** [operator<] of [std::array<u8, 16>]: lexicographic. *)
Fixpoint digest_ltb (a b : Digest) : bool :=
  match a, b with
  | [], [] => false
  | [], _ :: _ => true
  | _ :: _, [] => false
  | x :: a', y :: b' => (x <? y) || ((x =? y) && digest_ltb a' b')
  end.

Definition digest_le (a b : Digest) : Prop := digest_ltb b a = false.

#[export] Instance digest_le_dec : RelDecision digest_le.
Proof. intros a b. unfold digest_le. apply _. Defined.

(** [tbb::parallel_sort(vec)]: the sorted vector is the same whatever
    the algorithm, equal digests being the same bytes. *)
Definition sort_digests (v : list Digest) : list Digest := merge_sort digest_le v.

(** The number of indices [i] in [0, size - 1) with [vec[i] != vec[i + 1]]. *)
Fixpoint count_boundaries (vec : list Digest) : Z :=
  match vec with
  | [] => 0
  | x :: rest =>
      match rest with
      | [] => 0
      | y :: _ => (if bytes_eqb x y then 0 else 1) + count_boundaries rest
      end
  end.

Definition count_num_classes (digests : list Digest) : Z :=
  count_boundaries (sort_digests digests).

(** ** The section enumerator *)

(** The prefix sums [for (i64 i = 0; i < v.size() - 1; i++)
    idx[i + 1] = idx[i] + num[i]]: the bound is computed in [size_t], so
    the loop is entered [to_u64 (size - 1)] times unless a step is
    undefined before. *)
Definition prefix_sums (cast : Z -> Z) (num : list Z) (idx : list Z) (size : nat)
  : option (list Z) :=
  for_loop (Z.to_nat (to_u64 (Z.of_nat size - 1))) 0
    (fun i idx =>
       a ← at_index idx i;
       b ← at_index num i;
       store_index idx (i + 1) (cast (a + b)))
    idx.

Definition count_eligible (L : Linker) (f : ObjectFile) : option Z :=
  foldM (fun n p => isec ← secs L !! p; Some (if icf_eligible isec then n + 1 else n))
        0 (file_sections f).

Definition fill_sections (L : Linker) (section_indices : list Z) (i : Z)
  (sections : list (option nat)) : option (list (option nat)) :=
  f ← at_index (objs L) i;
  idx ← at_index section_indices i;
  r ← foldM (fun (s : Z * list (option nat)) p =>
               isec ← secs L !! p;
               if icf_eligible isec then
                 v ← store_index (snd s) (fst s) (Some p);
                 Some (fst s + 1, v)
               else Some s)
            (idx, sections) (file_sections f);
  Some (snd r).

Definition set_index (sections : list (option nat)) (i : Z) (st : list InputSection)
  : option (list InputSection) :=
  q ← at_index sections i;
  p ← q;
  isec ← st !! p;
  Some (<[p := set_icf_idx i isec]> st).

Definition gather_sections (L : Linker) : option (Linker * list nat) :=
  num_sections ← mapM (count_eligible L) (objs L);
  section_indices ←
    prefix_sums id num_sections (replicate (length (objs L)) 0) (length (objs L));
  last_index ← back section_indices;
  last_num ← back num_sections;
  sections ← for_loop (length (objs L)) 0 (fill_sections L section_indices)
                (replicate (Z.to_nat (last_index + last_num)) None);
  st ← for_loop (length sections) 0 (set_index sections) (secs L);
  ptrs ← mapM id sections;
  Some (mkLinker st (syms L) (objs L), ptrs).

(** ** The edge builder *)

(** The body shared by the two loops over [isec.rels] of [gather_edges]:
    the sections that the relocations counted as edges resolve to. *)
Definition edge_target (L : Linker) (isec : InputSection) (j : Z) (acc : list nat)
  : option (list nat) :=
  has ← at_index (has_fragments isec) j;
  if has : bool then Some acc
  else
    rel ← at_index (rels isec) j;
    sym ← rel_symbol L isec rel;
    match sym_frag sym, input_section sym with
    | None, Some p =>
        tsec ← secs L !! p;
        if icf_eligible tsec then Some (acc ++ [p]) else Some acc
    | _, _ => Some acc
    end.

Definition edge_targets (L : Linker) (isec : InputSection) : option (list nat) :=
  for_loop (length (rels isec)) 0 (edge_target L isec) [].

Definition count_edges (L : Linker) (p : nat) : option Z :=
  isec ← secs L !! p;
  if icf_eligible isec then
    ts ← edge_targets L isec;
    Some (Z.of_nat (length ts))
  else None.

Definition fill_edges (L : Linker) (sections : list nat) (edge_indices : list Z) (i : Z)
  (edges : list Z) : option (list Z) :=
  p ← at_index sections i;
  isec ← secs L !! p;
  idx ← at_index edge_indices i;
  ts ← edge_targets L isec;
  r ← foldM (fun (s : Z * list Z) t =>
               tsec ← secs L !! t;
               v ← store_index (snd s) (fst s) (to_u32 (icf_idx tsec));
               Some (fst s + 1, v))
            (idx, edges) ts;
  Some (snd r).

(** Returns [(edges, edge_indices)]; both vectors are empty on entry. *)
Definition gather_edges (L : Linker) (sections : list nat) : option (list Z * list Z) :=
  num_edges ← mapM (count_edges L) sections;
  edge_indices ←
    prefix_sums to_u32 num_edges (replicate (length sections) 0) (length num_edges);
  last_index ← back edge_indices;
  last_num ← back num_edges;
  edges ← for_loop (length num_edges) 0 (fill_edges L sections edge_indices)
             (replicate (Z.to_nat (last_index + last_num)) 0);
  Some (edges, edge_indices).

(** ** The propagation rounds *)

Record rounds_result := mkRounds {
  rounds_run : Z;
  final_slot : Z;
  final_digests : list (list Digest)
}.

Section Rounds.

Variable SHA256 : bytes -> bytes.

(** [for (i64 i = 0;; i++)] of [icf_sections], from round [i] on. The
    loop has no bound of its own: [fuel] rounds are run at most, and
    [None] is also the answer when they do not suffice. *)
Fixpoint rounds (fuel : nat) (edges edge_indices : list Z) (i slot num_classes : Z)
  (digests : list (list Digest)) : option rounds_result :=
  match fuel with
  | O => None
  | S fuel' =>
      match propagate SHA256 digests edges edge_indices slot with
      | None => None
      | Some digests' =>
          let slot' := Z.lxor slot 1 in
          if i mod 10 =? 9 then
            match at_index digests' slot' with
            | None => None
            | Some cur =>
                let n := count_num_classes cur in
                if n =? num_classes then Some (mkRounds (i + 1) slot' digests')
                else rounds fuel' edges edge_indices (i + 1) slot' n digests'
            end
          else rounds fuel' edges edge_indices (i + 1) slot' num_classes digests'
      end
  end.

End Rounds.

(** ** The class committer *)

Record sort_key := mkKey {
  key_digest : Digest;
  key_priority : Z;
  key_section : nat
}.

(** The comparator of the [parallel_sort] over [sections], on the values
    it reads: [digest[a->icf_idx]] and [a->get_priority()]. *)
Definition key_ltb (a b : sort_key) : bool :=
  if negb (bytes_eqb (key_digest a) (key_digest b))
  then digest_ltb (key_digest a) (key_digest b)
  else key_priority a <? key_priority b.

Definition key_le (a b : sort_key) : Prop := key_ltb b a = false.

#[export] Instance key_le_dec : RelDecision key_le.
Proof. intros a b. unfold key_le. apply _. Defined.

Definition section_key (st : list InputSection) (digest : list Digest) (p : nat)
  : option sort_key :=
  isec ← st !! p;
  d ← at_index digest (icf_idx isec);
  Some (mkKey d (get_priority isec) p).

Definition sort_sections (st : list InputSection) (digest : list Digest) (sections : list nat)
  : option (list sort_key) :=
  keys ← mapM (section_key st digest) sections;
  Some (merge_sort key_le keys).

(** [while (j < sections.size() && digest[...i...] == digest[...j...])
      sections[j++]->leader = sections[i];] over the elements after [i]. *)
Fixpoint set_run_leader (st : list InputSection) (lead : sort_key) (rest : list sort_key)
  : option (list InputSection) :=
  match rest with
  | [] => Some st
  | k :: rest' =>
      if bytes_eqb (key_digest lead) (key_digest k) then
        match st !! key_section k with
        | Some isec =>
            set_run_leader (<[key_section k := set_leader (Some (key_section lead)) isec]> st)
              lead rest'
        | None => None
        end
      else Some st
  end.

(** The body of the [parallel_for] that elects the leaders. *)
Definition elect_at (sorted : list sort_key) (i : Z) (st : list InputSection)
  : option (list InputSection) :=
  cur ← at_index sorted i;
  boundary ←
    (if i =? 0 then Some true
     else prev ← at_index sorted (i - 1);
          Some (negb (bytes_eqb (key_digest prev) (key_digest cur))));
  if boundary : bool then
    isec ← st !! key_section cur;
    set_run_leader (<[key_section cur := set_leader (Some (key_section cur)) isec]> st)
      cur (drop (Z.to_nat (i + 1)) sorted)
  else Some st.

(** [tbb::parallel_for((i64)0, (i64)sections.size() - 1, ...)] *)
Definition elect_leaders (sorted : list sort_key) (st : list InputSection)
  : option (list InputSection) :=
  for_loop (Z.to_nat (Z.of_nat (length sorted) - 1)) 0 (elect_at sorted) st.

(** ** Re-assigning input sections to symbols *)

Definition set_input_section (p : option nat) (s : Symbol) : Symbol :=
  mkSymbol (sym_frag s) p (sym_value s).

Definition redirect (s : list InputSection * list Symbol) (sp : nat)
  : option (list InputSection * list Symbol) :=
  sym ← snd s !! sp;
  match input_section sym with
  | None => Some s
  | Some p =>
      isec ← fst s !! p;
      match leader isec with
      | Some l =>
          if negb (Nat.eqb l p) then
            Some (<[p := kill isec]> (fst s), <[sp := set_input_section (Some l) sym]> (snd s))
          else Some s
      | None => Some s
      end
  end.

Definition all_symbols (L : Linker) : list nat := concat (map symbols (objs L)).

Definition commit (L : Linker) : option Linker :=
  s ← foldM redirect (secs L, syms L) (all_symbols L);
  Some (mkLinker (fst s) (snd s) (objs L)).

(** ** The pass *)

Section Pass.

Variable std_hash : bytes -> Z.
Variable SHA256 : bytes -> bytes.

Definition icf_sections (fuel : nat) (L : Linker) : option Linker :=
  L1 ← leaf_pass std_hash L;
  g ← gather_sections L1;
  let L2 := fst g in
  let sections := snd g in
  d0 ← compute_digests SHA256 L2 sections;
  let digests := [d0; replicate (length d0) (replicate HASH_SIZE 0)] in
  e ← gather_edges L2 sections;
  r ← rounds SHA256 fuel (fst e) (snd e) 0 0 (-1) digests;
  digest ← at_index (final_digests r) (final_slot r);
  sorted ← sort_sections (secs L2) digest sections;
  st ← elect_leaders sorted (secs L2);
  commit (mkLinker st (syms L2) (objs L2)).

End Pass.

(** ** Leaf equality as the specification words it *)

(** Two FDE records of equal length and with equal bytes after the first
    eight. *)
Definition fde_equal (fa fb : FdeRecord) : Prop :=
  length (fde_contents fa) = length (fde_contents fb) /\
  drop 8 (fde_contents fa) = drop 8 (fde_contents fb).

(** Byte-equal contents, as many FDEs, and equal FDEs pairwise. *)
Definition leaf_equal (a b : InputSection) : Prop :=
  get_contents a = get_contents b /\
  length (fdes a) = length (fdes b) /\
  Forall2 fde_equal (fdes a) (fdes b).

(** Every FDE record holds its eight leading bytes. *)
Definition fde_tail_ok (s : InputSection) : Prop :=
  Forall (fun f => (8 <= length (fde_contents f))%nat) (fdes s).

(** What the first loop of [icf_sections] makes of a section. *)
Definition mark (s : InputSection) : InputSection :=
  if is_eligible s then
    if is_leaf s then set_icf_leaf true s else set_icf_eligible true s
  else s.

(** The fields of a section that the pass does not write. *)
Definition static (s : InputSection) : InputSection :=
  mkInputSection (sh_flags s) (sh_type s) (name s) (contents s) (rels s) (has_fragments s)
    (rel_fragments s) (fdes s) (file s) (priority s) None false false 0 false.

(** The sections of the object files are in the store, untouched by a
    former pass, and the FDEs of those the leaf deduper hashes hold their
    eight leading bytes. *)
Definition leaf_input_ok (L : Linker) : Prop :=
  forall p, p ∈ all_sections L ->
    exists s, secs L !! p = Some s /\
      icf_leaf s = false /\ icf_eligible s = false /\
      (is_eligible s = true -> is_leaf s = true -> fde_tail_ok s).

(** An eligible leaf section of the object files. *)
Definition leaf_member (L : Linker) (p : nat) (s : InputSection) : Prop :=
  p ∈ all_sections L /\ secs L !! p = Some s /\ is_eligible s = true /\ is_leaf s = true.

(** *** What holds between the two loops of the leaf pass *)

(** A store with the sections of [L], up to the fields the pass writes. *)
Definition similar (L : Linker) (st : list InputSection) : Prop :=
  forall p s0, secs L !! p = Some s0 -> exists s, st !! p = Some s /\ static s = static s0.

(** The table after the sections [done] have been inserted: keys and
    values are eligible leaves among [done], a value is equal to its key;
    every eligible leaf of [done] has an entry with an equal key; no two
    keys are equal; a value has the least priority among the sections of
    [done] equal to its key. *)
Record map_ok (L : Linker) (m : leaf_map) (done : list nat) : Prop := mkMapOk {
  map_entries : forall j k v, m !! j = Some (k, v) ->
    exists sk sv, leaf_member L k sk /\ leaf_member L v sv /\
      k ∈ done /\ v ∈ done /\ leaf_equal sk sv;
  map_covers : forall q sq, q ∈ done -> leaf_member L q sq ->
    exists j k v sk, m !! j = Some (k, v) /\ secs L !! k = Some sk /\ leaf_equal sk sq;
  map_keys : forall j j' k v k' v' sk sk',
    m !! j = Some (k, v) -> m !! j' = Some (k', v') ->
    secs L !! k = Some sk -> secs L !! k' = Some sk' -> leaf_equal sk sk' -> j = j';
  map_least : forall j k v sk sv q sq,
    m !! j = Some (k, v) -> secs L !! k = Some sk -> secs L !! v = Some sv ->
    q ∈ done -> leaf_member L q sq -> leaf_equal sk sq ->
    get_priority sv <= get_priority sq
}.

(** The same without the clause on the priorities: what the table is
    certain of in whatever order the threads take their steps. *)
Record table_ok (L : Linker) (m : leaf_map) (done : list nat) : Prop := mkTableOk {
  table_entries : forall j k v, m !! j = Some (k, v) ->
    exists sk sv, leaf_member L k sk /\ leaf_member L v sv /\
      k ∈ done /\ v ∈ done /\ leaf_equal sk sv;
  table_covers : forall q sq, q ∈ done -> leaf_member L q sq ->
    exists j k v sk, m !! j = Some (k, v) /\ secs L !! k = Some sk /\ leaf_equal sk sq;
  table_keys : forall j j' k v k' v' sk sk',
    m !! j = Some (k, v) -> m !! j' = Some (k', v') ->
    secs L !! k = Some sk -> secs L !! k' = Some sk' -> leaf_equal sk sk' -> j = j'
}.

(** The state of the first loop after the sections [done]. *)
Definition pass1_inv (L : Linker) (st : list InputSection) (m : leaf_map) (done : list nat)
  : Prop :=
  (forall p, st !! p = if decide (p ∈ done) then mark <$> secs L !! p else secs L !! p) /\
  map_ok L m done.

(** [v] is the value of the entry whose key is equal to section [p]. *)
Definition rep (L : Linker) (m : leaf_map) (p v : nat) : Prop :=
  exists j k sk s0, m !! j = Some (k, v) /\ secs L !! k = Some sk /\
    secs L !! p = Some s0 /\ leaf_equal sk s0.

(** The state of the second loop after the sections [done], [st1] being
    the store the first loop left. *)
Definition pass2_inv (L : Linker) (st1 : list InputSection) (m : leaf_map)
  (st2 : list InputSection) (done : list nat) : Prop :=
  forall q s1, st1 !! q = Some s1 ->
    (st2 !! q = Some s1 /\ (q ∈ done -> icf_leaf s1 = false)) \/
    (exists v, rep L m q v /\ icf_leaf s1 = true /\ st2 !! q = Some (set_leader (Some v) s1)).

(** *** What holds while the threads of the first loop run *)

(** A traversal has sections of the files to visit; between the
    insertion of a section and the end of its body, the section is an
    eligible leaf, marked, and the entry found for it has a key equal to
    it. *)
Definition thread_ok (L : Linker) (m : leaf_map) (done : list nat) (w : leaf_thread) : Prop :=
  (forall p, p ∈ to_visit w -> p ∈ all_sections L) /\
  match at_pc w with
  | AtInsert => True
  | AtCompare p j | AtStore p j =>
      p ∈ done /\
      exists s0 k v sk, leaf_member L p s0 /\ m !! j = Some (k, v) /\
        secs L !! k = Some sk /\ leaf_equal sk s0
  end.

(** The state of the first loop under a schedule: the sections [done]
    are marked, the others as they were; the table holds the eligible
    leaves among [done]; and a section of the files is in [done] or still
    to visit. *)
Definition leaf_inv (L : Linker) (s : leaf_state) : Prop :=
  exists done : list nat,
    (forall p, ls_secs s !! p
               = if decide (p ∈ done) then mark <$> secs L !! p else secs L !! p) /\
    table_ok L (ls_map s) done /\
    (forall p, p ∈ done -> p ∈ all_sections L) /\
    (forall t w, ls_threads s !! t = Some w -> thread_ok L (ls_map s) done w) /\
    (forall q, q ∈ all_sections L ->
       q ∈ done \/ exists t w, ls_threads s !! t = Some w /\ q ∈ to_visit w).

(** The steps a traversal has still to take, at most: three a section to
    visit, and those of the body it is in. *)
Definition steps_left (w : leaf_thread) : nat :=
  (3 * length (to_visit w) +
   match at_pc w with
   | AtInsert => 0
   | AtCompare _ _ => 2
   | AtStore _ _ => 1
   end)%nat.

(** A schedule that gives every file three steps a section. *)
Definition enough_steps (schedule : list nat) (L : Linker) : Prop :=
  forall (t : nat) (f : ObjectFile),
    objs L !! t = Some f ->
    (3 * length (file_sections f) <= count_occ Nat.eq_dec schedule t)%nat.

(** An entry of the vector [gather_sections] fills: null, or a section
    marked [icf_eligible]. *)
Definition participant_entry (L : Linker) (o : option nat) : Prop :=
  forall q, o = Some q -> exists s, secs L !! q = Some s /\ icf_eligible s = true.

(** ** The initial digest as the specification words it *)

(** A discriminator tag, its payload and the symbol's value. *)
Definition tagged (tag : Z) (payload : bytes) (value : Z) : bytes :=
  le64 tag ++ payload ++ le64 value.

(** Length-prefixed bytes. *)
Definition prefixed (str : bytes) : bytes := le64 (Z.of_nat (length str)) ++ str.

(** The number of fragment relocations before relocation [i]: the
    position in [rel_fragments] of the fragment of relocation [i]. *)
Definition fragment_index (isec : InputSection) (i : nat) : Z :=
  Z.of_nat (length (List.filter id (take i (has_fragments isec)))).

(** What relocation [i] of [isec] contributes: [(r_offset, r_type,
    r_addend)], then tag 1, the addend and the fragment bytes for a
    fragment relocation, and the fingerprint of the symbol otherwise. *)
Definition reloc_absorbed (L : Linker) (isec : InputSection) (i : nat) : option bytes :=
  rel ← rels isec !! i;
  has ← has_fragments isec !! i;
  tail ←
    (if has : bool then
       ref ← at_index (rel_fragments isec) (fragment_index isec i);
       Some (le64 1 ++ le64 (ref_addend ref) ++ prefixed (frag_data (ref_frag ref)))
     else
       sym ← rel_symbol L isec rel;
       hash_symbol L [] sym);
  Some (le64 (r_offset rel) ++ le64 (r_type rel) ++ le64 (r_addend rel) ++ tail).

(** What the context holds before the relocations are absorbed. *)
Definition fde_prefix (L : Linker) (isec : InputSection) : option bytes :=
  foldM (hash_fde L)
    (prefixed (get_contents isec) ++ le64 (sh_flags isec)
     ++ le64 (Z.of_nat (length (fdes isec))) ++ le64 (Z.of_nat (length (rels isec))))
    (fdes isec).

(** ** The propagation round as the specification words it *)

(** The two digest vectors, [cur] in slot [slot] and [nxt] in the other. *)
Definition buffers (slot : Z) (cur nxt : list Digest) : list (list Digest) :=
  if slot =? 0 then [cur; nxt] else [nxt; cur].

(** The out-neighbors of section [i] among [n] sections: [edges[j]] for
    [j] in [[edge_indices[i], edge_indices[i + 1])], the end being
    [edges.size()] for the last section. *)
Definition out_neighbors (edges edge_indices : list Z) (n i : nat) : list Z :=
  let begin := default 0 (edge_indices !! i) in
  let end_ := if Nat.eqb (S i) n then Z.of_nat (length edges)
              else default 0 (edge_indices !! S i) in
  take (Z.to_nat (end_ - begin)) (drop (Z.to_nat begin) edges).

(** The [HASH_SIZE] bytes of the current digest of section [e]. *)
Definition digest_block (cur : list Digest) (e : Z) : bytes :=
  take HASH_SIZE (default [] (cur !! Z.to_nat e)).

(** The current digest of [i] followed by the current digests of its
    out-neighbors, in the order of [edges]. *)
(** The current digests of the out-neighbors of [i], in the order of
    [edges], which is the order of the relocations. *)
Definition neighbor_digests (cur : list Digest) (edges edge_indices : list Z) (i : nat)
  : list Digest :=
  map (digest_block cur) (out_neighbors edges edge_indices (length cur) i).

(** The current digest of [i] followed by the current digests of its
    out-neighbors. *)
Definition round_input (cur : list Digest) (edges edge_indices : list Z) (i : nat) : bytes :=
  digest_block cur (Z.of_nat i) ++ concat (neighbor_digests cur edges edge_indices i).

Definition next_digests (SHA256 : bytes -> bytes) (cur : list Digest)
  (edges edge_indices : list Z) : list Digest :=
  map (fun i => digest_final SHA256 (round_input cur edges edge_indices i))
      (seq 0 (length cur)).

(** Edge arrays that index within bounds. *)
Definition graph_ok (n : nat) (edges edge_indices : list Z) : Prop :=
  length edge_indices = n /\
  Forall (fun b => 0 <= b <= Z.of_nat (length edges)) edge_indices /\
  Forall (fun e => 0 <= e < Z.of_nat n) edges.

(** The hash tells apart the inputs absorbed in one round. *)
Definition injective_on (SHA256 : bytes -> bytes) (inputs : list bytes) : Prop :=
  forall x y, x ∈ inputs -> y ∈ inputs ->
    digest_final SHA256 x = digest_final SHA256 y -> x = y.

Definition round_inputs (cur : list Digest) (edges edge_indices : list Z) : list bytes :=
  map (round_input cur edges edge_indices) (seq 0 (length cur)).

(** A check of [injective_on] that can be run. *)
Definition injective_onb (SHA256 : bytes -> bytes) (inputs : list bytes) : bool :=
  forallb (fun x =>
    forallb (fun y =>
      implb (bytes_eqb (digest_final SHA256 x) (digest_final SHA256 y)) (bytes_eqb x y))
      inputs) inputs.

(** The reading of "two sections that differ only in the order of their
    relocations receive different digests" on one round: two sections
    with the same current digest whose out-neighbors are the same up to
    their order, and not in the same order, get different next digests. *)
Definition reordering_is_told_apart (SHA256 : bytes -> bytes) : Prop :=
  forall (cur nxt nxt' : list Digest) (edges edge_indices : list Z) (slot : Z) (i k : nat),
    slot = 0 \/ slot = 1 -> length nxt = length cur ->
    graph_ok (length cur) edges edge_indices ->
    (i < length cur)%nat -> (k < length cur)%nat ->
    cur !! i = cur !! k ->
    out_neighbors edges edge_indices (length cur) i
      ≡ₚ out_neighbors edges edge_indices (length cur) k ->
    out_neighbors edges edge_indices (length cur) i
      <> out_neighbors edges edge_indices (length cur) k ->
    propagate SHA256 (buffers slot cur nxt) edges edge_indices slot
      = Some (buffers slot cur nxt') ->
    nxt' !! i <> nxt' !! k.

(** ** The state before the symbols are re-assigned *)

(** Every leader is its own leader. *)
Definition self_led (st : list InputSection) : Prop :=
  forall p s l, st !! p = Some s -> leader s = Some l ->
    exists sl, st !! l = Some sl /\ leader sl = Some l.

(** The symbol pointers of the files and the section pointers of the
    symbols point into the stores. *)
Definition symbols_ok (L : Linker) : Prop :=
  (forall sp, sp ∈ all_symbols L -> is_Some (syms L !! sp)) /\
  (forall sp y p, syms L !! sp = Some y -> input_section y = Some p -> is_Some (secs L !! p)).

(** The section a symbol that refers to [e] is to refer to after the
    commit: the leader of [e] when [e] has one that is another section. *)
Definition folded_to (st : list InputSection) (e : option nat) : option nat :=
  match e with
  | Some p =>
      match st !! p with
      | Some s =>
          match leader s with
          | Some l => if Nat.eqb l p then Some p else Some l
          | None => Some p
          end
      | None => Some p
      end
  | None => None
  end.

(** What holds of the stores while the symbols are walked, [done] being
    the symbol pointers visited so far and [st0], [sy0] the stores at the
    start: a section is as it was or has been killed; a symbol not yet
    visited is as it was; a visited symbol refers to [folded_to] of its
    former section, which is dead if it was folded. *)
Definition commit_inv (st0 : list InputSection) (sy0 : list Symbol)
  (st : list InputSection) (sy : list Symbol) (done : list nat) : Prop :=
  (forall p s0, st0 !! p = Some s0 -> st !! p = Some s0 \/ st !! p = Some (kill s0)) /\
  (forall sp y0, sy0 !! sp = Some y0 ->
     exists y, sy !! sp = Some y /\
       sym_frag y = sym_frag y0 /\ sym_value y = sym_value y0 /\
       (sp ∉ done -> input_section y = input_section y0) /\
       (sp ∈ done ->
          input_section y = folded_to st0 (input_section y0) /\
          forall p s l, input_section y0 = Some p -> st0 !! p = Some s ->
            leader s = Some l -> l <> p -> is_dead <$> st !! p = Some true)).


(** What the walk over the symbols keeps, [all] being the symbols it is
    to visit: the leaders; of every symbol, that it is as it was or
    refers to a section that leads itself; and every section that no
    symbol to visit referred to. *)
Definition spared (st0 : list InputSection) (sy0 : list Symbol) (all : list nat)
  (s : list InputSection * list Symbol) : Prop :=
  (forall q, leader <$> s.1 !! q = leader <$> st0 !! q) /\
  (forall sp y, s.2 !! sp = Some y ->
     sy0 !! sp = Some y \/
     exists l sl, input_section y = Some l /\ st0 !! l = Some sl /\ leader sl = Some l) /\
  (forall p s0, st0 !! p = Some s0 ->
     (forall sp y, sp ∈ all -> sy0 !! sp = Some y -> input_section y <> Some p) ->
     s.1 !! p = Some s0).

(** No symbol of the files refers to section [p]. *)
Definition unreferenced (L : Linker) (p : nat) : Prop :=
  forall (sp : nat) (y : Symbol),
    sp ∈ all_symbols L -> syms L !! sp = Some y -> input_section y <> Some p.

(** ** main.cc: binning input sections into output sections *)

Module Layout.

(** The fields of chibild.h's [InputSection] and [OutputSection] that
    the binning loop of [main] reads and writes; an [OutputSection *] is
    an index into the store of output sections. *)
Record InputSection := mkInputSection {
  output_section : nat
}.

Record OutputSection := mkOutputSection {
  sections : list nat
}.

(** The store of output sections and the vector [output_sections]. *)
Record State := mkState {
  osecs : list OutputSection;
  output_sections : list nat
}.

(** The body of the loop for a non-null [isec]:
    [if (osec->sections.empty()) output_sections.push_back(osec);
     osec->sections.push_back(isec);] *)
Definition bin (isecs : list InputSection) (s : State) (p : nat) : option State :=
  isec ← isecs !! p;
  let o := output_section isec in
  osec ← osecs s !! o;
  let outs := match sections osec with
              | [] => output_sections s ++ [o]
              | _ :: _ => output_sections s
              end in
  Some (mkState (<[o := mkOutputSection (sections osec ++ [p])]> (osecs s)) outs).

(** [for (ObjectFile *file : files)
      for (InputSection *isec : file->sections) { if (!isec) continue; ... }],
    the files being given by their [sections] vectors. *)
Definition bin_sections (isecs : list InputSection) (files : list (list (option nat)))
  (s : State) : option State :=
  foldM (bin isecs) s (concat (map (omap id) files)).

End Layout.

(** ** The output sections as a grouping *)

(** The sections among [ps] that go to output section [o], in order. *)
Definition binned (isecs : list Layout.InputSection) (o : nat) (ps : list nat) : list nat :=
  List.filter (fun p => match isecs !! p with
                        | Some isec => Nat.eqb (Layout.output_section isec) o
                        | None => false
                        end) ps.

(** The state of the binning loop after the sections [done], from [n]
    output sections that were all empty. *)
Definition bin_inv (isecs : list Layout.InputSection) (n : nat) (done : list nat)
  (s : Layout.State) : Prop :=
  length (Layout.osecs s) = n /\
  (forall o, (o < n)%nat ->
     Layout.osecs s !! o = Some (Layout.mkOutputSection (binned isecs o done))) /\
  NoDup (Layout.output_sections s) /\
  (forall o, o ∈ Layout.output_sections s <-> (o < n)%nat /\ binned isecs o done <> []).

(** ** The enumerations as the vectors they build *)

(** The sum of the first [i] elements. *)
Definition sum_to (num : list Z) (i : nat) : Z := foldr Z.add 0 (take i num).

(** The vector of the prefix sums after [m] iterations of the loop. *)
Definition sums_upto (num : list Z) (m k : nat) : list Z :=
  map (sum_to num) (seq 0 (S m)) ++ replicate (k - S m) 0.

(** Whether [p] is a section marked [icf_eligible]. *)
Definition eligible_in (L : Linker) (p : nat) : bool :=
  match secs L !! p with
  | Some s => icf_eligible s
  | None => false
  end.

Definition file_participants (L : Linker) (f : ObjectFile) : list nat :=
  List.filter (eligible_in L) (file_sections f).

(** The sections marked [icf_eligible], in the order of the files and
    of their sections. *)
Definition participants (L : Linker) : list nat := List.filter (eligible_in L) (all_sections L).

(** The participant that relocation [j] of [s] refers to, if the
    relocation is counted as an edge. *)
Definition reloc_target (L : Linker) (s : InputSection) (j : nat) : option nat :=
  match has_fragments s !! j, rels s !! j with
  | Some false, Some rel =>
      match rel_symbol L s rel with
      | Some sym =>
          match sym_frag sym, input_section sym with
          | None, Some p => if eligible_in L p then Some p else None
          | _, _ => None
          end
      | None => None
      end
  | _, _ => None
  end.

(** The participants that the relocations of section [p] refer to, in
    the order of the relocations. *)
Definition section_targets (L : Linker) (p : nat) : list nat :=
  match secs L !! p with
  | Some s => omap (reloc_target L s) (seq 0 (length (rels s)))
  | None => []
  end.

(** Every relocation has its fragment flag, and one that is not a
    fragment relocation has its symbol, whose section is in the store. *)
Definition rels_resolve (L : Linker) (s : InputSection) : Prop :=
  forall j rel, rels s !! j = Some rel ->
    exists has, has_fragments s !! j = Some has /\
      (has = false ->
       exists sym, rel_symbol L s rel = Some sym /\
         forall p, sym_frag sym = None -> input_section sym = Some p -> is_Some (secs L !! p)).

Definition icf_idx_in (L : Linker) (t : nat) : Z := default 0 (icf_idx <$> secs L !! t).

(** Input on which the enumeration of the sections and of the edges is
    defined and stays within the range of [u32]: the sections of the
    files are in the store, each in one file; there is a participant;
    the relocations of the participants resolve, to sections of the
    files. *)
Record graph_input_ok (L : Linker) : Prop := mkGraphInputOk {
  gi_files : objs L <> [] /\ Z.of_nat (length (objs L)) < 2 ^ 64;
  gi_sections : forall p, p ∈ all_sections L -> is_Some (secs L !! p);
  gi_nodup : NoDup (all_sections L);
  gi_participants : participants L <> [] /\ Z.of_nat (length (participants L)) < 2 ^ 32;
  gi_rels : forall p s, p ∈ participants L -> secs L !! p = Some s -> rels_resolve L s;
  gi_targets : forall p t, p ∈ participants L -> t ∈ section_targets L p -> t ∈ all_sections L;
  gi_edges : Z.of_nat (length (concat (map (section_targets L) (participants L)))) < 2 ^ 32
}.

(** ** The rounds as iterates *)

(** The digests after [k] rounds. *)
Definition round_digests (SHA256 : bytes -> bytes) (edges edge_indices : list Z)
  (d0 : list Digest) (k : nat) : list Digest :=
  Nat.iter k (fun cur => next_digests SHA256 cur edges edge_indices) d0.

(** The digest vectors that the first [k] rounds read, the initial one
    first. *)
Fixpoint round_history (SHA256 : bytes -> bytes) (edges edge_indices : list Z)
  (d0 : list Digest) (k : nat) : list (list Digest) :=
  match k with
  | O => []
  | S k' => d0 :: round_history SHA256 edges edge_indices
                    (next_digests SHA256 d0 edges edge_indices) k'
  end.

(** ** The runs of the sorted vector *)

(** The position at which the run of equal digests that holds position
    [j] starts. *)
Fixpoint run_start (ks : list sort_key) (j : nat) : nat :=
  match j with
  | O => O
  | S j' =>
      match ks !! j', ks !! j with
      | Some a, Some b =>
          if bytes_eqb (key_digest a) (key_digest b) then run_start ks j' else j
      | _, _ => j
      end
  end.

(** Whether the element [j] of [rest] is in the run that [lead] starts:
    the elements up to it all have the digest of [lead]. *)
Definition in_run (lead : sort_key) (rest : list sort_key) (j : nat) : bool :=
  forallb (fun k => bytes_eqb (key_digest lead) (key_digest k)) (take (S j) rest).

Definition section_at (ks : list sort_key) (i : nat) : nat :=
  default O (key_section <$> ks !! i).

(** The store after the iterations below [m] of the election over [ks],
    from the store [st0]: the sections whose run starts below [m] have
    the first section of their run as leader, the others are as they
    were. *)
Definition elected (ks : list sort_key) (st0 : list InputSection) (m : nat)
  (st : list InputSection) : Prop :=
  (forall j k, ks !! j = Some k ->
     st !! key_section k
     = if bool_decide (run_start ks j < m)%nat
       then set_leader (Some (section_at ks (run_start ks j))) <$> st0 !! key_section k
       else st0 !! key_section k) /\
  (forall p, p ∉ key_section <$> ks -> st !! p = st0 !! p).

(** ** What the pass leaves alone *)

(** A store with the sections of [st] up to the fields the pass writes,
    none of them brought back to life. *)
Definition same_code (st st' : list InputSection) : Prop :=
  length st' = length st /\
  forall p s, st !! p = Some s ->
    exists s', st' !! p = Some s' /\ static s' = static s /\
               (is_dead s = true -> is_dead s' = true).

(** A symbol store with the symbols of [sy] up to the sections they
    refer to. *)
Definition same_values (sy sy' : list Symbol) : Prop :=
  length sy' = length sy /\
  forall sp y, sy !! sp = Some y ->
    exists y', sy' !! sp = Some y' /\ sym_frag y' = sym_frag y /\ sym_value y' = sym_value y.

(** The value that eight little-endian bytes stand for. *)
Definition decode_le (bs : bytes) : Z := foldr (fun b acc => b + 256 * acc) 0 bs.


(** ** Input on which the pass is defined *)

(** The leader pointers of the store point into the store. *)
Definition leaders_valid (st : list InputSection) : Prop :=
  forall p s l, st !! p = Some s -> leader s = Some l -> is_Some (st !! l).

(** What [compute_digest] needs of a section to be defined: FDE records
    of eight bytes at least, each with a relocation, whose further
    relocations have their symbols; for every relocation its fragment
    flag, and the fragment or the symbol it refers to. *)
Definition digest_ok (L : Linker) (s : InputSection) : Prop :=
  Forall (fun fde =>
            (8 <= length (fde_contents fde))%nat /\ fde_rels fde <> [] /\
            Forall (fun r => is_Some (syms L !! eh_sym r)) (tail (fde_rels fde)))
         (fdes s) /\
  forall j rel, rels s !! j = Some rel ->
    exists has, has_fragments s !! j = Some has /\
      if has : bool then is_Some (at_index (rel_fragments s) (fragment_index s j))
      else is_Some (rel_symbol L s rel).

(** The sections that take part in the propagation: the eligible
    sections of the files that are not leaves. *)
Definition propagation_set (L : Linker) : list nat :=
  List.filter (fun p => match secs L !! p with
                        | Some s => is_eligible s && negb (is_leaf s)
                        | None => false
                        end) (all_sections L).

Definition relocations_of (L : Linker) (p : nat) : list ElfRela :=
  match secs L !! p with
  | Some s => rels s
  | None => []
  end.

(** Input on which the pass is defined: the store holds the sections of
    the files, each in one file and none with a leader or a mark of a
    former pass; the FDE records of the eligible leaves hold their eight
    leading bytes; the symbols of the files and their sections are in
    the stores; there is a section to propagate, fewer than [2^32] of
    them and of their relocations, and the digest of each is defined. *)
Record icf_input_ok (L : Linker) : Prop := mkIcfInputOk {
  io_leaf : leaf_input_ok L;
  io_store : forall p s, secs L !! p = Some s -> p ∈ all_sections L /\ leader s = None;
  io_files : objs L <> [] /\ Z.of_nat (length (objs L)) < 2 ^ 64;
  io_nodup : NoDup (all_sections L);
  io_symbols : symbols_ok L;
  io_set : propagation_set L <> [] /\ Z.of_nat (length (propagation_set L)) < 2 ^ 32;
  io_digest : forall p s, p ∈ propagation_set L -> secs L !! p = Some s -> digest_ok L s;
  io_relocs :
    Z.of_nat (length (concat (map (relocations_of L) (propagation_set L)))) < 2 ^ 32
}.

(** The initial digests and the edge arrays that the pass hands to the
    rounds. *)
Definition prepared (std_hash : bytes -> Z) (SHA256 : bytes -> bytes) (L : Linker)
  : option (list Digest * list Z * list Z) :=
  L1 ← leaf_pass std_hash L;
  g ← gather_sections L1;
  d0 ← compute_digests SHA256 (fst g) (snd g);
  e ← gather_edges (fst g) (snd g);
  Some (d0, fst e, snd e).

(** The byte strings that [compute_digests] hashes, one per section to
    propagate. *)
Definition initial_inputs (std_hash : bytes -> Z) (L : Linker) : option (list bytes) :=
  L1 ← leaf_pass std_hash L;
  g ← gather_sections L1;
  mapM (fun p => isec ← secs (fst g) !! p; digest_input (fst g) isec) (snd g).

(** ** Proof steps used more than once *)

(** The cases of the comparison of two bytes. *)
Ltac heads x y :=
  destruct (Z.ltb_spec x y), (Z.ltb_spec y x), (Z.eqb_spec x y), (Z.eqb_spec y x);
  cbn [orb andb]; try lia; try discriminate; subst; auto.

(** The cases of the membership in a list that is written out. *)
Ltac members H :=
  repeat (apply elem_of_cons in H as [-> | H]); [.. | by apply elem_of_nil in H].

(** ** Sample inputs *)

(** Stand-ins for the two library hashes, used where a property is run
    on a concrete input. *)
Definition sample_hash (m : bytes) : Z :=
  fold_left (fun a b => (a * 257 + b + 1) mod 2 ^ 64) m 7.

Definition sample_SHA256 (m : bytes) : bytes :=
  let h := fold_left (fun a b => (a * 257 + b + 1) mod 2 ^ 256) m 7 in
  map (fun k : nat => Z.land (Z.shiftr h (8 * Z.of_nat k)) 255) (seq 0 32).

(** An allocatable, executable, read-only PROGBITS section of file 0
    with no fragment relocation and no FDE. *)
Definition text_section (nm : string) (body : bytes) (rl : list ElfRela) (prio : Z)
  : InputSection :=
  mkInputSection (Z.lor SHF_ALLOC SHF_EXECINSTR) 1 nm body rl (map (fun _ => false) rl)
    [] [] 0 prio None false false 0 false.

(** One section with a relocation against a symbol of a leaf section:
    the propagation set has a single member. *)
Definition one_participant : Linker :=
  mkLinker
    [text_section ".text.f" [1; 2] [mkRela 0 1 0 0] 0; text_section ".text.g" [9] [] 1]
    [mkSymbol None (Some 1%nat) 0; mkSymbol None (Some 0%nat) 0]
    [mkObjectFile [Some 0%nat; Some 1%nat] [0%nat; 1%nat]].

(** Two participants with different contents, so with different digests. *)
Definition two_classes : Linker :=
  mkLinker
    [text_section ".text.f" [1; 2] [mkRela 0 1 0 0] 0;
     text_section ".text.h" [1; 3] [mkRela 0 1 0 0] 1;
     text_section ".text.g" [9] [] 2]
    [mkSymbol None (Some 2%nat) 0; mkSymbol None (Some 0%nat) 0; mkSymbol None (Some 1%nat) 0]
    [mkObjectFile [Some 0%nat; Some 1%nat; Some 2%nat] [0%nat; 1%nat; 2%nat]].

(** Two identical leaf sections and nothing else: the propagation set is
    empty. *)
Definition only_leaves : Linker :=
  mkLinker
    [text_section ".text.a" [1; 2] [] 0; text_section ".text.b" [1; 2] [] 1]
    [mkSymbol None (Some 0%nat) 0; mkSymbol None (Some 1%nat) 0]
    [mkObjectFile [Some 0%nat; Some 1%nat] [0%nat; 1%nat]].

(** Sections 0 and 1 hold the same two relocations in opposite orders;
    the relocations refer to sections 2 and 3, which are identical. *)
Definition reordered_relocs : Linker :=
  mkLinker
    [text_section ".text.p" [1] [mkRela 0 1 0 0; mkRela 0 1 1 0] 0;
     text_section ".text.q" [1] [mkRela 0 1 1 0; mkRela 0 1 0 0] 1;
     text_section ".text.x" [5] [mkRela 0 1 2 0] 2;
     text_section ".text.y" [5] [mkRela 0 1 2 0] 3;
     text_section ".text.z" [9] [] 4]
    [mkSymbol None (Some 2%nat) 0; mkSymbol None (Some 3%nat) 0; mkSymbol None (Some 4%nat) 0]
    [mkObjectFile [Some 0%nat; Some 1%nat; Some 2%nat; Some 3%nat; Some 4%nat]
       [0%nat; 1%nat; 2%nat]].

(** The digests and edge arrays of a round over four sections of which
    0 and 1 refer to 2 and 3 in opposite orders. *)
Definition sample_cur : list Digest :=
  [replicate HASH_SIZE 1; replicate HASH_SIZE 1; replicate HASH_SIZE 2; replicate HASH_SIZE 2].
Definition sample_edges : list Z := [2; 3; 3; 2].
Definition sample_edge_indices : list Z := [0; 2; 4; 4].

(** The same with sections 2 and 3 holding different digests. *)
Definition sample_cur_distinct : list Digest :=
  [replicate HASH_SIZE 1; replicate HASH_SIZE 1; replicate HASH_SIZE 2; replicate HASH_SIZE 3].

(** Two identical leaf sections of which only the first is referred to
    by a symbol, and two participants. *)
Definition unreferenced_fold : Linker :=
  mkLinker
    [text_section ".text.a" [1; 2] [] 0;
     text_section ".text.b" [1; 2] [] 1;
     text_section ".text.f" [3] [mkRela 0 1 0 0] 2;
     text_section ".text.g" [3] [mkRela 0 1 0 0] 3]
    [mkSymbol None (Some 0%nat) 0; mkSymbol None (Some 2%nat) 0; mkSymbol None (Some 3%nat) 0]
    [mkObjectFile [Some 0%nat; Some 1%nat; Some 2%nat; Some 3%nat] [0%nat; 1%nat; 2%nat]].

(** A state as the election leaves it: section 1 folded into section 0,
    each referred to by a symbol. *)
Definition folded_pair : Linker :=
  mkLinker
    [set_leader (Some 0%nat) (text_section ".text.a" [1; 2] [] 0);
     set_leader (Some 0%nat) (text_section ".text.b" [1; 2] [] 1)]
    [mkSymbol None (Some 0%nat) 0; mkSymbol None (Some 1%nat) 8]
    [mkObjectFile [Some 0%nat; Some 1%nat] [0%nat; 1%nat]].

(** Three files of one section each: eligible leaves with the same
    contents, whose priorities follow the files. *)
Definition racing_leaves : Linker :=
  mkLinker
    [mkInputSection (Z.lor SHF_ALLOC SHF_EXECINSTR) 1 ".text.a" [1; 2] [] [] [] [] 0 0
       None false false 0 false;
     mkInputSection (Z.lor SHF_ALLOC SHF_EXECINSTR) 1 ".text.b" [1; 2] [] [] [] [] 1 1
       None false false 0 false;
     mkInputSection (Z.lor SHF_ALLOC SHF_EXECINSTR) 1 ".text.c" [1; 2] [] [] [] [] 2 2
       None false false 0 false]
    [mkSymbol None (Some 0%nat) 0; mkSymbol None (Some 1%nat) 0; mkSymbol None (Some 2%nat) 0]
    [mkObjectFile [Some 0%nat] [0%nat];
     mkObjectFile [Some 1%nat] [1%nat];
     mkObjectFile [Some 2%nat] [2%nat]].

(** File 2 inserts its section; files 1 and 0 find it in the table, and
    both compare their priority with that of section 2; file 0 stores
    its section, then file 1 stores its own over it. *)
Definition racing_schedule : list nat := [2; 1; 0; 1; 0; 0; 1]%nat.

(** A state as the election leaves it: sections 1 and 2 folded into
    section 0, of which a symbol refers to sections 0 and 1 and none to
    section 2. *)
Definition folded_three : Linker :=
  mkLinker
    [set_leader (Some 0%nat) (text_section ".text.a" [1; 2] [] 0);
     set_leader (Some 0%nat) (text_section ".text.b" [1; 2] [] 1);
     set_leader (Some 0%nat) (text_section ".text.c" [1; 2] [] 2)]
    [mkSymbol None (Some 0%nat) 0; mkSymbol None (Some 1%nat) 8]
    [mkObjectFile [Some 0%nat; Some 1%nat; Some 2%nat] [0%nat; 1%nat]].

(** A section with a fragment relocation followed by a relocation
    against a symbol of a section that is not eligible. *)
Definition mixed_section : InputSection :=
  mkInputSection (Z.lor SHF_ALLOC SHF_EXECINSTR) 1 ".text.m" [7]
    [mkRela 4 2 0 (-1); mkRela 12 2 0 3] [true; false]
    [mkFragmentRef (mkFragment [104; 105]) 5] [] 0 0 None true false 0 false.

Definition mixed_relocs : Linker :=
  mkLinker
    [mixed_section;
     mkInputSection SHF_ALLOC 1 ".rodata" [] [] [] [] [] 0 1 None false false 0 false]
    [mkSymbol None (Some 1%nat) 16]
    [mkObjectFile [Some 0%nat; Some 1%nat] [0%nat]].

(** Three eligible leaf sections, the last two identical, and a fourth
    section that is writable. *)
Definition three_leaves : Linker :=
  mkLinker
    [text_section ".text.a" [1; 2] [] 5;
     text_section ".text.b" [3] [] 7;
     text_section ".text.c" [3] [] 6;
     mkInputSection (Z.lor SHF_ALLOC SHF_WRITE) 1 ".data" [3] [] [] [] [] 0 8
       None false false 0 false]
    [mkSymbol None (Some 0%nat) 0]
    [mkObjectFile [Some 0%nat; None; Some 1%nat] [0%nat];
     mkObjectFile [Some 2%nat; Some 3%nat] []].

Definition leaders_of (L : Linker) : list (option nat) := map leader (secs L).


(** Two FDE records that differ in their first eight bytes only. *)
Definition fde_one : bytes := [16; 0; 0; 0; 1; 0; 0; 0; 7; 7].
Definition fde_two : bytes := [16; 0; 0; 0; 9; 0; 0; 0; 7; 7].

(** An eligible leaf section with one FDE record. *)
Definition leaf_with_fde (fde : bytes) (prio : Z) : InputSection :=
  mkInputSection (Z.lor SHF_ALLOC SHF_EXECINSTR) 1 ".text.a" [1; 2] [] [] []
    [mkFde fde [mkEhReloc 0 0 0 0]] 0 prio None false false 0 false.

(** A file whose only section is a leaf with an FDE record of three bytes. *)
Definition short_fde : Linker :=
  mkLinker [leaf_with_fde [1; 2; 3] 0] [] [mkObjectFile [Some 0%nat] []].

(** A section with a relocation and an FDE record without relocation. *)
Definition bare_fde_section : InputSection :=
  mkInputSection (Z.lor SHF_ALLOC SHF_EXECINSTR) 1 ".text.n" [1] [mkRela 0 1 0 0] [false] []
    [mkFde fde_one []] 0 0 None true false 0 false.

(** Two digests and the edge arrays of two sections that refer to each
    other. *)
Definition sample_pair : list Digest := [replicate HASH_SIZE 1; replicate HASH_SIZE 2].
Definition sample_pair_edges : list Z := [1; 0].
Definition sample_pair_indices : list Z := [0; 1].

(** One digest for two sections. *)
Definition sample_same : list Digest := [replicate HASH_SIZE 1; replicate HASH_SIZE 1].

(** [two_classes] as the leaf pass leaves it, and as the section
    enumerator leaves it. *)
Definition two_classes_marked : Linker :=
  default two_classes (leaf_pass sample_hash two_classes).

Definition two_classes_indexed : Linker :=
  default two_classes (fst <$> gather_sections two_classes_marked).

(** [reordered_relocs] as the leaf pass leaves it, and as the section
    enumerator leaves it. *)
Definition reordered_marked : Linker :=
  default reordered_relocs (leaf_pass sample_hash reordered_relocs).

Definition reordered_indexed : Linker :=
  default reordered_relocs (fst <$> gather_sections reordered_marked).

(** Three input sections of which the first and the last go to output
    section 1, in two files. *)
Definition sample_isecs : list Layout.InputSection :=
  [Layout.mkInputSection 1; Layout.mkInputSection 0; Layout.mkInputSection 1].
Definition sample_files : list (list (option nat)) :=
  [[Some 0%nat; None; Some 1%nat]; [Some 2%nat]].

(** Load order: an archive member, an object file, a dead archive member. *)
Definition sample_load : list Main.ObjectFile :=
  [Main.mkObjectFile true true 0; Main.mkObjectFile false true 0;
   Main.mkObjectFile true false 0].

(** * Properties *)

(** ** Machine integers *)

Lemma wrap_unsigned (bits z : Z) : wrap bits false z = z mod 2 ^ bits.
Proof. reflexivity. Qed.

Lemma wrap_signed_in_range (bits z : Z) :
  0 < bits -> - 2 ^ (bits - 1) <= z < 2 ^ (bits - 1) -> wrap bits true z = z.
Proof.
  intros Hbits Hz. unfold wrap. cbn [andb].
  replace (2 ^ bits) with (2 * 2 ^ (bits - 1))
    by (rewrite <- Z.pow_succ_r by lia; f_equal; lia).
  set (h := 2 ^ (bits - 1)) in *. assert (0 < h) by (subst h; apply Z.pow_pos_nonneg; lia).
  destruct (Z.neg_nonneg_cases z) as [Hneg | Hpos].
  - assert (z mod (2 * h) = z + 2 * h) as ->.
    { symmetry. apply (Z.mod_unique _ _ (-1)); lia. }
    destruct (Z.leb_spec h (z + 2 * h)); lia.
  - rewrite Z.mod_small by lia.
    destruct (Z.leb_spec h z); lia.
Qed.

Lemma to_int_in_range (z : Z) : - 2 ^ 31 <= z < 2 ^ 31 -> to_int z = z.
Proof. intros Hz. apply wrap_signed_in_range; [lia | exact Hz]. Qed.

Lemma int_min_shift : to_int (Z.shiftl 1 31) = - 2 ^ 31.
Proof. reflexivity. Qed.

(** ** main.cc: file priorities *)

Lemma priority_expr_archive (i : Z) :
  0 <= i < 2 ^ 31 -> Main.priority_expr true i = i - 2 ^ 31.
Proof.
  intros Hi. unfold Main.priority_expr. rewrite int_min_shift.
  rewrite to_int_in_range; lia.
Qed.

Lemma pow2_ge_32 (bits : Z) : 32 <= bits -> 2 ^ 32 <= 2 ^ bits.
Proof. intros H. apply Z.pow_le_mono_r; lia. Qed.




(** On a signed field of at least 32 bits the same assignment orders the
    files the other way round: [i + (1 << 31)] is negative. *)
Lemma signed_field_reverses (ty : Main.int_type) (i j : Z) :
  Main.it_signed ty = true -> 32 <= Main.it_bits ty ->
  0 <= i < 2 ^ 31 -> 0 <= j < 2 ^ 31 ->
  Main.convert ty (Main.priority_expr true i) < 0
  <= Main.convert ty (Main.priority_expr false j).
Proof.
  intros Hs Hb Hi Hj. unfold Main.convert. rewrite Hs.
  rewrite priority_expr_archive by done. unfold Main.priority_expr.
  assert (2 ^ 31 <= 2 ^ (Main.it_bits ty - 1)) by (apply Z.pow_le_mono_r; lia).
  rewrite !wrap_signed_in_range; lia.
Qed.



(** ** The order on digests and the class count *)

Lemma digest_le_total (a b : Digest) : digest_le a b \/ digest_le b a.
Proof.
  unfold digest_le. revert b. induction a as [|x a IH]; intros [|y b]; cbn [digest_ltb]; auto.
  heads x y.
Qed.

Lemma digest_le_antisym (a b : Digest) : digest_le a b -> digest_le b a -> a = b.
Proof.
  unfold digest_le. revert b.
  induction a as [|x a IH]; intros [|y b]; cbn [digest_ltb]; try done.
  heads x y. intros H1 H2. f_equal. auto.
Qed.

Lemma digest_le_trans (a b c : Digest) : digest_le a b -> digest_le b c -> digest_le a c.
Proof.
  unfold digest_le. revert b c.
  induction a as [|x a IH]; intros [|y b] [|z c]; cbn [digest_ltb]; try done.
  destruct (Z.ltb_spec y x), (Z.eqb_spec y x), (Z.ltb_spec z y), (Z.eqb_spec z y),
    (Z.ltb_spec z x), (Z.eqb_spec z x); cbn [orb andb]; try lia; try discriminate; subst; eauto.
Qed.

#[export] Instance digest_le_total_inst : Total digest_le := digest_le_total.
#[export] Instance digest_le_trans_inst : Transitive digest_le := digest_le_trans.

Lemma bytes_eqb_eq (a b : bytes) : bytes_eqb a b = true <-> a = b.
Proof. unfold bytes_eqb. apply bool_decide_eq_true. Qed.

Lemma bytes_eqb_refl (a : bytes) : bytes_eqb a a = true.
Proof. by apply bytes_eqb_eq. Qed.

(** In a sorted vector the adjacent inequalities are one fewer than the
    distinct values. *)
Lemma count_boundaries_sorted (l : list Digest) :
  StronglySorted digest_le l ->
  count_boundaries l = Z.of_nat (Nat.pred (length (remove_dups l))).
Proof.
  induction 1 as [|x rest Hs IH Hall]; [reflexivity|].
  cbn [count_boundaries remove_dups]. destruct rest as [|y rest']; [reflexivity|].
  rewrite IH. unfold bytes_eqb.
  assert (Hne : remove_dups (y :: rest') <> []).
  { intros Hnil. assert (y ∈ remove_dups (y :: rest')) as Hy by (apply elem_of_remove_dups; left).
    rewrite Hnil in Hy. inversion Hy. }
  assert (Hin_iff : x ∈ y :: rest' <-> x = y).
  { split; [|intros ->; left].
    intros Hin. apply elem_of_cons in Hin as [-> | Hin]; [done|].
    apply digest_le_antisym.
    - apply Forall_cons in Hall as [Hxy' _]. exact Hxy'.
    - apply StronglySorted_inv in Hs as [_ Hy]. rewrite Forall_forall in Hy. auto. }
  destruct (decide_rel elem_of x (y :: rest')) as [Hin | Hnin].
  - rewrite bool_decide_eq_true_2 by (by apply Hin_iff). lia.
  - rewrite bool_decide_eq_false_2 by (by rewrite <- Hin_iff).
    cbn [length]. destruct (remove_dups (y :: rest')); [done | cbn [length]; lia].
Qed.

Lemma remove_dups_length_perm (l k : list Digest) :
  l ≡ₚ k -> length (remove_dups l) = length (remove_dups k).
Proof.
  intros Hp. apply Permutation_length, NoDup_Permutation; try apply NoDup_remove_dups.
  intros x. rewrite !elem_of_remove_dups. by rewrite Hp.
Qed.

(** What [count_num_classes] returns: the number of distinct digests
    less one (and 0 for no digest at all). *)
Lemma count_num_classes_spec (v : list Digest) :
  count_num_classes v = Z.of_nat (Nat.pred (length (remove_dups v))).
Proof.
  unfold count_num_classes, sort_digests.
  rewrite count_boundaries_sorted by (apply StronglySorted_merge_sort; apply _).
  do 2 f_equal. apply remove_dups_length_perm, merge_sort_Permutation.
Qed.

(** The loop of the rounds, unfolded once: a round that is not the tenth
    of its decade goes on with the same count; a tenth round counts, and
    stops exactly when the count is the one kept from the tenth round
    before. *)
Lemma rounds_step (SHA256 : bytes -> bytes) (fuel : nat) (edges edge_indices : list Z)
  (i slot num_classes : Z) (digests digests' : list (list Digest)) :
  propagate SHA256 digests edges edge_indices slot = Some digests' ->
  (i mod 10 <> 9 ->
   rounds SHA256 (S fuel) edges edge_indices i slot num_classes digests
   = rounds SHA256 fuel edges edge_indices (i + 1) (Z.lxor slot 1) num_classes digests') /\
  (forall cur, i mod 10 = 9 -> at_index digests' (Z.lxor slot 1) = Some cur ->
   rounds SHA256 (S fuel) edges edge_indices i slot num_classes digests
   = if count_num_classes cur =? num_classes
     then Some (mkRounds (i + 1) (Z.lxor slot 1) digests')
     else rounds SHA256 fuel edges edge_indices (i + 1) (Z.lxor slot 1)
            (count_num_classes cur) digests').
Proof.
  intros Hp. cbn [rounds]. rewrite Hp. split.
  - intros Hi. by destruct (Z.eqb_spec (i mod 10) 9).
  - intros cur Hi Hcur. rewrite Hi, Hcur. reflexivity.
Qed.

(** C2 (the class count): [count_num_classes] does not return the number
    of distinct digests. On a vector holding one digest it returns 0, and
    on every non-empty vector one less than the number of distinct
    digests. The loop of the rounds takes the count after every tenth
    round and stops exactly when it is the count taken ten rounds
    before. *)
Theorem C2_count_num_classes_is_one_short :
  (forall d : Digest, count_num_classes [d] = 0 /\ length (remove_dups [d]) = 1%nat) /\
  (forall (d : Digest) (v : list Digest),
     count_num_classes (d :: v) = Z.of_nat (length (remove_dups (d :: v))) - 1) /\
  (forall (SHA256 : bytes -> bytes) (fuel : nat) (edges edge_indices : list Z)
          (i slot num_classes : Z) (digests digests' : list (list Digest)),
     propagate SHA256 digests edges edge_indices slot = Some digests' ->
     (i mod 10 <> 9 ->
      rounds SHA256 (S fuel) edges edge_indices i slot num_classes digests
      = rounds SHA256 fuel edges edge_indices (i + 1) (Z.lxor slot 1) num_classes digests') /\
     (forall cur, i mod 10 = 9 -> at_index digests' (Z.lxor slot 1) = Some cur ->
      rounds SHA256 (S fuel) edges edge_indices i slot num_classes digests
      = if count_num_classes cur =? num_classes
        then Some (mkRounds (i + 1) (Z.lxor slot 1) digests')
        else rounds SHA256 fuel edges edge_indices (i + 1) (Z.lxor slot 1)
               (count_num_classes cur) digests')).
Proof.
  split; [|split].
  - intros d. split; [apply count_num_classes_spec | reflexivity].
  - intros x v. rewrite count_num_classes_spec.
    assert (x ∈ remove_dups (x :: v)) as Hx by (apply elem_of_remove_dups; left).
    destruct (remove_dups (x :: v)); [inversion Hx | cbn [length]; lia].
  - exact rounds_step.
Qed.

(** ** Loops *)

Lemma for_loop_first_None {S : Type} (n : nat) (i : Z) (body : Z -> S -> option S) (s : S) :
  (0 < n)%nat -> body i s = None -> for_loop n i body s = None.
Proof. intros Hn Hb. destruct n; [lia|]. cbn [for_loop]. by rewrite Hb. Qed.

Lemma at_index_Some {A : Type} (v : list A) (i : Z) :
  0 <= i < Z.of_nat (length v) -> is_Some (at_index v i).
Proof.
  intros Hi. unfold at_index. destruct (Z.ltb_spec i 0); [lia|].
  apply lookup_lt_is_Some. lia.
Qed.

Lemma at_index_nat {A : Type} (v : list A) (i : nat) : at_index v (Z.of_nat i) = v !! i.
Proof.
  unfold at_index. destruct (Z.ltb_spec (Z.of_nat i) 0); [lia|]. by rewrite Nat2Z.id.
Qed.

Lemma store_index_Some {A : Type} (v : list A) (i : Z) (x : A) :
  0 <= i < Z.of_nat (length v) -> store_index v i x = Some (<[Z.to_nat i := x]> v).
Proof.
  intros Hi. unfold store_index.
  destruct (Z.leb_spec 0 i), (Z.ltb_spec i (Z.of_nat (length v))); try lia. reflexivity.
Qed.

(** ** The enumerators on empty input *)

Lemma size_minus_one_wraps : to_u64 (Z.of_nat 0 - 1) = 2 ^ 64 - 1.
Proof. reflexivity. Qed.

Lemma prefix_sums_empty (cast : Z -> Z) (num : list Z) :
  prefix_sums cast num [] 0 = None.
Proof.
  unfold prefix_sums. apply for_loop_first_None; [|reflexivity].
  rewrite size_minus_one_wraps. lia.
Qed.

Lemma prefix_sums_steps (cast : Z -> Z) (num : list Z) (n : nat) (i : Z) (idx : list Z) :
  0 <= i -> i + Z.of_nat n < Z.of_nat (length idx) -> i + Z.of_nat n <= Z.of_nat (length num) ->
  exists idx',
    for_loop n i
      (fun i idx => a ← at_index idx i; b ← at_index num i; store_index idx (i + 1) (cast (a + b)))
      idx = Some idx' /\ length idx' = length idx.
Proof.
  revert i idx. induction n as [|n IH]; intros i idx Hi Hidx Hnum; cbn [for_loop].
  - by exists idx.
  - destruct (at_index_Some idx i) as [a Ha]; [lia|].
    destruct (at_index_Some num i) as [b Hb]; [lia|].
    rewrite Ha, Hb. cbn [mbind option_bind].
    rewrite store_index_Some by lia.
    destruct (IH (i + 1) (<[Z.to_nat (i + 1) := cast (a + b)]> idx)) as (idx' & Hrun & Hlen);
      rewrite ?length_insert; try lia.
    exists idx'. rewrite Hrun. split; [done|]. by rewrite Hlen, length_insert.
Qed.

(** On vectors of [size >= 1] elements the prefix sums are defined. *)
Lemma prefix_sums_defined (cast : Z -> Z) (num idx : list Z) (size : nat) :
  (0 < size)%nat -> Z.of_nat size < 2 ^ 64 -> length num = size -> length idx = size ->
  is_Some (prefix_sums cast num idx size).
Proof.
  intros Hpos Hbig Hnum Hidx. unfold prefix_sums.
  assert (to_u64 (Z.of_nat size - 1) = Z.of_nat size - 1) as ->.
  { unfold to_u64. rewrite wrap_unsigned. apply Z.mod_small. lia. }
  destruct (prefix_sums_steps cast num (Z.to_nat (Z.of_nat size - 1)) 0 idx) as (idx' & -> & _);
    [lia | lia | lia | by eexists].
Qed.

Lemma gather_edges_empty (L : Linker) : gather_edges L [] = None.
Proof.
  unfold gather_edges. cbn [mapM mbind option_bind mret option_ret length replicate].
  by rewrite prefix_sums_empty.
Qed.

Lemma gather_sections_no_file (s : list InputSection) (y : list Symbol) :
  gather_sections (mkLinker s y []) = None.
Proof.
  unfold gather_sections. cbn [objs mapM mbind option_bind mret option_ret length replicate].
  by rewrite prefix_sums_empty.
Qed.

Lemma compute_digests_empty (SHA256 : bytes -> bytes) (L : Linker) :
  compute_digests SHA256 L [] = Some [].
Proof. reflexivity. Qed.

(** Without a section in the propagation set the pass is undefined. *)
Lemma icf_sections_needs_participant (std_hash : bytes -> Z) (SHA256 : bytes -> bytes)
  (fuel : nat) (L L1 L2 : Linker) :
  leaf_pass std_hash L = Some L1 -> gather_sections L1 = Some (L2, []) ->
  icf_sections std_hash SHA256 fuel L = None.
Proof.
  intros H1 H2. unfold icf_sections. rewrite H1. cbn [mbind option_bind]. rewrite H2.
  cbn [mbind option_bind fst snd]. rewrite compute_digests_empty. cbn [mbind option_bind].
  by rewrite gather_edges_empty.
Qed.

(** C10: the pass is defined only when the propagation set is not empty.
    With no section in it, [num_edges.size() - 1] wraps to [2^64 - 1],
    the prefix-sum loop of [gather_edges] is entered and indexes the empty
    vectors, so [gather_edges], and with it [icf_sections], is undefined;
    likewise [gather_sections] on an empty list of object files. On
    vectors of at least one element the prefix-sum loop is defined. *)
Theorem C10_pass_needs_participants :
  to_u64 (Z.of_nat (length (@nil nat)) - 1) = 2 ^ 64 - 1 /\
  (forall L : Linker, gather_edges L [] = None) /\
  (forall (s : list InputSection) (y : list Symbol), gather_sections (mkLinker s y []) = None) /\
  (forall (std_hash : bytes -> Z) (SHA256 : bytes -> bytes) (fuel : nat) (L L1 L2 : Linker),
     leaf_pass std_hash L = Some L1 -> gather_sections L1 = Some (L2, []) ->
     icf_sections std_hash SHA256 fuel L = None) /\
  (forall (cast : Z -> Z) (num idx : list Z) (size : nat),
     (0 < size)%nat -> Z.of_nat size < 2 ^ 64 -> length num = size -> length idx = size ->
     is_Some (prefix_sums cast num idx size)).
Proof.
  split; [reflexivity|]. split; [exact gather_edges_empty|].
  split; [exact gather_sections_no_file|].
  split; [exact icf_sections_needs_participant | exact prefix_sums_defined].
Qed.

Lemma C10_pass_needs_participants_witness :
  icf_sections sample_hash sample_SHA256 20 only_leaves = None /\
  is_Some (prefix_sums id [1; 2] [0; 0] 2).
Proof.
  destruct C10_pass_needs_participants as (_ & _ & _ & Hpass & Hsums). split.
  - eapply (Hpass sample_hash sample_SHA256 20%nat only_leaves); reflexivity.
  - apply Hsums; [lia | lia | reflexivity | reflexivity].
Defined.

(** ** The election of leaders on the last class *)

Lemma elect_leaders_single (k : sort_key) (st : list InputSection) :
  elect_leaders [k] st = Some st.
Proof. reflexivity. Qed.

(** The inner loop writes only up to the first section with another digest. *)
Lemma set_run_leader_stops (st st' : list InputSection) (lead : sort_key) (rest : list sort_key)
  (p : nat) :
  set_run_leader st lead rest = Some st' ->
  (forall j kk, rest !! j = Some kk -> key_section kk = p ->
     exists j' kk', (j' <= j)%nat /\ rest !! j' = Some kk' /\ key_digest kk' <> key_digest lead) ->
  st' !! p = st !! p.
Proof.
  revert st. induction rest as [|kk rest IH]; intros st; cbn [set_run_leader].
  - by intros [= <-].
  - destruct (bytes_eqb (key_digest lead) (key_digest kk)) eqn:Heq; [|by intros [= <-]].
    apply bytes_eqb_eq in Heq.
    destruct (st !! key_section kk) as [isec|]; [|done].
    intros Hrun Hstop. rewrite (IH _ Hrun).
    + rewrite list_lookup_insert_ne; [done|]. intros Hp.
      destruct (Hstop 0%nat kk eq_refl Hp) as (j' & kk' & Hj' & Hkk' & Hne).
      assert (j' = 0%nat) as -> by lia. cbn in Hkk'. congruence.
    + intros j k Hj Hk. destruct (Hstop (S j) k Hj Hk) as (j' & kk' & Hj' & Hkk' & Hne).
      destruct j' as [|j']; [cbn in Hkk'; congruence|].
      exists j', kk'. split; [lia | done].
Qed.

(** A class made of the last section alone is passed over. *)
Lemma elect_leaders_skips_last (sorted : list sort_key) (k : sort_key)
  (st st' : list InputSection) :
  last sorted = Some k ->
  (forall prev, sorted !! (length sorted - 2)%nat = Some prev -> (2 <= length sorted)%nat ->
     key_digest prev <> key_digest k) ->
  NoDup (key_section <$> sorted) ->
  elect_leaders sorted st = Some st' ->
  st' !! key_section k = st !! key_section k.
Proof.
  intros Hlast Hprev Hnd Hrun. unfold elect_leaders in Hrun.
  rewrite last_lookup in Hlast.
  assert (Hidx : forall j kk, sorted !! j = Some kk -> key_section kk = key_section k ->
            j = pred (length sorted)).
  { intros j kk Hj Hkk. eapply (NoDup_lookup _ _ _ _ Hnd).
    - by rewrite list_lookup_fmap, Hj.
    - by rewrite list_lookup_fmap, Hlast, Hkk. }
  set (n := length sorted) in *.
  assert (Hstep : forall i s s', 0 <= i < Z.of_nat n - 1 ->
            elect_at sorted i s = Some s' -> s' !! key_section k = s !! key_section k).
  { intros i s s' Hi Hel. unfold elect_at in Hel.
    apply bind_Some in Hel as (cur & Hcur & Hel). apply bind_Some in Hel as (b & _ & Hel).
    destruct b; [|by injection Hel as <-].
    apply bind_Some in Hel as (isec & _ & Hel).
    unfold at_index in Hcur. destruct (Z.ltb_spec i 0); [lia|].
    rewrite (set_run_leader_stops _ _ _ _ _ Hel).
    - rewrite list_lookup_insert_ne; [done|]. intros Heq.
      pose proof (Hidx _ _ Hcur Heq). lia.
    - intros j kk Hj Hkk. rewrite lookup_drop in Hj.
      pose proof (Hidx _ _ Hj Hkk) as Hpos.
      assert (kk = k) as -> by (rewrite Hpos in Hj; congruence).
      destruct (decide (key_digest k = key_digest cur)) as [Hsame | Hdiff].
      2:{ exists j, k. rewrite lookup_drop. by split_and!. }
      destruct j as [|j].
      + exfalso. apply (Hprev cur); [|lia | done].
        replace (n - 2)%nat with (Z.to_nat i) by lia. exact Hcur.
      + destruct (lookup_lt_is_Some_2 sorted (n - 2)) as [prev Hp]; [lia|].
        exists j, prev. rewrite lookup_drop.
        replace (Z.to_nat (i + 1) + j)%nat with (n - 2)%nat by lia.
        split_and!; [lia | done |]. rewrite <- Hsame. apply Hprev; [done | lia]. }
  assert (Hloop : forall m i s s', 0 <= i -> i + Z.of_nat m <= Z.of_nat n - 1 ->
            for_loop m i (elect_at sorted) s = Some s' ->
            s' !! key_section k = s !! key_section k).
  { induction m as [|m IH]; intros i s s' Hi Hm; cbn [for_loop]; [by intros [= <-]|].
    destruct (elect_at sorted i s) as [s1|] eqn:Hel; [|done].
    intros Hrest. rewrite (IH (i + 1) s1 s') by (done || lia).
    apply (Hstep i s s1); [lia | done]. }
  apply lookup_lt_Some in Hlast. fold n in Hlast.
  apply (Hloop (Z.to_nat (Z.of_nat n - 1)) 0 st st'); [lia | lia | done].
Qed.

(** C1 (the last class): the loop that elects the leaders runs over the
    indices [0, size - 1), so a class made of the last section of the
    sorted vector alone gets no leader: the leader of that section is
    left as it was. A propagation set of one section leaves that section
    without a leader, and so does the last of two sections with
    different digests. *)
Theorem C1_last_singleton_class_gets_no_leader :
  (forall (k : sort_key) (st : list InputSection), elect_leaders [k] st = Some st) /\
  (forall (sorted : list sort_key) (k : sort_key) (st st' : list InputSection),
     last sorted = Some k ->
     (forall prev, sorted !! (length sorted - 2)%nat = Some prev -> (2 <= length sorted)%nat ->
        key_digest prev <> key_digest k) ->
     NoDup (key_section <$> sorted) ->
     elect_leaders sorted st = Some st' ->
     leader <$> st' !! key_section k = leader <$> st !! key_section k) /\
  is_eligible (text_section ".text.f" [1; 2] [mkRela 0 1 0 0] 0) = true /\
  leaders_of <$> icf_sections sample_hash sample_SHA256 20 one_participant
    = Some [None; Some 1%nat] /\
  leaders_of <$> icf_sections sample_hash sample_SHA256 20 two_classes
    = Some [None; Some 1%nat; Some 2%nat].
Proof.
  split; [exact elect_leaders_single|]. split.
  { intros sorted k st st' Hlast Hprev Hnd Hrun.
    by rewrite (elect_leaders_skips_last sorted k st st' Hlast Hprev Hnd Hrun). }
  split; [reflexivity|]. split; vm_compute; reflexivity.
Qed.

(** ** One propagation round *)

Section Propagation.
Variable SHA256 : bytes -> bytes.

Lemma absorb_loop (cur : list Digest) (edges : list Z) (n : nat) (b : Z) (ctx : bytes) :
  0 <= b -> b + Z.of_nat n <= Z.of_nat (length edges) ->
  Forall (fun e => 0 <= e < Z.of_nat (length cur)) edges ->
  for_loop n b (absorb_neighbor cur edges) ctx
  = Some (ctx ++ concat (map (digest_block cur) (take n (drop (Z.to_nat b) edges)))).
Proof.
  intros Hb Hn Hall. revert b ctx Hb Hn.
  induction n as [|n IH]; intros b ctx Hb Hn; cbn [for_loop].
  - rewrite take_0. cbn. by rewrite app_nil_r.
  - unfold absorb_neighbor at 1. unfold at_index.
    destruct (Z.ltb_spec b 0); [lia|].
    destruct (lookup_lt_is_Some_2 edges (Z.to_nat b)) as [e He]; [lia|].
    rewrite He. cbn [mbind option_bind].
    assert (0 <= e < Z.of_nat (length cur)) as Hrange.
    { rewrite Forall_forall in Hall. apply Hall. by eapply list_elem_of_lookup_2. }
    destruct (Z.ltb_spec e 0); [lia|].
    destruct (lookup_lt_is_Some_2 cur (Z.to_nat e)) as [d Hd]; [lia|].
    rewrite Hd. cbn [mbind option_bind].
    rewrite IH by lia.
    rewrite (drop_S _ _ _ He). cbn [take map concat].
    replace (Z.to_nat (b + 1)) with (S (Z.to_nat b)) by lia.
    change (digest_block cur e) with (take HASH_SIZE (default [] (cur !! Z.to_nat e))).
    rewrite Hd. cbn [default]. by rewrite <- app_assoc.
Qed.

Lemma buffers_cur (slot : Z) (cur nxt : list Digest) :
  slot = 0 \/ slot = 1 -> at_index (buffers slot cur nxt) slot = Some cur.
Proof. by intros [-> | ->]. Qed.

Lemma buffers_nxt (slot : Z) (cur nxt : list Digest) :
  slot = 0 \/ slot = 1 -> at_index (buffers slot cur nxt) (Z.lxor slot 1) = Some nxt.
Proof. by intros [-> | ->]. Qed.

Lemma buffers_store (slot : Z) (cur nxt nxt' : list Digest) :
  slot = 0 \/ slot = 1 ->
  store_index (buffers slot cur nxt) (Z.lxor slot 1) nxt' = Some (buffers slot cur nxt').
Proof. by intros [-> | ->]. Qed.

Lemma propagate_at_spec (cur nxt : list Digest) (edges edge_indices : list Z) (slot : Z) (i : nat) :
  slot = 0 \/ slot = 1 -> length nxt = length cur ->
  graph_ok (length cur) edges edge_indices -> (i < length cur)%nat ->
  propagate_at SHA256 edges edge_indices slot (Z.of_nat i) (buffers slot cur nxt)
  = Some (buffers slot cur
            (<[i := digest_final SHA256 (round_input cur edges edge_indices i)]> nxt)).
Proof.
  intros Hslot Hlen (Hei & Hb & He) Hi. unfold propagate_at.
  assert (exists d0, at_index (buffers slot cur nxt) 0 = Some d0 /\ length d0 = length cur)
    as (d0 & Hd0 & Hd0len).
  { destruct Hslot as [-> | ->]; cbn; eauto. }
  rewrite Hd0. cbn [mbind option_bind].
  rewrite at_index_nat.
  destruct (lookup_lt_is_Some_2 edge_indices i) as [begin Hbegin]; [lia|].
  rewrite Hbegin. cbn [mbind option_bind].
  assert (0 <= begin <= Z.of_nat (length edges)) as Hbr.
  { rewrite Forall_forall in Hb. apply Hb. by eapply list_elem_of_lookup_2. }
  set (end_ := if Nat.eqb (S i) (length cur) then Z.of_nat (length edges)
               else default 0 (edge_indices !! S i)).
  assert ((if Z.of_nat i + 1 =? Z.of_nat (length d0) then Some (Z.of_nat (length edges))
           else at_index edge_indices (Z.of_nat i + 1)) = Some end_
          /\ 0 <= end_ <= Z.of_nat (length edges)) as [-> Her].
  { subst end_. rewrite Hd0len.
    destruct (Z.eqb_spec (Z.of_nat i + 1) (Z.of_nat (length cur))) as [Heq | Hne].
    - rewrite (proj2 (Nat.eqb_eq _ _)) by lia. split; [done | lia].
    - rewrite (proj2 (Nat.eqb_neq _ _)) by lia.
      replace (Z.of_nat i + 1) with (Z.of_nat (S i)) by lia. rewrite at_index_nat.
      destruct (lookup_lt_is_Some_2 edge_indices (S i)) as [e Hes]; [lia|].
      rewrite Hes. split; [done|]. cbn [default].
      rewrite Forall_forall in Hb. apply Hb. by eapply list_elem_of_lookup_2. }
  cbn [mbind option_bind].
  rewrite buffers_cur by done. cbn [mbind option_bind].
  rewrite at_index_nat.
  destruct (lookup_lt_is_Some_2 cur i) as [own Hown]; [lia|].
  rewrite Hown. cbn [mbind option_bind].
  rewrite absorb_loop by (done || lia).
  cbn [mbind option_bind].
  rewrite buffers_nxt by done. cbn [mbind option_bind].
  rewrite store_index_Some by lia. cbn [mbind option_bind].
  rewrite buffers_store by done. rewrite Nat2Z.id.
  do 3 f_equal. unfold round_input, neighbor_digests, out_neighbors, digest_block.
  rewrite Nat2Z.id, Hown, Hbegin. reflexivity.
Qed.

Lemma insert_take_drop {A : Type} (spec old : list A) (k : nat) (v : A) :
  length spec = length old -> spec !! k = Some v ->
  <[k := v]> (take k spec ++ drop k old) = take (S k) spec ++ drop (S k) old.
Proof.
  intros Hlen Hv. pose proof (lookup_lt_Some _ _ _ Hv) as Hk.
  destruct (lookup_lt_is_Some_2 old k) as [x Hx]; [lia|].
  rewrite (drop_S _ _ _ Hx), (take_S_r _ _ _ Hv).
  rewrite insert_app_r_alt by (rewrite length_take; lia).
  rewrite length_take. replace (k - k `min` length spec)%nat with 0%nat by lia.
  cbn. by rewrite <- app_assoc.
Qed.

Lemma propagate_loop (cur nxt : list Digest) (edges edge_indices : list Z) (slot : Z)
  (n k : nat) :
  slot = 0 \/ slot = 1 -> length nxt = length cur ->
  graph_ok (length cur) edges edge_indices -> (k + n = length cur)%nat ->
  for_loop n (Z.of_nat k) (propagate_at SHA256 edges edge_indices slot)
    (buffers slot cur (take k (next_digests SHA256 cur edges edge_indices) ++ drop k nxt))
  = Some (buffers slot cur (next_digests SHA256 cur edges edge_indices)).
Proof.
  intros Hslot Hlen Hg. revert k. induction n as [|n IH]; intros k Hk; cbn [for_loop].
  - assert (length (next_digests SHA256 cur edges edge_indices) = length cur) as Hnl.
    { unfold next_digests. by rewrite length_map, length_seq. }
    rewrite take_ge, drop_ge, app_nil_r by lia. done.
  - assert (length (next_digests SHA256 cur edges edge_indices) = length cur) as Hnl.
    { unfold next_digests. by rewrite length_map, length_seq. }
    rewrite propagate_at_spec; [| done | | done | lia].
    2:{ rewrite length_app, length_take, length_drop. lia. }
    rewrite insert_take_drop.
    + replace (Z.of_nat k + 1) with (Z.of_nat (S k)) by lia. apply IH. lia.
    + by rewrite Hnl, Hlen.
    + unfold next_digests. rewrite list_lookup_fmap, lookup_seq_lt by lia. done.
Qed.

Lemma propagate_spec (cur nxt : list Digest) (edges edge_indices : list Z) (slot : Z) :
  slot = 0 \/ slot = 1 -> length nxt = length cur ->
  graph_ok (length cur) edges edge_indices ->
  propagate SHA256 (buffers slot cur nxt) edges edge_indices slot
  = Some (buffers slot cur (next_digests SHA256 cur edges edge_indices)).
Proof.
  intros Hslot Hlen Hg. unfold propagate.
  assert (exists d0, at_index (buffers slot cur nxt) 0 = Some d0 /\ length d0 = length cur)
    as (d0 & Hd0 & Hd0len).
  { destruct Hslot as [-> | ->]; cbn; eauto. }
  rewrite Hd0. cbn [mbind option_bind]. rewrite Hd0len.
  apply (propagate_loop cur nxt edges edge_indices slot (length cur) 0); auto.
Qed.
Lemma next_digests_length (cur : list Digest) (edges edge_indices : list Z) :
  length (next_digests SHA256 cur edges edge_indices) = length cur.
Proof. unfold next_digests. by rewrite length_map, length_seq. Qed.

Lemma next_digests_lookup (cur : list Digest) (edges edge_indices : list Z) (i : nat) :
  (i < length cur)%nat ->
  next_digests SHA256 cur edges edge_indices !! i
  = Some (digest_final SHA256 (round_input cur edges edge_indices i)).
Proof.
  intros Hi. unfold next_digests. by rewrite list_lookup_fmap, lookup_seq_lt by lia.
Qed.

Lemma concat_blocks_inj (n : nat) (xs ys : list (list Z)) :
  (0 < n)%nat -> Forall (fun b => length b = n) xs -> Forall (fun b => length b = n) ys ->
  concat xs = concat ys -> xs = ys.
Proof.
  intros Hn Hxs. revert ys. induction Hxs as [|x xs Hx _ IH]; intros ys Hys Heq.
  - destruct Hys as [|y ys Hy _]; [done|]. cbn in Heq.
    destruct y; [cbn in Hy; lia | discriminate].
  - destruct Hys as [|y ys Hy Hys].
    + cbn in Heq. destruct x; [cbn in Hx; lia | discriminate].
    + cbn [concat] in Heq. apply app_inj_1 in Heq as [-> Heq]; [|congruence].
      f_equal. by apply IH.
Qed.

Lemma digest_block_length (cur : list Digest) (e : Z) :
  Forall (fun d => length d = HASH_SIZE) cur -> 0 <= e < Z.of_nat (length cur) ->
  length (digest_block cur e) = HASH_SIZE /\ cur !! Z.to_nat e = Some (digest_block cur e).
Proof.
  intros Hall He. unfold digest_block.
  destruct (lookup_lt_is_Some_2 cur (Z.to_nat e)) as [d Hd]; [lia|].
  rewrite Hd. cbn [default from_option id].
  assert (length d = HASH_SIZE) as Hlen.
  { rewrite Forall_forall in Hall. apply Hall. by eapply list_elem_of_lookup_2. }
  rewrite take_ge by lia. done.
Qed.

Lemma out_neighbors_in_range (n : nat) (edges edge_indices : list Z) (i : nat) :
  graph_ok n edges edge_indices ->
  Forall (fun e => 0 <= e < Z.of_nat n) (out_neighbors edges edge_indices n i).
Proof.
  intros (_ & _ & He). unfold out_neighbors. by apply Forall_take, Forall_drop.
Qed.

Lemma neighbor_digests_blocks (cur : list Digest) (edges edge_indices : list Z) (i : nat) :
  Forall (fun d => length d = HASH_SIZE) cur -> graph_ok (length cur) edges edge_indices ->
  Forall (fun b => length b = HASH_SIZE) (neighbor_digests cur edges edge_indices i).
Proof.
  intros Hall Hg. unfold neighbor_digests. apply Forall_fmap.
  eapply Forall_impl; [by apply out_neighbors_in_range|].
  intros e He. cbn. by apply digest_block_length.
Qed.

(** Two sections absorb the same bytes in a round exactly when they have
    the same digest and the same sequence of neighbor digests. *)
Lemma round_input_inj (cur : list Digest) (edges edge_indices : list Z) (i k : nat) :
  Forall (fun d => length d = HASH_SIZE) cur -> graph_ok (length cur) edges edge_indices ->
  (i < length cur)%nat -> (k < length cur)%nat ->
  round_input cur edges edge_indices i = round_input cur edges edge_indices k <->
  cur !! i = cur !! k /\
  neighbor_digests cur edges edge_indices i = neighbor_digests cur edges edge_indices k.
Proof.
  intros Hall Hg Hi Hk.
  destruct (digest_block_length cur (Z.of_nat i) Hall) as [Hli Hci]; [lia|].
  destruct (digest_block_length cur (Z.of_nat k) Hall) as [Hlk Hck]; [lia|].
  rewrite Nat2Z.id in Hci, Hck. unfold round_input. split.
  - intros Heq. apply app_inj_1 in Heq as [Hb Hc]; [|congruence].
    split; [by rewrite Hci, Hck, Hb|].
    apply (concat_blocks_inj HASH_SIZE); [unfold HASH_SIZE; lia | | | done];
      by apply neighbor_digests_blocks.
  - intros [Hd ->]. f_equal. rewrite Hci, Hck in Hd. by injection Hd.
Qed.

(** A partition that refines another has at least as many classes. *)
Lemma refinement_count (cur nxt : list (list Z)) :
  length nxt = length cur ->
  (forall i k di dk, cur !! i = Some di -> cur !! k = Some dk -> di <> dk ->
     nxt !! i <> nxt !! k) ->
  (length (remove_dups cur) <= length (remove_dups nxt))%nat.
Proof.
  intros Hlen Href.
  set (pick := fun v : list Z =>
         match list_find (fun p : list Z * list Z => p.1 = v) (zip nxt cur) with
         | Some (_, p) => p.2
         | None => []
         end).
  transitivity (length (pick <$> remove_dups nxt)); [|by rewrite length_fmap].
  apply submseteq_length, NoDup_submseteq; [apply NoDup_remove_dups|].
  intros c Hc. rewrite elem_of_remove_dups in Hc. apply list_elem_of_lookup in Hc as [k Hk].
  destruct (lookup_lt_is_Some_2 nxt k) as [v Hv]; [apply lookup_lt_Some in Hk; lia|].
  apply list_elem_of_fmap. exists v. split; [|by apply elem_of_remove_dups, list_elem_of_lookup; eauto].
  unfold pick.
  destruct (list_find (fun p : list Z * list Z => p.1 = v) (zip nxt cur)) as [[j [v' c']]|] eqn:Hfind.
  - apply list_find_Some in Hfind as (Hj & Hv' & _). cbn in Hv'. subst v'.
    apply lookup_zip_with_Some in Hj as (? & ? & [= <- <-] & Hnj & Hcj). cbn.
    destruct (decide (c' = c)) as [|Hne]; [done|].
    exfalso. apply (Href j k c' c Hcj Hk Hne). by rewrite Hnj, Hv.
  - apply list_find_None in Hfind. rewrite Forall_forall in Hfind.
    exfalso. apply (Hfind (v, c)); [|done].
    apply list_elem_of_lookup. exists k. by rewrite lookup_zip_with, Hv, Hk.
Qed.

End Propagation.

Lemma injective_onb_sound (SHA256 : bytes -> bytes) (inputs : list bytes) :
  injective_onb SHA256 inputs = true -> injective_on SHA256 inputs.
Proof.
  unfold injective_onb, injective_on. rewrite forallb_forall.
  intros Hall x y Hx Hy Heq. apply list_elem_of_In in Hx, Hy.
  specialize (Hall x Hx). rewrite forallb_forall in Hall. specialize (Hall y Hy).
  rewrite Heq, bytes_eqb_refl in Hall. by apply bytes_eqb_eq.
Qed.

Lemma buffers_flip (slot : Z) (cur nxt : list Digest) :
  slot = 0 \/ slot = 1 ->
  buffers slot cur nxt = buffers (Z.lxor slot 1) nxt cur /\ Z.lxor slot 1 = 1 - slot.
Proof. by intros [-> | ->]. Qed.

Lemma graph_ok_sample : graph_ok (length sample_cur) sample_edges sample_edge_indices.
Proof.
  split; [reflexivity|]. split; repeat constructor; cbn; lia.
Qed.

Lemma next_digests_equal_iff (SHA256 : bytes -> bytes) (cur : list Digest)
  (edges edge_indices : list Z) (i k : nat) :
  graph_ok (length cur) edges edge_indices ->
  Forall (fun d => length d = HASH_SIZE) cur ->
  injective_on SHA256 (round_inputs cur edges edge_indices) ->
  (i < length cur)%nat -> (k < length cur)%nat ->
  next_digests SHA256 cur edges edge_indices !! i
    = next_digests SHA256 cur edges edge_indices !! k <->
  cur !! i = cur !! k /\
  neighbor_digests cur edges edge_indices i = neighbor_digests cur edges edge_indices k.
Proof.
  intros Hg Hall Hinj Hi Hk. rewrite !next_digests_lookup by done.
  rewrite <- round_input_inj by done. split.
  - intros [= Heq]. apply Hinj; [| | done]; unfold round_inputs;
      apply list_elem_of_fmap; eexists; (split; [reflexivity|]); apply elem_of_seq; lia.
  - by intros ->.
Qed.

(** C5, as amended: a propagation round gives every section [i] the hash
    of its current digest followed by the current digests of its
    out-neighbors [edges[j]], [j] in [[edge_indices[i], edge_indices[i+1])]
    (up to [edges.size()] for the last section), in the order of the
    relocations, and the next round reads the buffer just written. When
    the hash tells the absorbed inputs apart, two sections get the same
    next digest exactly when they have the same digest and the same
    sequence of neighbor digests: a reordering of the relocations is told
    apart when it changes that sequence, and not otherwise. *)
Theorem C5_propagation_round (SHA256 : bytes -> bytes) (cur nxt : list Digest)
  (edges edge_indices : list Z) (slot : Z) :
  slot = 0 \/ slot = 1 -> length nxt = length cur ->
  graph_ok (length cur) edges edge_indices ->
  propagate SHA256 (buffers slot cur nxt) edges edge_indices slot
    = Some (buffers slot cur (next_digests SHA256 cur edges edge_indices)) /\
  (forall i : nat, (i < length cur)%nat ->
     next_digests SHA256 cur edges edge_indices !! i
     = Some (digest_final SHA256
               (digest_block cur (Z.of_nat i)
                ++ concat (map (digest_block cur)
                             (out_neighbors edges edge_indices (length cur) i))))) /\
  (forall (fuel : nat) (i num_classes : Z), i mod 10 <> 9 ->
     rounds SHA256 (S fuel) edges edge_indices i slot num_classes (buffers slot cur nxt)
     = rounds SHA256 fuel edges edge_indices (i + 1) (Z.lxor slot 1) num_classes
         (buffers (Z.lxor slot 1) (next_digests SHA256 cur edges edge_indices) cur)) /\
  (Forall (fun d => length d = HASH_SIZE) cur ->
   injective_on SHA256 (round_inputs cur edges edge_indices) ->
   forall i k : nat, (i < length cur)%nat -> (k < length cur)%nat ->
     next_digests SHA256 cur edges edge_indices !! i
       = next_digests SHA256 cur edges edge_indices !! k <->
     cur !! i = cur !! k /\
     neighbor_digests cur edges edge_indices i = neighbor_digests cur edges edge_indices k).
Proof.
  intros Hslot Hlen Hg.
  split; [by apply propagate_spec|]. split; [|split].
  - intros i Hi. by rewrite next_digests_lookup.
  - intros fuel i nc Hi. cbn [rounds]. rewrite propagate_spec by done.
    destruct (Z.eqb_spec (i mod 10) 9); [done|].
    by destruct (buffers_flip slot cur (next_digests SHA256 cur edges edge_indices) Hslot) as [<- _].
  - intros Hall Hinj i k Hi Hk. by apply next_digests_equal_iff.
Qed.

(** C6: when the hash tells the absorbed inputs apart, a propagation
    round gives different next digests to sections with different
    current digests, the own digest being the first block absorbed; so
    the number of distinct digests, and the count the convergence check
    takes, do not decrease over the round. *)
Theorem C6_round_refines_partition (SHA256 : bytes -> bytes) (cur nxt : list Digest)
  (edges edge_indices : list Z) (slot : Z) :
  slot = 0 \/ slot = 1 -> length nxt = length cur ->
  graph_ok (length cur) edges edge_indices ->
  Forall (fun d => length d = HASH_SIZE) cur ->
  injective_on SHA256 (round_inputs cur edges edge_indices) ->
  exists nxt' : list Digest,
    propagate SHA256 (buffers slot cur nxt) edges edge_indices slot
      = Some (buffers slot cur nxt') /\
    length nxt' = length cur /\
    (forall (i k : nat) (di dk : Digest),
       cur !! i = Some di -> cur !! k = Some dk -> di <> dk -> nxt' !! i <> nxt' !! k) /\
    (length (remove_dups cur) <= length (remove_dups nxt'))%nat /\
    count_num_classes cur <= count_num_classes nxt'.
Proof.
  intros Hslot Hlen Hg Hall Hinj.
  exists (next_digests SHA256 cur edges edge_indices).
  assert (Href : forall (i k : nat) (di dk : Digest),
             cur !! i = Some di -> cur !! k = Some dk -> di <> dk ->
             next_digests SHA256 cur edges edge_indices !! i
             <> next_digests SHA256 cur edges edge_indices !! k).
  { intros i k di dk Hi Hk Hne Hnext.
    apply next_digests_equal_iff in Hnext as [Hsame _]; try done;
      try (by eapply lookup_lt_Some).
    rewrite Hi, Hk in Hsame. by injection Hsame. }
  split; [by apply propagate_spec|]. split; [apply next_digests_length|]. split; [done|].
  pose proof (refinement_count cur _ (next_digests_length SHA256 cur edges edge_indices) Href).
  split; [done|]. rewrite !count_num_classes_spec. lia.
Qed.

(** C5, the claim as stated fails: sections 0 and 1 of the sample round
    have the same digest and refer to sections 2 and 3 in opposite
    orders, and they get the same next digest whatever the hash is,
    sections 2 and 3 having the same digest. Through the whole pass, two
    sections whose relocation lists are the reverse of each other end
    with the same leader. *)
Lemma C5_reordering_not_always_told_apart :
  ~ (exists SHA256 : bytes -> bytes, reordering_is_told_apart SHA256) /\
  (rels <$> secs reordered_relocs !! 1%nat) = (@rev ElfRela <$> (rels <$> secs reordered_relocs !! 0%nat)) /\
  (rels <$> secs reordered_relocs !! 1%nat) <> (rels <$> secs reordered_relocs !! 0%nat) /\
  leaders_of <$> icf_sections sample_hash sample_SHA256 30 reordered_relocs
    = Some [Some 0%nat; Some 0%nat; Some 2%nat; Some 2%nat; Some 4%nat].
Proof.
  split; [|split; [reflexivity | split; [discriminate | vm_compute; reflexivity]]].
  intros [H Hclaim].
  apply (Hclaim sample_cur sample_cur (next_digests H sample_cur sample_edges sample_edge_indices)
           sample_edges sample_edge_indices 0 0%nat 1%nat).
  - by left.
  - reflexivity.
  - exact graph_ok_sample.
  - cbn; lia.
  - cbn; lia.
  - reflexivity.
  - apply perm_swap.
  - discriminate.
  - apply propagate_spec; [by left | reflexivity | exact graph_ok_sample].
  - reflexivity.
Qed.

Lemma C5_propagation_round_witness :
  propagate sample_SHA256 (buffers 0 sample_cur sample_cur) sample_edges sample_edge_indices 0
  = Some (buffers 0 sample_cur
            (next_digests sample_SHA256 sample_cur sample_edges sample_edge_indices)).
Proof.
  exact (proj1 (C5_propagation_round sample_SHA256 sample_cur sample_cur sample_edges
                  sample_edge_indices 0 (or_introl eq_refl) eq_refl graph_ok_sample)).
Defined.

Lemma C6_round_refines_partition_witness :
  exists nxt' : list Digest,
    propagate sample_SHA256 (buffers 0 sample_cur_distinct sample_cur_distinct)
      sample_edges sample_edge_indices 0 = Some (buffers 0 sample_cur_distinct nxt') /\
    length nxt' = length sample_cur_distinct /\
    (forall (i k : nat) (di dk : Digest),
       sample_cur_distinct !! i = Some di -> sample_cur_distinct !! k = Some dk ->
       di <> dk -> nxt' !! i <> nxt' !! k) /\
    (length (remove_dups sample_cur_distinct) <= length (remove_dups nxt'))%nat /\
    count_num_classes sample_cur_distinct <= count_num_classes nxt'.
Proof.
  apply (C6_round_refines_partition sample_SHA256 sample_cur_distinct sample_cur_distinct
           sample_edges sample_edge_indices 0).
  - by left.
  - reflexivity.
  - exact graph_ok_sample.
  - repeat constructor.
  - apply injective_onb_sound. vm_compute. reflexivity.
Defined.

(** ** Re-assigning input sections to symbols *)

Section Commit.
Variable st0 : list InputSection.
Variable sy0 : list Symbol.
Hypothesis Hself : self_led st0.
Hypothesis Hptr : forall sp y p, sy0 !! sp = Some y -> input_section y = Some p -> is_Some (st0 !! p).

Local Abbreviation inv := (commit_inv st0 sy0).

Lemma commit_inv_init : inv st0 sy0 [].
Proof.
  split; [by left|]. intros sp y0 Hy0. exists y0. repeat (split; [done|]).
  intros Hin. inversion Hin.
Qed.

Lemma redirect_noop (st : list InputSection) (sy : list Symbol) (sp : nat) (y y0 : Symbol) :
  (forall p s0, st0 !! p = Some s0 -> st !! p = Some s0 \/ st !! p = Some (kill s0)) ->
  sy0 !! sp = Some y0 -> sy !! sp = Some y ->
  input_section y = folded_to st0 (input_section y0) ->
  redirect (st, sy) sp = Some (st, sy).
Proof.
  intros Hst Hy0 Hy Hin. unfold redirect. cbn [fst snd]. rewrite Hy. cbn [mbind option_bind].
  rewrite Hin. destruct (input_section y0) as [p0|] eqn:Hp0; [|done].
  destruct (Hptr sp y0 p0 Hy0 Hp0) as [s0 Hs0]. cbn [folded_to]. rewrite Hs0.
  assert (Hcur : forall p s, st0 !! p = Some s ->
            exists isec, st !! p = Some isec /\ leader isec = leader s).
  { intros p s Hs. destruct (Hst p s Hs) as [H | H]; eauto. }
  destruct (leader s0) as [l|] eqn:Hl.
  - destruct (Nat.eqb_spec l p0) as [-> | Hne].
    + destruct (Hcur p0 s0 Hs0) as (isec & Hi & Hli). rewrite Hi. cbn [mbind option_bind].
      by rewrite Hli, Hl, Nat.eqb_refl.
    + destruct (Hself p0 s0 l Hs0 Hl) as (sl & Hsl & Hll).
      destruct (Hcur l sl Hsl) as (isec & Hi & Hli). rewrite Hi. cbn [mbind option_bind].
      by rewrite Hli, Hll, Nat.eqb_refl.
  - destruct (Hcur p0 s0 Hs0) as (isec & Hi & Hli). rewrite Hi. cbn [mbind option_bind].
    by rewrite Hli, Hl.
Qed.

Lemma redirect_step (st : list InputSection) (sy : list Symbol) (done : list nat) (sp : nat) :
  inv st sy done -> is_Some (sy0 !! sp) ->
  exists st' sy', redirect (st, sy) sp = Some (st', sy') /\ inv st' sy' (done ++ [sp]).
Proof.
  intros [Hst Hsy] [y0 Hy0].
  destruct (Hsy sp y0 Hy0) as (y & Hy & Hfrag & Hval & Hfresh & Hdone).
  assert (Hkeep : (input_section y = folded_to st0 (input_section y0) /\
            forall p s l, input_section y0 = Some p -> st0 !! p = Some s ->
               leader s = Some l -> l <> p -> is_dead <$> st !! p = Some true) ->
            exists st' sy', redirect (st, sy) sp = Some (st', sy') /\
                            inv st' sy' (done ++ [sp])).
  { intros [Htarget Hdead]. exists st, sy. split; [by eapply redirect_noop|].
    split; [done|].
    intros sp' y0' Hy0'. destruct (Hsy sp' y0' Hy0') as (y' & Hy' & ? & ? & Hf' & Hd').
    exists y'. repeat (split; [done|]). split.
    - intros Hnot. apply Hf'. intros Hmem. apply Hnot, elem_of_app. by left.
    - intros Hmem. apply elem_of_app in Hmem as [Hmem | Hmem]; [by apply Hd'|].
      apply list_elem_of_singleton in Hmem as ->. by simplify_eq. }
  destruct (decide (sp ∈ done)) as [Hmem | Hnew]; [by apply Hkeep, Hdone|].
  specialize (Hfresh Hnew).
  destruct (input_section y0) as [p0|] eqn:Hp0.
  2:{ apply Hkeep. split; [done | discriminate]. }
  destruct (Hptr sp y0 p0 Hy0 Hp0) as [s0 Hs0].
  assert (exists isec, st !! p0 = Some isec /\ leader isec = leader s0 /\ kill isec = kill s0)
    as (isec & Hisec & Hlead & Hkill).
  { destruct (Hst p0 s0 Hs0) as [H | H]; eauto. }
  destruct (leader s0) as [l|] eqn:Hl.
  2:{ apply Hkeep. split; [cbn; by rewrite Hs0, Hl | intros; congruence]. }
  destruct (Nat.eqb_spec l p0) as [-> | Hne].
  { apply Hkeep. split; [cbn; by rewrite Hs0, Hl, Nat.eqb_refl | intros; congruence]. }
  assert (Htarget : folded_to st0 (Some p0) = Some l).
  { cbn. rewrite Hs0, Hl. by rewrite (proj2 (Nat.eqb_neq l p0)). }
  unfold redirect. cbn [fst snd]. rewrite Hy. cbn [mbind option_bind].
  rewrite Hfresh, Hisec. cbn [mbind option_bind].
  rewrite Hlead, (proj2 (Nat.eqb_neq l p0)) by done. cbn [negb].
  eexists _, _. split; [done|]. split.
  - intros p s Hs. destruct (decide (p = p0)) as [-> | Hpp].
    + rewrite list_lookup_insert_eq by (by eapply lookup_lt_Some). right.
      rewrite Hkill. congruence.
    + rewrite list_lookup_insert_ne by done. by apply Hst.
  - intros sp' y0' Hy0'. destruct (decide (sp' = sp)) as [-> | Hsp].
    + rewrite list_lookup_insert_eq by (by eapply lookup_lt_Some).
      eexists. split; [done|]. simplify_eq. cbn [set_input_section sym_frag sym_value input_section].
      rewrite Hp0, Htarget. repeat (split; [done|]). split.
      * intros Hnot. exfalso. apply Hnot, elem_of_app. right. by apply list_elem_of_singleton.
      * intros _. split; [done|]. intros p s l' [= <-] Hs Hl' _.
        by rewrite list_lookup_insert_eq by (by eapply lookup_lt_Some).
    + rewrite list_lookup_insert_ne by done.
      destruct (Hsy sp' y0' Hy0') as (y' & Hy' & ? & ? & Hf' & Hd').
      exists y'. repeat (split; [done|]). split.
      * intros Hnot. apply Hf'. intros Hmem. apply Hnot, elem_of_app. by left.
      * intros Hmem. apply elem_of_app in Hmem as [Hmem | Hmem];
          [|apply list_elem_of_singleton in Hmem; congruence].
        destruct (Hd' Hmem) as [? Hk]. split; [done|]. intros p s l' Hp Hs Hl' Hne'.
        destruct (decide (p = p0)) as [-> | Hpp].
        -- by rewrite list_lookup_insert_eq by (by eapply lookup_lt_Some).
        -- rewrite list_lookup_insert_ne by done. eauto.
Qed.

Lemma redirect_all (todo : list nat) (st : list InputSection) (sy : list Symbol) (done : list nat) :
  inv st sy done -> (forall sp, sp ∈ todo -> is_Some (sy0 !! sp)) ->
  exists st' sy', foldM redirect (st, sy) todo = Some (st', sy') /\
                  inv st' sy' (done ++ todo).
Proof.
  revert st sy done. induction todo as [|sp todo IH]; intros st sy done Hinv Hok.
  - exists st, sy. by rewrite app_nil_r.
  - destruct (redirect_step st sy done sp Hinv) as (st1 & sy1 & Hstep & Hinv1).
    { apply Hok. left. }
    destruct (IH st1 sy1 (done ++ [sp]) Hinv1) as (st2 & sy2 & Hrest & Hinv2).
    { intros sp' Hin. apply Hok. by right. }
    exists st2, sy2. cbn [foldM]. rewrite Hstep. split; [done|].
    by rewrite <- app_assoc in Hinv2.
Qed.
End Commit.

(** A step of the walk keeps what [spared] lists. *)
Lemma redirect_spares (st0 : list InputSection) (sy0 : list Symbol) (all : list nat)
  (s s' : list InputSection * list Symbol) (sp : nat) :
  self_led st0 -> sp ∈ all ->
  redirect s sp = Some s' -> spared st0 sy0 all s -> spared st0 sy0 all s'.
Proof.
  intros Hself Hsp Hstep (Hlead & Hsym & Hkeep). unfold redirect in Hstep.
  destruct (s.2 !! sp) as [sym|] eqn:Hy; [|done]. cbn [mbind option_bind] in Hstep.
  destruct (input_section sym) as [p|] eqn:Hp; [|by injection Hstep as <-].
  destruct (s.1 !! p) as [isec|] eqn:Hisec; [|done]. cbn [mbind option_bind] in Hstep.
  destruct (leader isec) as [l|] eqn:Hl; [|by injection Hstep as <-].
  destruct (Nat.eqb_spec l p) as [-> | Hne]; cbn [negb] in Hstep; injection Hstep as <-;
    [done|].
  assert (Hl0 : leader <$> st0 !! p = Some (Some l)).
  { rewrite <- Hlead, Hisec. cbn. by rewrite Hl. }
  destruct (st0 !! p) as [s0|] eqn:Hs0; [|done]. cbn in Hl0. injection Hl0 as Hl0.
  destruct (Hself p s0 l Hs0 Hl0) as (sl & Hsl & Hll).
  split_and!; cbn [fst snd].
  - intros q. destruct (decide (q = p)) as [-> | Hq].
    + rewrite list_lookup_insert_eq by (by eapply lookup_lt_Some).
      rewrite <- Hlead, Hisec. done.
    + by rewrite list_lookup_insert_ne.
  - intros sp' y Hy'. destruct (decide (sp' = sp)) as [-> | Hq].
    + rewrite list_lookup_insert_eq in Hy' by (by eapply lookup_lt_Some).
      injection Hy' as <-. right. by exists l, sl.
    + rewrite list_lookup_insert_ne in Hy' by done. by apply Hsym.
  - intros q sq Hsq Hunref. destruct (decide (q = p)) as [-> | Hq].
    + exfalso. destruct (Hsym sp sym Hy) as [Hy0 | (l' & sl' & Hl' & Hsl' & Hll')].
      * by apply (Hunref sp sym).
      * congruence.
    + rewrite list_lookup_insert_ne by done. by apply Hkeep.
Qed.

(** So does the walk. *)
Lemma redirect_all_spares (st0 : list InputSection) (sy0 : list Symbol) (all todo : list nat)
  (s s' : list InputSection * list Symbol) :
  self_led st0 -> (forall sp, sp ∈ todo -> sp ∈ all) ->
  foldM redirect s todo = Some s' -> spared st0 sy0 all s -> spared st0 sy0 all s'.
Proof.
  intros Hself. revert s. induction todo as [|sp todo IH]; intros s Hin Hrun Hinv;
    cbn [foldM] in Hrun.
  - by injection Hrun as <-.
  - destruct (redirect s sp) as [s1|] eqn:Hstep; [|done].
    apply (IH s1); [intros sp' Hsp'; apply Hin; by right | done |].
    apply (redirect_spares _ _ _ s s1 sp); [done | apply Hin; left | done | done].
Qed.

(** The commit writes to the sections that a symbol of the files refers
    to, and to no other. *)
Lemma commit_spares_unreferenced (L L' : Linker) (p : nat) (s : InputSection) :
  self_led (secs L) -> commit L = Some L' -> secs L !! p = Some s ->
  unreferenced L p -> secs L' !! p = Some s.
Proof.
  intros Hself Hc Hs Hunref. unfold commit in Hc.
  apply bind_Some in Hc as (r & Hrun & [= <-]). cbn [secs].
  destruct (redirect_all_spares (secs L) (syms L) (all_symbols L) (all_symbols L)
              (secs L, syms L) r Hself) as (_ & _ & Hkeep); [done | done | | by apply Hkeep].
  split_and!; cbn; [done | by left | done].
Qed.

(** C3, as amended: for a state in which every leader is its own leader,
    the commit is defined; after it every symbol of an object file whose
    section was folded (its leader set and another section) refers to
    that leader, and the section such a symbol referred to is marked
    dead; a folded section that no symbol of the files refers to is left
    as it was, so alive if it was alive. *)
Theorem C3_symbols_follow_leaders (L : Linker) :
  symbols_ok L -> self_led (secs L) ->
  exists L' : Linker,
    commit L = Some L' /\ objs L' = objs L /\
    (forall (sp : nat) (y : Symbol) (p : nat) (s : InputSection) (l : nat),
      sp ∈ all_symbols L -> syms L !! sp = Some y -> input_section y = Some p ->
      secs L !! p = Some s -> leader s = Some l -> l <> p ->
      input_section <$> syms L' !! sp = Some (Some l) /\
      is_dead <$> secs L' !! p = Some true /\
      leader <$> secs L' !! p = Some (Some l)) /\
    (forall (p : nat) (s : InputSection) (l : nat),
      secs L !! p = Some s -> leader s = Some l -> l <> p -> unreferenced L p ->
      secs L' !! p = Some s /\
      is_dead <$> secs L' !! p = Some (is_dead s) /\
      (is_dead s = false -> is_dead <$> secs L' !! p = Some false)).
Proof.
  intros [Hsyms Hptr] Hself.
  destruct (redirect_all (secs L) (syms L) Hself Hptr (all_symbols L) (secs L) (syms L) [])
    as (st' & sy' & Hrun & Hst & Hsy); [apply commit_inv_init | done |].
  assert (Hc : commit L = Some (mkLinker st' sy' (objs L))) by (unfold commit; by rewrite Hrun).
  exists (mkLinker st' sy' (objs L)). split; [done|]. split; [done|]. split.
  - intros sp y p s l Hin Hy Hp Hs Hl Hne. cbn [syms secs].
    destruct (Hsy sp y Hy) as (y' & Hy' & _ & _ & _ & Hdone).
    destruct (Hdone Hin) as [Htarget Hdead].
    assert (folded_to (secs L) (Some p) = Some l) as Hfold.
    { cbn. rewrite Hs, Hl. by rewrite (proj2 (Nat.eqb_neq l p)). }
    rewrite Hy'. cbn. rewrite Htarget, Hp, Hfold. split; [done|].
    split; [by eapply Hdead|].
    destruct (Hst p s Hs) as [-> | ->]; cbn; by rewrite Hl.
  - intros p s l Hs _ _ Hun.
    rewrite (commit_spares_unreferenced L _ p s Hself Hc Hs Hun). cbn.
    split; [done|]. split; [done|]. by intros ->.
Qed.

(** C3, the claim as stated fails: in the sample input section 1 is
    folded into section 0 and no symbol refers to it; after the pass its
    leader is section 0 and it is not marked dead. *)
Lemma C3_unreferenced_folded_section_stays_alive :
  (fun L => (leader <$> secs L !! 1%nat, is_dead <$> secs L !! 1%nat))
    <$> icf_sections sample_hash sample_SHA256 30 unreferenced_fold
  = Some (Some (Some 0%nat), Some false).
Proof. vm_compute. reflexivity. Qed.

Lemma folded_pair_ok : symbols_ok folded_pair /\ self_led (secs folded_pair).
Proof.
  split; [split|].
  - intros sp Hin. cbn in Hin.
    repeat (apply elem_of_cons in Hin as [-> | Hin]; [eexists; reflexivity|]). inversion Hin.
  - intros [|[|sp]] y p; cbn; intros; simplify_eq; cbn in *; simplify_eq; by eexists.
  - intros [|[|p]] s l; cbn; intros; simplify_eq; cbn in *; simplify_eq; by eexists.
Qed.

(** In the sample state section 1 is folded and a symbol refers to it,
    section 2 is folded and no symbol does. *)
Lemma folded_three_ok :
  symbols_ok folded_three /\ self_led (secs folded_three) /\
  unreferenced folded_three 2 /\ ~ unreferenced folded_three 1.
Proof.
  split_and!.
  - split.
    + intros sp Hin. cbn in Hin.
      repeat (apply elem_of_cons in Hin as [-> | Hin]; [eexists; reflexivity|]). inversion Hin.
    + intros [|[|sp]] y p; cbn; intros; simplify_eq; cbn in *; simplify_eq; by eexists.
  - intros [|[|[|p]]] s l; cbn; intros; simplify_eq; cbn in *; simplify_eq; by eexists.
  - intros [|[|sp]] y _; cbn; intros; simplify_eq; by cbn.
  - intros Hun. apply (Hun 1%nat (mkSymbol None (Some 1%nat) 8)); [|done..].
    cbn. right. left.
Qed.

Lemma C3_symbols_follow_leaders_witness :
  exists L' : Linker,
    commit folded_three = Some L' /\ objs L' = objs folded_three /\
    (forall (sp : nat) (y : Symbol) (p : nat) (s : InputSection) (l : nat),
      sp ∈ all_symbols folded_three -> syms folded_three !! sp = Some y ->
      input_section y = Some p ->
      secs folded_three !! p = Some s -> leader s = Some l -> l <> p ->
      input_section <$> syms L' !! sp = Some (Some l) /\
      is_dead <$> secs L' !! p = Some true /\
      leader <$> secs L' !! p = Some (Some l)) /\
    (forall (p : nat) (s : InputSection) (l : nat),
      secs folded_three !! p = Some s -> leader s = Some l -> l <> p ->
      unreferenced folded_three p ->
      secs L' !! p = Some s /\
      is_dead <$> secs L' !! p = Some (is_dead s) /\
      (is_dead s = false -> is_dead <$> secs L' !! p = Some false)).
Proof.
  exact (C3_symbols_follow_leaders folded_three
           (proj1 folded_three_ok) (proj1 (proj2 folded_three_ok))).
Defined.

(** ** The initial digest *)

Lemma hash_i64_app (ctx : list Z) (v : Z) : hash_i64 ctx v = ctx ++ le64 v.
Proof. reflexivity. Qed.

Lemma hash_string_app (ctx str : list Z) : hash_string ctx str = ctx ++ prefixed str.
Proof. unfold hash_string, prefixed, hash_i64. by rewrite <- app_assoc. Qed.

Lemma hash_symbol_app (L : Linker) (ctx : list Z) (sym : Symbol) :
  hash_symbol L ctx sym = (ctx ++.) <$> hash_symbol L [] sym.
Proof.
  unfold hash_symbol.
  destruct (sym_frag sym) as [f|]; cbn [mbind option_bind fmap option_fmap option_map].
  - rewrite !hash_string_app, !hash_i64_app. cbn [app]. by rewrite <- !app_assoc.
  - destruct (input_section sym) as [p|]; cbn [mbind option_bind fmap option_fmap option_map].
    + destruct (secs L !! p) as [s|]; cbn [mbind option_bind fmap option_fmap option_map]; [|done].
      destruct (leader s) as [l|].
      * destruct (secs L !! l) as [sl|]; cbn [mbind option_bind fmap option_fmap option_map]; [|done].
        rewrite !hash_i64_app. cbn [app]. by rewrite <- !app_assoc.
      * destruct (icf_eligible s); cbn [mbind option_bind fmap option_fmap option_map];
          rewrite !hash_i64_app; cbn [app]; by rewrite <- !app_assoc.
    + rewrite !hash_i64_app. cbn [app]. by rewrite <- !app_assoc.
Qed.

Lemma fragment_index_next (isec : InputSection) (i : nat) (has : bool) :
  has_fragments isec !! i = Some has ->
  fragment_index isec (S i) = fragment_index isec i + (if has then 1 else 0).
Proof.
  intros Hh. unfold fragment_index. rewrite (take_S_r _ _ _ Hh), List.filter_app, length_app.
  destruct has; cbn; lia.
Qed.

Lemma hash_rel_step (L : Linker) (isec : InputSection) (i : nat) (ctx : list Z) :
  hash_rel L isec (Z.of_nat i) (ctx, fragment_index isec i)
  = (y ← reloc_absorbed L isec i; Some (ctx ++ y, fragment_index isec (S i))).
Proof.
  unfold hash_rel, reloc_absorbed. cbn [fst snd]. rewrite !at_index_nat.
  destruct (rels isec !! i) as [rel|]; cbn [mbind option_bind]; [|done].
  destruct (has_fragments isec !! i) as [has|] eqn:Hhas; cbn [mbind option_bind]; [|done].
  pose proof (fragment_index_next isec i has Hhas) as Hnext.
  destruct has.
  - destruct (at_index (rel_fragments isec) (fragment_index isec i)) as [ref|];
      cbn [mbind option_bind]; [|done].
    rewrite !hash_string_app, !hash_i64_app, <- !app_assoc, Hnext. done.
  - destruct (rel_symbol L isec rel) as [sym|]; cbn [mbind option_bind]; [|done].
    rewrite hash_symbol_app.
    destruct (hash_symbol L [] sym) as [fp|];
      cbn [fmap option_fmap option_map mbind option_bind]; [|done].
    rewrite !hash_i64_app, <- !app_assoc, Hnext, Z.add_0_r. done.
Qed.

Lemma hash_rel_loop (L : Linker) (isec : InputSection) (n i : nat) (ctx : list Z) :
  for_loop n (Z.of_nat i) (hash_rel L isec) (ctx, fragment_index isec i)
  = (rs ← mapM (reloc_absorbed L isec) (seq i n);
     Some (ctx ++ concat rs, fragment_index isec (i + n))).
Proof.
  revert i ctx. induction n as [|n IH]; intros i ctx.
  - cbn. by rewrite app_nil_r, Nat.add_0_r.
  - cbn [for_loop seq mapM]. rewrite hash_rel_step.
    destruct (reloc_absorbed L isec i) as [y|]; cbn [mbind option_bind]; [|done].
    replace (Z.of_nat i + 1) with (Z.of_nat (S i)) by lia. rewrite IH.
    destruct (mapM (reloc_absorbed L isec) (seq (S i) n)) as [rs|];
      cbn [mbind option_bind mret option_ret concat]; [|done].
    rewrite <- app_assoc. do 3 f_equal. lia.
Qed.

Lemma digest_input_spec (L : Linker) (isec : InputSection) :
  digest_input L isec
  = (pre ← fde_prefix L isec;
     rs ← mapM (reloc_absorbed L isec) (seq 0 (length (rels isec)));
     Some (pre ++ concat rs)).
Proof.
  unfold digest_input, fde_prefix.
  rewrite hash_string_app, !hash_i64_app. cbn [app]. rewrite <- !app_assoc.
  destruct (foldM _ _ (fdes isec)) as [pre|]; cbn [mbind option_bind]; [|done].
  change 0 with (Z.of_nat 0) at 1. change 0 with (fragment_index isec 0).
  rewrite hash_rel_loop.
  by destruct (mapM _ _).
Qed.

(** C4: the initial digest is the hash of a context that has absorbed,
    after the contents, flags, counts and FDEs, each section relocation
    in order as [(r_offset, r_type, r_addend)] followed by tag 1, the
    addend and the length-prefixed fragment bytes for a fragment
    relocation (the fragments being taken in order), and otherwise by the
    fingerprint of the symbol: tag 2 and the length-prefixed fragment
    bytes, tag 3, tag 4 and the priority of the leader, tag 5, or tag 6
    and the priority of the section, each followed by the symbol's
    value. *)
Theorem C4_initial_digest_absorbs_relocations (SHA256 : bytes -> bytes) (L : Linker)
  (isec : InputSection) :
  compute_digest SHA256 L isec = digest_final SHA256 <$> digest_input L isec /\
  digest_input L isec
    = (pre ← fde_prefix L isec;
       rs ← mapM (reloc_absorbed L isec) (seq 0 (length (rels isec)));
       Some (pre ++ concat rs)) /\
  (forall (i : nat) (rel : ElfRela) (ref : SectionFragmentRef),
     rels isec !! i = Some rel -> has_fragments isec !! i = Some true ->
     at_index (rel_fragments isec) (fragment_index isec i) = Some ref ->
     reloc_absorbed L isec i
     = Some (le64 (r_offset rel) ++ le64 (r_type rel) ++ le64 (r_addend rel)
             ++ le64 1 ++ le64 (ref_addend ref) ++ prefixed (frag_data (ref_frag ref)))) /\
  (forall (i : nat) (rel : ElfRela) (sym : Symbol),
     rels isec !! i = Some rel -> has_fragments isec !! i = Some false ->
     rel_symbol L isec rel = Some sym ->
     reloc_absorbed L isec i
     = (fp ← hash_symbol L [] sym;
        Some (le64 (r_offset rel) ++ le64 (r_type rel) ++ le64 (r_addend rel) ++ fp))) /\
  (forall (sym : Symbol) (f : SectionFragment),
     sym_frag sym = Some f ->
     hash_symbol L [] sym = Some (tagged 2 (prefixed (frag_data f)) (sym_value sym))) /\
  (forall sym : Symbol,
     sym_frag sym = None -> input_section sym = None ->
     hash_symbol L [] sym = Some (tagged 3 [] (sym_value sym))) /\
  (forall (sym : Symbol) (p l : nat) (s sl : InputSection),
     sym_frag sym = None -> input_section sym = Some p -> secs L !! p = Some s ->
     leader s = Some l -> secs L !! l = Some sl ->
     hash_symbol L [] sym = Some (tagged 4 (le64 (get_priority sl)) (sym_value sym))) /\
  (forall (sym : Symbol) (p : nat) (s : InputSection),
     sym_frag sym = None -> input_section sym = Some p -> secs L !! p = Some s ->
     leader s = None -> icf_eligible s = true ->
     hash_symbol L [] sym = Some (tagged 5 [] (sym_value sym))) /\
  (forall (sym : Symbol) (p : nat) (s : InputSection),
     sym_frag sym = None -> input_section sym = Some p -> secs L !! p = Some s ->
     leader s = None -> icf_eligible s = false ->
     hash_symbol L [] sym = Some (tagged 6 (le64 (get_priority s)) (sym_value sym))).
Proof.
  split; [unfold compute_digest; by destruct (digest_input L isec)|].
  split; [apply digest_input_spec|].
  split; [|split].
  - intros i rel ref Hrel Hhas Href. unfold reloc_absorbed.
    rewrite Hrel, Hhas. cbn [mbind option_bind]. rewrite Href. reflexivity.
  - intros i rel sym Hrel Hhas Hsym. unfold reloc_absorbed.
    rewrite Hrel, Hhas. cbn [mbind option_bind]. rewrite Hsym. reflexivity.
  - unfold hash_symbol, tagged. repeat split.
    + intros sym f ->. cbn [mbind option_bind]. rewrite hash_string_app, !hash_i64_app.
      cbn [app]. by rewrite <- app_assoc.
    + by intros sym -> ->.
    + intros sym p l s sl -> -> Hs Hl Hsl. rewrite Hs. cbn [mbind option_bind].
      rewrite Hl, Hsl. cbn [mbind option_bind]. rewrite !hash_i64_app.
      cbn [app]. by rewrite <- app_assoc.
    + intros sym p s -> -> Hs Hl He. rewrite Hs. cbn [mbind option_bind].
      by rewrite Hl, He.
    + intros sym p s -> -> Hs Hl He. rewrite Hs. cbn [mbind option_bind].
      rewrite Hl, He. cbn [mbind option_bind]. rewrite !hash_i64_app.
      cbn [app]. by rewrite <- app_assoc.
Qed.

Lemma C4_initial_digest_absorbs_relocations_witness :
  reloc_absorbed mixed_relocs mixed_section 0
  = Some (le64 4 ++ le64 2 ++ le64 (-1) ++ le64 1 ++ le64 5 ++ prefixed [104; 105]) /\
  hash_symbol mixed_relocs [] (mkSymbol None (Some 1%nat) 16)
  = Some (tagged 6 (le64 1) 16).
Proof.
  destruct (C4_initial_digest_absorbs_relocations sample_SHA256 mixed_relocs mixed_section)
    as (_ & _ & Hfrag & _ & _ & _ & _ & _ & Hinel).
  split.
  - exact (Hfrag 0%nat (mkRela 4 2 0 (-1)) (mkFragmentRef (mkFragment [104; 105]) 5)
             eq_refl eq_refl eq_refl).
  - exact (Hinel (mkSymbol None (Some 1%nat) 16) 1%nat
             (mkInputSection SHF_ALLOC 1 ".rodata" [] [] [] [] [] 0 1 None false false 0 false)
             eq_refl eq_refl eq_refl eq_refl eq_refl).
Defined.

(** ** The leaf deduper *)

#[export] Instance fde_equal_equiv : Equivalence fde_equal.
Proof.
  split.
  - by intros f.
  - intros f g [? ?]. by split.
  - intros f g h [? ?] [? ?]. split; congruence.
Qed.

#[export] Instance leaf_equal_equiv : Equivalence leaf_equal.
Proof.
  split.
  - intros a. repeat split; reflexivity.
  - intros a b (? & ? & ?). repeat split; by symmetry.
  - intros a b c (? & ? & ?) (? & ? & ?). repeat split; etrans; eauto.
Qed.

Lemma substr_Some (s : list Z) (pos : nat) :
  (pos <= length s)%nat -> substr s pos = Some (drop pos s).
Proof. intros H. unfold substr. by rewrite (proj2 (Nat.leb_le _ _)). Qed.

Section Leaf.
Variable std_hash : list Z -> Z.

Lemma LeafHasher_defined (s : InputSection) :
  fde_tail_ok s -> is_Some (LeafHasher std_hash s).
Proof.
  unfold fde_tail_ok, LeafHasher. generalize (to_u64 (std_hash (get_contents s))).
  generalize (fdes s). intros fs h Hall. revert h.
  induction Hall as [|f fs Hf _ IH]; intros h; cbn [foldM]; [by eexists|].
  rewrite substr_Some by done. apply IH.
Qed.

Lemma fdes_eq_spec (a b : list FdeRecord) :
  Forall (fun f => (8 <= length (fde_contents f))%nat) a ->
  Forall (fun f => (8 <= length (fde_contents f))%nat) b ->
  length a = length b ->
  exists r, fdes_eq a b = Some r /\ (r = true <-> Forall2 fde_equal a b).
Proof.
  intros Ha. revert b. induction Ha as [|fa a Hfa _ IH]; intros b Hb Hlen.
  - destruct b; [|done]. exists true. split; [done|]. split; [constructor | done].
  - destruct Hb as [|fb b Hfb Hb]; [done|]. cbn [fdes_eq].
    destruct (Nat.eqb_spec (length (fde_contents fa)) (length (fde_contents fb))) as [Hl | Hl];
      cbn [negb].
    2:{ exists false. split; [done|]. split; [done|].
        intros H. apply Forall2_cons in H as [[? _] _]. done. }
    rewrite !substr_Some by done. unfold bytes_eqb.
    case_bool_decide as Ht; cbn [negb].
    + destruct (IH b Hb) as (r & -> & Hr); [by injection Hlen|].
      exists r. split; [done|]. rewrite Hr. split.
      * intros H. by constructor.
      * intros H. by apply Forall2_cons in H as [_ ?].
    + exists false. split; [done|]. split; [done|].
      intros H. apply Forall2_cons in H as [[_ ?] _]. done.
Qed.

Lemma LeafEq_spec (a b : InputSection) :
  fde_tail_ok a -> fde_tail_ok b ->
  exists r, LeafEq a b = Some r /\ (r = true <-> leaf_equal a b).
Proof.
  intros Ha Hb. unfold LeafEq, leaf_equal, bytes_eqb.
  case_bool_decide as Hc; cbn [negb].
  2:{ exists false. split; [done|]. split; [done | by intros [? _]]. }
  destruct (Nat.eqb_spec (length (fdes a)) (length (fdes b))) as [Hl | Hl]; cbn [negb].
  2:{ exists false. split; [done|]. split; [done | by intros (_ & ? & _)]. }
  destruct (fdes_eq_spec (fdes a) (fdes b) Ha Hb Hl) as (r & -> & Hr).
  exists r. split; [done|]. rewrite Hr. tauto.
Qed.

Lemma LeafEq_static (a a' b b' : InputSection) :
  static a = static a' -> static b = static b' -> LeafEq a b = LeafEq a' b'.
Proof.
  intros Ha Hb. change (LeafEq (static a) (static b) = LeafEq (static a') (static b')).
  by rewrite Ha, Hb.
Qed.

Lemma LeafHasher_static (a a' : InputSection) :
  static a = static a' -> LeafHasher std_hash a = LeafHasher std_hash a'.
Proof.
  intros Ha. change (LeafHasher std_hash (static a) = LeafHasher std_hash (static a')).
  by rewrite Ha.
Qed.

Lemma static_facts (a a' : InputSection) :
  static a = static a' ->
  is_eligible a = is_eligible a' /\ is_leaf a = is_leaf a' /\
  get_priority a = get_priority a' /\ (leaf_equal a a') /\ (fde_tail_ok a <-> fde_tail_ok a').
Proof.
  intros H.
  change (is_eligible (static a) = is_eligible (static a') /\
          is_leaf (static a) = is_leaf (static a') /\
          get_priority (static a) = get_priority (static a') /\
          leaf_equal (static a) (static a') /\
          (fde_tail_ok (static a) <-> fde_tail_ok (static a'))).
  rewrite H. repeat split; done.
Qed.

Lemma static_mark (s : InputSection) : static (mark s) = static s.
Proof. unfold mark. by destruct (is_eligible s), (is_leaf s). Qed.


Variable L : Linker.
Hypothesis Hok : leaf_input_ok L.

Lemma member_tail_ok (p : nat) (s : InputSection) : leaf_member L p s -> fde_tail_ok s.
Proof.
  intros (Hin & Hs & He & Hl). destruct (Hok p Hin) as (s' & Hs' & _ & _ & Ht).
  simplify_eq. by apply Ht.
Qed.

Lemma find_key_spec (st : list InputSection) (m : leaf_map) (isec s0 : InputSection) (p : nat) :
  similar L st ->
  (forall j k v, m !! j = Some (k, v) -> exists sk, leaf_member L k sk) ->
  leaf_member L p s0 -> static isec = static s0 ->
  exists r, find_key st m isec = Some r /\
    match r with
    | Some j => exists k v sk, m !! j = Some (k, v) /\ secs L !! k = Some sk /\ leaf_equal sk s0
    | None => forall j k v sk, m !! j = Some (k, v) -> secs L !! k = Some sk -> ~ leaf_equal sk s0
    end.
Proof.
  intros Hsim Hkeys Hmem Hstat. induction m as [|[k v] m IH]; cbn [find_key].
  - exists None. split; [done|]. intros j k v sk Hj. by destruct j.
  - destruct (Hkeys 0%nat k v eq_refl) as (sk & Hk).
    destruct (Hsim k sk (proj1 (proj2 Hk))) as (ksec & Hksec & Hkstat).
    rewrite Hksec. rewrite (LeafEq_static ksec sk isec s0 Hkstat Hstat).
    destruct (LeafEq_spec sk s0) as (r & -> & Hr); [by eapply member_tail_ok..|].
    destruct r.
    + exists (Some 0%nat). split; [done|]. exists k, v, sk. split; [done|].
      split; [apply Hk | by apply Hr].
    + destruct IH as (r & -> & Hspec). { intros j k' v' Hj. apply (Hkeys (S j) k' v' Hj). }
      exists (S <$> r). split; [done|]. destruct r as [j|]; cbn.
      * exact Hspec.
      * intros [|j] k' v' sk' Hj Hsk'.
        -- cbn in Hj. simplify_eq. destruct Hk as (_ & Hsk & _). simplify_eq.
           intros Heq. apply Hr in Heq. done.
        -- by apply (Hspec j k' v' sk').
Qed.

Lemma map_find_spec (st : list InputSection) (m : leaf_map) (isec s0 : InputSection) (p : nat) :
  similar L st ->
  (forall j k v, m !! j = Some (k, v) -> exists sk, leaf_member L k sk) ->
  leaf_member L p s0 -> static isec = static s0 ->
  exists r, map_find std_hash st m isec = Some r /\
    match r with
    | Some j => exists k v sk, m !! j = Some (k, v) /\ secs L !! k = Some sk /\ leaf_equal sk s0
    | None => forall j k v sk, m !! j = Some (k, v) -> secs L !! k = Some sk -> ~ leaf_equal sk s0
    end.
Proof.
  intros Hsim Hkeys Hmem Hstat. unfold map_find.
  rewrite (LeafHasher_static isec s0 Hstat).
  destruct (LeafHasher_defined s0) as [h ->]; [by eapply member_tail_ok|].
  by eapply find_key_spec.
Qed.


Lemma member_unique (p : nat) (s s' : InputSection) :
  leaf_member L p s -> secs L !! p = Some s' -> s' = s.
Proof. intros (_ & Hs & _) Hs'. congruence. Qed.

Lemma map_ok_skip (m : leaf_map) (done : list nat) (p : nat) :
  map_ok L m done -> (forall s, ~ leaf_member L p s) -> map_ok L m (done ++ [p]).
Proof.
  intros [Ha Hb Hc Hd] Hnot. split.
  - intros j k v Hj. destruct (Ha j k v Hj) as (sk & sv & ? & ? & ? & ? & ?).
    exists sk, sv. split_and!; try done; apply elem_of_app; by left.
  - intros q sq Hq Hmem. apply elem_of_app in Hq as [Hq | Hq]; [by eapply Hb|].
    apply list_elem_of_singleton in Hq as ->. by destruct (Hnot sq).
  - exact Hc.
  - intros j k v sk sv q sq Hj Hk Hv Hq Hmem Heq.
    apply elem_of_app in Hq as [Hq | Hq]; [by eapply Hd|].
    apply list_elem_of_singleton in Hq as ->. by destruct (Hnot sq).
Qed.

Lemma map_ok_append (m : leaf_map) (done : list nat) (p : nat) (s0 : InputSection) :
  map_ok L m done -> leaf_member L p s0 ->
  (forall j k v sk, m !! j = Some (k, v) -> secs L !! k = Some sk -> ~ leaf_equal sk s0) ->
  map_ok L (m ++ [(p, p)]) (done ++ [p]).
Proof.
  intros [Ha Hb Hc Hd] Hmem Hnone.
  assert (Hp : p ∈ done ++ [p]) by (apply elem_of_app; right; by apply list_elem_of_singleton).
  assert (Hs0 : secs L !! p = Some s0) by apply Hmem.
  split.
  - intros j k v Hj. apply lookup_app_Some in Hj as [Hj | [_ Hj]].
    + destruct (Ha j k v Hj) as (sk & sv & ? & ? & ? & ? & ?).
      exists sk, sv. split_and!; try done; apply elem_of_app; by left.
    + destruct (j - length m)%nat; [|by destruct n]. cbn in Hj. injection Hj as <- <-.
      exists s0, s0. split_and!; try done; apply Hmem.
  - intros q sq Hq Hmq. apply elem_of_app in Hq as [Hq | Hq].
    + destruct (Hb q sq Hq Hmq) as (j & k & v & sk & Hj & ? & ?).
      exists j, k, v, sk. split; [|done]. by apply lookup_app_l_Some.
    + apply list_elem_of_singleton in Hq as ->.
      exists (length m), p, p, s0. split; [|split; [done|]].
      * rewrite lookup_app_r by lia. by rewrite Nat.sub_diag.
      * rewrite (member_unique p s0 sq Hmem (proj1 (proj2 Hmq))). reflexivity.
  - intros j j' k v k' v' sk sk' Hj Hj' Hk Hk' Heq.
    apply lookup_app_Some in Hj as [Hj | [Hlj Hj]];
      apply lookup_app_Some in Hj' as [Hj' | [Hlj' Hj']].
    + by eapply Hc.
    + destruct (j' - length m)%nat; [|by destruct n]. cbn in Hj'. injection Hj' as <- <-.
      assert (sk' = s0) as -> by congruence.
      by destruct (Hnone j k v sk Hj Hk).
    + destruct (j - length m)%nat; [|by destruct n]. cbn in Hj. injection Hj as <- <-.
      assert (sk = s0) as -> by congruence.
      destruct (Hnone j' k' v' sk' Hj' Hk'). by symmetry.
    + destruct (j - length m)%nat eqn:E; [|by destruct n].
      destruct (j' - length m)%nat eqn:E'; [|by destruct n]. lia.
  - intros j k v sk sv q sq Hj Hk Hv Hq Hmq Heq.
    apply lookup_app_Some in Hj as [Hj | [_ Hj]].
    + apply elem_of_app in Hq as [Hq | Hq]; [by eapply Hd|].
      apply list_elem_of_singleton in Hq as ->.
      rewrite (member_unique p s0 sq Hmem (proj1 (proj2 Hmq))) in Heq.
      by destruct (Hnone j k v sk Hj Hk).
    + destruct (j - length m)%nat; [|by destruct n]. cbn in Hj. injection Hj as <- <-.
      apply elem_of_app in Hq as [Hq | Hq].
      * destruct (Hb q sq Hq Hmq) as (j' & k' & v' & sk' & Hj' & Hk' & Heq').
        assert (sk = s0) as -> by congruence.
        destruct (Hnone j' k' v' sk' Hj' Hk'). transitivity sq; [exact Heq' | by symmetry].
      * apply list_elem_of_singleton in Hq as ->.
        rewrite (member_unique p sq sv Hmq Hv). lia.
Qed.

Lemma map_ok_update (m : leaf_map) (done : list nat) (p : nat) (s0 : InputSection)
  (j : nat) (k v : nat) (sk sv : InputSection) (lower : bool) :
  map_ok L m done -> leaf_member L p s0 ->
  m !! j = Some (k, v) -> secs L !! k = Some sk -> secs L !! v = Some sv ->
  leaf_equal sk s0 ->
  lower = (get_priority s0 <? get_priority sv) ->
  map_ok L (if lower then <[j := (k, p)]> m else m) (done ++ [p]).
Proof.
  intros [Ha Hb Hc Hd] Hmem Hj Hk Hv Heq Hlow.
  assert (Hp : p ∈ done ++ [p]) by (apply elem_of_app; right; by apply list_elem_of_singleton).
  assert (Hs0 : secs L !! p = Some s0) by apply Hmem.
  assert (Hjlt : (j < length m)%nat) by (by eapply lookup_lt_Some).
  assert (Hkey : forall i k' v', (if lower then <[j := (k, p)]> m else m) !! i = Some (k', v') ->
            exists v0, m !! i = Some (k', v0) /\
              ((v' = v0 /\ (i = j -> lower = false)) \/ (i = j /\ lower = true /\ v' = p))).
  { intros i k' v' Hi. destruct lower; [|by eauto 10].
    destruct (decide (i = j)) as [-> | Hne].
    - rewrite list_lookup_insert_eq in Hi by done. simplify_eq. eauto 10.
    - rewrite list_lookup_insert_ne in Hi by done. exists v'. split; [done|]. left. by split. }
  split.
  - intros i k' v' Hi. destruct (Hkey i k' v' Hi) as (v0 & Hi0 & [[-> _] | (-> & _ & ->)]).
    + destruct (Ha i k' v0 Hi0) as (sk' & sv' & ? & ? & ? & ? & ?).
      exists sk', sv'. split_and!; try done; apply elem_of_app; by left.
    + assert (k' = k) as -> by congruence.
      destruct (Ha j k v Hj) as (sk' & sv' & Hmk & ? & ? & ? & ?).
      exists sk', s0. split_and!; try done.
      * apply elem_of_app; by left.
      * by rewrite <- (member_unique k sk' sk Hmk Hk).
  - intros q sq Hq Hmq.
    assert (exists i k' v' sk', m !! i = Some (k', v') /\ secs L !! k' = Some sk' /\
              leaf_equal sk' sq) as (i & k' & v' & sk' & Hi & Hk' & Heq').
    { apply elem_of_app in Hq as [Hq | Hq]; [by eapply Hb|].
      apply list_elem_of_singleton in Hq as ->.
      rewrite (member_unique p s0 sq Hmem (proj1 (proj2 Hmq))). by exists j, k, v, sk. }
    destruct lower; [|by exists i, k', v', sk'].
    destruct (decide (i = j)) as [-> | Hne].
    + assert (k' = k) as -> by congruence. exists j, k, p, sk'.
      split; [by rewrite list_lookup_insert_eq | done].
    + exists i, k', v', sk'. split; [by rewrite list_lookup_insert_ne | done].
  - intros i i' k1 v1 k2 v2 sk1 sk2 Hi Hi' Hk1 Hk2 Heq12.
    destruct (Hkey i k1 v1 Hi) as (? & Hi0 & _). destruct (Hkey i' k2 v2 Hi') as (? & Hi0' & _).
    by eapply Hc.
  - intros i k' v' sk' sv' q sq Hi Hk' Hv' Hq Hmq Heq'.
    assert (Hq' : q ∈ done \/ (q = p /\ sq = s0)).
    { apply elem_of_app in Hq as [Hq | Hq]; [by left|].
      apply list_elem_of_singleton in Hq as ->. right. split; [done|].
      exact (member_unique p s0 sq Hmem (proj1 (proj2 Hmq))). }
    destruct (Hkey i k' v' Hi) as (v0 & Hi0 & [[-> Hlo] | (-> & -> & ->)]).
    + destruct Hq' as [Hq' | [-> ->]]; [by eapply Hd|].
      assert (i = j) as ->.
      { eapply (Hc i j k' v0 k v sk' sk); try done. transitivity s0; [done | by symmetry]. }
      assert (v0 = v) as -> by congruence. assert (sv' = sv) as -> by congruence.
      specialize (Hlo eq_refl). rewrite Hlo in Hlow. symmetry in Hlow.
      apply Z.ltb_ge in Hlow. done.
    + assert (k' = k) as -> by congruence. assert (sk' = sk) as -> by congruence.
      assert (sv' = s0) as -> by congruence.
      symmetry in Hlow. apply Z.ltb_lt in Hlow.
      destruct Hq' as [Hq' | [-> ->]]; [|lia].
      pose proof (Hd j k v sk sv q sq Hj Hk Hv Hq' Hmq Heq'). lia.
Qed.


Lemma marked_similar (st : list InputSection) (done : list nat) :
  (forall p, st !! p = if decide (p ∈ done) then mark <$> secs L !! p else secs L !! p) ->
  similar L st.
Proof.
  intros H p s0 Hs0. rewrite H, Hs0. destruct (decide (p ∈ done)); cbn.
  - eexists. split; [done|]. apply static_mark.
  - by eexists.
Qed.

Lemma marked_step (st : list InputSection) (done : list nat) (p : nat) (s0 : InputSection) :
  (forall p, st !! p = if decide (p ∈ done) then mark <$> secs L !! p else secs L !! p) ->
  secs L !! p = Some s0 ->
  forall q, <[p := mark s0]> st !! q
            = if decide (q ∈ done ++ [p]) then mark <$> secs L !! q else secs L !! q.
Proof.
  intros H Hs0 q. destruct (decide (q = p)) as [-> | Hne].
  - rewrite list_lookup_insert_eq.
    + rewrite decide_True, Hs0; [done|]. apply elem_of_app. right. by apply list_elem_of_singleton.
    + apply lookup_lt_is_Some. rewrite H, Hs0. destruct (decide (p ∈ done)); by eexists.
  - rewrite list_lookup_insert_ne, H by done.
    destruct (decide (q ∈ done)) as [Hq | Hq].
    + rewrite decide_True; [done|]. apply elem_of_app. by left.
    + rewrite decide_False; [done|]. intros Hq'. apply elem_of_app in Hq' as [Hq' | Hq']; [done|].
      by apply list_elem_of_singleton in Hq'.
Qed.

Lemma classify_step (st : list InputSection) (m : leaf_map) (done : list nat) (p : nat) :
  p ∈ all_sections L -> pass1_inv L st m done ->
  exists st' m', classify std_hash (st, m) p = Some (st', m') /\
                 pass1_inv L st' m' (done ++ [p]).
Proof.
  intros Hin [Hst Hm]. destruct (Hok p Hin) as (s0 & Hs0 & Hfl & Hfe & Htail).
  assert (exists isec, st !! p = Some isec /\ (isec = s0 \/ isec = mark s0))
    as (isec & Hisec & Hcases).
  { rewrite Hst, Hs0. destruct (decide (p ∈ done)); eauto. }
  assert (Hstat : static isec = static s0).
  { destruct Hcases as [-> | ->]; [done | apply static_mark]. }
  destruct (static_facts isec s0 Hstat) as (Hel & Hlf & _).
  pose proof (marked_step st done p s0 Hst Hs0) as Hst'.
  unfold classify. cbn [fst snd]. rewrite Hisec. cbn [mbind option_bind]. rewrite Hel, Hlf.
  destruct (is_eligible s0) eqn:He; cbn [negb].
  2:{ exists st, m. split; [done|]. split.
      - assert (mark s0 = isec) as Hmk.
        { unfold mark in *. rewrite He in *. by destruct Hcases. }
        rewrite Hmk, list_insert_id in Hst' by done. exact Hst'.
      - apply map_ok_skip; [done|]. intros s (_ & Hs & He' & _). congruence. }
  destruct (is_leaf s0) eqn:Hl.
  2:{ assert (set_icf_eligible true isec = mark s0) as ->.
      { unfold mark in *. rewrite He, Hl in *. by destruct Hcases as [-> | ->]. }
      exists (<[p := mark s0]> st), m. split; [done|]. split; [done|].
      apply map_ok_skip; [done|]. intros s (_ & Hs & _ & Hl'). congruence. }
  assert (set_icf_leaf true isec = mark s0) as ->.
  { unfold mark in *. rewrite He, Hl in *. by destruct Hcases as [-> | ->]. }
  assert (Hmem : leaf_member L p s0) by done.
  assert (Hsim : similar L (<[p := mark s0]> st)) by (by eapply marked_similar).
  assert (Hkeys : forall j k v, m !! j = Some (k, v) -> exists sk, leaf_member L k sk).
  { intros j k v Hj. destruct (map_entries L m done Hm j k v Hj) as (sk & _ & ? & _). eauto. }
  assert (Hnew : <[p := mark s0]> st !! p = Some (mark s0)).
  { rewrite Hst', decide_True, Hs0; [done|].
    apply elem_of_app. right. by apply list_elem_of_singleton. }
  unfold leaf_insert. rewrite Hnew. cbn [mbind option_bind].
  destruct (map_find_spec (<[p := mark s0]> st) m (mark s0) s0 p Hsim Hkeys Hmem (static_mark s0))
    as (r & -> & Hr).
  cbn [mbind option_bind]. destruct r as [j|].
  - destruct Hr as (k & v & sk & Hj & Hk & Heq). rewrite Hj. cbn [mbind option_bind fst snd].
    destruct (map_entries L m done Hm j k v Hj) as (sk' & sv & Hmk & Hmv & _).
    destruct (Hsim v sv (proj1 (proj2 Hmv))) as (vsec & Hvsec & Hvstat).
    rewrite Hvsec. cbn [mbind option_bind].
    destruct (static_facts vsec sv Hvstat) as (_ & _ & -> & _).
    destruct (static_facts (mark s0) s0 (static_mark s0)) as (_ & _ & -> & _).
    exists (<[p := mark s0]> st),
      (if get_priority s0 <? get_priority sv then <[j := (k, p)]> m else m). split.
    + destruct (get_priority s0 <? get_priority sv); reflexivity.
    + split; [done|].
      exact (map_ok_update m done p s0 j k v sk sv
               (get_priority s0 <? get_priority sv) Hm Hmem Hj Hk
               (proj1 (proj2 Hmv)) Heq eq_refl).
  - eexists _, _. split; [done|]. split; [done|]. by apply (map_ok_append m done p s0).
Qed.


Lemma pass1_run (todo : list nat) (st : list InputSection) (m : leaf_map) (done : list nat) :
  (forall p, p ∈ todo -> p ∈ all_sections L) -> pass1_inv L st m done ->
  exists st' m', foldM (classify std_hash) (st, m) todo = Some (st', m') /\
                 pass1_inv L st' m' (done ++ todo).
Proof.
  revert st m done. induction todo as [|p todo IH]; intros st m done Hin Hinv.
  - exists st, m. by rewrite app_nil_r.
  - destruct (classify_step st m done p) as (st1 & m1 & Hstep & Hinv1); [apply Hin; left | done |].
    destruct (IH st1 m1 (done ++ [p])) as (st2 & m2 & Hrun & Hinv2);
      [intros q Hq; apply Hin; by right | done |].
    exists st2, m2. cbn [foldM]. rewrite Hstep. split; [done|].
    by rewrite <- app_assoc in Hinv2.
Qed.

Lemma pass1_init : pass1_inv L (secs L) [] [].
Proof.
  split.
  - intros p. destruct (decide (p ∈ [])) as [Hp | _]; [inversion Hp | done].
  - split.
    + intros j k v Hj. by destruct j.
    + intros q sq Hq. inversion Hq.
    + intros j j' k v k' v' sk sk' Hj. by destruct j.
    + intros j k v sk sv q sq Hj. by destruct j.
Qed.


Lemma map_ok_table (m : leaf_map) (done : list nat) : map_ok L m done -> table_ok L m done.
Proof. intros [Ha Hb Hc _]. by split. Qed.

Section SecondLoop.

Variable st1 : list InputSection.
Variable m : leaf_map.
Hypothesis Hmarks : forall p,
  st1 !! p = if decide (p ∈ all_sections L) then mark <$> secs L !! p else secs L !! p.
Hypothesis Htable : table_ok L m (all_sections L).

Lemma pass2_similar (st2 : list InputSection) (done : list nat) :
  pass2_inv L st1 m st2 done -> similar L st2.
Proof.
  intros Hinv q s0 Hs0.
  destruct (marked_similar st1 _ Hmarks q s0 Hs0) as (s1 & Hs1 & Hstat).
  destruct (Hinv q s1 Hs1) as [[Hq _] | (v & _ & _ & Hq)]; eauto.
Qed.

Lemma marked_leaf (p : nat) (s0 s1 : InputSection) :
  p ∈ all_sections L -> secs L !! p = Some s0 -> st1 !! p = Some s1 ->
  s1 = mark s0 /\
  icf_leaf s1 = is_eligible s0 && is_leaf s0 /\
  icf_eligible s1 = is_eligible s0 && negb (is_leaf s0) /\
  leader s1 = leader s0.
Proof.
  intros Hin Hs0 Hs1. destruct (Hok p Hin) as (s & Hs & Hfl & Hfe & _).
  assert (s = s0) as -> by congruence.
  rewrite Hmarks, decide_True, Hs0 in Hs1 by done. cbn in Hs1.
  injection Hs1 as <-. split; [done|]. unfold mark.
  destruct (is_eligible s0), (is_leaf s0); cbn; by rewrite ?Hfl, ?Hfe.
Qed.

Lemma assign_step (st2 : list InputSection) (done : list nat) (p : nat) :
  p ∈ all_sections L -> pass2_inv L st1 m st2 done ->
  exists st2', assign_leaf_leader std_hash m st2 p = Some st2' /\ pass2_inv L st1 m st2' (done ++ [p]).
Proof.
  intros Hin Hinv. destruct (Hok p Hin) as (s0 & Hs0 & _).
  destruct (marked_similar st1 _ Hmarks p s0 Hs0) as (s1 & Hs1 & Hstat).
  destruct (marked_leaf p s0 s1 Hin Hs0 Hs1) as (Hmark & Hleaf & _).
  assert (exists isec, st2 !! p = Some isec /\ icf_leaf isec = icf_leaf s1 /\
            static isec = static s0 /\
            forall v, set_leader (Some v) isec = set_leader (Some v) s1)
    as (isec & Hisec & Hil & Histat & Hset).
  { destruct (Hinv p s1 Hs1) as [[Hq _] | (v & _ & _ & Hq)]; eauto 10. }
  unfold assign_leaf_leader. rewrite Hisec. cbn [mbind option_bind]. rewrite Hil.
  destruct (icf_leaf s1) eqn:Hl1; cbn [negb].
  2:{ exists st2. split; [done|]. intros q s1' Hs1'.
      destruct (Hinv q s1' Hs1') as [[Hq Hd] | Hr]; [|by right].
      left. split; [done|]. intros Hq'. apply elem_of_app in Hq' as [Hq' | Hq']; [by apply Hd|].
      apply list_elem_of_singleton in Hq' as ->. congruence. }
  symmetry in Hleaf. apply andb_true_iff in Hleaf as [He Hlf].
  assert (Hmem : leaf_member L p s0) by done.
  assert (Hkeys : forall j k v, m !! j = Some (k, v) -> exists sk, leaf_member L k sk).
  { intros j k v Hj.
    destruct (table_entries L m _ Htable j k v Hj) as (sk & _ & ? & _). eauto. }
  destruct (map_find_spec st2 m isec s0 p (pass2_similar st2 done Hinv) Hkeys Hmem Histat)
    as (r & -> & Hr).
  cbn [mbind option_bind]. destruct r as [j|].
  2:{ exfalso. destruct (table_covers L m _ Htable p s0 Hin Hmem)
        as (j & k & v & sk & Hj & Hk & Heq). by apply (Hr j k v sk). }
  destruct Hr as (k & v & sk & Hj & Hk & Heq). cbn [mbind option_bind]. rewrite Hj.
  cbn [mbind option_bind snd]. rewrite Hset.
  eexists. split; [done|]. intros q s1' Hs1'. destruct (decide (q = p)) as [-> | Hne].
  - right. exists v. assert (s1' = s1) as -> by congruence.
    split; [by exists j, k, sk, s0|]. split; [done|].
    rewrite list_lookup_insert_eq; [done | by eapply lookup_lt_Some].
  - rewrite list_lookup_insert_ne by done.
    destruct (Hinv q s1' Hs1') as [[Hq Hd] | Hrr]; [|by right].
    left. split; [done|]. intros Hq'. apply elem_of_app in Hq' as [Hq' | Hq']; [by apply Hd|].
    by apply list_elem_of_singleton in Hq'.
Qed.

Lemma pass2_run (todo : list nat) (st2 : list InputSection) (done : list nat) :
  (forall p, p ∈ todo -> p ∈ all_sections L) -> pass2_inv L st1 m st2 done ->
  exists st2', foldM (assign_leaf_leader std_hash m) st2 todo = Some st2' /\
               pass2_inv L st1 m st2' (done ++ todo).
Proof.
  revert st2 done. induction todo as [|p todo IH]; intros st2 done Hin Hinv.
  - exists st2. by rewrite app_nil_r.
  - destruct (assign_step st2 done p) as (st3 & Hstep & Hinv3); [apply Hin; left | done |].
    destruct (IH st3 (done ++ [p])) as (st4 & Hrun & Hinv4);
      [intros q Hq; apply Hin; by right | done |].
    exists st4. cbn [foldM]. rewrite Hstep. split; [done|].
    by rewrite <- app_assoc in Hinv4.
Qed.

(** The second loop on a store and a table as the first loop leaves
    them. *)
Lemma second_loop_spec :
  exists st2,
    foldM (assign_leaf_leader std_hash m) st1 (all_sections L) = Some st2 /\
    forall p s0, p ∈ all_sections L -> secs L !! p = Some s0 ->
      exists s', st2 !! p = Some s' /\ static s' = static s0 /\
        icf_leaf s' = is_eligible s0 && is_leaf s0 /\
        icf_eligible s' = is_eligible s0 && negb (is_leaf s0) /\
        if is_eligible s0 && is_leaf s0 then exists v, rep L m p v /\ leader s' = Some v
        else leader s' = leader s0.
Proof.
  destruct (pass2_run (all_sections L) st1 []) as (st2 & Hrun2 & Hinv2); [done | |].
  { intros q s1 Hs1. left. split; [done|]. intros Hq. inversion Hq. }
  rewrite app_nil_l in Hinv2. exists st2. split; [done|].
  intros p s0 Hin Hs0.
  destruct (marked_similar st1 _ Hmarks p s0 Hs0) as (s1 & Hs1 & Hstat).
  destruct (marked_leaf p s0 s1 Hin Hs0 Hs1) as (_ & Hleaf & Helig & Hlead).
  destruct (Hinv2 p s1 Hs1) as [[Hq Hd] | (v & Hrep & Hl1 & Hq)].
  - exists s1. specialize (Hd Hin). rewrite <- Hleaf, Hd, <- Helig. by split_and!.
  - exists (set_leader (Some v) s1). rewrite <- Hleaf, Hl1, <- Helig. split_and!; try done.
    by exists v.
Qed.

End SecondLoop.


Lemma leaf_pass_spec :
  exists st m,
    leaf_pass std_hash L = Some (mkLinker st (syms L) (objs L)) /\
    map_ok L m (all_sections L) /\
    forall p s0, p ∈ all_sections L -> secs L !! p = Some s0 ->
      exists s', st !! p = Some s' /\ static s' = static s0 /\
        icf_leaf s' = is_eligible s0 && is_leaf s0 /\
        icf_eligible s' = is_eligible s0 && negb (is_leaf s0) /\
        if is_eligible s0 && is_leaf s0 then exists v, rep L m p v /\ leader s' = Some v
        else leader s' = leader s0.
Proof.
  destruct (pass1_run (all_sections L) (secs L) [] []) as (st1 & m & Hrun1 & Hinv1);
    [done | apply pass1_init |].
  rewrite app_nil_l in Hinv1.
  destruct (second_loop_spec st1 m (proj1 Hinv1) (map_ok_table _ _ (proj2 Hinv1)))
    as (st2 & Hrun2 & Hst2).
  exists st2, m. split; [|split; [apply Hinv1 | exact Hst2]].
  unfold leaf_pass. rewrite Hrun1. cbn [mbind option_bind fst snd]. by rewrite Hrun2.
Qed.

End Leaf.

Lemma is_eligible_spec (s : InputSection) :
  is_eligible s = true <->
  Z.land (sh_flags s) SHF_ALLOC <> 0 /\ Z.land (sh_flags s) SHF_EXECINSTR <> 0 /\
  Z.land (sh_flags s) SHF_WRITE = 0 /\ sh_type s <> SHT_NOBITS /\
  ~ (sh_type s = SHT_INIT_ARRAY \/ name s = ".init"%string) /\
  ~ (sh_type s = SHT_FINI_ARRAY \/ name s = ".fini"%string) /\
  is_c_identifier (name s) = false.
Proof.
  unfold is_eligible, flag_set.
  rewrite !andb_true_iff, negb_involutive, !negb_true_iff, !orb_false_iff, !Z.eqb_neq,
    !String.eqb_neq, Z.eqb_eq.
  tauto.
Qed.

(** ** The section enumerator *)

Lemma for_loop_inv {S : Type} (P : S -> Prop) (body : Z -> S -> option S) (n : nat) (i : Z)
  (s s' : S) :
  for_loop n i body s = Some s' ->
  (forall i s s', body i s = Some s' -> P s -> P s') -> P s -> P s'.
Proof.
  intros Hrun Hstep. revert i s Hrun. induction n as [|n IH]; intros i s; cbn [for_loop].
  - by intros [= <-].
  - destruct (body i s) as [s1|] eqn:Hb; [|done]. intros Hrun Hs. eapply IH; eauto.
Qed.

Lemma foldM_inv {A S : Type} (P : S -> Prop) (f : S -> A -> option S) (l : list A) (s s' : S) :
  foldM f s l = Some s' ->
  (forall s x s', f s x = Some s' -> P s -> P s') -> P s -> P s'.
Proof.
  intros Hrun Hstep. revert s Hrun. induction l as [|x l IH]; intros s; cbn [foldM].
  - by intros [= <-].
  - destruct (f s x) as [s1|] eqn:Hf; [|done]. intros Hrun Hs. eapply IH; eauto.
Qed.

Lemma foldM_fixed {A S : Type} (f : S -> A -> option S) (s : S) (l : list A) :
  (forall x, x ∈ l -> f s x = Some s) -> foldM f s l = Some s.
Proof.
  induction l as [|x l IH]; intros H; cbn [foldM]; [done|].
  rewrite H by left. apply IH. intros y Hy. apply H. by right.
Qed.

Lemma store_index_insert {A : Type} (v v' : list A) (i : Z) (x : A) :
  store_index v i x = Some v' -> v' = <[Z.to_nat i := x]> v.
Proof.
  unfold store_index. destruct ((0 <=? i) && (i <? Z.of_nat (length v))); [|done].
  by intros [= <-].
Qed.

Lemma fill_sections_entries (L : Linker) (section_indices : list Z) (i : Z)
  (v v' : list (option nat)) :
  fill_sections L section_indices i v = Some v' ->
  Forall (participant_entry L) v -> Forall (participant_entry L) v'.
Proof.
  unfold fill_sections. intros H Hv.
  apply bind_Some in H as (f & _ & H). apply bind_Some in H as (idx & _ & H).
  apply bind_Some in H as (r & Hr & [= <-]).
  apply (foldM_inv (fun s => Forall (participant_entry L) (snd s)) _ _ _ _ Hr); [|done].
  intros s p s' Hstep Hs. apply bind_Some in Hstep as (isec & Hisec & Hstep).
  destruct (icf_eligible isec) eqn:He; [|by injection Hstep as <-].
  apply bind_Some in Hstep as (w & Hw & [= <-]). cbn [snd].
  apply store_index_insert in Hw as ->. apply Forall_insert; [done|].
  intros q [= <-]. eauto.
Qed.

Lemma set_index_frame (sections : list (option nat)) (i : Z) (st st' : list InputSection) :
  set_index sections i st = Some st' ->
  forall p, leader <$> st' !! p = leader <$> st !! p /\
            icf_eligible <$> st' !! p = icf_eligible <$> st !! p /\
            icf_leaf <$> st' !! p = icf_leaf <$> st !! p /\
            static <$> st' !! p = static <$> st !! p.
Proof.
  unfold set_index. intros H p.
  apply bind_Some in H as (q & _ & H). apply bind_Some in H as (t & _ & H).
  apply bind_Some in H as (isec & Hisec & [= <-]).
  destruct (decide (p = t)) as [-> | Hne].
  - rewrite list_lookup_insert_eq by (by eapply lookup_lt_Some). by rewrite Hisec.
  - by rewrite list_lookup_insert_ne.
Qed.

Lemma gather_sections_spec (L L' : Linker) (ptrs : list nat) :
  gather_sections L = Some (L', ptrs) ->
  syms L' = syms L /\ objs L' = objs L /\
  (forall p, leader <$> secs L' !! p = leader <$> secs L !! p /\
             icf_eligible <$> secs L' !! p = icf_eligible <$> secs L !! p /\
             icf_leaf <$> secs L' !! p = icf_leaf <$> secs L !! p /\
             static <$> secs L' !! p = static <$> secs L !! p) /\
  (forall q, q ∈ ptrs -> exists s, secs L !! q = Some s /\ icf_eligible s = true).
Proof.
  unfold gather_sections. intros H.
  apply bind_Some in H as (num & _ & H). apply bind_Some in H as (idx & _ & H).
  apply bind_Some in H as (li & _ & H). apply bind_Some in H as (ln & _ & H).
  apply bind_Some in H as (sections & Hfill & H). apply bind_Some in H as (st & Hset & H).
  apply bind_Some in H as (ps & Hps & [= <- <-]). cbn [syms objs secs].
  split; [done|]. split; [done|]. split.
  - apply (for_loop_inv (fun st' => forall p,
             leader <$> st' !! p = leader <$> secs L !! p /\
             icf_eligible <$> st' !! p = icf_eligible <$> secs L !! p /\
             icf_leaf <$> st' !! p = icf_leaf <$> secs L !! p /\
             static <$> st' !! p = static <$> secs L !! p) _ _ _ _ _ Hset); [|done].
    intros i s s' Hstep Hs p. destruct (set_index_frame _ _ _ _ Hstep p) as (-> & -> & -> & ->).
    apply Hs.
  - assert (Forall (participant_entry L) sections) as Hall.
    { apply (for_loop_inv _ _ _ _ _ _ Hfill).
      - intros i s s'. apply fill_sections_entries.
      - apply Forall_replicate. by intros q. }
    intros q Hq. apply mapM_Some in Hps.
    apply list_elem_of_lookup in Hq as [n Hn].
    destruct (Forall2_lookup_r _ _ _ _ _ Hps Hn) as (o & Ho & Hid). cbn in Hid. subst o.
    rewrite Forall_forall in Hall. apply (Hall (Some q)); [|done].
    by eapply list_elem_of_lookup_2.
Qed.

(** ** The leaders of the leaves are final *)

Lemma set_run_leader_frame (st st' : list InputSection) (lead : sort_key) (rest : list sort_key) :
  set_run_leader st lead rest = Some st' ->
  forall p, p ∉ key_section <$> rest -> st' !! p = st !! p.
Proof.
  revert st. induction rest as [|k rest IH]; intros st; cbn [set_run_leader].
  - by intros [= <-].
  - destruct (bytes_eqb (key_digest lead) (key_digest k)); [|by intros [= <-]].
    destruct (st !! key_section k) as [isec|]; [|done].
    intros Hrun p Hp. rewrite fmap_cons in Hp. apply not_elem_of_cons in Hp as [Hne Hp].
    rewrite (IH _ Hrun p Hp). by rewrite list_lookup_insert_ne.
Qed.

Lemma elect_at_frame (sorted : list sort_key) (i : Z) (st st' : list InputSection) :
  elect_at sorted i st = Some st' ->
  forall p, p ∉ key_section <$> sorted -> st' !! p = st !! p.
Proof.
  unfold elect_at. intros H p Hp.
  apply bind_Some in H as (cur & Hcur & H). apply bind_Some in H as (b & _ & H).
  destruct b; [|by injection H as <-].
  apply bind_Some in H as (isec & _ & H).
  rewrite (set_run_leader_frame _ _ _ _ H).
  - rewrite list_lookup_insert_ne; [done|]. intros <-. apply Hp.
    apply list_elem_of_fmap. exists cur. split; [done|].
    unfold at_index in Hcur. destruct (i <? 0); [done|]. by eapply list_elem_of_lookup_2.
  - intros Hin. apply Hp. apply list_elem_of_fmap in Hin as (k & -> & Hk).
    apply list_elem_of_fmap. exists k. split; [done|].
    apply list_elem_of_lookup in Hk as [n Hn]. rewrite lookup_drop in Hn.
    by eapply list_elem_of_lookup_2.
Qed.

Lemma elect_leaders_frame (sorted : list sort_key) (st st' : list InputSection) :
  elect_leaders sorted st = Some st' ->
  forall p, p ∉ key_section <$> sorted -> st' !! p = st !! p.
Proof.
  unfold elect_leaders. intros H p Hp.
  apply (for_loop_inv (fun s => s !! p = st !! p) _ _ _ _ _ H); [|done].
  intros i s s' Hstep Hs. by rewrite (elect_at_frame _ _ _ _ Hstep p Hp).
Qed.

Lemma sort_sections_keys (st : list InputSection) (digest : list (list Z)) (sections : list nat)
  (sorted : list sort_key) :
  sort_sections st digest sections = Some sorted ->
  forall p, p ∈ key_section <$> sorted -> p ∈ sections.
Proof.
  unfold sort_sections. intros H p Hp.
  apply bind_Some in H as (keys & Hkeys & [= <-]).
  apply list_elem_of_fmap in Hp as (k & -> & Hk).
  rewrite merge_sort_Permutation in Hk. apply mapM_Some in Hkeys.
  apply list_elem_of_lookup in Hk as [n Hn].
  destruct (Forall2_lookup_r _ _ _ _ _ Hkeys Hn) as (q & Hq & Hkey).
  unfold section_key in Hkey. apply bind_Some in Hkey as (isec & _ & Hkey).
  apply bind_Some in Hkey as (d & _ & [= <-]). cbn. by eapply list_elem_of_lookup_2.
Qed.

Lemma redirect_leader (s s' : list InputSection * list Symbol) (sp : nat) :
  redirect s sp = Some s' -> forall p, leader <$> s'.1 !! p = leader <$> s.1 !! p.
Proof.
  unfold redirect. intros H p. apply bind_Some in H as (sym & _ & H).
  destruct (input_section sym) as [q|]; [|by injection H as <-].
  apply bind_Some in H as (isec & Hisec & H).
  destruct (leader isec) as [l|]; [|by injection H as <-].
  destruct (negb (Nat.eqb l q)); [|by injection H as <-].
  injection H as <-. cbn [fst]. destruct (decide (p = q)) as [-> | Hne].
  - rewrite list_lookup_insert_eq by (by eapply lookup_lt_Some). by rewrite Hisec.
  - by rewrite list_lookup_insert_ne.
Qed.

Lemma commit_leader (L L' : Linker) :
  commit L = Some L' -> forall p, leader <$> secs L' !! p = leader <$> secs L !! p.
Proof.
  unfold commit. intros H p. apply bind_Some in H as (s & Hs & [= <-]). cbn [secs].
  apply (foldM_inv (fun s => leader <$> s.1 !! p = leader <$> secs L !! p) _ _ _ _ Hs); [|done].
  intros s1 sp s2 Hstep Hs1. by rewrite (redirect_leader _ _ _ Hstep).
Qed.

(** The later stages of the pass leave the leader of a section that is
    not in the propagation set as the leaf pass set it. *)
Lemma icf_sections_keeps_leaf_leaders (std_hash : list Z -> Z) (SHA256 : list Z -> list Z)
  (fuel : nat) (L L1 Lf : Linker) (p : nat) (s1 : InputSection) :
  leaf_pass std_hash L = Some L1 -> icf_sections std_hash SHA256 fuel L = Some Lf ->
  secs L1 !! p = Some s1 -> icf_eligible s1 = false ->
  leader <$> secs Lf !! p = leader <$> secs L1 !! p.
Proof.
  intros H1 H Hs1 He. unfold icf_sections in H. rewrite H1 in H. cbn [mbind option_bind] in H.
  apply bind_Some in H as ([L2 sections] & Hg & H). cbn [fst snd] in H.
  apply bind_Some in H as (d0 & _ & H). apply bind_Some in H as (e & _ & H).
  apply bind_Some in H as (r & _ & H). apply bind_Some in H as (digest & _ & H).
  apply bind_Some in H as (sorted & Hsort & H). apply bind_Some in H as (st & Hel & H).
  destruct (gather_sections_spec _ _ _ Hg) as (_ & _ & Hframe & Hptrs).
  rewrite (commit_leader _ _ H). cbn [secs].
  rewrite (elect_leaders_frame _ _ _ Hel).
  - apply Hframe.
  - intros Hin. apply (sort_sections_keys _ _ _ _ Hsort) in Hin.
    destruct (Hptrs p Hin) as (s & Hs & Hes). congruence.
Qed.

(** ** The first loop of the leaf pass under a schedule *)

Section Interleaved.
Variable std_hash : list Z -> Z.
Variable L : Linker.
Hypothesis Hok : leaf_input_ok L.

Lemma table_ok_grow (m : leaf_map) (done : list nat) (p : nat) :
  table_ok L m done ->
  (forall s, leaf_member L p s ->
     exists j k v sk, m !! j = Some (k, v) /\ secs L !! k = Some sk /\ leaf_equal sk s) ->
  table_ok L m (done ++ [p]).
Proof.
  intros [Ha Hb Hc] Hp. split.
  - intros j k v Hj. destruct (Ha j k v Hj) as (sk & sv & ? & ? & ? & ? & ?).
    exists sk, sv. split_and!; try done; apply elem_of_app; by left.
  - intros q sq Hq Hmem. apply elem_of_app in Hq as [Hq | Hq]; [by eapply Hb|].
    apply list_elem_of_singleton in Hq as ->. by apply Hp.
  - exact Hc.
Qed.

Lemma table_ok_append (m : leaf_map) (done : list nat) (p : nat) (s0 : InputSection) :
  table_ok L m done -> leaf_member L p s0 ->
  (forall j k v sk, m !! j = Some (k, v) -> secs L !! k = Some sk -> ~ leaf_equal sk s0) ->
  table_ok L (m ++ [(p, p)]) (done ++ [p]).
Proof.
  intros [Ha Hb Hc] Hmem Hnone.
  assert (Hp : p ∈ done ++ [p]) by (apply elem_of_app; right; by apply list_elem_of_singleton).
  assert (Hs0 : secs L !! p = Some s0) by apply Hmem.
  split.
  - intros j k v Hj. apply lookup_app_Some in Hj as [Hj | [_ Hj]].
    + destruct (Ha j k v Hj) as (sk & sv & ? & ? & ? & ? & ?).
      exists sk, sv. split_and!; try done; apply elem_of_app; by left.
    + destruct (j - length m)%nat; [|by destruct n]. cbn in Hj. injection Hj as <- <-.
      exists s0, s0. split_and!; try done; apply Hmem.
  - intros q sq Hq Hmq. apply elem_of_app in Hq as [Hq | Hq].
    + destruct (Hb q sq Hq Hmq) as (j & k & v & sk & Hj & ? & ?).
      exists j, k, v, sk. split; [|done]. by apply lookup_app_l_Some.
    + apply list_elem_of_singleton in Hq as ->.
      exists (length m), p, p, s0. split; [|split; [done|]].
      * rewrite lookup_app_r by lia. by rewrite Nat.sub_diag.
      * rewrite (member_unique L p s0 sq Hmem (proj1 (proj2 Hmq))). reflexivity.
  - intros j j' k v k' v' sk sk' Hj Hj' Hk Hk' Heq.
    apply lookup_app_Some in Hj as [Hj | [Hlj Hj]];
      apply lookup_app_Some in Hj' as [Hj' | [Hlj' Hj']].
    + by eapply Hc.
    + destruct (j' - length m)%nat; [|by destruct n]. cbn in Hj'. injection Hj' as <- <-.
      assert (sk' = s0) as -> by congruence.
      by destruct (Hnone j k v sk Hj Hk).
    + destruct (j - length m)%nat; [|by destruct n]. cbn in Hj. injection Hj as <- <-.
      assert (sk = s0) as -> by congruence.
      destruct (Hnone j' k' v' sk' Hj' Hk'). by symmetry.
    + destruct (j - length m)%nat eqn:E; [|by destruct n].
      destruct (j' - length m)%nat eqn:E'; [|by destruct n]. lia.
Qed.

Lemma table_ok_store (m : leaf_map) (done : list nat) (p : nat) (s0 : InputSection)
  (j k v : nat) (sk : InputSection) :
  table_ok L m done -> leaf_member L p s0 -> p ∈ done ->
  m !! j = Some (k, v) -> secs L !! k = Some sk -> leaf_equal sk s0 ->
  table_ok L (<[j := (k, p)]> m) done.
Proof.
  intros [Ha Hb Hc] Hmem Hp Hj Hk Heq.
  assert (Hjlt : (j < length m)%nat) by (by eapply lookup_lt_Some).
  assert (Hkey : forall i k' v', <[j := (k, p)]> m !! i = Some (k', v') ->
            exists v0, m !! i = Some (k', v0) /\ (v' = v0 \/ (i = j /\ v' = p))).
  { intros i k' v' Hi. destruct (decide (i = j)) as [-> | Hne].
    - rewrite list_lookup_insert_eq in Hi by done. simplify_eq. eauto.
    - rewrite list_lookup_insert_ne in Hi by done. eauto. }
  split.
  - intros i k' v' Hi. destruct (Hkey i k' v' Hi) as (v0 & Hi0 & [-> | [-> ->]]).
    + by apply (Ha i k' v0).
    + assert (k' = k) as -> by congruence.
      destruct (Ha j k v Hj) as (sk' & sv' & Hmk & ? & ? & ? & ?).
      exists sk', s0. split_and!; try done.
      by rewrite <- (member_unique L k sk' sk Hmk Hk).
  - intros q sq Hq Hmq. destruct (Hb q sq Hq Hmq) as (i & k' & v' & sk' & Hi & Hk' & Heq').
    destruct (decide (i = j)) as [-> | Hne].
    + assert (k' = k) as -> by congruence. exists j, k, p, sk'.
      split; [by rewrite list_lookup_insert_eq | done].
    + exists i, k', v', sk'. split; [by rewrite list_lookup_insert_ne | done].
  - intros i i' k1 v1 k2 v2 sk1 sk2 Hi Hi' Hk1 Hk2 Heq12.
    destruct (Hkey i k1 v1 Hi) as (? & Hi0 & _). destruct (Hkey i' k2 v2 Hi') as (? & Hi0' & _).
    by eapply Hc.
Qed.

Lemma table_ok_same (m : leaf_map) (done done' : list nat) :
  (forall p, p ∈ done <-> p ∈ done') -> table_ok L m done -> table_ok L m done'.
Proof.
  intros Hd [Ha Hb Hc]. split.
  - intros j k v Hj. destruct (Ha j k v Hj) as (sk & sv & ? & ? & ? & ? & ?).
    exists sk, sv. split_and!; try done; by apply Hd.
  - intros q sq Hq. apply Hb. by apply Hd.
  - exact Hc.
Qed.

Lemma thread_ok_mono (m m' : leaf_map) (done done' : list nat) (w : leaf_thread) :
  (forall j k v, m !! j = Some (k, v) -> exists v', m' !! j = Some (k, v')) ->
  (forall p, p ∈ done -> p ∈ done') ->
  thread_ok L m done w -> thread_ok L m' done' w.
Proof.
  intros Hm Hd [Hv Hpc]. split; [done|].
  destruct (at_pc w) as [|p j|p j]; [done| |];
    destruct Hpc as (Hp & s0 & k & v & sk & Hmem & Hj & Hk & Heq);
    (split; [by apply Hd|]); destruct (Hm j k v Hj) as [v' Hj'];
    by exists s0, k, v', sk.
Qed.

(** The traversals after a step of the one of file [t]. *)
Lemma threads_step (ws : list leaf_thread) (m m' : leaf_map) (done done' : list nat)
  (t : nat) (w w' : leaf_thread) :
  ws !! t = Some w ->
  (forall t w, ws !! t = Some w -> thread_ok L m done w) ->
  (forall q, q ∈ all_sections L ->
     q ∈ done \/ exists t w, ws !! t = Some w /\ q ∈ to_visit w) ->
  (forall j k v, m !! j = Some (k, v) -> exists v', m' !! j = Some (k, v')) ->
  (forall q, q ∈ done -> q ∈ done') ->
  (forall q, q ∈ to_visit w -> q ∈ done' \/ q ∈ to_visit w') ->
  thread_ok L m' done' w' ->
  (forall t0 w0, <[t := w']> ws !! t0 = Some w0 -> thread_ok L m' done' w0) /\
  (forall q, q ∈ all_sections L ->
     q ∈ done' \/ exists t0 w0, <[t := w']> ws !! t0 = Some w0 /\ q ∈ to_visit w0).
Proof.
  intros Hw Hthr Hacc Hm Hd Hv Hw'.
  assert (Ht : (t < length ws)%nat) by (by eapply lookup_lt_Some).
  split.
  - intros t0 w0 H0. destruct (decide (t0 = t)) as [-> | Hne].
    + rewrite list_lookup_insert_eq in H0 by done. by injection H0 as <-.
    + rewrite list_lookup_insert_ne in H0 by done. eapply thread_ok_mono; eauto.
  - intros q Hq. destruct (Hacc q Hq) as [Hq' | (t0 & w0 & H0 & Hq')]; [left; by apply Hd|].
    destruct (decide (t0 = t)) as [-> | Hne].
    + assert (w0 = w) as -> by congruence. destruct (Hv q Hq') as [? | ?]; [by left|].
      right. exists t, w'. by rewrite list_lookup_insert_eq.
    + right. exists t0, w0. by rewrite list_lookup_insert_ne.
Qed.

(** A step is defined and keeps the invariant, whichever traversal takes
    it. *)
Lemma leaf_step_inv (s : leaf_state) (t : nat) :
  leaf_inv L s -> exists s', leaf_step std_hash s t = Some s' /\ leaf_inv L s'.
Proof.
  intros (done & Hst & Htab & Hsub & Hthr & Hacc). unfold leaf_step.
  destruct (ls_threads s !! t) as [w|] eqn:Hw; [|exists s; split; [done | by exists done]].
  destruct (Hthr t w Hw) as [Hvis Hpc].
  assert (Hsim : similar L (ls_secs s)) by (by eapply marked_similar).
  assert (Hkeys : forall j k v, ls_map s !! j = Some (k, v) -> exists sk, leaf_member L k sk).
  { intros j k v Hj. destruct (table_entries L _ done Htab j k v Hj) as (sk & _ & ? & _). eauto. }
  assert (Hsame : forall j k v, ls_map s !! j = Some (k, v) ->
            exists v', ls_map s !! j = Some (k, v')) by eauto.
  destruct (at_pc w) as [|p j|p j] eqn:Hat.
  - destruct (to_visit w) as [|p todo] eqn:Htodo; [exists s; split; [done | by exists done]|].
    cbn [tail].
    assert (Hin : p ∈ all_sections L) by (apply Hvis; left).
    destruct (Hok p Hin) as (s0 & Hs0 & Hfl & Hfe & Htail).
    assert (exists isec, ls_secs s !! p = Some isec /\ (isec = s0 \/ isec = mark s0))
      as (isec & Hisec & Hcases).
    { rewrite Hst, Hs0. destruct (decide (p ∈ done)); eauto. }
    assert (Hstat : static isec = static s0).
    { destruct Hcases as [-> | ->]; [done | apply static_mark]. }
    destruct (static_facts isec s0 Hstat) as (Hel & Hlf & _).
    pose proof (marked_step L (ls_secs s) done p s0 Hst Hs0) as Hst'.
    assert (Hpd : p ∈ done ++ [p]).
    { apply elem_of_app. right. by apply list_elem_of_singleton. }
    assert (Hsub' : forall q, q ∈ done ++ [p] -> q ∈ all_sections L).
    { intros q Hq. apply elem_of_app in Hq as [Hq | Hq]; [by apply Hsub|].
      by apply list_elem_of_singleton in Hq as ->. }
    assert (Hd : forall q, q ∈ done -> q ∈ done ++ [p]).
    { intros q Hq. apply elem_of_app. by left. }
    assert (Hv : forall q, q ∈ to_visit w -> q ∈ done ++ [p] \/ q ∈ todo).
    { rewrite Htodo. intros q Hq. apply elem_of_cons in Hq as [-> | Hq]; [by left | by right]. }
    assert (Htodo' : forall q, q ∈ todo -> q ∈ all_sections L).
    { intros q Hq. apply Hvis. by right. }
    rewrite Hisec. cbn [mbind option_bind]. rewrite Hel, Hlf.
    destruct (is_eligible s0) eqn:He; cbn [negb].
    2:{ eexists. split; [done|]. exists (done ++ [p]). cbn [ls_secs ls_map ls_threads].
        destruct (threads_step (ls_threads s) (ls_map s) (ls_map s) done (done ++ [p]) t w
                    (mkLeafThread AtInsert todo) Hw Hthr Hacc Hsame Hd Hv) as [Hthr' Hacc'];
          [by split|].
        split_and!; try done.
        - assert (mark s0 = isec) as Hmk.
          { unfold mark in *. rewrite He in *. by destruct Hcases. }
          rewrite Hmk, list_insert_id in Hst' by done. exact Hst'.
        - apply table_ok_grow; [done|]. intros s' (_ & Hs' & He' & _). congruence. }
    destruct (is_leaf s0) eqn:Hl.
    2:{ assert (set_icf_eligible true isec = mark s0) as ->.
        { unfold mark in *. rewrite He, Hl in *. by destruct Hcases as [-> | ->]. }
        eexists. split; [done|]. exists (done ++ [p]). cbn [ls_secs ls_map ls_threads].
        destruct (threads_step (ls_threads s) (ls_map s) (ls_map s) done (done ++ [p]) t w
                    (mkLeafThread AtInsert todo) Hw Hthr Hacc Hsame Hd Hv) as [Hthr' Hacc'];
          [by split|].
        split_and!; try done.
        apply table_ok_grow; [done|]. intros s' (_ & Hs' & _ & Hl'). congruence. }
    assert (set_icf_leaf true isec = mark s0) as ->.
    { unfold mark in *. rewrite He, Hl in *. by destruct Hcases as [-> | ->]. }
    assert (Hmem : leaf_member L p s0) by done.
    assert (Hsim' : similar L (<[p := mark s0]> (ls_secs s))) by (by eapply marked_similar).
    assert (Hnew : <[p := mark s0]> (ls_secs s) !! p = Some (mark s0)).
    { by rewrite Hst', decide_True, Hs0. }
    rewrite Hnew. cbn [mbind option_bind].
    destruct (map_find_spec std_hash L Hok (<[p := mark s0]> (ls_secs s)) (ls_map s) (mark s0)
                s0 p Hsim' Hkeys Hmem (static_mark s0)) as (r & -> & Hr).
    cbn [mbind option_bind]. destruct r as [j|].
    + destruct Hr as (k & v & sk & Hj & Hk & Heq).
      eexists. split; [done|]. exists (done ++ [p]). cbn [ls_secs ls_map ls_threads].
      destruct (threads_step (ls_threads s) (ls_map s) (ls_map s) done (done ++ [p]) t w
                  (mkLeafThread (AtCompare p j) todo) Hw Hthr Hacc Hsame Hd Hv)
        as [Hthr' Hacc'].
      { split; [done|]. cbn. split; [done|]. by exists s0, k, v, sk. }
      split_and!; try done.
      apply table_ok_grow; [done|]. intros s' Hs'.
      rewrite <- (member_unique L p s' s0 Hs' Hs0). by exists j, k, v, sk.
    + eexists. split; [done|]. exists (done ++ [p]). cbn [ls_secs ls_map ls_threads].
      destruct (threads_step (ls_threads s) (ls_map s) (ls_map s ++ [(p, p)]) done (done ++ [p])
                  t w (mkLeafThread AtInsert todo) Hw Hthr Hacc) as [Hthr' Hacc'];
        [|done|done|by split|].
      { intros j k v Hj. exists v. by apply lookup_app_l_Some. }
      split_and!; try done. by apply (table_ok_append _ done p s0).
  - destruct Hpc as (Hp & s0 & k & v & sk & Hmem & Hj & Hk & Heq).
    destruct (Hsim p s0 (proj1 (proj2 Hmem))) as (isec & Hisec & _).
    rewrite Hisec, Hj. cbn [mbind option_bind snd].
    destruct (table_entries L _ done Htab j k v Hj) as (_ & sv & _ & Hmv & _).
    destruct (Hsim v sv (proj1 (proj2 Hmv))) as (vsec & Hvsec & _).
    rewrite Hvsec. cbn [mbind option_bind].
    destruct (get_priority isec <? get_priority vsec).
    + eexists. split; [done|]. exists done. cbn [ls_secs ls_map ls_threads].
      destruct (threads_step (ls_threads s) (ls_map s) (ls_map s) done done t w
                  (mkLeafThread (AtStore p j) (to_visit w)) Hw Hthr Hacc Hsame)
        as [Hthr' Hacc']; [done | by right | | by split_and!].
      split; [done|]. cbn. split; [done|]. by exists s0, k, v, sk.
    + eexists. split; [done|]. exists done. cbn [ls_secs ls_map ls_threads].
      destruct (threads_step (ls_threads s) (ls_map s) (ls_map s) done done t w
                  (mkLeafThread AtInsert (to_visit w)) Hw Hthr Hacc Hsame)
        as [Hthr' Hacc']; [done | by right | by split | by split_and!].
  - destruct Hpc as (Hp & s0 & k & v & sk & Hmem & Hj & Hk & Heq).
    rewrite Hj. cbn [mbind option_bind fst].
    eexists. split; [done|]. exists done. cbn [ls_secs ls_map ls_threads].
    destruct (threads_step (ls_threads s) (ls_map s) (<[j := (k, p)]> (ls_map s)) done done t w
                (mkLeafThread AtInsert (to_visit w)) Hw Hthr Hacc)
      as [Hthr' Hacc']; [| done | by right | by split |].
    { intros j' k' v' Hj'. destruct (decide (j' = j)) as [-> | Hne].
      - exists p. rewrite list_lookup_insert_eq by (by eapply lookup_lt_Some). congruence.
      - exists v'. by rewrite list_lookup_insert_ne. }
    split_and!; try done. by apply (table_ok_store _ done p s0 j k v sk).
Qed.

(** So is a run of steps. *)
Lemma leaf_run_inv (schedule : list nat) (s : leaf_state) :
  leaf_inv L s -> exists s', foldM (leaf_step std_hash) s schedule = Some s' /\ leaf_inv L s'.
Proof.
  revert s. induction schedule as [|t schedule IH]; intros s Hinv; cbn [foldM]; [by exists s|].
  destruct (leaf_step_inv s t Hinv) as (s1 & -> & Hinv1). by apply IH.
Qed.

Lemma leaf_start_inv : leaf_inv L (leaf_start L).
Proof.
  exists []. cbn [leaf_start ls_secs ls_map ls_threads]. split_and!.
  - intros p. destruct (decide (p ∈ [])) as [Hp | _]; [inversion Hp | done].
  - split.
    + intros j k v Hj. by destruct j.
    + intros q sq Hq. inversion Hq.
    + intros j j' k v k' v' sk sk' Hj. by destruct j.
  - intros p Hp. inversion Hp.
  - intros t w Hw. rewrite list_lookup_fmap in Hw.
    destruct (objs L !! t) as [f|] eqn:Hf; [|done]. injection Hw as <-.
    split; [|done]. cbn. intros p Hp. unfold all_sections.
    apply list_elem_of_In, in_concat. exists (file_sections f).
    split; [|by apply list_elem_of_In]. apply in_map, list_elem_of_In.
    by eapply list_elem_of_lookup_2.
  - intros q Hq. right. unfold all_sections in Hq.
    apply list_elem_of_In, in_concat in Hq as (l & Hl & Hq).
    apply in_map_iff in Hl as (f & <- & Hf).
    apply list_elem_of_In, list_elem_of_lookup in Hf as [t Hf]. apply list_elem_of_In in Hq.
    exists t, (mkLeafThread AtInsert (file_sections f)). split; [|done].
    by rewrite list_lookup_fmap, Hf.
Qed.

(** When every traversal is through, the sections of the files are
    marked and the table holds the eligible leaves among them. *)
Lemma leaf_done_inv (s : leaf_state) :
  leaf_inv L s -> forallb thread_done (ls_threads s) = true ->
  (forall p, ls_secs s !! p
             = if decide (p ∈ all_sections L) then mark <$> secs L !! p else secs L !! p) /\
  table_ok L (ls_map s) (all_sections L).
Proof.
  intros (done & Hst & Htab & Hsub & Hthr & Hacc) Hdone.
  assert (Hall : forall p, p ∈ done <-> p ∈ all_sections L).
  { intros p. split; [apply Hsub|]. intros Hp.
    destruct (Hacc p Hp) as [? | (t & w & Hw & Hq)]; [done|]. exfalso.
    rewrite forallb_forall in Hdone. apply list_elem_of_lookup_2, list_elem_of_In in Hw.
    specialize (Hdone w Hw). unfold thread_done in Hdone.
    destruct (at_pc w); [|done..]. destruct (to_visit w); [inversion Hq | done]. }
  split; [|by apply (table_ok_same _ done)].
  intros p. rewrite Hst. destruct (decide (p ∈ done)) as [Hp | Hp].
  - rewrite decide_True; [done | by apply Hall].
  - rewrite decide_False; [done|]. intros Hp'. by apply Hp, Hall.
Qed.

(** The leaf pass under a schedule: no step is undefined, and when the
    schedule sees every traversal through, the pass returns, with every
    section of the files marked and every eligible leaf led by the value
    of the entry whose key is equal to it. *)
Lemma leaf_pass_par_spec (schedule : list nat) :
  exists s,
    foldM (leaf_step std_hash) (leaf_start L) schedule = Some s /\
    (forallb thread_done (ls_threads s) = true ->
     exists st m,
       leaf_pass_par std_hash schedule L = Some (mkLinker st (syms L) (objs L)) /\
       table_ok L m (all_sections L) /\
       forall p s0, p ∈ all_sections L -> secs L !! p = Some s0 ->
         exists s', st !! p = Some s' /\ static s' = static s0 /\
           icf_leaf s' = is_eligible s0 && is_leaf s0 /\
           icf_eligible s' = is_eligible s0 && negb (is_leaf s0) /\
           if is_eligible s0 && is_leaf s0 then exists v, rep L m p v /\ leader s' = Some v
           else leader s' = leader s0).
Proof.
  destruct (leaf_run_inv schedule (leaf_start L) leaf_start_inv) as (s & Hrun & Hinv).
  exists s. split; [done|]. intros Hdone.
  destruct (leaf_done_inv s Hinv Hdone) as [Hmarks Htable].
  destruct (second_loop_spec std_hash L Hok (ls_secs s) (ls_map s) Hmarks Htable)
    as (st2 & Hrun2 & Hst2).
  exists st2, (ls_map s). split; [|by split].
  unfold leaf_pass_par, leaf_loop_par. rewrite Hrun. cbn [mbind option_bind].
  rewrite Hdone. cbn [mbind option_bind fst snd]. by rewrite Hrun2.
Qed.

End Interleaved.

(** ** The first loop with the files taken one after the other *)

Lemma foldM_app {A S : Type} (f : S -> A -> option S) (l1 l2 : list A) (s : S) :
  foldM f s (l1 ++ l2) = s' ← foldM f s l1; foldM f s' l2.
Proof.
  revert s. induction l1 as [|x l1 IH]; intros s; cbn [foldM app]; [done|].
  destruct (f s x); [apply IH | done].
Qed.

Section ProgramOrder.
Variable std_hash : list Z -> Z.

(** The traversal of a file, run alone for three steps a section, does
    to the store and the table what the loop body does for its sections
    in turn. *)
Lemma thread_run (l : list nat) :
  forall (n : nat) (st : list InputSection) (m : leaf_map) (ws : list leaf_thread) (t : nat),
    ws !! t = Some (mkLeafThread AtInsert l) -> (3 * length l <= n)%nat ->
    foldM (leaf_step std_hash) (mkLeafState st m ws) (replicate n t)
    = sm ← foldM (classify std_hash) (st, m) l;
      Some (mkLeafState sm.1 sm.2 (<[t := mkLeafThread AtInsert []]> ws)).
Proof.
  induction l as [|p l IH]; intros n st m ws t Hw Hn.
  - cbn [foldM mbind option_bind fst snd]. rewrite list_insert_id by done.
    apply foldM_fixed. intros x Hx. apply elem_of_replicate in Hx as [-> _].
    unfold leaf_step. cbn [ls_threads]. by rewrite Hw.
  - cbn [length] in Hn. destruct n as [|n]; [lia|].
    assert (Ht : (t < length ws)%nat) by (by eapply lookup_lt_Some).
    assert (Hnext : forall pc ws', length ws' = length ws ->
              <[t := mkLeafThread pc l]> ws' !! t = Some (mkLeafThread pc l)).
    { intros pc ws' Hlen. apply list_lookup_insert_eq. by rewrite Hlen. }
    cbn [replicate foldM]. unfold leaf_step at 1. cbn [ls_threads ls_secs ls_map].
    rewrite Hw. cbn [at_pc to_visit tail]. unfold classify at 1. cbn [fst snd].
    destruct (st !! p) as [isec|] eqn:Hisec; cbn [mbind option_bind]; [|done].
    destruct (negb (is_eligible isec)).
    { rewrite (IH n st m _ t (Hnext _ _ eq_refl)) by lia. by rewrite list_insert_insert_eq. }
    destruct (is_leaf isec).
    2:{ rewrite (IH n _ m _ t (Hnext _ _ eq_refl)) by lia. by rewrite list_insert_insert_eq. }
    unfold leaf_insert.
    destruct (<[p := set_icf_leaf true isec]> st !! p) as [isec'|] eqn:Hisec';
      cbn [mbind option_bind]; [|done].
    destruct (map_find std_hash (<[p := set_icf_leaf true isec]> st) m isec') as [r|];
      cbn [mbind option_bind]; [|done].
    destruct r as [j|].
    2:{ rewrite (IH n _ _ _ t (Hnext _ _ eq_refl)) by lia. by rewrite list_insert_insert_eq. }
    destruct n as [|n]; [lia|]. cbn [replicate foldM]. unfold leaf_step at 1.
    cbn [ls_threads ls_secs ls_map]. rewrite (Hnext _ _ eq_refl). cbn [at_pc to_visit].
    rewrite Hisec'. cbn [mbind option_bind].
    destruct (m !! j) as [e|] eqn:He; cbn [mbind option_bind]; [|done].
    destruct (<[p := set_icf_leaf true isec]> st !! e.2) as [vsec|];
      cbn [mbind option_bind]; [|done].
    destruct (get_priority isec' <? get_priority vsec).
    + destruct n as [|n]; [lia|]. cbn [replicate foldM]. unfold leaf_step at 1.
      cbn [ls_threads ls_secs ls_map].
      rewrite (Hnext _ _ (length_insert _ _ _)). cbn [at_pc to_visit].
      rewrite He. cbn [mbind option_bind].
      rewrite (IH n _ _ _ t (Hnext _ _ (eq_trans (length_insert _ _ _) (length_insert _ _ _))))
        by lia.
      by rewrite !list_insert_insert_eq.
    + rewrite (IH n _ _ _ t (Hnext _ _ (length_insert _ _ _))) by lia.
      by rewrite !list_insert_insert_eq.
Qed.

Lemma program_run (fs : list ObjectFile) :
  forall (pre : list leaf_thread) (st : list InputSection) (m : leaf_map),
    foldM (leaf_step std_hash)
      (mkLeafState st m (pre ++ map (fun f => mkLeafThread AtInsert (file_sections f)) fs))
      (concat (imap (fun i f => replicate (3 * length (file_sections f)) (length pre + i)%nat) fs))
    = sm ← foldM (classify std_hash) (st, m) (concat (map file_sections fs));
      Some (mkLeafState sm.1 sm.2 (pre ++ map (fun _ => mkLeafThread AtInsert []) fs)).
Proof.
  induction fs as [|f fs IH]; intros pre st m.
  - done.
  - rewrite imap_cons. cbn [map concat]. rewrite !foldM_app.
    rewrite (thread_run (file_sections f) _ st m _ (length pre + 0)%nat); [| |done].
    2:{ rewrite Nat.add_0_r. by apply list_lookup_middle. }
    destruct (foldM (classify std_hash) (st, m) (file_sections f)) as [[st1 m1]|];
      cbn [mbind option_bind fst snd]; [|done].
    rewrite insert_app_r. cbn [insert list_insert map].
    rewrite (cons_middle _ pre), app_assoc.
    rewrite (imap_ext _ (fun i f => replicate (3 * length (file_sections f))
                                      (length (pre ++ [mkLeafThread AtInsert []]) + i)%nat)).
    2:{ intros i x _. cbn. rewrite length_app. cbn. f_equal. lia. }
    rewrite IH. destruct (foldM (classify std_hash) (st1, m1) _) as [[st2 m2]|];
      cbn [mbind option_bind fst snd]; [|done].
    by rewrite <- app_assoc.
Qed.

Lemma threads_through (fs : list ObjectFile) :
  forallb thread_done (map (fun _ : ObjectFile => mkLeafThread AtInsert []) fs) = true.
Proof. by induction fs. Qed.

(** In the order of the program the first loop under a schedule is the
    first loop, and the pass the pass. *)
Lemma leaf_loop_program_order (L : Linker) :
  leaf_loop_par std_hash (program_order L) L
  = foldM (classify std_hash) (secs L, []) (all_sections L).
Proof.
  unfold leaf_loop_par, program_order, leaf_start, all_sections.
  pose proof (program_run (objs L) [] (secs L) []) as Hrun.
  cbn [app length Nat.add] in Hrun. rewrite Hrun. clear Hrun.
  destruct (foldM (classify std_hash) (secs L, []) _) as [[st m]|];
    cbn [mbind option_bind fst snd ls_threads ls_secs ls_map app]; [|done].
  by rewrite threads_through.
Qed.

Lemma leaf_pass_program_order (L : Linker) :
  leaf_pass_par std_hash (program_order L) L = leaf_pass std_hash L.
Proof. unfold leaf_pass_par, leaf_pass. by rewrite leaf_loop_program_order. Qed.

End ProgramOrder.

(** ** The first loop comes to its end *)

Section Progress.
Variable std_hash : list Z -> Z.

Lemma steps_left_done (w : leaf_thread) : steps_left w = 0%nat -> thread_done w = true.
Proof.
  unfold steps_left, thread_done. destruct (at_pc w), (to_visit w); cbn; (done || lia).
Qed.

(** A step of the traversal of file [t] leaves the other traversals as
    they are and brings its own a step forward. *)
Lemma leaf_step_progress (s s' : leaf_state) (t : nat) :
  leaf_step std_hash s t = Some s' ->
  forall t' w, ls_threads s !! t' = Some w ->
    exists w', ls_threads s' !! t' = Some w' /\
      (steps_left w' <= steps_left w - (if decide (t' = t) then 1 else 0))%nat.
Proof.
  unfold leaf_step. intros Hstep t' w' Hw'.
  destruct (ls_threads s !! t) as [w|] eqn:Hw.
  2:{ injection Hstep as <-. exists w'. split; [done|]. case_decide; [congruence | lia]. }
  assert (Hmove : forall st m w1, (steps_left w1 <= steps_left w - 1)%nat ->
            s' = mkLeafState st m (<[t := w1]> (ls_threads s)) ->
            exists w2, ls_threads s' !! t' = Some w2 /\
              (steps_left w2 <= steps_left w' - (if decide (t' = t) then 1 else 0))%nat).
  { intros st m w1 Hle ->. cbn [ls_threads]. case_decide as Ht.
    - subst t'. assert (w' = w) as -> by congruence. exists w1. split; [|done].
      apply list_lookup_insert_eq. by eapply lookup_lt_Some.
    - exists w'. split; [by rewrite list_lookup_insert_ne | lia]. }
  unfold steps_left in Hmove.
  destruct (at_pc w) as [|p j|p j] eqn:Hat.
  - destruct (to_visit w) as [|p todo] eqn:Htodo.
    { injection Hstep as <-. exists w'. split; [done|]. case_decide as Ht; [|lia].
      subst t'. assert (w' = w) as -> by congruence. unfold steps_left. rewrite Hat, Htodo.
      cbn. lia. }
    cbn [tail] in Hstep. apply bind_Some in Hstep as (isec & _ & Hstep).
    destruct (negb (is_eligible isec)).
    { injection Hstep as <-. eapply Hmove; [|done]. cbn. lia. }
    destruct (is_leaf isec).
    2:{ injection Hstep as <-. eapply Hmove; [|done]. cbn. lia. }
    apply bind_Some in Hstep as (isec' & _ & Hstep).
    apply bind_Some in Hstep as (r & _ & Hstep).
    destruct r; injection Hstep as <-; (eapply Hmove; [|done]); cbn; lia.
  - apply bind_Some in Hstep as (isec & _ & Hstep).
    apply bind_Some in Hstep as (e & _ & Hstep).
    apply bind_Some in Hstep as (vsec & _ & Hstep).
    destruct (get_priority isec <? get_priority vsec); injection Hstep as <-;
      (eapply Hmove; [|done]); cbn; lia.
  - apply bind_Some in Hstep as (e & _ & Hstep). injection Hstep as <-.
    eapply Hmove; [|done]. cbn. lia.
Qed.

Lemma leaf_run_progress (schedule : list nat) :
  forall s s', foldM (leaf_step std_hash) s schedule = Some s' ->
    forall t w, ls_threads s !! t = Some w ->
      exists w', ls_threads s' !! t = Some w' /\
        (steps_left w' <= steps_left w - count_occ Nat.eq_dec schedule t)%nat.
Proof.
  induction schedule as [|t0 schedule IH]; intros s s' Hrun t w Hw; cbn [foldM] in Hrun.
  - injection Hrun as <-. exists w. split; [done | cbn [count_occ]; lia].
  - destruct (leaf_step std_hash s t0) as [s1|] eqn:Hstep; [|done].
    destruct (leaf_step_progress s s1 t0 Hstep t w Hw) as (w1 & Hw1 & Hle1).
    destruct (IH s1 s' Hrun t w1 Hw1) as (w2 & Hw2 & Hle2).
    exists w2. split; [done|]. cbn [count_occ].
    destruct (Nat.eq_dec t0 t) as [-> | Hne].
    + rewrite decide_True in Hle1 by done. lia.
    + lia.
Qed.

Lemma leaf_step_threads (s s' : leaf_state) (t : nat) :
  leaf_step std_hash s t = Some s' -> length (ls_threads s') = length (ls_threads s).
Proof.
  unfold leaf_step. intros Hstep.
  destruct (ls_threads s !! t) as [w|]; [|by injection Hstep as <-].
  destruct (at_pc w) as [|p j|p j].
  - destruct (to_visit w) as [|p todo]; [by injection Hstep as <-|].
    apply bind_Some in Hstep as (isec & _ & Hstep).
    destruct (negb (is_eligible isec)); [injection Hstep as <-; apply length_insert|].
    destruct (is_leaf isec); [|injection Hstep as <-; apply length_insert].
    apply bind_Some in Hstep as (isec' & _ & Hstep).
    apply bind_Some in Hstep as (r & _ & Hstep).
    destruct r; injection Hstep as <-; apply length_insert.
  - apply bind_Some in Hstep as (isec & _ & Hstep).
    apply bind_Some in Hstep as (e & _ & Hstep).
    apply bind_Some in Hstep as (vsec & _ & Hstep).
    destruct (get_priority isec <? get_priority vsec); injection Hstep as <-;
      apply length_insert.
  - apply bind_Some in Hstep as (e & _ & Hstep). injection Hstep as <-. apply length_insert.
Qed.

(** A schedule with enough steps sees every traversal through. *)
Lemma enough_steps_through (schedule : list nat) (L : Linker) (s : leaf_state) :
  enough_steps schedule L ->
  foldM (leaf_step std_hash) (leaf_start L) schedule = Some s ->
  forallb thread_done (ls_threads s) = true.
Proof.
  intros Hen Hrun. apply forallb_forall. intros w Hw.
  apply list_elem_of_In, list_elem_of_lookup in Hw as [t Hw].
  assert (Hlen : length (ls_threads s) = length (ls_threads (leaf_start L))).
  { apply (foldM_inv (fun s' => length (ls_threads s') = length (ls_threads (leaf_start L)))
             _ _ _ _ Hrun); [|done].
    intros s1 x s2 Hstep <-. by eapply leaf_step_threads. }
  destruct (lookup_lt_is_Some_2 (ls_threads (leaf_start L)) t) as [w0 Hw0].
  { rewrite <- Hlen. by eapply lookup_lt_Some. }
  destruct (leaf_run_progress schedule _ s Hrun t w0 Hw0) as (w' & Hw' & Hle).
  assert (w' = w) as -> by congruence.
  cbn [leaf_start ls_threads] in Hw0. rewrite list_lookup_fmap in Hw0.
  destruct (objs L !! t) as [f|] eqn:Hf; [|done]. injection Hw0 as <-.
  specialize (Hen t f Hf). apply steps_left_done.
  unfold steps_left in Hle at 2. cbn [to_visit at_pc] in Hle. lia.
Qed.

Lemma count_occ_replicate (n x y : nat) :
  count_occ Nat.eq_dec (replicate n x) y = if decide (x = y) then n else 0%nat.
Proof.
  induction n as [|n IH]; cbn [replicate count_occ]; [by case_decide|].
  rewrite IH. destruct (Nat.eq_dec x y); case_decide; congruence.
Qed.

(** The schedule that takes the files one after the other has enough
    steps. *)
Lemma program_order_enough (L : Linker) : enough_steps (program_order L) L.
Proof.
  unfold enough_steps, program_order. generalize (objs L). intros fs.
  assert (Hgen : forall k t f, fs !! t = Some f ->
            (3 * length (file_sections f)
             <= count_occ Nat.eq_dec
                  (concat (imap (fun i f => replicate (3 * length (file_sections f)) (k + i)%nat)
                             fs)) (k + t))%nat).
  { induction fs as [|f0 fs IH]; intros k t f Hf; [done|].
    rewrite imap_cons. cbn [concat]. rewrite count_occ_app, count_occ_replicate.
    destruct t as [|t].
    - injection Hf as ->. rewrite decide_True by done. lia.
    - cbn in Hf. specialize (IH (S k) t f Hf).
      rewrite (imap_ext _ (fun i f => replicate (3 * length (file_sections f)) (S k + i)%nat)).
      + replace (k + S t)%nat with (S k + t)%nat by lia. lia.
      + intros i x _. cbn. f_equal. lia. }
  intros t f Hf. exact (Hgen 0%nat t f Hf).
Qed.

End Progress.

(** ** The leaf classes and the eligibility filter *)

Lemma is_leaf_spec (s : InputSection) :
  is_leaf s = true <->
  rels s = [] /\ Forall (fun fde => (length (fde_rels fde) <= 1)%nat) (fdes s).
Proof.
  unfold is_leaf. destruct (rels s) as [|r rs]; cbn [length Nat.eqb negb].
  - rewrite forallb_forall, Forall_forall. split.
    + intros H. split; [done|]. intros fde Hin. apply list_elem_of_In in Hin.
      specialize (H fde Hin). apply negb_true_iff, Nat.ltb_ge in H. exact H.
    + intros [_ H] fde Hin. apply negb_true_iff, Nat.ltb_ge, H. by apply list_elem_of_In.
  - split; [done | by intros [? _]].
Qed.

(** What the table makes of the leaders, in whatever order it was
    filled: equal leaves, and no others, get the same leader, which is a
    leaf equal to them, and no leaf is to take part in the propagation. *)
Lemma leaf_leaders_of_table (L : Linker) (m : leaf_map) (st : list InputSection) :
  table_ok L m (all_sections L) ->
  (forall p s0, p ∈ all_sections L -> secs L !! p = Some s0 ->
     exists s', st !! p = Some s' /\ static s' = static s0 /\
       icf_leaf s' = is_eligible s0 && is_leaf s0 /\
       icf_eligible s' = is_eligible s0 && negb (is_leaf s0) /\
       if is_eligible s0 && is_leaf s0 then exists v, rep L m p v /\ leader s' = Some v
       else leader s' = leader s0) ->
  (forall (p q : nat) (sp sq : InputSection),
     leaf_member L p sp -> leaf_member L q sq ->
     exists lp lq : nat,
       leader <$> st !! p = Some (Some lp) /\
       leader <$> st !! q = Some (Some lq) /\
       (lp = lq <-> leaf_equal sp sq)) /\
  (forall (p : nat) (sp : InputSection),
     leaf_member L p sp ->
     exists (l : nat) (sl : InputSection),
       leader <$> st !! p = Some (Some l) /\ leaf_member L l sl /\ leaf_equal sl sp) /\
  (forall (p : nat) (sp : InputSection),
     leaf_member L p sp ->
     icf_eligible <$> st !! p = Some false /\
     forall (L2 : Linker) (ptrs : list nat),
       gather_sections (mkLinker st (syms L) (objs L)) = Some (L2, ptrs) -> p ∉ ptrs).
Proof.
  intros Hm Hst.
  assert (Hleaf : forall p sp, leaf_member L p sp ->
            exists s' v, st !! p = Some s' /\ icf_eligible s' = false /\
                         rep L m p v /\ leader s' = Some v).
  { intros p sp (Hin & Hsp & He & Hl).
    destruct (Hst p sp Hin Hsp) as (s' & Hs' & _ & _ & Hel & Hlead).
    rewrite He, Hl in Hel, Hlead. destruct Hlead as (v & Hrep & Hv). by exists s', v. }
  assert (Hrep : forall p sp v, leaf_member L p sp -> rep L m p v ->
            exists j k sk sv, m !! j = Some (k, v) /\ secs L !! k = Some sk /\
              leaf_equal sk sp /\ leaf_member L v sv /\ leaf_equal sk sv).
  { intros p sp v Hmem (j & k & sk & s0 & Hj & Hk & Hs0 & Heq).
    assert (s0 = sp) as -> by exact (member_unique L p sp s0 Hmem Hs0).
    destruct (table_entries L m _ Hm j k v Hj) as (sk' & sv & Hmk & Hmv & _ & _ & Hkv).
    assert (sk' = sk) as -> by (symmetry; exact (member_unique L k sk' sk Hmk Hk)).
    by exists j, k, sk, sv. }
  split_and!.
  - intros p q sp sq Hp Hq.
    destruct (Hleaf p sp Hp) as (sp' & vp & Hsp' & _ & Hrp & Hlp).
    destruct (Hleaf q sq Hq) as (sq' & vq & Hsq' & _ & Hrq & Hlq).
    exists vp, vq. rewrite Hsp', Hsq'. cbn. rewrite Hlp, Hlq. split_and!; try done.
    destruct (Hrep p sp vp Hp Hrp) as (j & k & sk & sv & Hj & Hk & Hkp & Hmv & Hkv).
    destruct (Hrep q sq vq Hq Hrq) as (j' & k' & sk' & sv' & Hj' & Hk' & Hkq & Hmv' & Hkv').
    split.
    + intros <-.
      assert (sv' = sv) as -> by exact (member_unique L vp sv sv' Hmv (proj1 (proj2 Hmv'))).
      transitivity sk; [by symmetry|]. transitivity sv; [done|].
      transitivity sk'; [by symmetry | done].
    + intros Hpq. assert (j = j') as <-.
      { eapply (table_keys L m _ Hm j j' k vp k' vq sk sk'); try done.
        transitivity sp; [done|]. transitivity sq; [done | by symmetry]. }
      congruence.
  - intros p sp Hp. destruct (Hleaf p sp Hp) as (sp' & v & Hsp' & _ & Hr & Hl).
    destruct (Hrep p sp v Hp Hr) as (j & k & sk & sv & Hj & Hk & Hkp & Hmv & Hkv).
    exists v, sv. rewrite Hsp'. cbn. rewrite Hl. split_and!; try done.
    transitivity sk; [by symmetry | done].
  - intros p sp Hp. destruct (Hleaf p sp Hp) as (sp' & v & Hsp' & He' & _).
    rewrite Hsp'. cbn. rewrite He'. split; [done|].
    intros L2 ptrs Hg Hin. destruct (gather_sections_spec _ _ _ Hg) as (_ & _ & _ & Hptrs).
    destruct (Hptrs p Hin) as (s & Hs & Hes). cbn [secs] in Hs. congruence.
Qed.

(** The leaf pass under a schedule: it returns when the schedule has
    enough steps, and whenever it returns the leaders are those of the
    classes of equal leaves. *)
Lemma leaf_pass_par_classes (std_hash : bytes -> Z) (L : Linker) (schedule : list nat) :
  leaf_input_ok L ->
  (enough_steps schedule L -> is_Some (leaf_pass_par std_hash schedule L)) /\
  forall L' : Linker,
    leaf_pass_par std_hash schedule L = Some L' ->
    (forall (p q : nat) (sp sq : InputSection),
       leaf_member L p sp -> leaf_member L q sq ->
       exists lp lq : nat,
         leader <$> secs L' !! p = Some (Some lp) /\
         leader <$> secs L' !! q = Some (Some lq) /\
         (lp = lq <-> leaf_equal sp sq)) /\
    (forall (p : nat) (sp : InputSection),
       leaf_member L p sp ->
       exists (l : nat) (sl : InputSection),
         leader <$> secs L' !! p = Some (Some l) /\ leaf_member L l sl /\ leaf_equal sl sp) /\
    (forall (p : nat) (sp : InputSection),
       leaf_member L p sp ->
       icf_eligible <$> secs L' !! p = Some false /\
       forall (L2 : Linker) (ptrs : list nat),
         gather_sections L' = Some (L2, ptrs) -> p ∉ ptrs).
Proof.
  intros Hok. destruct (leaf_pass_par_spec std_hash L Hok schedule) as (s & Hrun & Hdone).
  split.
  - intros Hen. destruct (Hdone (enough_steps_through std_hash schedule L s Hen Hrun))
      as (st & m & -> & _). by eexists.
  - intros L' HL'.
    assert (Hthrough : forallb thread_done (ls_threads s) = true).
    { unfold leaf_pass_par, leaf_loop_par in HL'. rewrite Hrun in HL'.
      cbn [mbind option_bind] in HL'. by destruct (forallb thread_done (ls_threads s)). }
    destruct (Hdone Hthrough) as (st & m & Hpass & Hm & Hst).
    rewrite Hpass in HL'. injection HL' as <-. cbn [secs].
    exact (leaf_leaders_of_table L m st Hm Hst).
Qed.

(** With the files taken one after the other, the leader is moreover of
    the least priority among the leaves equal to it, and the rest of the
    pass leaves the leader of a leaf as it is. *)
Lemma leaf_pass_classes (std_hash : bytes -> Z) (L : Linker) :
  leaf_input_ok L ->
  exists L' : Linker,
    leaf_pass std_hash L = Some L' /\
    (forall (p : nat) (sp : InputSection),
       leaf_member L p sp ->
       exists (l : nat) (sl : InputSection),
         leader <$> secs L' !! p = Some (Some l) /\
         leaf_member L l sl /\ leaf_equal sl sp /\
         forall (q : nat) (sq : InputSection),
           leaf_member L q sq -> leaf_equal sq sp -> get_priority sl <= get_priority sq) /\
    (forall (SHA256 : bytes -> bytes) (fuel : nat) (Lf : Linker),
       icf_sections std_hash SHA256 fuel L = Some Lf ->
       forall (p : nat) (sp : InputSection),
         leaf_member L p sp -> leader <$> secs Lf !! p = leader <$> secs L' !! p).
Proof.
  intros Hok.
  destruct (leaf_pass_spec std_hash L Hok) as (st & m & Hrun & Hm & Hst).
  exists (mkLinker st (syms L) (objs L)). split; [done|]. cbn [secs].
  assert (Hleaf : forall p sp, leaf_member L p sp ->
            exists s' v, st !! p = Some s' /\ icf_eligible s' = false /\
                         rep L m p v /\ leader s' = Some v).
  { intros p sp (Hin & Hsp & He & Hl).
    destruct (Hst p sp Hin Hsp) as (s' & Hs' & _ & _ & Hel & Hlead).
    rewrite He, Hl in Hel, Hlead. destruct Hlead as (v & Hrep & Hv). by exists s', v. }
  split.
  - intros p sp Hp. destruct (Hleaf p sp Hp) as (sp' & v & Hsp' & _ & Hr & Hl).
    destruct Hr as (j & k & sk & s0 & Hj & Hk & Hs0 & Hkp).
    assert (s0 = sp) as -> by exact (member_unique L p sp s0 Hp Hs0).
    destruct (map_entries L m _ Hm j k v Hj) as (sk' & sv & Hmk & Hmv & _ & _ & Hkv).
    assert (sk' = sk) as -> by (symmetry; exact (member_unique L k sk' sk Hmk Hk)).
    exists v, sv. rewrite Hsp'. cbn. rewrite Hl. split_and!; try done.
    + transitivity sk; [by symmetry | done].
    + intros q sq Hq Hqp.
      apply (map_least L m _ Hm j k v sk sv q sq); try done; try apply Hmv; try apply Hq.
      transitivity sp; [done | by symmetry].
  - intros SHA256 fuel Lf Hf p sp Hp.
    destruct (Hleaf p sp Hp) as (sp' & v & Hsp' & He' & _).
    by apply (icf_sections_keeps_leaf_leaders std_hash SHA256 fuel L _ Lf p sp' Hrun Hf).
Qed.

Lemma racing_leaves_ok : leaf_input_ok racing_leaves.
Proof.
  intros p Hp. cbn in Hp.
  repeat (apply elem_of_cons in Hp as [-> | Hp];
          [eexists; split; [reflexivity|]; split_and!; try reflexivity;
           intros; by apply Forall_nil|]).
  inversion Hp.
Qed.

(** C7: a section is a leaf when it has no relocation and each of its
    FDEs has at most one. On well-formed input, under every schedule of
    the threads of the first loop, no step is undefined, the leaf pass
    returns when the schedule has enough steps, and whenever it returns:
    two eligible leaves of the files get the same leader exactly when
    they have byte-equal contents, as many FDEs, and FDEs that are
    pairwise of equal length and equal after their first eight bytes;
    the leader is an eligible leaf equal to them; and a leaf is not
    marked [icf_eligible] and is not in the vector [gather_sections]
    returns. With the files taken one after the other the leader is the
    leaf of the least priority among those equal to it, and the rest of
    the pass leaves it in place. Under other schedules it need not be:
    the store [it->second = isec] follows the comparison of the
    priorities in a step of its own, and on three equal leaves in three
    files, with the schedule [racing_schedule], the three are led by
    section 1, of priority 1, although section 0 has priority 0. *)
Theorem C7_racing_stores_keep_a_later_leaf :
  (forall s : InputSection,
     is_leaf s = true <->
     rels s = [] /\ Forall (fun fde => (length (fde_rels fde) <= 1)%nat) (fdes s)) /\
  (forall (std_hash : bytes -> Z) (L : Linker) (schedule : list nat),
     leaf_input_ok L ->
     is_Some (foldM (leaf_step std_hash) (leaf_start L) schedule) /\
     (enough_steps schedule L -> is_Some (leaf_pass_par std_hash schedule L)) /\
     forall L' : Linker,
       leaf_pass_par std_hash schedule L = Some L' ->
       (forall (p q : nat) (sp sq : InputSection),
          leaf_member L p sp -> leaf_member L q sq ->
          exists lp lq : nat,
            leader <$> secs L' !! p = Some (Some lp) /\
            leader <$> secs L' !! q = Some (Some lq) /\
            (lp = lq <-> leaf_equal sp sq)) /\
       (forall (p : nat) (sp : InputSection),
          leaf_member L p sp ->
          exists (l : nat) (sl : InputSection),
            leader <$> secs L' !! p = Some (Some l) /\
            leaf_member L l sl /\ leaf_equal sl sp) /\
       (forall (p : nat) (sp : InputSection),
          leaf_member L p sp ->
          icf_eligible <$> secs L' !! p = Some false /\
          forall (L2 : Linker) (ptrs : list nat),
            gather_sections L' = Some (L2, ptrs) -> p ∉ ptrs)) /\
  (forall (std_hash : bytes -> Z) (L : Linker),
     leaf_input_ok L ->
     enough_steps (program_order L) L /\
     leaf_pass_par std_hash (program_order L) L = leaf_pass std_hash L /\
     exists L' : Linker,
       leaf_pass std_hash L = Some L' /\
       (forall (p : nat) (sp : InputSection),
          leaf_member L p sp ->
          exists (l : nat) (sl : InputSection),
            leader <$> secs L' !! p = Some (Some l) /\
            leaf_member L l sl /\ leaf_equal sl sp /\
            forall (q : nat) (sq : InputSection),
              leaf_member L q sq -> leaf_equal sq sp -> get_priority sl <= get_priority sq) /\
       (forall (SHA256 : bytes -> bytes) (fuel : nat) (Lf : Linker),
          icf_sections std_hash SHA256 fuel L = Some Lf ->
          forall (p : nat) (sp : InputSection),
            leaf_member L p sp -> leader <$> secs Lf !! p = leader <$> secs L' !! p)) /\
  (leaf_input_ok racing_leaves /\
   leaders_of <$> leaf_pass_par sample_hash (program_order racing_leaves) racing_leaves
     = Some [Some 0%nat; Some 0%nat; Some 0%nat] /\
   exists L' : Linker,
     leaf_pass_par sample_hash racing_schedule racing_leaves = Some L' /\
     leaders_of L' = [Some 1%nat; Some 1%nat; Some 1%nat] /\
     exists s0 s1 : InputSection,
       leaf_member racing_leaves 0 s0 /\ leaf_member racing_leaves 1 s1 /\
       leaf_equal s0 s1 /\ get_priority s0 < get_priority s1).
Proof.
  split; [exact is_leaf_spec|]. split.
  { intros std_hash L schedule Hok. split.
    - destruct (leaf_pass_par_spec std_hash L Hok schedule) as (s & -> & _). by eexists.
    - exact (leaf_pass_par_classes std_hash L schedule Hok). }
  split.
  { intros std_hash L Hok. split; [apply program_order_enough|].
    split; [apply leaf_pass_program_order|]. exact (leaf_pass_classes std_hash L Hok). }
  split; [exact racing_leaves_ok|]. split; [vm_compute; reflexivity|].
  eexists. split; [vm_compute; reflexivity|]. split; [reflexivity|].
  eexists _, _. split_and!.
  - split; [|split; [reflexivity|split; reflexivity]]. cbn. left.
  - split; [|split; [reflexivity|split; reflexivity]]. cbn. right. left.
  - split; [reflexivity|]. split; [reflexivity|]. constructor.
  - reflexivity.
Qed.

(** C8: [is_eligible] holds of a section, and on well-formed input the
    leaf pass, which is then defined, marks a section of an object file
    as eligible or as a leaf, exactly when the section is allocatable, executable, not writable, not of type
    SHT_NOBITS, neither of type SHT_INIT_ARRAY nor named .init, neither
    of type SHT_FINI_ARRAY nor named .fini, and its name is not a C
    identifier. *)
Theorem C8_considered_iff_eligible (std_hash : bytes -> Z) (L : Linker) :
  leaf_input_ok L ->
  (forall s : InputSection,
     is_eligible s = true <->
     Z.land (sh_flags s) SHF_ALLOC <> 0 /\ Z.land (sh_flags s) SHF_EXECINSTR <> 0 /\
     Z.land (sh_flags s) SHF_WRITE = 0 /\ sh_type s <> SHT_NOBITS /\
     ~ (sh_type s = SHT_INIT_ARRAY \/ name s = ".init"%string) /\
     ~ (sh_type s = SHT_FINI_ARRAY \/ name s = ".fini"%string) /\
     is_c_identifier (name s) = false) /\
  exists L' : Linker,
    leaf_pass std_hash L = Some L' /\
    forall (p : nat) (s : InputSection),
      p ∈ all_sections L -> secs L !! p = Some s ->
      exists s' : InputSection,
        secs L' !! p = Some s' /\
        (icf_eligible s' = true \/ icf_leaf s' = true <->
         Z.land (sh_flags s) SHF_ALLOC <> 0 /\ Z.land (sh_flags s) SHF_EXECINSTR <> 0 /\
         Z.land (sh_flags s) SHF_WRITE = 0 /\ sh_type s <> SHT_NOBITS /\
         ~ (sh_type s = SHT_INIT_ARRAY \/ name s = ".init"%string) /\
         ~ (sh_type s = SHT_FINI_ARRAY \/ name s = ".fini"%string) /\
         is_c_identifier (name s) = false).
Proof.
  intros Hok. split; [exact is_eligible_spec|].
  destruct (leaf_pass_spec std_hash L Hok) as (st & m & Hrun & _ & Hst).
  exists (mkLinker st (syms L) (objs L)). split; [done|]. cbn [secs].
  intros p s Hin Hs. destruct (Hst p s Hin Hs) as (s' & Hs' & _ & Hlf & Hel & _).
  exists s'. split; [done|]. rewrite <- is_eligible_spec, Hlf, Hel.
  destruct (is_eligible s), (is_leaf s); cbn; intuition congruence.
Qed.

Lemma three_leaves_ok : leaf_input_ok three_leaves.
Proof.
  intros p Hp. cbn in Hp.
  repeat (apply elem_of_cons in Hp as [-> | Hp];
          [eexists; split; [reflexivity|]; split_and!; try reflexivity;
           intros; by apply Forall_nil|]).
  inversion Hp.
Qed.

Lemma C8_considered_iff_eligible_witness :
  exists L' : Linker,
    leaf_pass sample_hash three_leaves = Some L' /\
    (icf_leaf <$> secs L' !! 0%nat) = Some true /\
    (icf_leaf <$> secs L' !! 3%nat) = Some false /\
    (icf_eligible <$> secs L' !! 3%nat) = Some false.
Proof.
  destruct (C8_considered_iff_eligible sample_hash three_leaves three_leaves_ok)
    as (_ & L' & Hrun & _).
  exists L'. split; [exact Hrun|].
  assert (Some L' = leaf_pass sample_hash three_leaves) as Heq by (by rewrite Hrun).
  vm_compute in Heq. injection Heq as ->. by split_and!.
Defined.

(** * Further properties of the code *)

(** ** The hasher and the equality of the leaf table *)

Lemma fdes_eq_sym (a b : list FdeRecord) :
  length a = length b -> fdes_eq a b = fdes_eq b a.
Proof.
  revert b. induction a as [|fa a IH]; intros [|fb b] Hlen; try done.
  cbn [fdes_eq]. injection Hlen as Hlen.
  rewrite (Nat.eqb_sym (length (fde_contents fb))).
  destruct (Nat.eqb_spec (length (fde_contents fa)) (length (fde_contents fb))) as [Hl | Hl];
    cbn [negb]; [|done].
  unfold substr. rewrite <- Hl.
  destruct (8 <=? length (fde_contents fa))%nat; [|done].
  unfold bytes_eqb.
  destruct (decide (drop 8 (fde_contents fa) = drop 8 (fde_contents fb))) as [He | He].
  - rewrite !bool_decide_eq_true_2 by done. cbn [negb]. by apply IH.
  - rewrite !bool_decide_eq_false_2 by done. done.
Qed.

Lemma LeafEq_sym (a b : InputSection) : LeafEq a b = LeafEq b a.
Proof.
  unfold LeafEq, bytes_eqb.
  destruct (decide (get_contents a = get_contents b)) as [Hc | Hc].
  2:{ by rewrite !bool_decide_eq_false_2 by done. }
  rewrite !bool_decide_eq_true_2 by done. cbn [negb].
  rewrite (Nat.eqb_sym (length (fdes b))).
  destruct (Nat.eqb_spec (length (fdes a)) (length (fdes b))) as [Hl | Hl]; cbn [negb]; [|done].
  by apply fdes_eq_sym.
Qed.

Lemma fdes_eq_true (a b : list FdeRecord) :
  length a = length b ->
  fdes_eq a b = Some true <->
  Forall2 fde_equal a b /\ Forall (fun f => (8 <= length (fde_contents f))%nat) a.
Proof.
  revert b. induction a as [|fa a IH]; intros [|fb b] Hlen; try done.
  injection Hlen as Hlen. cbn [fdes_eq]. rewrite Forall2_cons, Forall_cons.
  unfold fde_equal at 1.
  destruct (Nat.eqb_spec (length (fde_contents fa)) (length (fde_contents fb))) as [Hl | Hl];
    cbn [negb]; [|split; [done | tauto]].
  unfold substr. rewrite <- Hl.
  destruct (Nat.leb_spec 8 (length (fde_contents fa))); [|split; [done | lia]].
  unfold bytes_eqb. case_bool_decide as Ht; cbn [negb]; [|split; [done | tauto]].
  rewrite (IH b Hlen). tauto.
Qed.

(** [LeafEq] answers [true] exactly on sections that are equal in the
    sense of [leaf_equal] and whose FDE records have their eight leading
    bytes. *)
Lemma LeafEq_true_iff (a b : InputSection) :
  LeafEq a b = Some true <-> leaf_equal a b /\ fde_tail_ok a.
Proof.
  unfold LeafEq, leaf_equal, fde_tail_ok, bytes_eqb.
  case_bool_decide as Hc; cbn [negb]; [|split; [done | tauto]].
  destruct (Nat.eqb_spec (length (fdes a)) (length (fdes b))) as [Hl | Hl]; cbn [negb];
    [|split; [done | tauto]].
  rewrite (fdes_eq_true _ _ Hl). tauto.
Qed.

Lemma LeafHasher_fold (std_hash : bytes -> Z) (fa fb : list FdeRecord) (h : Z) :
  Forall2 fde_equal fa fb -> Forall (fun f => (8 <= length (fde_contents f))%nat) fa ->
  let step := fun h fde =>
    match substr (fde_contents fde) 8 with
    | Some tail =>
        let h2 := to_u64 (std_hash tail) in
        Some (Z.lxor h (to_u64 (h2 + 2654435769 + Z.shiftl h 6 + Z.shiftr h 2)))
    | None => None
    end in
  foldM step h fa = foldM step h fb /\ is_Some (foldM step h fa).
Proof.
  intros H2 Hall step. revert h Hall.
  induction H2 as [|x y fa fb [Hlen Htail] _ IH]; intros h Hall; cbn [foldM]; [by eauto|].
  apply Forall_cons in Hall as [Hx Hall]. subst step. cbn beta.
  rewrite !substr_Some by lia. rewrite <- Htail. by apply IH.
Qed.

(** X1: the hasher of the leaf table agrees with its equality: two
    sections that [LeafEq] finds equal have a hash, and the same one, so
    equal leaves meet in one bucket of the table. *)
Theorem X1_LeafHasher_respects_LeafEq (std_hash : bytes -> Z) (a b : InputSection) :
  LeafEq a b = Some true ->
  exists h : Z, LeafHasher std_hash a = Some h /\ LeafHasher std_hash b = Some h.
Proof.
  intros (Heq & Ha)%LeafEq_true_iff. destruct Heq as (Hc & _ & H2).
  unfold LeafHasher. rewrite <- Hc.
  destruct (LeafHasher_fold std_hash (fdes a) (fdes b)
              (to_u64 (std_hash (get_contents a))) H2 Ha) as [Hsame [h Hh]].
  exists h. split; [exact Hh | etrans; [symmetry; exact Hsame | exact Hh]].
Qed.

Lemma X1_LeafHasher_respects_LeafEq_witness :
  exists h : Z,
    LeafHasher sample_hash (leaf_with_fde fde_one 0) = Some h /\
    LeafHasher sample_hash (leaf_with_fde fde_two 1) = Some h.
Proof.
  apply (X1_LeafHasher_respects_LeafEq sample_hash (leaf_with_fde fde_one 0)
           (leaf_with_fde fde_two 1)).
  reflexivity.
Defined.

(** X2: the equality of the leaf table is symmetric in its result, the
    exception of a short FDE record included, and where it answers [true]
    it is transitive and holds of each side with itself. *)
Theorem X2_LeafEq_is_partial_equivalence :
  (forall a b : InputSection, LeafEq a b = LeafEq b a) /\
  (forall a b c : InputSection,
     LeafEq a b = Some true -> LeafEq b c = Some true -> LeafEq a c = Some true) /\
  (forall a b : InputSection, LeafEq a b = Some true -> LeafEq a a = Some true).
Proof.
  split; [exact LeafEq_sym|]. split.
  - intros a b c [Hab Ha]%LeafEq_true_iff [Hbc _]%LeafEq_true_iff.
    apply LeafEq_true_iff. split; [by transitivity b | done].
  - intros a b [_ Ha]%LeafEq_true_iff. by apply LeafEq_true_iff.
Qed.

(** X3: a section is equal to itself unless one of its FDE records has
    fewer than eight bytes, in which case [substr(8)] throws: [LeafEq]
    never answers [false] on a section and itself. *)
Theorem X3_LeafEq_self (a : InputSection) :
  LeafEq a a = (if bool_decide (fde_tail_ok a) then Some true else None).
Proof.
  case_bool_decide as Ht.
  - by apply LeafEq_true_iff.
  - destruct (LeafEq a a) as [[|]|] eqn:He; [| |done].
    + apply LeafEq_true_iff in He as [_ ?]. done.
    + exfalso. revert He. unfold LeafEq. rewrite bytes_eqb_refl, Nat.eqb_refl. cbn [negb].
      clear Ht. induction (fdes a) as [|f fs IH]; cbn [fdes_eq]; [done|].
      rewrite Nat.eqb_refl. cbn [negb]. destruct (substr (fde_contents f) 8); [|done].
      by rewrite bytes_eqb_refl.
Qed.

(** ** The class count and the exit of the rounds *)

(** X4: the class count sorts a copy of the digests first, so it is the
    same for every order of the vector. *)
Theorem X4_count_num_classes_permutation (v w : list Digest) :
  v ≡ₚ w -> count_num_classes v = count_num_classes w.
Proof.
  intros Hp. rewrite !count_num_classes_spec. do 2 f_equal. by apply remove_dups_length_perm.
Qed.

Lemma X4_count_num_classes_permutation_witness :
  count_num_classes [replicate HASH_SIZE 1; replicate HASH_SIZE 2; replicate HASH_SIZE 1]
  = count_num_classes [replicate HASH_SIZE 2; replicate HASH_SIZE 1; replicate HASH_SIZE 1].
Proof. apply X4_count_num_classes_permutation. apply perm_swap. Defined.

Lemma remove_dups_length_le {A} `{EqDecision A} (l : list A) :
  (length (remove_dups l) <= length l)%nat.
Proof.
  induction l as [|x l IH]; cbn [remove_dups length]; [lia|].
  destruct (decide_rel elem_of x l); cbn [length]; lia.
Qed.

Lemma count_num_classes_range (v : list Digest) :
  0 <= count_num_classes v <= Z.of_nat (Nat.pred (length v)).
Proof.
  rewrite count_num_classes_spec. pose proof (remove_dups_length_le v). lia.
Qed.

(** X5: the class count is between zero and the size of the vector
    less one, and it is zero exactly when no two digests of the vector
    differ, the empty vector included. *)
Theorem X5_count_num_classes_zero_iff (v : list Digest) :
  0 <= count_num_classes v <= Z.of_nat (Nat.pred (length v)) /\
  (count_num_classes v = 0 <-> forall x y : Digest, x ∈ v -> y ∈ v -> x = y).
Proof.
  split; [apply count_num_classes_range|].
  rewrite count_num_classes_spec. split.
  - intros Hz x y Hx Hy. apply elem_of_remove_dups in Hx, Hy.
    destruct (remove_dups v) as [|a [|b l]]; cbn [length Nat.pred] in Hz; [inversion Hx | | lia].
    apply list_elem_of_singleton in Hx, Hy. congruence.
  - intros Hall. pose proof (NoDup_remove_dups v) as Hnd.
    assert (forall x y, x ∈ remove_dups v -> y ∈ remove_dups v -> x = y) as Hall'.
    { intros x y Hx Hy. apply Hall; by apply elem_of_remove_dups. }
    destruct (remove_dups v) as [|a [|b l]]; cbn [length Nat.pred]; [done | done |].
    exfalso. apply NoDup_cons in Hnd as [Hnot _]. apply Hnot.
    rewrite (Hall' a b); [left | left | right; left].
Qed.

(** Where the loop of the rounds stops, from round [i] on. *)
Lemma rounds_exit (SHA256 : bytes -> bytes) (fuel : nat) (edges edge_indices : list Z)
  (i slot nc : Z) (digests : list (list Digest)) (r : rounds_result) :
  rounds SHA256 fuel edges edge_indices i slot nc digests = Some r ->
  0 <= i -> slot = i mod 2 ->
  rounds_run r mod 10 = 0 /\ i < rounds_run r <= i + Z.of_nat fuel /\ final_slot r = 0 /\
  (nc < 0 -> i - i mod 10 + 20 <= rounds_run r).
Proof.
  revert i slot nc digests. induction fuel as [|fuel IH]; intros i slot nc digests; [done|].
  cbn [rounds]. destruct (propagate _ _ _ _ _) as [digests'|]; [|done].
  intros Hrun Hi Hslot.
  assert (Hflip : Z.lxor slot 1 = (i + 1) mod 2).
  { subst slot. pose proof (Z.mod_pos_bound i 2 ltac:(lia)).
    rewrite (Z.add_mod i 1 2) by lia.
    assert (i mod 2 = 0 \/ i mod 2 = 1) as [-> | ->] by lia; reflexivity. }
  destruct (Z.eqb_spec (i mod 10) 9) as [H9 | H9].
  - destruct (at_index digests' (Z.lxor slot 1)) as [cur|]; [|done].
    pose proof (count_num_classes_range cur) as [Hpos _].
    assert (Hnext : (i + 1) mod 10 = 0).
    { rewrite Z.add_mod by lia. by rewrite H9. }
    destruct (Z.eqb_spec (count_num_classes cur) nc) as [Hn | Hn].
    + injection Hrun as <-. cbn [rounds_run final_slot].
      split; [done|]. split; [lia|]. split; [|lia].
      rewrite Hflip. apply Z.div_exact in Hnext; [|lia]. rewrite Hnext.
      replace (10 * ((i + 1) / 10)) with (5 * ((i + 1) / 10) * 2) by lia.
      apply Z.mod_mul. lia.
    + destruct (IH _ _ _ _ Hrun ltac:(lia) Hflip) as (Hm & Hr & Hs & _).
      split; [done|]. split; [lia|]. split; [done|]. intros _.
      assert (exists q, rounds_run r = 10 * q) as [q Hq].
      { exists (rounds_run r / 10). apply Z.div_exact; lia. }
      assert (exists q', i + 1 = 10 * q') as [q' Hq'].
      { exists ((i + 1) / 10). apply Z.div_exact; lia. }
      lia.
  - destruct (IH _ _ _ _ Hrun ltac:(lia) Hflip) as (Hm & Hr & Hs & Hnc).
    split; [done|]. split; [lia|]. split; [done|]. intros Hneg. specialize (Hnc Hneg).
    assert ((i + 1) mod 10 = i mod 10 + 1).
    { pose proof (Z.mod_pos_bound i 10 ltac:(lia)).
      rewrite (Z.div_mod i 10) at 1 by lia.
      rewrite <- Z.add_assoc, Z.add_comm, Z.mul_comm, Z.mod_add by lia.
      apply Z.mod_small. lia. }
    lia.
Qed.

(** X6: when the loop of the rounds of [icf_sections], started at round
    zero in slot zero with the count [-1], comes to its [break], the
    number of rounds run is a multiple of ten and at least twenty, and the
    final digests are in slot zero. *)
Theorem X6_rounds_stop_on_a_decade (SHA256 : bytes -> bytes) (fuel : nat)
  (edges edge_indices : list Z) (digests : list (list Digest)) (r : rounds_result) :
  rounds SHA256 fuel edges edge_indices 0 0 (-1) digests = Some r ->
  rounds_run r mod 10 = 0 /\ 20 <= rounds_run r <= Z.of_nat fuel /\ final_slot r = 0.
Proof.
  intros Hrun.
  destruct (rounds_exit SHA256 fuel edges edge_indices 0 0 (-1) digests r Hrun)
    as (Hm & Hr & Hs & Hnc); [lia | reflexivity |].
  specialize (Hnc ltac:(lia)). change (0 mod 10) with 0 in Hnc.
  split; [exact Hm|]. split; [lia | exact Hs].
Qed.

Lemma X6_rounds_stop_on_a_decade_witness :
  exists r : rounds_result,
    rounds sample_SHA256 30 sample_pair_edges sample_pair_indices 0 0 (-1)
      [sample_pair; sample_pair] = Some r /\
    rounds_run r mod 10 = 0 /\ 20 <= rounds_run r <= Z.of_nat 30 /\ final_slot r = 0.
Proof.
  eexists. split; [vm_compute; reflexivity|].
  apply (X6_rounds_stop_on_a_decade sample_SHA256 30 sample_pair_edges sample_pair_indices
           [sample_pair; sample_pair]).
  vm_compute. reflexivity.
Defined.

(** ** The rounds come to an end *)

Lemma round_history_lookup (SHA256 : bytes -> bytes) (edges edge_indices : list Z)
  (d0 : list Digest) (m k : nat) :
  (k < m)%nat ->
  round_history SHA256 edges edge_indices d0 m !! k
  = Some (round_digests SHA256 edges edge_indices d0 k).
Proof.
  revert d0 k. induction m as [|m IH]; intros d0 k Hk; [lia|].
  cbn [round_history]. destruct k as [|k]; [done|]. cbn [lookup list_lookup].
  rewrite IH by lia. unfold round_digests. by rewrite Nat.iter_succ_r.
Qed.

Section Termination.
Variable SHA256 : bytes -> bytes.
Variables edges edge_indices : list Z.
Variable d0 : list Digest.
Hypothesis Hpos : (1 <= length d0)%nat.
Hypothesis Hgraph : graph_ok (length d0) edges edge_indices.
Hypothesis Hsize0 : Forall (fun d => length d = HASH_SIZE) d0.
Hypothesis Hout : forall m, (HASH_SIZE <= length (SHA256 m))%nat.

Local Abbreviation it := (round_digests SHA256 edges edge_indices d0).

Lemma round_digests_length (k : nat) : length (it k) = length d0.
Proof.
  induction k as [|k IH]; [done|].
  change (it (S k)) with (next_digests SHA256 (it k) edges edge_indices).
  by rewrite next_digests_length.
Qed.

Lemma round_digests_sizes (k : nat) : Forall (fun d => length d = HASH_SIZE) (it k).
Proof.
  destruct k as [|k]; [done|].
  change (it (S k)) with (next_digests SHA256 (it k) edges edge_indices).
  unfold next_digests. apply Forall_fmap, Forall_forall. intros i _. unfold compose.
  unfold digest_final. rewrite length_take.
  pose proof (Hout (round_input (it k) edges edge_indices i)). lia.
Qed.

(** A round does not lower the class count. *)
Lemma round_digests_count (k : nat) :
  injective_on SHA256 (round_inputs (it k) edges edge_indices) ->
  count_num_classes (it k) <= count_num_classes (it (S k)).
Proof.
  intros Hinj.
  pose proof (round_digests_length k) as Hlen. pose proof (round_digests_sizes k) as Hsz.
  assert (Hg : graph_ok (length (it k)) edges edge_indices) by (by rewrite Hlen).
  change (it (S k)) with (next_digests SHA256 (it k) edges edge_indices).
  rewrite !count_num_classes_spec.
  pose proof (refinement_count (it k) _ (next_digests_length SHA256 (it k) edges edge_indices))
    as Href.
  enough (length (remove_dups (it k))
          <= length (remove_dups (next_digests SHA256 (it k) edges edge_indices)))%nat by lia.
  apply Href. intros i j di dj Hi Hj Hne Hnext.
  apply next_digests_equal_iff in Hnext as [Hsame _]; try done; try (by eapply lookup_lt_Some).
  rewrite Hi, Hj in Hsame. by injection Hsame.
Qed.

(** From round [i] on, with the count [nc] of the last check, the loop
    stops before the budget of rounds that the classes still to be told
    apart allow. *)
Lemma rounds_from (fuel : nat) :
  forall (i : nat) (nc : Z) (prev : list Digest),
    -1 <= nc <= count_num_classes (it i) -> length prev = length d0 ->
    (forall k, (i <= k)%nat ->
       Z.of_nat k < Z.of_nat i + (10 - Z.of_nat i mod 10) + 10 * (Z.of_nat (length d0) - 1 - nc) ->
       injective_on SHA256 (round_inputs (it k) edges edge_indices)) ->
    (10 - Z.of_nat i mod 10) + 10 * (Z.of_nat (length d0) - 1 - nc) <= Z.of_nat fuel ->
    exists r,
      rounds SHA256 fuel edges edge_indices (Z.of_nat i) (Z.of_nat i mod 2) nc
        (buffers (Z.of_nat i mod 2) (it i) prev) = Some r /\
      rounds_run r <= Z.of_nat i + (10 - Z.of_nat i mod 10)
                      + 10 * (Z.of_nat (length d0) - 1 - nc) /\
      0 <= rounds_run r /\
      at_index (final_digests r) (final_slot r) = Some (it (Z.to_nat (rounds_run r))).
Proof.
  induction fuel as [|fuel IH]; intros i nc prev Hnc Hprev Hinj Hfuel.
  { pose proof (Z.mod_pos_bound (Z.of_nat i) 10 ltac:(lia)).
    pose proof (count_num_classes_range (it i)) as [_ Hup].
    rewrite round_digests_length in Hup. lia. }
  pose proof (Z.mod_pos_bound (Z.of_nat i) 10 ltac:(lia)) as Hm10.
  pose proof (Z.mod_pos_bound (Z.of_nat i) 2 ltac:(lia)) as Hm2.
  pose proof (count_num_classes_range (it i)) as [_ Hup].
  rewrite round_digests_length in Hup.
  assert (Hslot : Z.of_nat i mod 2 = 0 \/ Z.of_nat i mod 2 = 1) by lia.
  assert (Hflip : Z.lxor (Z.of_nat i mod 2) 1 = Z.of_nat (S i) mod 2).
  { rewrite Nat2Z.inj_succ, <- Z.add_1_r, (Z.add_mod (Z.of_nat i) 1 2) by lia.
    destruct Hslot as [-> | ->]; reflexivity. }
  assert (Hmono : count_num_classes (it i) <= count_num_classes (it (S i))).
  { apply round_digests_count, Hinj; lia. }
  cbn [rounds].
  rewrite propagate_spec; [| done | by rewrite round_digests_length
                          | by rewrite round_digests_length].
  change (next_digests SHA256 (it i) edges edge_indices) with (it (S i)).
  destruct (buffers_flip (Z.of_nat i mod 2) (it i) (it (S i)) Hslot) as [-> _].
  rewrite Hflip.
  assert (Hslot' : Z.of_nat (S i) mod 2 = 0 \/ Z.of_nat (S i) mod 2 = 1).
  { pose proof (Z.mod_pos_bound (Z.of_nat (S i)) 2 ltac:(lia)). lia. }
  replace (Z.of_nat i + 1) with (Z.of_nat (S i)) by lia.
  destruct (Z.eqb_spec (Z.of_nat i mod 10) 9) as [H9 | H9].
  - rewrite buffers_cur by done.
    assert (Hnext : Z.of_nat (S i) mod 10 = 0).
    { rewrite Nat2Z.inj_succ, <- Z.add_1_r, Z.add_mod by lia. by rewrite H9. }
    destruct (Z.eqb_spec (count_num_classes (it (S i))) nc) as [Hn | Hn].
    + eexists. split; [reflexivity|]. cbn [rounds_run final_slot final_digests].
      split; [lia|]. split; [lia|]. rewrite buffers_cur by done. by rewrite Nat2Z.id.
    + destruct (IH (S i) (count_num_classes (it (S i))) (it i)) as (r & Hr & Hb & Hp & Hd).
      * pose proof (count_num_classes_range (it (S i))). lia.
      * apply round_digests_length.
      * intros k Hk Hkb. apply Hinj; [lia|]. rewrite Hnext in Hkb. lia.
      * rewrite Hnext. lia.
      * exists r. split; [done|]. rewrite Hnext in Hb. split; [lia | done].
  - assert (Hnext : Z.of_nat (S i) mod 10 = Z.of_nat i mod 10 + 1).
    { rewrite Nat2Z.inj_succ, <- Z.add_1_r.
      rewrite (Z.div_mod (Z.of_nat i) 10) at 1 by lia.
      rewrite <- Z.add_assoc, Z.add_comm, Z.mul_comm, Z.mod_add by lia.
      apply Z.mod_small. lia. }
    destruct (IH (S i) nc (it i)) as (r & Hr & Hb & Hp & Hd).
    + lia.
    + apply round_digests_length.
    + intros k Hk Hkb. apply Hinj; [lia|]. rewrite Hnext in Hkb. lia.
    + rewrite Hnext. lia.
    + exists r. split; [done|]. rewrite Hnext in Hb. split; [lia | done].
Qed.

End Termination.

(** X7: on a graph of at least one section with edges in range, and a
    hash that tells the inputs of the rounds apart for the rounds in
    question, the loop of the rounds comes to its [break] within
    [10 * (n + 1)] rounds for [n] sections, and the digests it leaves in
    the final slot are those of that many rounds from the initial ones. *)
Theorem X7_rounds_terminate (SHA256 : bytes -> bytes) (edges edge_indices : list Z)
  (d0 d1 : list Digest) (fuel : nat) :
  (1 <= length d0)%nat -> length d1 = length d0 ->
  graph_ok (length d0) edges edge_indices ->
  Forall (fun d => length d = HASH_SIZE) d0 ->
  (forall m, (HASH_SIZE <= length (SHA256 m))%nat) ->
  Forall (fun cur => injective_on SHA256 (round_inputs cur edges edge_indices))
    (round_history SHA256 edges edge_indices d0 (10 * (length d0 + 1))) ->
  (10 * (length d0 + 1) <= fuel)%nat ->
  exists r : rounds_result,
    rounds SHA256 fuel edges edge_indices 0 0 (-1) [d0; d1] = Some r /\
    0 <= rounds_run r <= 10 * (Z.of_nat (length d0) + 1) /\
    at_index (final_digests r) (final_slot r)
    = Some (round_digests SHA256 edges edge_indices d0 (Z.to_nat (rounds_run r))).
Proof.
  intros Hpos Hlen Hg Hsz Hout Hinj Hfuel.
  destruct (rounds_from SHA256 edges edge_indices d0 Hpos Hg Hsz Hout fuel 0 (-1) d1)
    as (r & Hr & Hb & Hp & Hd).
  - pose proof (count_num_classes_range (round_digests SHA256 edges edge_indices d0 0)). lia.
  - exact Hlen.
  - intros k _ Hk. rewrite Forall_forall in Hinj. apply Hinj.
    apply list_elem_of_lookup. exists k. apply round_history_lookup.
    change (Z.of_nat 0 mod 10) with 0 in Hk. lia.
  - change (Z.of_nat 0 mod 10) with 0. lia.
  - exists r. change (Z.of_nat 0 mod 10) with 0 in Hb. split; [exact Hr|].
    split; [lia | exact Hd].
Qed.

(** The hypothesis on the hash, by evaluation. *)
Lemma injective_history (SHA256 : bytes -> bytes) (edges edge_indices : list Z)
  (history : list (list Digest)) :
  forallb (fun cur => injective_onb SHA256 (round_inputs cur edges edge_indices)) history = true ->
  Forall (fun cur => injective_on SHA256 (round_inputs cur edges edge_indices)) history.
Proof.
  rewrite forallb_forall, Forall_forall. intros H cur Hcur.
  apply injective_onb_sound, H. by apply list_elem_of_In.
Qed.

Lemma X7_rounds_terminate_witness :
  exists r : rounds_result,
    rounds sample_SHA256 30 sample_pair_edges sample_pair_indices 0 0 (-1)
      [sample_pair; sample_pair] = Some r /\
    0 <= rounds_run r <= 10 * (Z.of_nat (length sample_pair) + 1) /\
    at_index (final_digests r) (final_slot r)
    = Some (round_digests sample_SHA256 sample_pair_edges sample_pair_indices sample_pair
              (Z.to_nat (rounds_run r))).
Proof.
  apply (X7_rounds_terminate sample_SHA256 sample_pair_edges sample_pair_indices
           sample_pair sample_pair 30).
  - cbn. lia.
  - reflexivity.
  - split; [reflexivity|]. split; repeat constructor; cbn; lia.
  - repeat constructor.
  - intros m. unfold sample_SHA256. rewrite length_map, length_seq. unfold HASH_SIZE. lia.
  - apply injective_history. vm_compute; reflexivity.
  - cbn. lia.
Defined.

(** ** The section enumerator on the files *)

Lemma sum_to_S (num : list Z) (i : nat) (b : Z) :
  num !! i = Some b -> sum_to num (S i) = sum_to num i + b.
Proof.
  intros Hb. unfold sum_to. rewrite (take_S_r _ _ _ Hb), foldr_app. cbn [foldr].
  generalize (take i num). intros l. induction l as [|x l IH]; cbn [foldr]; lia.
Qed.

Lemma prefix_sums_loop (cast : Z -> Z) (num : list Z) (k n m : nat) :
  length num = k -> (m + n < k)%nat ->
  (forall j, (j <= m + n)%nat -> cast (sum_to num j) = sum_to num j) ->
  for_loop n (Z.of_nat m)
    (fun i idx => a ← at_index idx i; b ← at_index num i; store_index idx (i + 1) (cast (a + b)))
    (sums_upto num m k)
  = Some (sums_upto num (m + n) k).
Proof.
  intros Hnum. revert m. induction n as [|n IH]; intros m Hm Hcast; cbn [for_loop].
  - by rewrite Nat.add_0_r.
  - rewrite !at_index_nat.
    assert (sums_upto num m k !! m = Some (sum_to num m)) as ->.
    { unfold sums_upto. rewrite lookup_app_l by (rewrite length_map, length_seq; lia).
      rewrite list_lookup_fmap, lookup_seq_lt by lia. done. }
    cbn [mbind option_bind].
    destruct (lookup_lt_is_Some_2 num m) as [b Hb]; [lia|]. rewrite Hb. cbn [mbind option_bind].
    rewrite <- (sum_to_S _ _ _ Hb), Hcast by lia.
    rewrite store_index_Some.
    2:{ unfold sums_upto. rewrite length_app, length_map, length_seq, length_replicate. lia. }
    replace (Z.of_nat m + 1) with (Z.of_nat (S m)) by lia. rewrite Nat2Z.id.
    assert (<[S m := sum_to num (S m)]> (sums_upto num m k) = sums_upto num (S m) k) as ->.
    { unfold sums_upto. rewrite insert_app_r_alt by (rewrite length_map, length_seq; lia).
      rewrite length_map, length_seq, Nat.sub_diag.
      destruct (k - S m)%nat as [|d] eqn:Hd; [lia|]. cbn [replicate].
      replace (k - S (S m))%nat with d by lia.
      rewrite (seq_S (S m)), map_app. cbn [map Nat.add insert list_insert].
      by rewrite <- app_assoc. }
    rewrite IH by (try lia; intros j Hj; apply Hcast; lia).
    do 2 f_equal. lia.
Qed.

(** The loop of the prefix sums, when the sums fit the type of the
    indices. *)
Lemma prefix_sums_spec (cast : Z -> Z) (num : list Z) (k : nat) :
  length num = k -> (0 < k)%nat -> Z.of_nat k < 2 ^ 64 ->
  (forall j, (j < k)%nat -> cast (sum_to num j) = sum_to num j) ->
  prefix_sums cast num (replicate k 0) k = Some (map (sum_to num) (seq 0 k)).
Proof.
  intros Hnum Hk Hbig Hcast. unfold prefix_sums.
  assert (to_u64 (Z.of_nat k - 1) = Z.of_nat k - 1) as ->.
  { unfold to_u64. rewrite wrap_unsigned. apply Z.mod_small. lia. }
  assert (replicate k 0 = sums_upto num 0 k) as ->.
  { unfold sums_upto. cbn [seq map]. destruct k; [lia|]. cbn [replicate].
    by rewrite Nat.sub_succ, Nat.sub_0_r. }
  change 0 with (Z.of_nat 0) at 1.
  rewrite (prefix_sums_loop cast num k) by (try lia; intros j Hj; apply Hcast; lia).
  f_equal. unfold sums_upto.
  replace (S (0 + Z.to_nat (Z.of_nat k - 1))) with k by lia.
  by rewrite Nat.sub_diag, app_nil_r.
Qed.

Lemma participants_concat (L : Linker) :
  participants L = concat (map (file_participants L) (objs L)).
Proof.
  unfold participants, all_sections, file_participants.
  induction (objs L) as [|f fs IH]; [done|]. cbn [map concat].
  by rewrite List.filter_app, IH.
Qed.

Lemma sum_to_lengths {A} (ls : list (list A)) (i : nat) :
  sum_to (map (fun l => Z.of_nat (length l)) ls) i = Z.of_nat (length (concat (take i ls))).
Proof.
  unfold sum_to. rewrite firstn_map. induction (take i ls) as [|l t IH]; [done|].
  cbn [map foldr concat]. rewrite IH, length_app. lia.
Qed.

Section Enumerate.
Variable L : Linker.
Hypothesis Hptr : forall p, p ∈ all_sections L -> is_Some (secs L !! p).

Lemma file_ptr (f : ObjectFile) (p : nat) : f ∈ objs L -> p ∈ file_sections f -> is_Some (secs L !! p).
Proof.
  intros Hf Hp. apply Hptr. unfold all_sections. apply list_elem_of_In, in_concat.
  exists (file_sections f). split; [|by apply list_elem_of_In].
  apply in_map. by apply list_elem_of_In.
Qed.

Lemma count_eligible_loop (ps : list nat) (n : Z) :
  (forall p, p ∈ ps -> is_Some (secs L !! p)) ->
  foldM (fun n p => isec ← secs L !! p; Some (if icf_eligible isec then n + 1 else n)) n ps
  = Some (n + Z.of_nat (length (List.filter (eligible_in L) ps))).
Proof.
  revert n. induction ps as [|p ps IH]; intros n Hps; cbn [foldM List.filter length].
  - f_equal. lia.
  - destruct (Hps p) as [s Hs]; [left|]. rewrite Hs. cbn [mbind option_bind].
    rewrite IH by (intros q Hq; apply Hps; by right).
    assert (eligible_in L p = icf_eligible s) as -> by (unfold eligible_in; by rewrite Hs).
    destruct (icf_eligible s); cbn [length]; f_equal; lia.
Qed.

Lemma count_eligible_spec (f : ObjectFile) :
  f ∈ objs L -> count_eligible L f = Some (Z.of_nat (length (file_participants L f))).
Proof.
  intros Hf. unfold count_eligible. rewrite count_eligible_loop; [done|].
  intros p Hp. by eapply file_ptr.
Qed.

Lemma mapM_ext_Some {A B} (f : A -> option B) (g : A -> B) (l : list A) :
  (forall x, x ∈ l -> f x = Some (g x)) -> mapM f l = Some (map g l).
Proof.
  intros H. apply mapM_Some. apply Forall2_fmap_r, Forall_Forall2_diag, Forall_forall.
  intros x Hx. by apply H.
Qed.

(** The inner loop of the filling pass over the sections of one file. *)
Lemma fill_file (ps done : list nat) (m : nat) :
  (forall p, p ∈ ps -> is_Some (secs L !! p)) ->
  (length (List.filter (eligible_in L) ps) <= m)%nat ->
  foldM (fun (s : Z * list (option nat)) p =>
           isec ← secs L !! p;
           if icf_eligible isec then
             v ← store_index (snd s) (fst s) (Some p);
             Some (fst s + 1, v)
           else Some s)
        (Z.of_nat (length done), (Some <$> done) ++ replicate m None) ps
  = Some (Z.of_nat (length (done ++ List.filter (eligible_in L) ps)),
          (Some <$> (done ++ List.filter (eligible_in L) ps))
          ++ replicate (m - length (List.filter (eligible_in L) ps)) None).
Proof.
  revert done m. induction ps as [|p ps IH]; intros done m Hps Hm; cbn [foldM List.filter].
  - by rewrite app_nil_r, Nat.sub_0_r.
  - destruct (Hps p) as [s Hs]; [left|]. rewrite Hs. cbn [mbind option_bind].
    cbn [List.filter] in Hm.
    assert (eligible_in L p = icf_eligible s) as Hel by (unfold eligible_in; by rewrite Hs).
    rewrite Hel in Hm |- *.
    destruct (icf_eligible s).
    + cbn [length] in Hm. cbn [fst snd].
      rewrite store_index_Some.
      2:{ rewrite length_app, length_fmap, length_replicate. lia. }
      cbn [mbind option_bind]. rewrite Nat2Z.id.
      destruct m as [|m]; [lia|]. cbn [replicate].
      rewrite insert_app_r_alt by (rewrite length_fmap; lia).
      rewrite length_fmap, Nat.sub_diag. cbn [insert list_insert].
      specialize (IH (done ++ [p]) m).
      rewrite length_app, fmap_app in IH. cbn [length fmap list_fmap] in IH.
      rewrite <- !app_assoc in IH. cbn [app] in IH.
      replace (Z.of_nat (length done) + 1) with (Z.of_nat (length done + 1)) by lia.
      rewrite IH; [| intros q Hq; apply Hps; by right | lia].
      cbn [length]. by rewrite Nat.sub_succ.
    + apply IH; [intros q Hq; apply Hps; by right | done].
Qed.

End Enumerate.

Lemma back_map_seq {A} (f : nat -> A) (k : nat) :
  (0 < k)%nat -> back (map f (seq 0 k)) = Some (f (k - 1)%nat).
Proof.
  intros Hk. unfold back. destruct k as [|k]; [lia|].
  rewrite seq_S, map_app. cbn [map]. rewrite last_snoc. do 2 f_equal. lia.
Qed.

Lemma back_lookup {A} (l : list A) : back l = l !! (length l - 1)%nat.
Proof. unfold back. rewrite last_lookup. f_equal. lia. Qed.

Lemma mapM_id_Some {A} (l : list A) : mapM id (Some <$> l) = Some l.
Proof.
  apply mapM_Some. apply Forall2_fmap_l, Forall_Forall2_diag, Forall_forall. by intros.
Qed.

Section Fill.
Variable L : Linker.
Hypothesis Hptr : forall p, p ∈ all_sections L -> is_Some (secs L !! p).

Local Abbreviation fps := (map (file_participants L) (objs L)).
Local Abbreviation num := (map (fun l : list nat => Z.of_nat (length l)) fps).

Lemma fill_loop (n i : nat) :
  (i + n = length (objs L))%nat ->
  for_loop n (Z.of_nat i)
    (fill_sections L (map (sum_to num) (seq 0 (length (objs L)))))
    ((Some <$> concat (take i fps))
     ++ replicate (length (concat fps) - length (concat (take i fps))) None)
  = Some ((Some <$> concat (take (i + n) fps))
          ++ replicate (length (concat fps) - length (concat (take (i + n) fps))) None).
Proof.
  revert i. induction n as [|n IH]; intros i Hi; cbn [for_loop].
  - by rewrite Nat.add_0_r.
  - unfold fill_sections at 1. rewrite !at_index_nat.
    destruct (lookup_lt_is_Some_2 (objs L) i) as [f Hf]; [lia|]. rewrite Hf.
    cbn [mbind option_bind].
    rewrite list_lookup_fmap, lookup_seq_lt by lia. cbn [fmap option_fmap option_map Nat.add].
    cbn [mbind option_bind].
    rewrite sum_to_lengths.
    assert (Hfp : fps !! i = Some (file_participants L f)) by (by rewrite list_lookup_fmap, Hf).
    assert (Hnext : concat (take (S i) fps) = concat (take i fps) ++ file_participants L f).
    { rewrite (take_S_r _ _ _ Hfp), concat_app. cbn [concat]. by rewrite app_nil_r. }
    assert (Hle : (length (concat (take (S i) fps)) <= length (concat fps))%nat).
    { rewrite <- (take_drop (S i) fps) at 2. rewrite concat_app, length_app. lia. }
    rewrite (fill_file L).
    + cbn [mbind option_bind snd]. replace (Z.of_nat i + 1) with (Z.of_nat (S i)) by lia.
      fold (file_participants L f). rewrite <- Hnext.
      replace (length (concat fps) - length (concat (take i fps))
               - length (file_participants L f))%nat
        with (length (concat fps) - length (concat (take (S i) fps)))%nat
        by (rewrite Hnext, length_app; lia).
      rewrite IH by lia. by replace (S i + n)%nat with (i + S n)%nat by lia.
    + intros p Hp. eapply file_ptr; [done | | done]. by eapply list_elem_of_lookup_2.
    + fold (file_participants L f). rewrite Hnext, length_app in Hle. lia.
Qed.

Hypothesis Hnd : NoDup (participants L).

Lemma set_index_loop (n m : nat) (st : list InputSection) :
  (m + n = length (participants L))%nat ->
  (forall i p, (i < m)%nat -> participants L !! i = Some p ->
     st !! p = set_icf_idx (Z.of_nat i) <$> secs L !! p) ->
  (forall p, p ∉ take m (participants L) -> st !! p = secs L !! p) ->
  exists st',
    for_loop n (Z.of_nat m) (set_index (Some <$> participants L)) st = Some st' /\
    (forall i p, participants L !! i = Some p ->
       st' !! p = set_icf_idx (Z.of_nat i) <$> secs L !! p) /\
    (forall p, p ∉ participants L -> st' !! p = secs L !! p).
Proof.
  revert m st. induction n as [|n IH]; intros m st Hm Ha Hb; cbn [for_loop].
  - exists st. split; [done|]. split.
    + intros i p Hi. apply Ha; [|done]. apply lookup_lt_Some in Hi. lia.
    + intros p Hp. apply Hb. intros Hin. apply Hp.
      apply elem_of_take in Hin as (j & Hj & _). by eapply list_elem_of_lookup_2.
  - destruct (lookup_lt_is_Some_2 (participants L) m) as [p Hp]; [lia|].
    assert (Hfresh : p ∉ take m (participants L)).
    { intros Hin. apply list_elem_of_lookup in Hin as [j Hj].
      pose proof (lookup_lt_Some _ _ _ Hj) as Hjl. rewrite length_take in Hjl.
      rewrite lookup_take_lt in Hj by lia.
      pose proof (NoDup_lookup _ _ _ _ Hnd Hj Hp). lia. }
    destruct (Hptr p) as [s Hs].
    { unfold participants in Hp. apply list_elem_of_lookup_2 in Hp.
      apply list_elem_of_In, filter_In in Hp as [Hp _]. by apply list_elem_of_In. }
    unfold set_index at 1. rewrite at_index_nat, list_lookup_fmap, Hp.
    cbn [fmap option_fmap option_map mbind option_bind].
    rewrite (Hb p Hfresh), Hs. cbn [mbind option_bind].
    replace (Z.of_nat m + 1) with (Z.of_nat (S m)) by lia.
    apply IH; [lia | |].
    + intros i q Hi Hq. destruct (decide (i = m)) as [-> | Hne].
      * assert (q = p) as -> by congruence.
        rewrite list_lookup_insert_eq; [by rewrite Hs|].
        apply lookup_lt_is_Some. rewrite (Hb p Hfresh). by eexists.
      * rewrite list_lookup_insert_ne; [apply Ha; [lia | done]|].
        intros <-. pose proof (NoDup_lookup _ _ _ _ Hnd Hq Hp). lia.
    + intros q Hq. rewrite (take_S_r _ _ _ Hp) in Hq.
      apply not_elem_of_app in Hq as [Hq Hqp]. apply not_elem_of_cons in Hqp as [Hqp _].
      rewrite list_lookup_insert_ne by done. by apply Hb.
Qed.

(** The three loops of [gather_sections] together. *)
Lemma gather_sections_run :
  objs L <> [] -> Z.of_nat (length (objs L)) < 2 ^ 64 ->
  exists st : list InputSection,
    gather_sections L = Some (mkLinker st (syms L) (objs L), participants L) /\
    (forall (i p : nat), participants L !! i = Some p ->
       st !! p = set_icf_idx (Z.of_nat i) <$> secs L !! p) /\
    (forall p : nat, p ∉ participants L -> st !! p = secs L !! p).
Proof.
  intros Hne Hbig. set (k := length (objs L)).
  assert (Hk : (0 < k)%nat) by (subst k; destruct (objs L); [done | cbn; lia]).
  unfold gather_sections. fold k.
  rewrite (mapM_ext_Some _ (fun f => Z.of_nat (length (file_participants L f)))).
  2:{ intros f Hf. by apply count_eligible_spec. }
  cbn [mbind option_bind].
  assert (map (fun f => Z.of_nat (length (file_participants L f))) (objs L) = num) as ->.
  { by rewrite map_map. }
  rewrite (prefix_sums_spec id num k); [| by rewrite !length_map | done | done | done].
  cbn [mbind option_bind]. rewrite back_map_seq by done. cbn [mbind option_bind].
  assert (back num = num !! (k - 1)%nat) as Hback.
  { rewrite back_lookup. by rewrite !length_map. }
  destruct (lookup_lt_is_Some_2 num (k - 1)) as [b Hb]; [rewrite !length_map; lia|].
  rewrite Hback, Hb. cbn [mbind option_bind].
  rewrite <- (sum_to_S num (k - 1) b Hb). replace (S (k - 1)) with k by lia.
  rewrite sum_to_lengths, Nat2Z.id.
  assert (take k fps = fps) as Hall by (apply take_ge; rewrite length_map; lia).
  rewrite Hall.
  pose proof (fill_loop k 0 ltac:(lia)) as Hfill. rewrite take_0 in Hfill.
  cbn [concat fmap list_fmap app length] in Hfill.
  rewrite Nat.sub_0_r in Hfill. fold k in Hfill. change (Z.of_nat 0) with 0 in Hfill.
  rewrite Hfill. cbn [mbind option_bind]. cbn [Nat.add]. rewrite Hall.
  rewrite Nat.sub_diag. cbn [replicate]. rewrite app_nil_r.
  rewrite <- participants_concat, length_fmap.
  destruct (set_index_loop (length (participants L)) 0 (secs L)) as (st & Hrun & Ha & Hb');
    [lia | intros; lia | done |].
  change (Z.of_nat 0) with 0 in Hrun. rewrite Hrun. cbn [mbind option_bind].
  rewrite mapM_id_Some. cbn [mbind option_bind]. by exists st.
Qed.

End Fill.

(** X8: with at least one file, the sections of the files in the store
    and no marked section in two places, [gather_sections] returns the
    sections marked [icf_eligible] in the order of the files and of their
    sections, sets [icf_idx] of each to its position in that vector, and
    leaves every other section as it was. *)
Theorem X8_gather_sections_enumerates (L : Linker) :
  (forall p, p ∈ all_sections L -> is_Some (secs L !! p)) ->
  NoDup (participants L) ->
  objs L <> [] -> Z.of_nat (length (objs L)) < 2 ^ 64 ->
  exists st : list InputSection,
    gather_sections L = Some (mkLinker st (syms L) (objs L), participants L) /\
    (forall (i p : nat), participants L !! i = Some p ->
       st !! p = set_icf_idx (Z.of_nat i) <$> secs L !! p) /\
    (forall p : nat, p ∉ participants L -> st !! p = secs L !! p).
Proof. apply gather_sections_run. Qed.

(** The sample input after the leaf pass. *)
Lemma two_classes_marked_sections (p : nat) :
  p ∈ all_sections two_classes_marked -> is_Some (secs two_classes_marked !! p).
Proof. intros H. vm_compute in H. members H; by eexists. Qed.

Lemma X8_gather_sections_enumerates_witness :
  exists st : list InputSection,
    gather_sections two_classes_marked
    = Some (mkLinker st (syms two_classes_marked) (objs two_classes_marked),
            participants two_classes_marked) /\
    (forall (i p : nat), participants two_classes_marked !! i = Some p ->
       st !! p = set_icf_idx (Z.of_nat i) <$> secs two_classes_marked !! p) /\
    (forall p : nat, p ∉ participants two_classes_marked ->
       st !! p = secs two_classes_marked !! p).
Proof.
  apply (X8_gather_sections_enumerates two_classes_marked).
  - exact two_classes_marked_sections.
  - apply (bool_decide_unpack _). vm_compute. exact I.
  - discriminate.
  - vm_compute. reflexivity.
Defined.

(** ** The edge builder on the participants *)

Lemma edge_target_step (L : Linker) (s : InputSection) (j : nat) (acc : list nat) :
  rels_resolve L s -> (j < length (rels s))%nat ->
  edge_target L s (Z.of_nat j) acc = Some (acc ++ option_list (reloc_target L s j)).
Proof.
  intros Hres Hj. destruct (lookup_lt_is_Some_2 (rels s) j Hj) as [rel Hrel].
  destruct (Hres j rel Hrel) as (has & Hhas & Hsym).
  unfold edge_target, reloc_target. rewrite !at_index_nat, Hhas, Hrel. cbn [mbind option_bind].
  destruct has; [by rewrite app_nil_r|].
  destruct (Hsym eq_refl) as (sym & -> & Hp). cbn [mbind option_bind].
  destruct (sym_frag sym); [by rewrite app_nil_r|].
  destruct (input_section sym) as [p|]; [|by rewrite app_nil_r].
  destruct (Hp p eq_refl eq_refl) as [tsec Ht]. unfold eligible_in. rewrite Ht.
  cbn [mbind option_bind]. destruct (icf_eligible tsec); [done | by rewrite app_nil_r].
Qed.

Lemma edge_targets_loop (L : Linker) (s : InputSection) (n j : nat) (acc : list nat) :
  rels_resolve L s -> (j + n <= length (rels s))%nat ->
  for_loop n (Z.of_nat j) (edge_target L s) acc
  = Some (acc ++ omap (reloc_target L s) (seq j n)).
Proof.
  intros Hres. revert j acc. induction n as [|n IH]; intros j acc Hj; cbn [for_loop seq omap].
  - by rewrite app_nil_r.
  - rewrite edge_target_step by (done || lia).
    replace (Z.of_nat j + 1) with (Z.of_nat (S j)) by lia. rewrite IH by lia.
    rewrite <- app_assoc. do 2 f_equal. cbn [list_omap].
    by destruct (reloc_target L s j).
Qed.

Lemma edge_targets_spec (L : Linker) (p : nat) (s : InputSection) :
  secs L !! p = Some s -> rels_resolve L s ->
  edge_targets L s = Some (section_targets L p).
Proof.
  intros Hs Hres. unfold edge_targets, section_targets. rewrite Hs.
  change 0 with (Z.of_nat 0). by rewrite edge_targets_loop.
Qed.

Lemma section_targets_valid (L : Linker) (p t : nat) :
  t ∈ section_targets L p -> eligible_in L t = true.
Proof.
  unfold section_targets. destruct (secs L !! p) as [s|]; [|by intros ?%elem_of_nil].
  intros (j & _ & Hj)%list_elem_of_omap. unfold reloc_target in Hj.
  destruct (has_fragments s !! j) as [[|]|]; try done.
  destruct (rels s !! j) as [rel|]; try done.
  destruct (rel_symbol L s rel) as [sym|]; try done.
  destruct (sym_frag sym); try done.
  destruct (input_section sym) as [q|]; try done.
  destruct (eligible_in L q) eqn:He; by simplify_eq.
Qed.

(** The filling of [edges] with the targets of one section. *)
Lemma fill_targets (L : Linker) (ts : list nat) (done : list Z) (m : nat) :
  (forall t, t ∈ ts -> is_Some (secs L !! t)) -> (length ts <= m)%nat ->
  foldM (fun (s : Z * list Z) t =>
           tsec ← secs L !! t;
           v ← store_index (snd s) (fst s) (to_u32 (icf_idx tsec));
           Some (fst s + 1, v))
        (Z.of_nat (length done), done ++ replicate m 0) ts
  = Some (Z.of_nat (length (done ++ map (fun t => to_u32 (icf_idx_in L t)) ts)),
          (done ++ map (fun t => to_u32 (icf_idx_in L t)) ts) ++ replicate (m - length ts) 0).
Proof.
  revert done m. induction ts as [|t ts IH]; intros done m Hts Hm; cbn [foldM map].
  - by rewrite app_nil_r, Nat.sub_0_r.
  - destruct (Hts t) as [tsec Ht]; [left|]. rewrite Ht. cbn [mbind option_bind fst snd].
    cbn [length] in Hm. destruct m as [|m]; [lia|].
    rewrite store_index_Some by (rewrite length_app, length_replicate; lia).
    cbn [mbind option_bind]. rewrite Nat2Z.id. cbn [replicate].
    rewrite insert_app_r_alt by lia. rewrite Nat.sub_diag. cbn [insert list_insert].
    specialize (IH (done ++ [to_u32 (icf_idx tsec)]) m).
    rewrite length_app in IH. cbn [length] in IH.
    rewrite <- !app_assoc in IH. cbn [app] in IH.
    replace (Z.of_nat (length done) + 1) with (Z.of_nat (length done + 1)) by lia.
    rewrite IH; [| intros q Hq; apply Hts; by right | lia].
    assert (icf_idx_in L t = icf_idx tsec) as -> by (unfold icf_idx_in; by rewrite Ht).
    cbn [length]. by rewrite Nat.sub_succ, <- app_assoc.
Qed.

Lemma concat_block {A} (ls : list (list A)) (i : nat) (l : list A) :
  ls !! i = Some l ->
  take (length l) (drop (length (concat (take i ls))) (concat ls)) = l.
Proof.
  intros Hl. rewrite <- (take_drop_middle _ _ _ Hl) at 2.
  rewrite concat_app. cbn [concat]. rewrite drop_app_length, take_app_length. done.
Qed.

Lemma concat_take_length_le {A} (ls : list (list A)) (i : nat) :
  (length (concat (take i ls)) <= length (concat ls))%nat.
Proof. rewrite <- (take_drop i ls) at 2. rewrite concat_app, length_app. lia. Qed.

Section Edges.
Variable L : Linker.
Variable sections : list nat.
Hypothesis Hsec : forall p, p ∈ sections ->
  exists s, secs L !! p = Some s /\ icf_eligible s = true /\ rels_resolve L s.

Local Abbreviation tg := (map (section_targets L) sections).
Local Abbreviation blocks := (map (map (fun t => to_u32 (icf_idx_in L t))) tg).
Local Abbreviation num := (map (fun l : list nat => Z.of_nat (length l)) tg).

Lemma count_edges_spec (p : nat) :
  p ∈ sections -> count_edges L p = Some (Z.of_nat (length (section_targets L p))).
Proof.
  intros Hp. destruct (Hsec p Hp) as (s & Hs & He & Hres).
  unfold count_edges. rewrite Hs. cbn [mbind option_bind]. rewrite He.
  by rewrite (edge_targets_spec L p s Hs Hres).
Qed.

Lemma blocks_length (i : nat) :
  length (concat (take i blocks)) = length (concat (take i tg)).
Proof.
  rewrite (firstn_map (map (fun t => to_u32 (icf_idx_in L t))) i tg).
  induction (take i tg) as [|l t IH]; [done|].
  cbn [map concat]. by rewrite !length_app, length_map, IH.
Qed.

Lemma blocks_total : length (concat blocks) = length (concat tg).
Proof.
  pose proof (blocks_length (length sections)) as H.
  by rewrite !take_ge in H by (rewrite !length_map; lia).
Qed.

Lemma fill_edges_loop (n i : nat) :
  (i + n = length sections)%nat ->
  for_loop n (Z.of_nat i)
    (fill_edges L sections (map (sum_to num) (seq 0 (length sections))))
    (concat (take i blocks)
     ++ replicate (length (concat blocks) - length (concat (take i blocks))) 0)
  = Some (concat (take (i + n) blocks)
          ++ replicate (length (concat blocks) - length (concat (take (i + n) blocks))) 0).
Proof.
  revert i. induction n as [|n IH]; intros i Hi; cbn [for_loop].
  - by rewrite Nat.add_0_r.
  - unfold fill_edges at 1. rewrite !at_index_nat.
    destruct (lookup_lt_is_Some_2 sections i) as [p Hp]; [lia|]. rewrite Hp.
    cbn [mbind option_bind].
    destruct (Hsec p) as (s & Hs & He & Hres); [by eapply list_elem_of_lookup_2|].
    rewrite Hs. cbn [mbind option_bind].
    rewrite list_lookup_fmap, lookup_seq_lt by lia. cbn [fmap option_fmap option_map Nat.add].
    cbn [mbind option_bind].
    rewrite (edge_targets_spec L p s Hs Hres). cbn [mbind option_bind].
    rewrite sum_to_lengths, <- blocks_length.
    assert (Hb : blocks !! i = Some (map (fun t => to_u32 (icf_idx_in L t)) (section_targets L p))).
    { by rewrite !list_lookup_fmap, Hp. }
    assert (Hnext : concat (take (S i) blocks)
                    = concat (take i blocks)
                      ++ map (fun t => to_u32 (icf_idx_in L t)) (section_targets L p)).
    { rewrite (take_S_r _ _ _ Hb), concat_app. cbn [concat]. by rewrite app_nil_r. }
    pose proof (concat_take_length_le blocks (S i)) as Hle.
    rewrite Hnext, length_app, length_map in Hle.
    rewrite (fill_targets L).
    + cbn [mbind option_bind snd]. replace (Z.of_nat i + 1) with (Z.of_nat (S i)) by lia.
      rewrite <- Hnext.
      replace (length (concat blocks) - length (concat (take i blocks))
               - length (section_targets L p))%nat
        with (length (concat blocks) - length (concat (take (S i) blocks)))%nat
        by (rewrite Hnext, length_app, length_map; lia).
      rewrite IH by lia. by replace (S i + n)%nat with (i + S n)%nat by lia.
    + intros t Ht. apply section_targets_valid in Ht. unfold eligible_in in Ht.
      destruct (secs L !! t); [by eexists | done].
    + lia.
Qed.

(** The three loops of [gather_edges] together. *)
Lemma gather_edges_run :
  sections <> [] -> Z.of_nat (length sections) < 2 ^ 64 ->
  Z.of_nat (length (concat tg)) < 2 ^ 32 ->
  gather_edges L sections
  = Some (concat blocks, map (sum_to num) (seq 0 (length sections))).
Proof.
  intros Hne Hbig Htot. set (n := length sections).
  assert (Hn : (0 < n)%nat) by (subst n; destruct sections; [done | cbn; lia]).
  unfold gather_edges. fold n.
  rewrite (mapM_ext_Some _ (fun p => Z.of_nat (length (section_targets L p)))).
  2:{ intros p Hp. by apply count_edges_spec. }
  cbn [mbind option_bind].
  assert (map (fun p => Z.of_nat (length (section_targets L p))) sections = num) as ->.
  { by rewrite map_map. }
  assert (length num = n) as Hnum by (by rewrite !length_map).
  rewrite Hnum.
  rewrite (prefix_sums_spec to_u32 num n); [| done | done | done |].
  2:{ intros j Hj. rewrite sum_to_lengths. unfold to_u32. rewrite wrap_unsigned.
      apply Z.mod_small. pose proof (concat_take_length_le tg j). lia. }
  cbn [mbind option_bind]. rewrite back_map_seq by done. cbn [mbind option_bind].
  destruct (lookup_lt_is_Some_2 num (n - 1)) as [b Hb]; [lia|].
  rewrite back_lookup, Hnum, Hb. cbn [mbind option_bind].
  rewrite <- (sum_to_S num (n - 1) b Hb). replace (S (n - 1)) with n by lia.
  rewrite sum_to_lengths, Nat2Z.id.
  rewrite (take_ge tg) by (rewrite length_map; lia).
  pose proof (fill_edges_loop n 0 ltac:(lia)) as Hfill. rewrite take_0 in Hfill.
  cbn [concat app length] in Hfill. rewrite Nat.sub_0_r, blocks_total in Hfill.
  change (Z.of_nat 0) with 0 in Hfill. fold n in Hfill.
  rewrite Hfill. cbn [mbind option_bind Nat.add].
  rewrite (take_ge blocks) by (rewrite !length_map; lia).
  by rewrite blocks_total, Nat.sub_diag, app_nil_r.
Qed.

(** The slice of [edges] that the propagator reads for position [i]. *)
Lemma out_neighbors_block (i p : nat) :
  sections !! i = Some p ->
  out_neighbors (concat blocks) (map (sum_to num) (seq 0 (length sections)))
    (length sections) i
  = map (fun t => to_u32 (icf_idx_in L t)) (section_targets L p).
Proof.
  intros Hp. pose proof (lookup_lt_Some _ _ _ Hp) as Hi.
  assert (Hb : blocks !! i = Some (map (fun t => to_u32 (icf_idx_in L t)) (section_targets L p))).
  { by rewrite !list_lookup_fmap, Hp. }
  assert (Hnext : concat (take (S i) blocks)
                  = concat (take i blocks)
                    ++ map (fun t => to_u32 (icf_idx_in L t)) (section_targets L p)).
  { rewrite (take_S_r _ _ _ Hb), concat_app. cbn [concat]. by rewrite app_nil_r. }
  unfold out_neighbors.
  assert (Hidx : forall j, (j < length sections)%nat ->
            map (sum_to num) (seq 0 (length sections)) !! j
            = Some (Z.of_nat (length (concat (take j blocks))))).
  { intros j Hj. rewrite list_lookup_fmap, lookup_seq_lt by lia.
    cbn [fmap option_fmap option_map Nat.add]. by rewrite sum_to_lengths, <- blocks_length. }
  rewrite (Hidx i Hi).
  change (default 0 (Some (Z.of_nat (length (concat (take i blocks))))))
    with (Z.of_nat (length (concat (take i blocks)))).
  rewrite Nat2Z.id.
  assert ((if Nat.eqb (S i) (length sections) then Z.of_nat (length (concat blocks))
           else default 0 (map (sum_to num) (seq 0 (length sections)) !! S i))
          = Z.of_nat (length (concat (take (S i) blocks)))) as ->.
  { destruct (Nat.eqb_spec (S i) (length sections)) as [He | He].
    - rewrite take_ge by (rewrite !length_map; lia). done.
    - by rewrite Hidx by lia. }
  rewrite Hnext, length_app.
  replace (Z.to_nat (Z.of_nat (length (concat (take i blocks))
                               + length (map (fun t => to_u32 (icf_idx_in L t))
                                           (section_targets L p)))
                     - Z.of_nat (length (concat (take i blocks)))))
    with (length (map (fun t => to_u32 (icf_idx_in L t)) (section_targets L p))) by lia.
  by apply concat_block.
Qed.

(** Edges that are positions of the vector make a graph the propagator
    can read. *)
Lemma edges_graph_ok :
  (forall p t, p ∈ sections -> t ∈ section_targets L p ->
     0 <= to_u32 (icf_idx_in L t) < Z.of_nat (length sections)) ->
  graph_ok (length sections) (concat blocks) (map (sum_to num) (seq 0 (length sections))).
Proof.
  intros Hrange. split; [by rewrite length_map, length_seq|]. split.
  - apply Forall_fmap, Forall_forall. intros j _. unfold compose.
    rewrite sum_to_lengths, blocks_total.
    pose proof (concat_take_length_le tg j). lia.
  - apply Forall_forall. intros e He.
    apply list_elem_of_In, in_concat in He as (b & Hb & He).
    apply in_map_iff in Hb as (ts & <- & Hts). apply in_map_iff in Hts as (p & <- & Hp).
    apply in_map_iff in He as (t & <- & Ht).
    apply (Hrange p t); by apply list_elem_of_In.
Qed.

End Edges.

(** X9: on a non-empty vector of marked sections whose relocations
    resolve, with fewer than [2^32] edges, [gather_edges] is defined,
    [edge_indices] has an entry per section and [edges] one per counted
    relocation, and the out-neighbours that the propagator reads for the
    section at position [i] are the [icf_idx] of the marked sections that
    its relocations refer to through a symbol, in the order of the
    relocations. *)
Theorem X9_gather_edges_builds_graph (L : Linker) (sections : list nat) :
  sections <> [] -> Z.of_nat (length sections) < 2 ^ 64 ->
  (forall p, p ∈ sections ->
     exists s, secs L !! p = Some s /\ icf_eligible s = true /\ rels_resolve L s) ->
  Z.of_nat (length (concat (map (section_targets L) sections))) < 2 ^ 32 ->
  exists edges edge_indices : list Z,
    gather_edges L sections = Some (edges, edge_indices) /\
    length edge_indices = length sections /\
    length edges = length (concat (map (section_targets L) sections)) /\
    forall (i p : nat), sections !! i = Some p ->
      out_neighbors edges edge_indices (length sections) i
      = map (fun t => to_u32 (icf_idx_in L t)) (section_targets L p).
Proof.
  intros Hne Hbig Hsec Htot. eexists _, _.
  split; [by apply gather_edges_run|].
  split; [by rewrite length_map, length_seq|].
  split; [apply blocks_total|].
  intros i p Hp. by apply out_neighbors_block.
Qed.

Lemma two_classes_resolve (L : Linker) (p : nat) :
  L = two_classes_marked \/ L = two_classes_indexed ->
  p ∈ participants two_classes_marked ->
  exists s, secs L !! p = Some s /\ icf_eligible s = true /\ rels_resolve L s.
Proof.
  intros HL Hp. vm_compute in Hp. destruct HL as [-> | ->]; members Hp;
    (eexists; split; [vm_compute; reflexivity|]; split; [reflexivity|]);
    intros [|j] rel Hrel; vm_compute in Hrel; simplify_eq;
    (exists false; split; [reflexivity|]; intros _; eexists; split; [vm_compute; reflexivity|]);
    intros q _ Hq; vm_compute in Hq; simplify_eq; by eexists.
Qed.

(** The sample input in which two sections hold the same relocations in
    opposite orders, after the leaf pass and after the enumeration. *)
Lemma reordered_marked_sections (p : nat) :
  p ∈ all_sections reordered_marked -> is_Some (secs reordered_marked !! p).
Proof. intros H. vm_compute in H. members H; by eexists. Qed.

Lemma reordered_resolve (L : Linker) (p : nat) :
  L = reordered_marked \/ L = reordered_indexed ->
  p ∈ participants reordered_marked ->
  exists s, secs L !! p = Some s /\ icf_eligible s = true /\ rels_resolve L s.
Proof.
  intros HL Hp. vm_compute in Hp. destruct HL as [-> | ->]; members Hp;
    (eexists; split; [vm_compute; reflexivity|]; split; [reflexivity|]);
    intros [|[|j]] rel Hrel; vm_compute in Hrel; simplify_eq;
    (exists false; split; [reflexivity|]; intros _; eexists; split; [vm_compute; reflexivity|]);
    intros q _ Hq; vm_compute in Hq; simplify_eq; by eexists.
Qed.

(** Its edges are those of sections 0 and 1, each to sections 2 and 3. *)
Lemma reordered_edges :
  gather_edges reordered_indexed [0; 1; 2; 3]%nat = Some ([2; 3; 3; 2], [0; 2; 4; 4]).
Proof. vm_compute. reflexivity. Qed.

Lemma X9_gather_edges_builds_graph_witness :
  exists edges edge_indices : list Z,
    gather_edges reordered_indexed [0; 1; 2; 3]%nat = Some (edges, edge_indices) /\
    length edge_indices = length [0; 1; 2; 3]%nat /\
    length edges
    = length (concat (map (section_targets reordered_indexed) [0; 1; 2; 3]%nat)) /\
    forall (i p : nat), [0; 1; 2; 3]%nat !! i = Some p ->
      out_neighbors edges edge_indices (length [0; 1; 2; 3]%nat) i
      = map (fun t => to_u32 (icf_idx_in reordered_indexed t))
          (section_targets reordered_indexed p).
Proof.
  apply (X9_gather_edges_builds_graph reordered_indexed [0; 1; 2; 3]%nat).
  - discriminate.
  - cbn. lia.
  - intros p Hp. apply reordered_resolve; [by right | exact Hp].
  - vm_compute. reflexivity.
Defined.

(** What [gather_sections] writes does not matter to the targets. *)
Section Frame.
Variables L L' : Linker.
Hypothesis Hsyms : syms L' = syms L.
Hypothesis Hobjs : objs L' = objs L.
Hypothesis Hsecs : forall p s, secs L !! p = Some s ->
  exists i, secs L' !! p = Some (set_icf_idx i s).
Hypothesis Hdom : forall p, secs L !! p = None -> secs L' !! p = None.

Lemma eligible_in_frame (p : nat) : eligible_in L' p = eligible_in L p.
Proof.
  unfold eligible_in. destruct (secs L !! p) as [s|] eqn:Hs.
  - destruct (Hsecs p s Hs) as [i ->]. done.
  - by rewrite (Hdom p Hs).
Qed.

Lemma rel_symbol_frame (s : InputSection) (i : Z) (rel : ElfRela) :
  rel_symbol L' (set_icf_idx i s) rel = rel_symbol L s rel.
Proof. unfold rel_symbol. by rewrite Hobjs, Hsyms. Qed.

Lemma reloc_target_frame (s : InputSection) (i : Z) (j : nat) :
  reloc_target L' (set_icf_idx i s) j = reloc_target L s j.
Proof.
  unfold reloc_target. cbn [set_icf_idx has_fragments rels].
  destruct (has_fragments s !! j) as [[|]|]; try done.
  destruct (rels s !! j) as [rel|]; try done.
  rewrite rel_symbol_frame. destruct (rel_symbol L s rel) as [sym|]; try done.
  destruct (sym_frag sym); try done. destruct (input_section sym) as [p|]; try done.
  by rewrite eligible_in_frame.
Qed.

Lemma section_targets_frame (p : nat) : section_targets L' p = section_targets L p.
Proof.
  unfold section_targets. destruct (secs L !! p) as [s|] eqn:Hs.
  - destruct (Hsecs p s Hs) as [i ->]. cbn [set_icf_idx rels].
    induction (seq 0 (length (rels s))) as [|j js IH]; [done|].
    cbn [omap list_omap]. rewrite reloc_target_frame. cbn [omap] in IH. by rewrite IH.
  - by rewrite (Hdom p Hs).
Qed.

Lemma rels_resolve_frame (s : InputSection) (i : Z) :
  rels_resolve L s -> rels_resolve L' (set_icf_idx i s).
Proof.
  intros Hres j rel Hrel. cbn [set_icf_idx rels] in Hrel.
  destruct (Hres j rel Hrel) as (has & Hhas & Hsym). exists has. split; [done|].
  intros Hf. destruct (Hsym Hf) as (sym & Hs & Hp). exists sym.
  rewrite rel_symbol_frame. split; [done|]. intros p Hfr Hin.
  destruct (Hp p Hfr Hin) as [t Ht]. destruct (Hsecs p t Ht) as [k ->]. by eexists.
Qed.

End Frame.

Lemma participants_spec (L : Linker) (p : nat) :
  p ∈ participants L <-> p ∈ all_sections L /\ eligible_in L p = true.
Proof. unfold participants. by rewrite list_elem_of_In, filter_In, <- list_elem_of_In. Qed.

Lemma participants_NoDup (L : Linker) : NoDup (all_sections L) -> NoDup (participants L).
Proof.
  unfold participants. induction 1 as [|x l Hx Hl IH]; cbn [List.filter]; [constructor|].
  destruct (eligible_in L x); [|done]. constructor; [|done].
  intros Hin. apply Hx. apply list_elem_of_In, filter_In in Hin as [Hin _].
  by apply list_elem_of_In.
Qed.

(** X10: the section enumerator followed by the edge builder: on input
    that meets [graph_input_ok] both are defined, the edges and the
    offsets are in range for the propagator, and every edge of the
    section at position [i] is the position, in the vector of the
    participants, of the section that the relocation refers to. *)
Theorem X10_edges_index_the_participants (L : Linker) :
  graph_input_ok L ->
  exists (L' : Linker) (edges edge_indices : list Z),
    gather_sections L = Some (L', participants L) /\
    gather_edges L' (participants L) = Some (edges, edge_indices) /\
    graph_ok (length (participants L)) edges edge_indices /\
    forall (i p : nat), participants L !! i = Some p ->
      Forall2 (fun e t => 0 <= e /\ participants L !! Z.to_nat e = Some t)
        (out_neighbors edges edge_indices (length (participants L)) i)
        (section_targets L p).
Proof.
  intros [[Hne Hbig] Hptr Hnd [Hpne Hpbig] Hrels Htg Hedges].
  pose proof (participants_NoDup L Hnd) as Hpnd.
  destruct (gather_sections_run L Hptr Hpnd Hne Hbig) as (st & Hgs & Hin & Hout).
  set (L' := mkLinker st (syms L) (objs L)).
  assert (Hsecs : forall p s, secs L !! p = Some s ->
            exists i, secs L' !! p = Some (set_icf_idx i s)).
  { intros p s Hs. destruct (decide (p ∈ participants L)) as [Hp | Hp].
    - apply list_elem_of_lookup in Hp as [i Hi]. exists (Z.of_nat i).
      cbn [L' secs]. by rewrite (Hin i p Hi), Hs.
    - exists (icf_idx s). cbn [L' secs]. rewrite (Hout p Hp), Hs. by destruct s. }
  assert (Hdom : forall p, secs L !! p = None -> secs L' !! p = None).
  { intros p Hs. cbn [L' secs]. rewrite Hout, Hs; [done|].
    intros [_ He]%participants_spec. unfold eligible_in in He. by rewrite Hs in He. }
  assert (Htgs : forall p, section_targets L' p = section_targets L p).
  { intros p. by apply section_targets_frame. }
  assert (Hpos : forall t, t ∈ participants L ->
            exists k, participants L !! k = Some t /\ icf_idx_in L' t = Z.of_nat k /\
                      to_u32 (icf_idx_in L' t) = Z.of_nat k).
  { intros t [k Hk]%list_elem_of_lookup. exists k. split; [done|].
    destruct (Hptr t) as [s Hs]; [apply participants_spec; by eapply list_elem_of_lookup_2|].
    assert (icf_idx_in L' t = Z.of_nat k) as ->.
    { unfold icf_idx_in. cbn [L' secs]. by rewrite (Hin k t Hk), Hs. }
    split; [done|]. unfold to_u32. rewrite wrap_unsigned. apply Z.mod_small.
    apply lookup_lt_Some in Hk. lia. }
  assert (Htarget : forall p t, p ∈ participants L -> t ∈ section_targets L p ->
            t ∈ participants L).
  { intros p t Hp Ht. apply participants_spec. split; [by eapply Htg|].
    by eapply section_targets_valid. }
  assert (Hsec' : forall p, p ∈ participants L ->
            exists s, secs L' !! p = Some s /\ icf_eligible s = true /\ rels_resolve L' s).
  { intros p Hp. pose proof Hp as [Hall He]%participants_spec.
    destruct (Hptr p Hall) as [s Hs]. destruct (Hsecs p s Hs) as [i Hi].
    exists (set_icf_idx i s). split; [done|]. split.
    - unfold eligible_in in He. by rewrite Hs in He.
    - apply (rels_resolve_frame L L'); try done. by eapply Hrels. }
  eexists L', _, _. split; [done|]. split.
  { apply gather_edges_run; [done | done | lia |].
    erewrite map_ext; [exact Hedges|]. intros p. apply Htgs. }
  split.
  - apply edges_graph_ok. intros p t Hp Ht. rewrite Htgs in Ht.
    destruct (Hpos t) as (k & Hk & _ & ->); [by eapply Htarget|].
    apply lookup_lt_Some in Hk. lia.
  - intros i p Hp. rewrite (out_neighbors_block L' (participants L) i p Hp), Htgs.
    apply Forall2_fmap_l, Forall_Forall2_diag, Forall_forall. intros t Ht.
    destruct (Hpos t) as (k & Hk & _ & Hu).
    { eapply Htarget; [|exact Ht]. by eapply list_elem_of_lookup_2. }
    unfold compose. rewrite Hu, Nat2Z.id. split; [lia | done].
Qed.

Lemma two_classes_graph_input_ok : graph_input_ok two_classes_marked.
Proof.
  split.
  - split; [discriminate | vm_compute; reflexivity].
  - exact two_classes_marked_sections.
  - apply (bool_decide_unpack _). vm_compute. exact I.
  - split; [intros H; vm_compute in H; discriminate | vm_compute; reflexivity].
  - intros p s Hp Hs. destruct (two_classes_resolve two_classes_marked p) as (s' & Hs' & _ & Hr);
      [by left | exact Hp |]. rewrite Hs in Hs'. injection Hs' as <-. exact Hr.
  - intros p t Hp Ht. vm_compute in Hp. members Hp; vm_compute in Ht; members Ht.
  - vm_compute. reflexivity.
Qed.

Lemma reordered_graph_input_ok : graph_input_ok reordered_marked.
Proof.
  split.
  - split; [discriminate | vm_compute; reflexivity].
  - exact reordered_marked_sections.
  - apply (bool_decide_unpack _). vm_compute. exact I.
  - split; [intros H; vm_compute in H; discriminate | vm_compute; reflexivity].
  - intros p s Hp Hs. destruct (reordered_resolve reordered_marked p) as (s' & Hs' & _ & Hr);
      [by left | exact Hp |]. rewrite Hs in Hs'. injection Hs' as <-. exact Hr.
  - intros p t Hp Ht. vm_compute in Hp. members Hp; vm_compute in Ht; members Ht;
      vm_compute; repeat constructor.
  - vm_compute. reflexivity.
Qed.

Lemma X10_edges_index_the_participants_witness :
  exists (L' : Linker) (edges edge_indices : list Z),
    gather_sections reordered_marked = Some (L', participants reordered_marked) /\
    gather_edges L' (participants reordered_marked) = Some (edges, edge_indices) /\
    graph_ok (length (participants reordered_marked)) edges edge_indices /\
    forall (i p : nat), participants reordered_marked !! i = Some p ->
      Forall2 (fun e t => 0 <= e /\ participants reordered_marked !! Z.to_nat e = Some t)
        (out_neighbors edges edge_indices (length (participants reordered_marked)) i)
        (section_targets reordered_marked p).
Proof. exact (X10_edges_index_the_participants reordered_marked reordered_graph_input_ok). Defined.

(** ** The election over the sorted sections *)

(** The order of the sort on keys. *)
Lemma digest_ltb_irrefl (a : Digest) : digest_ltb a a = false.
Proof. induction a as [|x a IH]; cbn [digest_ltb]; [done|]. rewrite IH, Z.ltb_irrefl. by rewrite andb_false_r. Qed.

Lemma key_le_spec (a b : sort_key) :
  key_le a b <->
  (key_digest a <> key_digest b /\ digest_le (key_digest a) (key_digest b)) \/
  (key_digest a = key_digest b /\ key_priority a <= key_priority b).
Proof.
  unfold key_le, key_ltb, bytes_eqb.
  destruct (decide (key_digest b = key_digest a)) as [He | He].
  - rewrite bool_decide_eq_true_2 by done. cbn [negb]. rewrite Z.ltb_ge.
    split; [intros; right; by split | intros [[? _] | [_ ?]]; [congruence | done]].
  - rewrite bool_decide_eq_false_2 by done. cbn [negb]. unfold digest_le.
    split; [intros; left; split; [congruence | done] | intros [[_ ?] | [? _]]; [done | congruence]].
Qed.

#[export] Instance key_le_total : Total key_le.
Proof.
  intros a b. rewrite !key_le_spec.
  destruct (decide (key_digest a = key_digest b)) as [He | He].
  - destruct (Z.le_gt_cases (key_priority a) (key_priority b)); [left | right]; right;
      (split; [done | lia]).
  - destruct (digest_le_total (key_digest a) (key_digest b)); [left | right]; left;
      (split; [congruence | done]).
Qed.

#[export] Instance key_le_trans : Transitive key_le.
Proof.
  intros a b c. rewrite !key_le_spec.
  intros [[Hab Hle1] | [Hab Hle1]] [[Hbc Hle2] | [Hbc Hle2]].
  - left. split; [|by eapply digest_le_trans].
    intros Hac. apply Hab. apply digest_le_antisym; [done|]. by rewrite Hac.
  - left. rewrite <- Hbc. by split.
  - left. rewrite Hab. by split.
  - right. split; [congruence | lia].
Qed.

Lemma run_start_le (ks : list sort_key) (j : nat) : (run_start ks j <= j)%nat.
Proof.
  induction j as [|j IH]; cbn [run_start]; [lia|].
  destruct (ks !! j), (ks !! S j); try lia. destruct (bytes_eqb _ _); lia.
Qed.

Lemma run_start_digest (ks : list sort_key) (j : nat) (k : sort_key) :
  ks !! j = Some k ->
  exists l, ks !! run_start ks j = Some l /\ key_digest l = key_digest k.
Proof.
  revert k. induction j as [|j IH]; intros k Hk; cbn [run_start]; [by exists k|].
  destruct (lookup_lt_is_Some_2 ks j) as [a Ha]; [apply lookup_lt_Some in Hk; lia|].
  rewrite Ha, Hk. destruct (bytes_eqb (key_digest a) (key_digest k)) eqn:He; [|by exists k].
  apply bytes_eqb_eq in He. destruct (IH a Ha) as (l & Hl & Hd). exists l. split; [done | congruence].
Qed.

(** A position starts a run exactly when the election treats it as a
    boundary. *)
Lemma run_start_boundary (ks : list sort_key) (i : nat) (cur : sort_key) :
  ks !! i = Some cur ->
  (if (Z.of_nat i =? 0) then Some true
   else prev ← at_index ks (Z.of_nat i - 1);
        Some (negb (bytes_eqb (key_digest prev) (key_digest cur))))
  = Some (bool_decide (run_start ks i = i)).
Proof.
  intros Hcur. destruct i as [|i]; [done|].
  destruct (Z.eqb_spec (Z.of_nat (S i)) 0); [lia|].
  replace (Z.of_nat (S i) - 1) with (Z.of_nat i) by lia. rewrite at_index_nat.
  destruct (lookup_lt_is_Some_2 ks i) as [a Ha]; [apply lookup_lt_Some in Hcur; lia|].
  rewrite Ha. cbn [mbind option_bind run_start]. rewrite Ha, Hcur.
  pose proof (run_start_le ks i).
  destruct (bytes_eqb (key_digest a) (key_digest cur)); cbn [negb]; f_equal; symmetry.
  - apply bool_decide_eq_false_2. lia.
  - by apply bool_decide_eq_true_2.
Qed.

(** The inner [while] loop of the election. *)
Lemma set_run_leader_spec (st : list InputSection) (lead : sort_key) (rest : list sort_key) :
  NoDup (key_section <$> rest) ->
  (forall k, k ∈ rest -> is_Some (st !! key_section k)) ->
  exists st',
    set_run_leader st lead rest = Some st' /\
    (forall j k, rest !! j = Some k ->
       st' !! key_section k
       = if in_run lead rest j
         then set_leader (Some (key_section lead)) <$> st !! key_section k
         else st !! key_section k) /\
    (forall p, p ∉ key_section <$> rest -> st' !! p = st !! p).
Proof.
  revert st. induction rest as [|k0 rest IH]; intros st Hnd Hval; cbn [set_run_leader].
  { exists st. split; [done|]. split; [by intros [|?] | done]. }
  rewrite fmap_cons in Hnd. apply NoDup_cons in Hnd as [Hk0 Hnd].
  destruct (bytes_eqb (key_digest lead) (key_digest k0)) eqn:Heq.
  - destruct (Hval k0) as [isec Hisec]; [left|]. rewrite Hisec.
    destruct (IH (<[key_section k0 := set_leader (Some (key_section lead)) isec]> st) Hnd)
      as (st' & Hrun & Hin & Hout).
    { intros k Hk. apply lookup_lt_is_Some. rewrite length_insert.
      apply lookup_lt_is_Some, Hval. by right. }
    exists st'. split; [done|]. split.
    + intros [|j] k Hk.
      * injection Hk as <-. unfold in_run. cbn [take forallb]. rewrite Heq. cbn [andb].
        rewrite (Hout _ Hk0), list_lookup_insert_eq by (by eapply lookup_lt_Some).
        by rewrite Hisec.
      * cbn in Hk. rewrite (Hin j k Hk). unfold in_run. cbn [take forallb]. rewrite Heq.
        cbn [andb]. rewrite list_lookup_insert_ne; [done|].
        intros Hsame. apply Hk0. rewrite Hsame. apply list_elem_of_fmap. exists k.
        split; [done | by eapply list_elem_of_lookup_2].
    + intros p Hp. rewrite fmap_cons in Hp. apply not_elem_of_cons in Hp as [Hne Hp].
      rewrite (Hout p Hp). by rewrite list_lookup_insert_ne.
  - exists st. split; [done|]. split; [|done].
    intros j k Hk. unfold in_run. destruct j; cbn [take forallb]; by rewrite Heq.
Qed.

(** After a boundary [i], the positions whose run starts at [i] are
    those [set_run_leader] writes. *)
Lemma run_start_after (ks : list sort_key) (i j : nat) (lead k : sort_key) :
  ks !! i = Some lead -> run_start ks i = i -> drop (S i) ks !! j = Some k ->
  in_run lead (drop (S i) ks) j = bool_decide (run_start ks (S i + j) = i).
Proof.
  intros Hlead Hi. revert k. induction j as [|j IH]; intros k Hk.
  - rewrite lookup_drop in Hk. rewrite Nat.add_0_r in Hk |- *.
    unfold in_run. cbn [run_start]. rewrite Hlead, Hk.
    rewrite (take_S_r _ _ _ ltac:(by rewrite lookup_drop, Nat.add_0_r)). cbn [take app forallb].
    rewrite take_0. cbn [app forallb]. rewrite andb_true_r.
    destruct (bytes_eqb (key_digest lead) (key_digest k)); symmetry.
    + by apply bool_decide_eq_true_2.
    + apply bool_decide_eq_false_2. lia.
  - destruct (lookup_lt_is_Some_2 (drop (S i) ks) j) as [a Ha];
      [apply lookup_lt_Some in Hk; lia|].
    specialize (IH a Ha). unfold in_run in IH |- *.
    rewrite (take_S_r _ _ _ Hk), forallb_app, IH. cbn [forallb]. rewrite andb_true_r.
    rewrite lookup_drop in Hk, Ha.
    replace (S i + S j)%nat with (S (S i + j)) by lia. cbn [run_start].
    rewrite Ha. replace (S (S i + j)) with (S i + S j)%nat by lia. rewrite Hk.
    case_bool_decide as Hrs.
    + destruct (run_start_digest ks (S i + j) a Ha) as (l & Hl & Hd).
      rewrite Hrs in Hl. assert (l = lead) as -> by congruence. rewrite Hd. cbn [andb].
      destruct (bytes_eqb (key_digest a) (key_digest k)); symmetry.
      * by apply bool_decide_eq_true_2.
      * apply bool_decide_eq_false_2. lia.
    + cbn [andb]. symmetry. apply bool_decide_eq_false_2.
      destruct (bytes_eqb (key_digest a) (key_digest k)); [done | lia].
Qed.

Section Election.
Variable ks : list sort_key.
Variable st0 : list InputSection.
Hypothesis Hnd : NoDup (key_section <$> ks).
Hypothesis Hval : forall k, k ∈ ks -> is_Some (st0 !! key_section k).

Lemma elected_valid (m : nat) (st : list InputSection) (k : sort_key) :
  elected ks st0 m st -> k ∈ ks -> is_Some (st !! key_section k).
Proof.
  intros [Hin _] Hk. pose proof (Hval k Hk) as [s Hs].
  apply list_elem_of_lookup in Hk as [j Hj]. rewrite (Hin j k Hj), Hs.
  destruct (bool_decide _); by eexists.
Qed.

Lemma elect_at_step (m : nat) (st : list InputSection) :
  (m < length ks)%nat -> elected ks st0 m st ->
  exists st', elect_at ks (Z.of_nat m) st = Some st' /\ elected ks st0 (S m) st'.
Proof.
  intros Hm Hinv. destruct (lookup_lt_is_Some_2 ks m Hm) as [cur Hcur].
  unfold elect_at. rewrite at_index_nat, Hcur. cbn [mbind option_bind].
  rewrite (run_start_boundary ks m cur Hcur). cbn [mbind option_bind].
  assert (Hsec : forall j j' k k', ks !! j = Some k -> ks !! j' = Some k' ->
            key_section k = key_section k' -> j = j').
  { intros j j' k k' Hj Hj' Heq. eapply (NoDup_lookup _ _ _ _ Hnd).
    - by rewrite list_lookup_fmap, Hj.
    - by rewrite list_lookup_fmap, Hj', Heq. }
  case_bool_decide as Hb.
  - destruct (elected_valid m st cur Hinv) as [isec Hisec]; [by eapply list_elem_of_lookup_2|].
    rewrite Hisec. cbn [mbind option_bind].
    replace (Z.to_nat (Z.of_nat m + 1)) with (S m) by lia.
    destruct (set_run_leader_spec
                (<[key_section cur := set_leader (Some (key_section cur)) isec]> st)
                cur (drop (S m) ks)) as (st' & Hrun & Hin & Hout).
    { rewrite fmap_drop. eapply sublist_NoDup; [exact Hnd | apply sublist_drop]. }
    { intros k Hk. apply lookup_lt_is_Some. rewrite length_insert.
      apply lookup_lt_is_Some, (elected_valid m st k Hinv).
      apply list_elem_of_lookup in Hk as [j Hj]. rewrite lookup_drop in Hj.
      by eapply list_elem_of_lookup_2. }
    exists st'. split; [done|]. destruct Hinv as [Hinv Hframe]. split.
    2:{ intros p Hp. rewrite Hout.
        - rewrite list_lookup_insert_ne; [by apply Hframe|].
          intros <-. apply Hp, list_elem_of_fmap. exists cur.
          split; [done | by eapply list_elem_of_lookup_2].
        - intros Hin'. apply Hp. apply list_elem_of_fmap in Hin' as (k & -> & Hk).
          apply list_elem_of_fmap. exists k. split; [done|].
          apply list_elem_of_lookup in Hk as [j Hj]. rewrite lookup_drop in Hj.
          by eapply list_elem_of_lookup_2. }
    intros j k Hj.
    assert (Hlead : section_at ks m = key_section cur).
    { unfold section_at. by rewrite Hcur. }
    destruct (decide (j < m)%nat) as [Hlt | Hge].
    + (* before the boundary: not written now *)
      pose proof (run_start_le ks j).
      rewrite (bool_decide_eq_true_2 (run_start ks j < S m)%nat) by lia.
      rewrite Hout.
      * rewrite list_lookup_insert_ne.
        -- rewrite (Hinv j k Hj). by rewrite bool_decide_eq_true_2 by lia.
        -- intros Heq. pose proof (Hsec _ _ _ _ Hcur Hj Heq). lia.
      * intros Hin'. apply list_elem_of_fmap in Hin' as (k' & Heq & Hk').
        apply list_elem_of_lookup in Hk' as [j' Hj']. rewrite lookup_drop in Hj'.
        pose proof (Hsec _ _ _ _ Hj Hj' Heq). lia.
    + destruct (decide (j = m)) as [-> | Hne].
      * assert (k = cur) as -> by congruence.
        rewrite Hb, (bool_decide_eq_true_2 (m < S m)%nat) by lia.
        rewrite Hout.
        -- rewrite list_lookup_insert_eq by (by eapply lookup_lt_Some).
           rewrite Hlead. specialize (Hinv m cur Hcur). rewrite Hb in Hinv.
           rewrite bool_decide_eq_false_2 in Hinv by lia. rewrite <- Hinv, Hisec. done.
        -- intros Hin'. apply list_elem_of_fmap in Hin' as (k' & Heq & Hk').
           apply list_elem_of_lookup in Hk' as [j' Hj']. rewrite lookup_drop in Hj'.
           pose proof (Hsec _ _ _ _ Hcur Hj' Heq). lia.
      * assert (exists d, j = (S m + d)%nat) as [d ->] by (exists (j - S m)%nat; lia).
        assert (Hd : drop (S m) ks !! d = Some k) by (by rewrite lookup_drop).
        rewrite (Hin d k Hd), (run_start_after ks m d cur k Hcur Hb Hd).
        rewrite list_lookup_insert_ne.
        2:{ intros Heq. pose proof (Hsec _ _ _ _ Hcur Hj Heq). lia. }
        specialize (Hinv _ k Hj).
        destruct (decide (run_start ks (S m + d) = m)) as [Hrs | Hrs];
          [rewrite (bool_decide_eq_true_2 _ Hrs) | rewrite (bool_decide_eq_false_2 _ Hrs)].
        -- rewrite bool_decide_eq_false_2 in Hinv by lia.
           rewrite (bool_decide_eq_true_2 (run_start ks (S m + d) < S m)%nat) by lia.
           by rewrite Hinv, Hrs, Hlead.
        -- rewrite Hinv.
           destruct (decide (run_start ks (S m + d) < m)%nat).
           ++ by rewrite !bool_decide_eq_true_2 by lia.
           ++ by rewrite !bool_decide_eq_false_2 by lia.
  - exists st. split; [done|]. destruct Hinv as [Hinv Hframe]. split; [|done].
    intros j k Hj. rewrite (Hinv j k Hj).
    destruct (decide (run_start ks j < m)%nat).
    + by rewrite !bool_decide_eq_true_2 by lia.
    + rewrite !bool_decide_eq_false_2; [done | | lia].
      intros Hlt. assert (run_start ks j = m) as Hrs by lia.
      (* a run starts only at a boundary *)
      clear -Hrs Hb Hj. revert k Hj Hrs. induction j as [|j IH]; intros k Hj Hrs.
      * cbn in Hrs. subst m. by cbn in Hb.
      * cbn [run_start] in Hrs.
        destruct (lookup_lt_is_Some_2 ks j) as [a Ha]; [apply lookup_lt_Some in Hj; lia|].
        rewrite Ha, Hj in Hrs.
        destruct (bytes_eqb (key_digest a) (key_digest k)) eqn:He.
        -- by apply (IH a).
        -- subst m. apply Hb. cbn [run_start]. by rewrite Ha, Hj, He.
Qed.

Lemma elect_loop (n m : nat) (st : list InputSection) :
  (m + n <= length ks)%nat -> elected ks st0 m st ->
  exists st', for_loop n (Z.of_nat m) (elect_at ks) st = Some st' /\ elected ks st0 (m + n) st'.
Proof.
  revert m st. induction n as [|n IH]; intros m st Hm Hinv; cbn [for_loop].
  - exists st. by rewrite Nat.add_0_r.
  - destruct (elect_at_step m st) as (st1 & -> & Hinv1); [lia | done |].
    replace (Z.of_nat m + 1) with (Z.of_nat (S m)) by lia.
    destruct (IH (S m) st1) as (st' & Hrun & Hinv'); [lia | done |].
    exists st'. split; [done|]. by replace (m + S n)%nat with (S m + n)%nat by lia.
Qed.

(** The loop of the election, which stops one short of the last
    position. *)
Lemma elect_leaders_run :
  exists st', elect_leaders ks st0 = Some st' /\ elected ks st0 (length ks - 1) st'.
Proof.
  unfold elect_leaders.
  destruct (elect_loop (Z.to_nat (Z.of_nat (length ks) - 1)) 0 st0) as (st' & Hrun & Hinv).
  - lia.
  - split; [|done]. intros j k Hj. by rewrite bool_decide_eq_false_2 by lia.
  - exists st'. split; [done|]. by replace (length ks - 1)%nat with
      (0 + Z.to_nat (Z.of_nat (length ks) - 1))%nat by lia.
Qed.

End Election.

Lemma key_le_digest (a b : sort_key) : key_le a b -> digest_le (key_digest a) (key_digest b).
Proof.
  intros [[_ H] | [-> _]]%key_le_spec; [done|]. unfold digest_le. apply digest_ltb_irrefl.
Qed.

Lemma sorted_lookup_le (ks : list sort_key) (i j : nat) (a b : sort_key) :
  StronglySorted key_le ks -> (i < j)%nat -> ks !! i = Some a -> ks !! j = Some b -> key_le a b.
Proof.
  intros Hs Hij Ha Hb. rewrite <- (take_drop (S i) ks) in Hs.
  eapply (StronglySorted_app_1_elem_of _ _ _ _ _ Hs).
  - apply list_elem_of_lookup. exists i. by rewrite lookup_take_lt by lia.
  - apply list_elem_of_lookup. exists (j - S i)%nat. rewrite lookup_drop.
    by replace (S i + (j - S i))%nat with j by lia.
Qed.

(** In a sorted vector the run of a position starts at the first
    element with its digest. *)
Lemma run_start_first (ks : list sort_key) (j j' : nat) (k k' : sort_key) :
  StronglySorted key_le ks -> ks !! j = Some k -> ks !! j' = Some k' ->
  key_digest k' = key_digest k -> (run_start ks j <= j')%nat.
Proof.
  intros Hs Hk Hk' Hd.
  destruct (decide (run_start ks j <= j')%nat) as [|Hlt]; [done|]. exfalso.
  assert (j' < run_start ks j)%nat as Hlt' by lia. clear Hlt.
  pose proof (run_start_le ks j) as Hle.
  destruct (run_start_digest ks j k Hk) as (l & Hl & Hld).
  (* the element before the start of the run has another digest *)
  destruct (run_start ks j) as [|i] eqn:Hrs; [lia|].
  destruct (lookup_lt_is_Some_2 ks i) as [a Ha]; [apply lookup_lt_Some in Hl; lia|].
  assert (Hne : key_digest a <> key_digest l).
  { assert (run_start ks (S i) = S i) as Hb.
    { clear -Hrs Hk. revert k Hk Hrs. induction j as [|j IH]; intros k Hk Hrs; [done|].
      cbn [run_start] in Hrs.
      destruct (lookup_lt_is_Some_2 ks j) as [b Hb]; [apply lookup_lt_Some in Hk; lia|].
      rewrite Hb, Hk in Hrs.
      destruct (bytes_eqb (key_digest b) (key_digest k)) eqn:He.
      - by apply (IH b).
      - injection Hrs as ->. cbn [run_start]. by rewrite Hb, Hk, He. }
    cbn [run_start] in Hb. rewrite Ha, Hl in Hb.
    destruct (bytes_eqb (key_digest a) (key_digest l)) eqn:He.
    - pose proof (run_start_le ks i). lia.
    - intros Heq. apply bytes_eqb_eq in Heq. congruence. }
  apply Hne. apply digest_le_antisym.
  - apply key_le_digest. eapply (sorted_lookup_le ks i (S i)); eauto.
  - rewrite Hld, <- Hd. destruct (decide (j' = i)) as [-> | Hji].
    + assert (a = k') as -> by congruence. unfold digest_le. apply digest_ltb_irrefl.
    + apply key_le_digest. eapply (sorted_lookup_le ks j' i); eauto. lia.
Qed.

(** The sorted vector is ordered, holds the sections given, each with
    its key. *)
Lemma sort_sections_facts (st : list InputSection) (digest : list Digest) (sections : list nat)
  (sorted : list sort_key) :
  sort_sections st digest sections = Some sorted ->
  StronglySorted key_le sorted /\
  key_section <$> sorted ≡ₚ sections /\
  (forall k, k ∈ sorted -> section_key st digest (key_section k) = Some k).
Proof.
  unfold sort_sections. intros H. apply bind_Some in H as (keys & Hkeys & [= <-]).
  apply mapM_Some in Hkeys.
  assert (Hsec : forall i p k, sections !! i = Some p -> keys !! i = Some k ->
            section_key st digest p = Some k /\ key_section k = p).
  { intros i p k Hp Hk. pose proof (Forall2_lookup_lr _ _ _ _ _ _ Hkeys Hp Hk) as Hkey.
    split; [done|]. unfold section_key in Hkey. apply bind_Some in Hkey as (isec & _ & Hkey).
    by apply bind_Some in Hkey as (d & _ & [= <-]). }
  split; [apply StronglySorted_merge_sort; apply _|]. split.
  - rewrite merge_sort_Permutation.
    assert (key_section <$> keys = sections) as ->; [|done].
    apply list_eq. intros i. rewrite list_lookup_fmap.
    destruct (sections !! i) as [p|] eqn:Hp.
    + destruct (Forall2_lookup_l _ _ _ _ _ Hkeys Hp) as (k & Hk & _).
      rewrite Hk. cbn. f_equal. by apply (Hsec i p k).
    + destruct (keys !! i) as [k|] eqn:Hk; [|done].
      destruct (Forall2_lookup_r _ _ _ _ _ Hkeys Hk) as (p & Hp' & _). congruence.
  - intros k Hk. rewrite merge_sort_Permutation in Hk.
    apply list_elem_of_lookup in Hk as [i Hi].
    destruct (Forall2_lookup_r _ _ _ _ _ Hkeys Hi) as (p & Hp & _).
    destruct (Hsec i p k Hp Hi) as [Hkey <-]. done.
Qed.

(** X11: after the sort by digest and priority, the election is defined
    and writes to the sorted sections only; every section is in a run of
    equal digests whose first element [l] is the first in the vector with
    that digest and has the least priority of the run, and the section has
    [l] as its leader, unless the run starts at the last position, which
    the loop does not visit: then the section is as it was. *)
Theorem X11_elect_leaders_classes (st : list InputSection) (digest : list Digest)
  (sections : list nat) (sorted : list sort_key) :
  NoDup sections -> sort_sections st digest sections = Some sorted ->
  exists st' : list InputSection,
    elect_leaders sorted st = Some st' /\
    (forall p : nat, p ∉ sections -> st' !! p = st !! p) /\
    forall (j : nat) (k : sort_key), sorted !! j = Some k ->
      exists (i : nat) (l : sort_key),
        sorted !! i = Some l /\ (i <= j)%nat /\ key_digest l = key_digest k /\
        (forall (j' : nat) (k' : sort_key), sorted !! j' = Some k' ->
           key_digest k' = key_digest k ->
           (i <= j')%nat /\ key_priority l <= key_priority k') /\
        st' !! key_section k
        = (if bool_decide (i < length sorted - 1)%nat
           then set_leader (Some (key_section l)) <$> st !! key_section k
           else st !! key_section k).
Proof.
  intros Hnd Hsort. destruct (sort_sections_facts _ _ _ _ Hsort) as (Hs & Hperm & Hkey).
  assert (Hnd' : NoDup (key_section <$> sorted)) by (by rewrite Hperm).
  destruct (elect_leaders_run sorted st Hnd') as (st' & Hrun & Hin & Hout).
  { intros k Hk. specialize (Hkey k Hk). unfold section_key in Hkey.
    apply bind_Some in Hkey as (isec & -> & _). by eexists. }
  exists st'. split; [done|]. split.
  { intros p Hp. apply Hout. by rewrite Hperm. }
  intros j k Hk. destruct (run_start_digest sorted j k Hk) as (l & Hl & Hd).
  exists (run_start sorted j), l. split; [done|]. split; [apply run_start_le|].
  split; [done|]. split.
  - intros j' k' Hk' Hd'.
    pose proof (run_start_first sorted j j' k k' Hs Hk Hk' Hd') as Hle. split; [done|].
    destruct (decide (run_start sorted j = j')) as [Heq | Hne].
    + rewrite Heq in Hl. assert (k' = l) as -> by congruence. lia.
    + assert (key_le l k') as Hlk.
      { apply (sorted_lookup_le sorted (run_start sorted j) j' l k' Hs); [lia | done | done]. }
      apply key_le_spec in Hlk as [[Hx _] | [_ ?]]; [congruence | done].
  - rewrite (Hin j k Hk). unfold section_at. by rewrite Hl.
Qed.

Lemma X11_elect_leaders_classes_witness :
  exists sorted : list sort_key,
    sort_sections (secs two_classes_indexed) sample_same [1; 0]%nat = Some sorted /\
    exists st' : list InputSection,
      elect_leaders sorted (secs two_classes_indexed) = Some st' /\
      (forall p : nat, p ∉ [1; 0]%nat -> st' !! p = secs two_classes_indexed !! p) /\
      forall (j : nat) (k : sort_key), sorted !! j = Some k ->
        exists (i : nat) (l : sort_key),
          sorted !! i = Some l /\ (i <= j)%nat /\ key_digest l = key_digest k /\
          (forall (j' : nat) (k' : sort_key), sorted !! j' = Some k' ->
             key_digest k' = key_digest k ->
             (i <= j')%nat /\ key_priority l <= key_priority k') /\
          st' !! key_section k
          = (if bool_decide (i < length sorted - 1)%nat
             then set_leader (Some (key_section l)) <$> secs two_classes_indexed !! key_section k
             else secs two_classes_indexed !! key_section k).
Proof.
  eexists. split; [vm_compute; reflexivity|].
  apply (X11_elect_leaders_classes (secs two_classes_indexed) sample_same [1; 0]%nat).
  - apply (bool_decide_unpack _). vm_compute. exact I.
  - vm_compute. reflexivity.
Defined.

(** ** What the commit leaves in place *)

(** A step of the commit kills only a section whose leader is another
    section. *)
Lemma redirect_kills (st0 : list InputSection) (s s' : list InputSection * list Symbol)
  (sp : nat) :
  redirect s sp = Some s' ->
  (forall p s0, st0 !! p = Some s0 ->
     s.1 !! p = Some s0 \/
     (s.1 !! p = Some (kill s0) /\ exists l, leader s0 = Some l /\ l <> p)) ->
  (forall p s0, st0 !! p = Some s0 ->
     s'.1 !! p = Some s0 \/
     (s'.1 !! p = Some (kill s0) /\ exists l, leader s0 = Some l /\ l <> p)).
Proof.
  unfold redirect. intros H Hinv p s0 Hs0.
  apply bind_Some in H as (sym & _ & H).
  destruct (input_section sym) as [q|]; [|injection H as <-; by apply Hinv].
  apply bind_Some in H as (isec & Hisec & H).
  destruct (leader isec) as [l|] eqn:Hl; [|injection H as <-; by apply Hinv].
  destruct (Nat.eqb_spec l q) as [-> | Hne]; cbn [negb] in H; injection H as <-;
    [by apply Hinv|].
  cbn [fst]. destruct (decide (p = q)) as [-> | Hpq].
  - rewrite list_lookup_insert_eq by (by eapply lookup_lt_Some). right.
    destruct (Hinv q s0 Hs0) as [Hq | [Hq _]]; rewrite Hq in Hisec; injection Hisec as <-.
    + split; [done|]. by exists l.
    + split; [done|]. by exists l.
  - rewrite list_lookup_insert_ne by done. by apply Hinv.
Qed.

(** The commit leaves a section as it was or kills it, the latter only
    when its leader is another section. *)
Lemma commit_kills (L L' : Linker) :
  commit L = Some L' ->
  forall p s0, secs L !! p = Some s0 ->
    secs L' !! p = Some s0 \/
    (secs L' !! p = Some (kill s0) /\ exists l, leader s0 = Some l /\ l <> p).
Proof.
  unfold commit. intros H. apply bind_Some in H as (s & Hs & [= <-]). cbn [secs].
  apply (foldM_inv (fun s => forall p s0, secs L !! p = Some s0 ->
           s.1 !! p = Some s0 \/
           (s.1 !! p = Some (kill s0) /\ exists l, leader s0 = Some l /\ l <> p)) _ _ _ _ Hs).
  - intros s1 sp s2 Hstep Hinv. by eapply redirect_kills.
  - intros p s0 Hs0. by left.
Qed.

(** X12: when the leaders lead themselves, the re-assignment of the
    symbols is defined, leaves every section without a leader or led by
    itself as it was, [is_dead] included, and afterwards every symbol of
    the files refers to such a section. *)
Theorem X12_commit_spares_leaders (L : Linker) :
  symbols_ok L -> self_led (secs L) ->
  exists L' : Linker,
    commit L = Some L' /\
    (forall (p : nat) (s : InputSection),
       secs L !! p = Some s -> leader s = None \/ leader s = Some p ->
       secs L' !! p = Some s) /\
    (forall (sp : nat) (y' : Symbol) (q : nat),
       sp ∈ all_symbols L -> syms L' !! sp = Some y' -> input_section y' = Some q ->
       secs L' !! q = secs L !! q /\
       exists s, secs L !! q = Some s /\ (leader s = None \/ leader s = Some q)).
Proof.
  intros [Hsyms Hptr] Hself.
  destruct (redirect_all (secs L) (syms L) Hself Hptr (all_symbols L) (secs L) (syms L) [])
    as (st' & sy' & Hrun & Hst & Hsy); [apply commit_inv_init | done |].
  set (L' := mkLinker st' sy' (objs L)).
  assert (Hc : commit L = Some L') by (unfold commit; by rewrite Hrun).
  assert (Hkeep : forall p s, secs L !! p = Some s -> leader s = None \/ leader s = Some p ->
            secs L' !! p = Some s).
  { intros p s Hs Hl. destruct (commit_kills L L' Hc p s Hs) as [? | [_ (l & Hl' & Hne)]]; [done|].
    destruct Hl; congruence. }
  exists L'. split; [done|]. split; [done|].
  intros sp y' q Hin Hy' Hq. cbn [L' syms] in Hy'.
  destruct (Hsyms sp Hin) as [y0 Hy0].
  destruct (Hsy sp y0 Hy0) as (y & Hy & _ & _ & _ & Hdone).
  assert (y = y') as -> by congruence.
  destruct (Hdone Hin) as [Htarget _]. rewrite Hq in Htarget.
  destruct (input_section y0) as [p|] eqn:Hp; [|done].
  destruct (Hptr sp y0 p Hy0 Hp) as [s Hs]. cbn [folded_to] in Htarget. rewrite Hs in Htarget.
  assert (exists sq, secs L !! q = Some sq /\ (leader sq = None \/ leader sq = Some q))
    as (sq & Hsq & Hlq).
  { destruct (leader s) as [l|] eqn:Hl.
    - destruct (Nat.eqb_spec l p) as [-> | Hne]; injection Htarget as Hq'; subst q.
      + exists s. split; [done | by right].
      + destruct (Hself p s l Hs Hl) as (sl & Hsl & Hll). exists sl. split; [done | by right].
    - injection Htarget as Hq'. subst q. exists s. split; [done | by left]. }
  split; [|by exists sq]. rewrite Hsq. by apply Hkeep.
Qed.

Lemma X12_commit_spares_leaders_witness :
  exists L' : Linker,
    commit folded_pair = Some L' /\
    (forall (p : nat) (s : InputSection),
       secs folded_pair !! p = Some s -> leader s = None \/ leader s = Some p ->
       secs L' !! p = Some s) /\
    (forall (sp : nat) (y' : Symbol) (q : nat),
       sp ∈ all_symbols folded_pair -> syms L' !! sp = Some y' -> input_section y' = Some q ->
       secs L' !! q = secs folded_pair !! q /\
       exists s, secs folded_pair !! q = Some s /\ (leader s = None \/ leader s = Some q)).
Proof.
  exact (X12_commit_spares_leaders folded_pair (proj1 folded_pair_ok) (proj2 folded_pair_ok)).
Defined.

(** X13: when the leaders lead themselves, running the re-assignment
    of the symbols a second time changes nothing. *)
Theorem X13_commit_idempotent (L : Linker) :
  symbols_ok L -> self_led (secs L) ->
  exists L' : Linker, commit L = Some L' /\ commit L' = Some L'.
Proof.
  intros [Hsyms Hptr] Hself.
  destruct (redirect_all (secs L) (syms L) Hself Hptr (all_symbols L) (secs L) (syms L) [])
    as (st' & sy' & Hrun & Hst & Hsy); [apply commit_inv_init | done |].
  exists (mkLinker st' sy' (objs L)). unfold commit at 1. rewrite Hrun. split; [done|].
  unfold commit, all_symbols. cbn [secs syms objs]. fold (all_symbols L).
  rewrite foldM_fixed; [done|].
  intros sp Hin. destruct (Hsyms sp Hin) as [y0 Hy0].
  destruct (Hsy sp y0 Hy0) as (y & Hy & _ & _ & _ & Hdone).
  destruct (Hdone Hin) as [Htarget _].
  by apply (redirect_noop (secs L) (syms L) Hself Hptr st' sy' sp y y0).
Qed.

Lemma X13_commit_idempotent_witness :
  exists L' : Linker, commit folded_pair = Some L' /\ commit L' = Some L'.
Proof.
  exact (X13_commit_idempotent folded_pair (proj1 folded_pair_ok) (proj2 folded_pair_ok)).
Defined.

(** ** What the initial digest reads *)

Lemma foldM_None {A S : Type} (f : S -> A -> option S) (l : list A) (x : A) (s : S) :
  x ∈ l -> (forall s, f s x = None) -> foldM f s l = None.
Proof.
  intros Hx Hf. revert s. induction l as [|y l IH]; intros s; [by apply elem_of_nil in Hx|].
  cbn [foldM]. apply elem_of_cons in Hx as [<- | Hx]; [by rewrite Hf|].
  destruct (f s y); [by apply IH | done].
Qed.

(** X14: [compute_digest] is not defined on a section with an FDE
    record that has no relocation, of which [subspan(1)] is out of range,
    or fewer than eight bytes, of which [substr(8)] throws. *)
Theorem X14_compute_digest_needs_fde_relocation (SHA256 : bytes -> bytes) (L : Linker)
  (isec : InputSection) (fde : FdeRecord) :
  fde ∈ fdes isec ->
  fde_rels fde = [] \/ (length (fde_contents fde) < 8)%nat ->
  compute_digest SHA256 L isec = None.
Proof.
  intros Hin Hbad. unfold compute_digest, digest_input.
  rewrite (foldM_None (hash_fde L) (fdes isec) fde); [done | done |].
  intros ctx. unfold hash_fde, substr.
  destruct Hbad as [Hrels | Hshort].
  - destruct (8 <=? length (fde_contents fde))%nat; [|done]. cbn [mbind option_bind].
    by rewrite Hrels.
  - by rewrite (proj2 (Nat.leb_gt _ _)).
Qed.

Lemma X14_compute_digest_needs_fde_relocation_witness :
  compute_digest sample_SHA256 mixed_relocs bare_fde_section = None.
Proof.
  apply (X14_compute_digest_needs_fde_relocation sample_SHA256 mixed_relocs bare_fde_section
           (mkFde fde_one [])).
  - left.
  - by left.
Defined.

Lemma le64_decode (v : Z) : decode_le (le64 v) = v mod 2 ^ 64.
Proof.
  unfold le64, decode_le. cbn [seq map foldr].
  rewrite !Z.shiftr_div_pow2 by lia.
  change 255 with (Z.ones 8). rewrite !Z.land_ones by lia.
  change (2 ^ (8 * Z.of_nat 0)) with 1. change (2 ^ (8 * Z.of_nat 1)) with 256.
  change (2 ^ (8 * Z.of_nat 2)) with (256 * 256).
  change (2 ^ (8 * Z.of_nat 3)) with (256 * 256 * 256).
  change (2 ^ (8 * Z.of_nat 4)) with (256 * 256 * 256 * 256).
  change (2 ^ (8 * Z.of_nat 5)) with (256 * 256 * 256 * 256 * 256).
  change (2 ^ (8 * Z.of_nat 6)) with (256 * 256 * 256 * 256 * 256 * 256).
  change (2 ^ (8 * Z.of_nat 7)) with (256 * 256 * 256 * 256 * 256 * 256 * 256).
  change (2 ^ 8) with 256.
  change (2 ^ 64) with (256 * (256 * (256 * (256 * (256 * (256 * (256 * 256))))))).
  rewrite !Z.rem_mul_r by lia. rewrite Z.div_1_r, !Z.div_div by lia. lia.
Qed.

Lemma le64_length (v : Z) : length (le64 v) = 8%nat.
Proof. reflexivity. Qed.

Lemma le64_inj (u v : Z) : le64 u = le64 v -> u mod 2 ^ 64 = v mod 2 ^ 64.
Proof. intros H. by rewrite <- !le64_decode, H. Qed.

Lemma le64_app_inj (u v : Z) (r r' : bytes) :
  le64 u ++ r = le64 v ++ r' -> u mod 2 ^ 64 = v mod 2 ^ 64 /\ r = r'.
Proof.
  intros H. apply app_inj_1 in H as [H1 H2]; [|by rewrite !le64_length].
  split; [by apply le64_inj | done].
Qed.

Lemma prefixed_app_inj (a b r r' : bytes) :
  Z.of_nat (length a) < 2 ^ 64 -> Z.of_nat (length b) < 2 ^ 64 ->
  prefixed a ++ r = prefixed b ++ r' -> a = b /\ r = r'.
Proof.
  intros Ha Hb. unfold prefixed. rewrite <- !app_assoc. intros [Hlen H]%le64_app_inj.
  rewrite !Z.mod_small in Hlen by lia.
  apply app_inj_1 in H; [done | lia].
Qed.

(** The digester only appends to the context. *)
Lemma hash_symbol_extends (L : Linker) (ctx r : bytes) (sym : Symbol) :
  hash_symbol L ctx sym = Some r -> exists t, r = ctx ++ t.
Proof.
  rewrite hash_symbol_app. destruct (hash_symbol L [] sym) as [t|]; [|done].
  intros [= <-]. by exists t.
Qed.

Lemma hash_eh_reloc_extends (L : Linker) (ctx : bytes) (rel : EhReloc) (r : bytes) :
  hash_eh_reloc L ctx rel = Some r -> exists t, r = ctx ++ t.
Proof.
  unfold hash_eh_reloc. intros H. apply bind_Some in H as (sym & _ & H).
  apply bind_Some in H as (c1 & [t ->]%hash_symbol_extends & [= <-]).
  rewrite !hash_i64_app, <- !app_assoc. by eexists.
Qed.

Lemma foldM_extends {A : Type} (f : bytes -> A -> option bytes) (l : list A) (ctx r : bytes) :
  (forall c x r, f c x = Some r -> exists t, r = c ++ t) ->
  foldM f ctx l = Some r -> exists t, r = ctx ++ t.
Proof.
  intros Hf. revert ctx. induction l as [|x l IH]; intros ctx; cbn [foldM].
  - intros [= <-]. exists []. by rewrite app_nil_r.
  - destruct (f ctx x) as [c1|] eqn:Hx; [|done]. intros Hr.
    destruct (Hf _ _ _ Hx) as [t1 ->]. destruct (IH _ Hr) as [t2 ->].
    exists (t1 ++ t2). by rewrite app_assoc.
Qed.

Lemma hash_fde_extends (L : Linker) (ctx : bytes) (fde : FdeRecord) (r : bytes) :
  hash_fde L ctx fde = Some r -> exists t, r = ctx ++ t.
Proof.
  unfold hash_fde. intros H. apply bind_Some in H as (tail & _ & H).
  apply bind_Some in H as (rest & _ & H).
  apply (foldM_extends _ _ _ _ (hash_eh_reloc_extends L)) in H as [t ->].
  rewrite hash_i64_app, hash_string_app, <- !app_assoc. by eexists.
Qed.

(** The bytes absorbed start with the contents and the three header
    fields. *)
Lemma digest_input_header (L : Linker) (a : InputSection) (x : bytes) :
  digest_input L a = Some x ->
  exists t, x = prefixed (get_contents a) ++ le64 (sh_flags a)
                ++ le64 (Z.of_nat (length (fdes a))) ++ le64 (Z.of_nat (length (rels a))) ++ t.
Proof.
  rewrite digest_input_spec. intros H. apply bind_Some in H as (pre & Hpre & H).
  apply bind_Some in H as (rs & _ & [= <-]). unfold fde_prefix in Hpre.
  apply (foldM_extends _ _ _ _ (hash_fde_extends L)) in Hpre as [t ->].
  exists (t ++ concat rs). by rewrite <- !app_assoc.
Qed.

(** X15: the bytes absorbed for the initial digest determine what they
    start with: two sections, of sizes that fit 64 bits, with the same
    bytes absorbed have the same contents, the same [sh_flags] as 64-bit
    values, as many FDE records and as many relocations. *)
Theorem X15_digest_input_tells_headers_apart (L : Linker) (a b : InputSection) (x : bytes) :
  Z.of_nat (length (contents a)) < 2 ^ 64 -> Z.of_nat (length (contents b)) < 2 ^ 64 ->
  Z.of_nat (length (fdes a)) < 2 ^ 64 -> Z.of_nat (length (fdes b)) < 2 ^ 64 ->
  Z.of_nat (length (rels a)) < 2 ^ 64 -> Z.of_nat (length (rels b)) < 2 ^ 64 ->
  digest_input L a = Some x -> digest_input L b = Some x ->
  contents a = contents b /\ sh_flags a mod 2 ^ 64 = sh_flags b mod 2 ^ 64 /\
  length (fdes a) = length (fdes b) /\ length (rels a) = length (rels b).
Proof.
  intros Hca Hcb Hfa Hfb Hra Hrb [ta ->]%digest_input_header [tb Heq]%digest_input_header.
  apply prefixed_app_inj in Heq as [Hc Heq]; [|done..].
  apply le64_app_inj in Heq as [Hf Heq]. apply le64_app_inj in Heq as [Hnf Heq].
  apply le64_app_inj in Heq as [Hnr _].
  rewrite !Z.mod_small in Hnf, Hnr by lia.
  split; [done|]. split; [done|]. lia.
Qed.

Lemma X15_digest_input_tells_headers_apart_witness :
  contents (text_section ".text.f" [1; 2] [mkRela 0 1 0 0] 0)
  = contents (text_section ".text.k" [1; 2] [mkRela 0 1 0 0] 7) /\
  sh_flags (text_section ".text.f" [1; 2] [mkRela 0 1 0 0] 0) mod 2 ^ 64
  = sh_flags (text_section ".text.k" [1; 2] [mkRela 0 1 0 0] 7) mod 2 ^ 64 /\
  length (fdes (text_section ".text.f" [1; 2] [mkRela 0 1 0 0] 0))
  = length (fdes (text_section ".text.k" [1; 2] [mkRela 0 1 0 0] 7)) /\
  length (rels (text_section ".text.f" [1; 2] [mkRela 0 1 0 0] 0))
  = length (rels (text_section ".text.k" [1; 2] [mkRela 0 1 0 0] 7)).
Proof.
  eapply (X15_digest_input_tells_headers_apart two_classes); try (cbn; lia);
    vm_compute; reflexivity.
Defined.

(** ** What the pass leaves alone *)

Lemma same_code_refl (st : list InputSection) : same_code st st.
Proof. split; [done|]. intros p s Hs. by exists s. Qed.

Lemma same_code_trans (st1 st2 st3 : list InputSection) :
  same_code st1 st2 -> same_code st2 st3 -> same_code st1 st3.
Proof.
  intros [Hl1 H1] [Hl2 H2]. split; [congruence|]. intros p s Hs.
  destruct (H1 p s Hs) as (s2 & Hs2 & Hst2 & Hd2).
  destruct (H2 p s2 Hs2) as (s3 & Hs3 & Hst3 & Hd3).
  exists s3. split; [done|]. split; [congruence | auto].
Qed.

Lemma same_code_insert (st : list InputSection) (p : nat) (s s' : InputSection) :
  st !! p = Some s -> static s' = static s -> (is_dead s = true -> is_dead s' = true) ->
  same_code st (<[p := s']> st).
Proof.
  intros Hs Hst Hd. split; [by rewrite length_insert|]. intros q t Ht.
  destruct (decide (q = p)) as [-> | Hne].
  - rewrite list_lookup_insert_eq by (by eapply lookup_lt_Some).
    exists s'. assert (t = s) as -> by congruence. done.
  - rewrite list_lookup_insert_ne by done. by exists t.
Qed.

Lemma same_values_refl (sy : list Symbol) : same_values sy sy.
Proof. split; [done|]. intros p s Hs. by exists s. Qed.

Lemma foldM_rel {A S : Type} (R : S -> S -> Prop) (f : S -> A -> option S) (l : list A)
  (s s' : S) :
  (forall s, R s s) -> (forall a b c, R a b -> R b c -> R a c) ->
  (forall s x s', f s x = Some s' -> R s s') ->
  foldM f s l = Some s' -> R s s'.
Proof.
  intros Hrefl Htrans Hstep Hrun.
  apply (foldM_inv (R s) f l s s' Hrun); [|apply Hrefl].
  intros s1 x s2 Hf Hs1. eapply Htrans; [exact Hs1 | by eapply Hstep].
Qed.

Lemma for_loop_rel {S : Type} (R : S -> S -> Prop) (body : Z -> S -> option S) (n : nat) (i : Z)
  (s s' : S) :
  (forall s, R s s) -> (forall a b c, R a b -> R b c -> R a c) ->
  (forall i s s', body i s = Some s' -> R s s') ->
  for_loop n i body s = Some s' -> R s s'.
Proof.
  intros Hrefl Htrans Hstep Hrun.
  apply (for_loop_inv (R s) body n i s s' Hrun); [|apply Hrefl].
  intros j s1 s2 Hf Hs1. eapply Htrans; [exact Hs1 | by eapply Hstep].
Qed.

Section LeafFrame.
Variable std_hash : bytes -> Z.

Lemma classify_same_code (sm sm' : list InputSection * leaf_map) (p : nat) :
  classify std_hash sm p = Some sm' -> same_code sm.1 sm'.1.
Proof.
  unfold classify. intros H. apply bind_Some in H as (isec & Hisec & H).
  destruct (negb (is_eligible isec)); [injection H as <-; apply same_code_refl|].
  destruct (is_leaf isec).
  - apply bind_Some in H as (m' & _ & [= <-]). cbn [fst].
    by apply (same_code_insert _ _ isec).
  - injection H as <-. cbn [fst]. by apply (same_code_insert _ _ isec).
Qed.

Lemma assign_same_code (m : leaf_map) (st st' : list InputSection) (p : nat) :
  assign_leaf_leader std_hash m st p = Some st' -> same_code st st'.
Proof.
  unfold assign_leaf_leader. intros H. apply bind_Some in H as (isec & Hisec & H).
  destruct (negb (icf_leaf isec)); [injection H as <-; apply same_code_refl|].
  apply bind_Some in H as (r & _ & H). apply bind_Some in H as (j & _ & H).
  apply bind_Some in H as (e & _ & [= <-]). by apply (same_code_insert _ _ isec).
Qed.

Lemma leaf_pass_same_code (L L' : Linker) :
  leaf_pass std_hash L = Some L' ->
  syms L' = syms L /\ objs L' = objs L /\ same_code (secs L) (secs L').
Proof.
  unfold leaf_pass. intros H. apply bind_Some in H as (sm & H1 & H).
  apply bind_Some in H as (st & H2 & [= <-]). cbn [syms objs secs]. split; [done|].
  split; [done|]. apply (same_code_trans _ sm.1).
  - apply (foldM_rel (fun a b => same_code a.1 b.1) _ _ _ _
             (fun s => same_code_refl s.1)
             (fun a b c => same_code_trans a.1 b.1 c.1)
             (fun s x s' => classify_same_code s s' x) H1).
  - apply (foldM_rel same_code _ _ _ _ same_code_refl same_code_trans
             (fun s x s' => assign_same_code sm.2 s s' x) H2).
Qed.

End LeafFrame.

Lemma gather_sections_same_code (L L' : Linker) (ptrs : list nat) :
  gather_sections L = Some (L', ptrs) ->
  syms L' = syms L /\ objs L' = objs L /\ same_code (secs L) (secs L').
Proof.
  unfold gather_sections. intros H.
  apply bind_Some in H as (num & _ & H). apply bind_Some in H as (idx & _ & H).
  apply bind_Some in H as (li & _ & H). apply bind_Some in H as (ln & _ & H).
  apply bind_Some in H as (sections & _ & H). apply bind_Some in H as (st & Hset & H).
  apply bind_Some in H as (ps & _ & [= <- <-]). cbn [syms objs secs].
  split; [done|]. split; [done|].
  apply (for_loop_rel same_code _ _ _ _ _ same_code_refl same_code_trans) in Hset; [done|].
  intros i s s' Hs. unfold set_index in Hs.
  apply bind_Some in Hs as (q & _ & Hs). apply bind_Some in Hs as (p & _ & Hs).
  apply bind_Some in Hs as (isec & Hisec & [= <-]). by apply (same_code_insert _ _ isec).
Qed.

Lemma set_run_leader_same_code (st st' : list InputSection) (lead : sort_key)
  (rest : list sort_key) :
  set_run_leader st lead rest = Some st' -> same_code st st'.
Proof.
  revert st. induction rest as [|k rest IH]; intros st; cbn [set_run_leader].
  - intros [= <-]. apply same_code_refl.
  - destruct (bytes_eqb _ _); [|intros [= <-]; apply same_code_refl].
    destruct (st !! key_section k) as [isec|] eqn:Hisec; [|done].
    intros H. eapply same_code_trans; [|by apply IH].
    by apply (same_code_insert _ _ isec).
Qed.

Lemma elect_leaders_same_code (sorted : list sort_key) (st st' : list InputSection) :
  elect_leaders sorted st = Some st' -> same_code st st'.
Proof.
  unfold elect_leaders.
  apply (for_loop_rel same_code _ _ _ _ _ same_code_refl same_code_trans).
  intros i s s' H. unfold elect_at in H.
  apply bind_Some in H as (cur & _ & H). apply bind_Some in H as (b & _ & H).
  destruct b; [|injection H as <-; apply same_code_refl].
  apply bind_Some in H as (isec & Hisec & H).
  eapply same_code_trans; [|by eapply set_run_leader_same_code].
  by apply (same_code_insert _ _ isec).
Qed.

Lemma commit_same_code (L L' : Linker) :
  commit L = Some L' ->
  objs L' = objs L /\ same_code (secs L) (secs L') /\ same_values (syms L) (syms L').
Proof.
  unfold commit. intros H. apply bind_Some in H as (s & Hs & [= <-]). cbn [objs secs syms].
  split; [done|].
  apply (foldM_rel (fun a b => same_code a.1 b.1 /\ same_values a.2 b.2)) in Hs; [done | | |].
  - intros a. split; [apply same_code_refl | apply same_values_refl].
  - intros a b c [H1 [Hl1 Hv1]] [H2 [Hl2 Hv2]]. split; [by eapply same_code_trans|].
    split; [congruence|]. intros sp y Hy.
    destruct (Hv1 sp y Hy) as (y1 & Hy1 & ? & ?). destruct (Hv2 sp y1 Hy1) as (y2 & Hy2 & ? & ?).
    exists y2. split; [done|]. split; congruence.
  - intros a sp b Hr. unfold redirect in Hr.
    apply bind_Some in Hr as (sym & Hsym & Hr).
    destruct (input_section sym) as [p|];
      [|injection Hr as <-; split; [apply same_code_refl | apply same_values_refl]].
    apply bind_Some in Hr as (isec & Hisec & Hr).
    destruct (leader isec) as [l|];
      [|injection Hr as <-; split; [apply same_code_refl | apply same_values_refl]].
    destruct (negb (Nat.eqb l p));
      [|injection Hr as <-; split; [apply same_code_refl | apply same_values_refl]].
    injection Hr as <-. cbn [fst snd]. split.
    + by apply (same_code_insert _ _ isec).
    + split; [by rewrite length_insert|]. intros q y Hy.
      destruct (decide (q = sp)) as [-> | Hne].
      * rewrite list_lookup_insert_eq by (by eapply lookup_lt_Some).
        eexists. split; [done|]. assert (y = sym) as -> by congruence. done.
      * rewrite list_lookup_insert_ne by done. by exists y.
Qed.

(** X16: whatever the pass does when it returns, it keeps the files,
    the number of sections and of symbols, and of every section all but
    the marks, the index, the leader and [is_dead]; it brings no dead
    section back to life, and keeps the fragment and the value of every
    symbol. *)
Theorem X16_icf_sections_preserves_code (std_hash : bytes -> Z) (SHA256 : bytes -> bytes)
  (fuel : nat) (L L' : Linker) :
  icf_sections std_hash SHA256 fuel L = Some L' ->
  objs L' = objs L /\
  length (secs L') = length (secs L) /\ length (syms L') = length (syms L) /\
  (forall (p : nat) (s : InputSection), secs L !! p = Some s ->
     exists s' : InputSection,
       secs L' !! p = Some s' /\ static s' = static s /\
       (is_dead s = true -> is_dead s' = true)) /\
  (forall (sp : nat) (y : Symbol), syms L !! sp = Some y ->
     exists y' : Symbol,
       syms L' !! sp = Some y' /\ sym_frag y' = sym_frag y /\ sym_value y' = sym_value y).
Proof.
  unfold icf_sections. intros H.
  apply bind_Some in H as (L1 & H1 & H). apply bind_Some in H as ([L2 sections] & Hg & H).
  cbn [fst snd] in H.
  apply bind_Some in H as (d0 & _ & H). apply bind_Some in H as (e & _ & H).
  apply bind_Some in H as (r & _ & H). apply bind_Some in H as (digest & _ & H).
  apply bind_Some in H as (sorted & _ & H). apply bind_Some in H as (st & Hel & H).
  destruct (leaf_pass_same_code _ _ _ H1) as (Hs1 & Ho1 & Hc1).
  destruct (gather_sections_same_code _ _ _ Hg) as (Hs2 & Ho2 & Hc2).
  pose proof (elect_leaders_same_code _ _ _ Hel) as Hc3.
  destruct (commit_same_code _ _ H) as (Ho4 & Hc4 & Hv4). cbn [objs secs syms] in Ho4, Hc4, Hv4.
  assert (Hc : same_code (secs L) (secs L')).
  { eapply same_code_trans; [exact Hc1|]. eapply same_code_trans; [exact Hc2|].
    eapply same_code_trans; [exact Hc3 | exact Hc4]. }
  rewrite Hs2, Hs1 in Hv4.
  split; [congruence|]. split; [apply Hc|]. split; [apply Hv4|]. split; [apply Hc | apply Hv4].
Qed.

Lemma X16_icf_sections_preserves_code_witness :
  exists L' : Linker,
    icf_sections sample_hash sample_SHA256 30 unreferenced_fold = Some L' /\
    objs L' = objs unreferenced_fold /\
    length (secs L') = length (secs unreferenced_fold) /\
    length (syms L') = length (syms unreferenced_fold) /\
    (forall (p : nat) (s : InputSection), secs unreferenced_fold !! p = Some s ->
       exists s' : InputSection,
         secs L' !! p = Some s' /\ static s' = static s /\
         (is_dead s = true -> is_dead s' = true)) /\
    (forall (sp : nat) (y : Symbol), syms unreferenced_fold !! sp = Some y ->
       exists y' : Symbol,
         syms L' !! sp = Some y' /\ sym_frag y' = sym_frag y /\ sym_value y' = sym_value y).
Proof.
  eexists. split; [vm_compute; reflexivity|].
  apply (X16_icf_sections_preserves_code sample_hash sample_SHA256 30 unreferenced_fold).
  vm_compute. reflexivity.
Defined.

(** ** main.cc: the priorities tell the files apart *)

(** The value of the [int] expression that [main] stores as priority. *)
Lemma priority_expr_range (arch : bool) (i : Z) :
  0 <= i < 2 ^ 31 ->
  - 2 ^ 31 <= Main.priority_expr arch i < 2 ^ 31 /\
  Main.priority_expr arch i = if arch then i - 2 ^ 31 else i.
Proof.
  intros Hi. destruct arch; [rewrite priority_expr_archive by done | cbn]; lia.
Qed.

(** A type of at least 32 bits tells the values of an [int] apart. *)
Lemma convert_inj (ty : Main.int_type) (u v : Z) :
  32 <= Main.it_bits ty -> - 2 ^ 31 <= u < 2 ^ 31 -> - 2 ^ 31 <= v < 2 ^ 31 ->
  Main.convert ty u = Main.convert ty v -> u = v.
Proof.
  intros Hb Hu Hv. unfold Main.convert. destruct (Main.it_signed ty).
  - assert (2 ^ 31 <= 2 ^ (Main.it_bits ty - 1)) by (apply Z.pow_le_mono_r; lia).
    rewrite !wrap_signed_in_range by lia. done.
  - rewrite !wrap_unsigned. pose proof (pow2_ge_32 _ Hb) as Hp.
    change (2 ^ 32) with (2 * 2 ^ 31) in Hp.
    assert (0 < 2 ^ 31) as Hh by lia.
    set (m := 2 ^ Main.it_bits ty) in *. set (h := 2 ^ 31) in *. clearbody m h.
    intros Heq.
    assert ((u - v) mod m = 0) as Hz.
    { rewrite Zminus_mod, Heq, Z.sub_diag. apply Z.mod_0_l. clear Heq. lia. }
    clear Heq. apply Z.mod_divide in Hz as [q Hq]; [|lia].
    destruct (Z.lt_trichotomy q 0) as [Hq0 | [-> | Hq0]];
      [assert (q * m <= - m) by nia | | assert (m <= q * m) by nia]; lia.
Qed.


Lemma set_priorities_lookup (ty : Main.int_type) (files : list Main.ObjectFile) (i : nat)
  (a : Main.ObjectFile) :
  Main.set_priorities ty files !! i = Some a <->
  exists f, files !! i = Some f /\ a = Main.assign ty i f.
Proof.
  unfold Main.set_priorities. rewrite list_lookup_imap.
  destruct (files !! i) as [f|]; cbn; split.
  - intros [= <-]. by exists f.
  - intros (f' & [= <-] & ->). done.
  - done.
  - by intros (f' & ? & _).
Qed.

(** Two positions with the same priority are one position. *)
Lemma set_priorities_distinct (ty : Main.int_type) (files : list Main.ObjectFile)
  (i j : nat) (a b : Main.ObjectFile) :
  32 <= Main.it_bits ty -> Z.of_nat (length files) <= 2 ^ 31 ->
  Main.set_priorities ty files !! i = Some a ->
  Main.set_priorities ty files !! j = Some b ->
  Main.priority a = Main.priority b -> i = j.
Proof.
  intros Hb Hlen (fa & Hfa & ->)%set_priorities_lookup (fb & Hfb & ->)%set_priorities_lookup.
  cbn [Main.assign Main.priority]. intros Heq.
  apply lookup_lt_Some in Hfa, Hfb.
  destruct (priority_expr_range (Main.is_in_archive fa) (Z.of_nat i)) as [Hra Hea]; [lia|].
  destruct (priority_expr_range (Main.is_in_archive fb) (Z.of_nat j)) as [Hrb Heb]; [lia|].
  apply convert_inj in Heq; [|done..]. rewrite Hea, Heb in Heq.
  destruct (Main.is_in_archive fa), (Main.is_in_archive fb); lia.
Qed.

Lemma NoDup_fmap_filter {A B : Type} (g : A -> B) (f : A -> bool) (l : list A) :
  NoDup (g <$> l) -> NoDup (g <$> List.filter f l).
Proof.
  induction l as [|x l IH]; cbn [List.filter fmap list_fmap]; [done|].
  intros [Hx Hnd]%NoDup_cons. destruct (f x); [|by apply IH].
  cbn [fmap list_fmap]. apply NoDup_cons. split; [|by apply IH].
  intros (y & Hy & Hin)%list_elem_of_fmap. apply Hx, list_elem_of_fmap.
  exists y. split; [done|]. by apply list_elem_of_In, filter_In in Hin as [Hin%list_elem_of_In _].
Qed.

(** X17: with the priority stored in a field of at least 32 bits and
    at most [2^31] files, no two files get the same priority from [main],
    before and after the dead archive members are erased. *)
Theorem X17_priorities_are_distinct (ty : Main.int_type) (files : list Main.ObjectFile) :
  32 <= Main.it_bits ty -> Z.of_nat (length files) <= 2 ^ 31 ->
  NoDup (Main.priority <$> Main.set_priorities ty files) /\
  NoDup (Main.priority <$> Main.final_files ty files).
Proof.
  intros Hb Hlen.
  assert (NoDup (Main.priority <$> Main.set_priorities ty files)) as Hnd.
  { apply NoDup_alt. intros i j x Hi Hj.
    rewrite list_lookup_fmap in Hi, Hj.
    destruct (Main.set_priorities ty files !! i) as [a|] eqn:Ha; [|done].
    destruct (Main.set_priorities ty files !! j) as [b|] eqn:Hbj; [|done].
    cbn in Hi, Hj. apply (set_priorities_distinct ty files i j a b); [done..|congruence]. }
  split; [exact Hnd|]. by apply NoDup_fmap_filter.
Qed.

Lemma X17_priorities_are_distinct_witness :
  NoDup (Main.priority <$> Main.set_priorities Main.u32_t sample_load) /\
  NoDup (Main.priority <$> Main.final_files Main.u32_t sample_load).
Proof. apply (X17_priorities_are_distinct Main.u32_t sample_load); cbn; lia. Defined.






(** ** main.cc: the output sections *)

Section Binning.
Variable isecs : list Layout.InputSection.
Variable n : nat.

Lemma binned_snoc (o : nat) (done : list nat) (p : nat) (isec : Layout.InputSection) :
  isecs !! p = Some isec ->
  binned isecs o (done ++ [p])
  = binned isecs o done ++ (if Nat.eqb (Layout.output_section isec) o then [p] else []).
Proof.
  intros Hp. unfold binned. rewrite List.filter_app. cbn [List.filter]. rewrite Hp.
  by destruct (Nat.eqb _ _).
Qed.

Lemma bin_step (done : list nat) (s : Layout.State) (p : nat) (isec : Layout.InputSection) :
  isecs !! p = Some isec -> (Layout.output_section isec < n)%nat ->
  bin_inv isecs n done s ->
  exists s', Layout.bin isecs s p = Some s' /\ bin_inv isecs n (done ++ [p]) s'.
Proof.
  intros Hp Ho (Hlen & Hsec & Hnd & Hout). unfold Layout.bin. rewrite Hp.
  cbn [mbind option_bind]. rewrite (Hsec _ Ho). cbn [mbind option_bind Layout.sections].
  eexists. split; [done|]. split; [|split; [|split]]; cbn [Layout.osecs Layout.output_sections].
  - by rewrite length_insert.
  - intros o Hlt. rewrite (binned_snoc o done p isec Hp).
    destruct (Nat.eqb_spec (Layout.output_section isec) o) as [<- | Hne].
    + by rewrite list_lookup_insert_eq by lia.
    + rewrite list_lookup_insert_ne by done. rewrite app_nil_r. by apply Hsec.
  - destruct (binned isecs (Layout.output_section isec) done) eqn:Hb; [|done].
    apply NoDup_app. split; [done|]. split; [|apply NoDup_singleton].
    intros o Hin ->%list_elem_of_singleton. apply Hout in Hin as [_ Hne]. done.
  - intros o. rewrite (binned_snoc o done p isec Hp).
    destruct (Nat.eqb_spec (Layout.output_section isec) o) as [<- | Hne].
    + split; [intros _; split; [done|]; by destruct (binned isecs _ done)|]. intros _.
      destruct (binned isecs (Layout.output_section isec) done) eqn:Hb.
      * apply elem_of_app. right. by apply list_elem_of_singleton.
      * apply Hout. split; [done|]. by rewrite Hb.
    + rewrite app_nil_r. rewrite <- Hout.
      destruct (binned isecs (Layout.output_section isec) done); [|done].
      rewrite elem_of_app, list_elem_of_singleton. split; [intros [? | ?]; [done | congruence] | auto].
Qed.

Lemma bin_run (todo done : list nat) (s : Layout.State) :
  (forall p, p ∈ todo -> exists isec, isecs !! p = Some isec /\ (Layout.output_section isec < n)%nat) ->
  bin_inv isecs n done s ->
  exists s', foldM (Layout.bin isecs) s todo = Some s' /\ bin_inv isecs n (done ++ todo) s'.
Proof.
  revert done s. induction todo as [|p todo IH]; intros done s Hok Hinv; cbn [foldM].
  - exists s. by rewrite app_nil_r.
  - destruct (Hok p) as (isec & Hp & Ho); [left|].
    destruct (bin_step done s p isec Hp Ho Hinv) as (s1 & -> & Hinv1).
    destruct (IH (done ++ [p]) s1) as (s' & Hrun & Hinv'); [intros q Hq; apply Hok; by right | done |].
    exists s'. split; [done|]. by rewrite <- app_assoc in Hinv'.
Qed.

End Binning.

(** X19: from output sections that are all empty, the binning loop of
    [main] is defined when every section of the files names one of the
    [n] output sections; each output section then holds its input
    sections in the order of the files and of their sections, null
    entries skipped, and [output_sections] lists, each once, exactly the
    output sections that got an input section. *)
Theorem X19_bin_sections_groups (isecs : list Layout.InputSection)
  (files : list (list (option nat))) (n : nat) :
  (forall p, p ∈ concat (map (omap id) files) ->
     exists isec, isecs !! p = Some isec /\ (Layout.output_section isec < n)%nat) ->
  exists s : Layout.State,
    Layout.bin_sections isecs files
      (Layout.mkState (replicate n (Layout.mkOutputSection [])) []) = Some s /\
    length (Layout.osecs s) = n /\
    (forall o : nat, (o < n)%nat ->
       Layout.osecs s !! o
       = Some (Layout.mkOutputSection (binned isecs o (concat (map (omap id) files))))) /\
    NoDup (Layout.output_sections s) /\
    (forall o : nat,
       o ∈ Layout.output_sections s <->
       (o < n)%nat /\ binned isecs o (concat (map (omap id) files)) <> []).
Proof.
  intros Hok. unfold Layout.bin_sections.
  destruct (bin_run isecs n (concat (map (omap id) files)) []
              (Layout.mkState (replicate n (Layout.mkOutputSection [])) []) Hok)
    as (s & Hrun & Hinv).
  - split; [cbn; by rewrite length_replicate|]. split; [|split; [constructor|]].
    + intros o Ho. cbn. by rewrite lookup_replicate_2.
    + intros o. cbn. split; [by intros ?%elem_of_nil | by intros [_ ?]].
  - exists s. by split.
Qed.

Lemma X19_bin_sections_groups_witness :
  exists s : Layout.State,
    Layout.bin_sections sample_isecs sample_files
      (Layout.mkState (replicate 2 (Layout.mkOutputSection [])) []) = Some s /\
    length (Layout.osecs s) = 2%nat /\
    (forall o : nat, (o < 2)%nat ->
       Layout.osecs s !! o
       = Some (Layout.mkOutputSection
                 (binned sample_isecs o (concat (map (omap id) sample_files))))) /\
    NoDup (Layout.output_sections s) /\
    (forall o : nat,
       o ∈ Layout.output_sections s <->
       (o < 2)%nat /\ binned sample_isecs o (concat (map (omap id) sample_files)) <> []).
Proof.
  apply (X19_bin_sections_groups sample_isecs sample_files 2).
  intros p Hp. vm_compute in Hp.
  repeat (apply elem_of_cons in Hp as [-> | Hp]; [eexists; split; [reflexivity | cbn; lia]|]).
  by apply elem_of_nil in Hp.
Defined.

(** ** The leaf pass on short records, and the leaders it elects *)

Lemma foldM_None_inv {A S : Type} (P : S -> Prop) (f : S -> A -> option S) (l : list A)
  (x : A) (s : S) :
  x ∈ l -> P s -> (forall s y s', f s y = Some s' -> P s -> P s') ->
  (forall s, P s -> f s x = None) -> foldM f s l = None.
Proof.
  intros Hx Hs Hstep Hf. revert s Hs.
  induction l as [|y l IH]; intros s Hs; [by apply elem_of_nil in Hx|].
  cbn [foldM]. apply elem_of_cons in Hx as [<- | Hx]; [by rewrite Hf|].
  destruct (f s y) as [s1|] eqn:Hy; [|done]. apply IH; [done|]. by eapply Hstep.
Qed.

Lemma LeafHasher_None (std_hash : bytes -> Z) (s : InputSection) :
  ~ fde_tail_ok s -> LeafHasher std_hash s = None.
Proof.
  unfold fde_tail_ok, LeafHasher. generalize (to_u64 (std_hash (get_contents s))).
  induction (fdes s) as [|f fs IH]; intros h Hbad; [exfalso; apply Hbad; constructor|].
  cbn [foldM]. unfold substr at 1.
  destruct (Nat.leb_spec 8 (length (fde_contents f))) as [Hok | Hshort]; [|done].
  apply IH. intros Hall. apply Hbad. by constructor.
Qed.

(** X20: the leaf pass is not defined when a section of the files is
    an eligible leaf with an FDE record of fewer than eight bytes: the
    hasher of the table throws on [substr(8)] when the section is
    inserted. *)
Theorem X20_leaf_pass_throws_on_short_fde (std_hash : bytes -> Z) (L : Linker) (p : nat)
  (s : InputSection) :
  p ∈ all_sections L -> secs L !! p = Some s ->
  is_eligible s = true -> is_leaf s = true -> ~ fde_tail_ok s ->
  leaf_pass std_hash L = None.
Proof.
  intros Hp Hs He Hl Hbad. unfold leaf_pass.
  rewrite (foldM_None_inv (fun sm => same_code (secs L) sm.1) (classify std_hash)
             (all_sections L) p); [done | done | apply same_code_refl | |].
  - intros sm q sm' Hstep Hinv. eapply same_code_trans; [exact Hinv|].
    by eapply classify_same_code.
  - intros sm [_ Hinv]. destruct (Hinv p s Hs) as (s' & Hs' & Hst & _).
    destruct (static_facts s' s Hst) as (He' & Hl' & _ & _ & Ht').
    unfold classify. rewrite Hs'. cbn [mbind option_bind]. rewrite He', He, Hl', Hl.
    cbn [negb]. unfold leaf_insert.
    rewrite list_lookup_insert_eq by (by eapply lookup_lt_Some). cbn [mbind option_bind].
    unfold map_find. rewrite (LeafHasher_None std_hash); [done|].
    intros Hok. apply Hbad, Ht'. exact Hok.
Qed.

Lemma X20_leaf_pass_throws_on_short_fde_witness : leaf_pass sample_hash short_fde = None.
Proof.
  apply (X20_leaf_pass_throws_on_short_fde sample_hash short_fde 0 (leaf_with_fde [1; 2; 3] 0)).
  - vm_compute. left.
  - reflexivity.
  - reflexivity.
  - reflexivity.
  - unfold fde_tail_ok. intros H. apply Forall_cons in H as [H _]. cbn in H. lia.
Defined.

Section LeafLeaders.
Variable std_hash : bytes -> Z.
Variable L : Linker.
Hypothesis Hok : leaf_input_ok L.

(** The leader of an eligible leaf is an eligible leaf that leads
    itself. *)
Lemma leaf_leaders_own :
  exists L', leaf_pass std_hash L = Some L' /\
    syms L' = syms L /\ objs L' = objs L /\
    forall p sp, leaf_member L p sp ->
      exists l sl, leaf_member L l sl /\ leaf_equal sl sp /\
        leader <$> secs L' !! p = Some (Some l) /\ leader <$> secs L' !! l = Some (Some l).
Proof.
  destruct (leaf_pass_spec std_hash L Hok) as (st & m & Hrun & Hm & Hst).
  exists (mkLinker st (syms L) (objs L)). split; [done|]. split; [done|]. split; [done|].
  cbn [secs].
  assert (Hleaf : forall p sp, leaf_member L p sp ->
            exists s' v, st !! p = Some s' /\ rep L m p v /\ leader s' = Some v).
  { intros p sp (Hin & Hsp & He & Hl).
    destruct (Hst p sp Hin Hsp) as (s' & Hs' & _ & _ & _ & Hlead).
    rewrite He, Hl in Hlead. destruct Hlead as (v & Hrep & Hv). by exists s', v. }
  intros p sp Hp. destruct (Hleaf p sp Hp) as (s' & v & Hs' & Hrep & Hlv).
  destruct Hrep as (j & k & sk & s0 & Hj & Hk & Hs0 & Heq).
  assert (s0 = sp) as -> by (destruct Hp as (_ & Hsp & _); congruence).
  destruct (map_entries L m _ Hm j k v Hj) as (sk' & sv & Hmk & Hmv & _ & _ & Hkv).
  assert (sk' = sk) as -> by (symmetry; exact (member_unique L k sk' sk Hmk Hk)).
  destruct (Hleaf v sv Hmv) as (sv' & v' & Hsv' & Hrep' & Hlv').
  destruct Hrep' as (j' & k' & sk2 & s1 & Hj' & Hk' & Hs1 & Heq').
  assert (s1 = sv) as -> by exact (member_unique L v sv s1 Hmv Hs1).
  assert (j = j') as <-.
  { eapply (map_keys L m _ Hm j j' k v k' v' sk sk2); try done.
    transitivity sv; [done | by symmetry]. }
  assert (v' = v) as -> by congruence.
  exists v, sv. split; [done|]. split; [by transitivity sk|].
  rewrite Hs', Hsv'. cbn. by rewrite Hlv, Hlv'.
Qed.

End LeafLeaders.

(** X21: on input that meets [leaf_input_ok] the leaf pass is defined
    and keeps the symbols and the files, and the leader it gives an
    eligible leaf is an eligible leaf of the files, equal to it in
    contents and FDE records, that has itself as leader. *)
Theorem X21_leaf_leaders_lead_themselves (std_hash : bytes -> Z) (L : Linker) :
  leaf_input_ok L ->
  exists L' : Linker,
    leaf_pass std_hash L = Some L' /\ syms L' = syms L /\ objs L' = objs L /\
    forall (p : nat) (sp : InputSection), leaf_member L p sp ->
      exists (l : nat) (sl : InputSection),
        leaf_member L l sl /\ leaf_equal sl sp /\
        leader <$> secs L' !! p = Some (Some l) /\ leader <$> secs L' !! l = Some (Some l).
Proof. intros Hok. exact (leaf_leaders_own std_hash L Hok). Qed.

Lemma X21_leaf_leaders_lead_themselves_witness :
  exists L' : Linker,
    leaf_pass sample_hash three_leaves = Some L' /\
    syms L' = syms three_leaves /\ objs L' = objs three_leaves /\
    forall (p : nat) (sp : InputSection), leaf_member three_leaves p sp ->
      exists (l : nat) (sl : InputSection),
        leaf_member three_leaves l sl /\ leaf_equal sl sp /\
        leader <$> secs L' !! p = Some (Some l) /\ leader <$> secs L' !! l = Some (Some l).
Proof. exact (X21_leaf_leaders_lead_themselves sample_hash three_leaves three_leaves_ok). Defined.

(** ** The pass is defined on well-formed input *)

Section DigestDefined.
Variable L : Linker.
Hypothesis Hsym : forall sp y p, syms L !! sp = Some y -> input_section y = Some p ->
  is_Some (secs L !! p).
Hypothesis Hlead : leaders_valid (secs L).

Lemma hash_symbol_defined (ctx : bytes) (sp : nat) (sym : Symbol) :
  syms L !! sp = Some sym -> is_Some (hash_symbol L ctx sym).
Proof.
  intros Hsp. unfold hash_symbol. destruct (sym_frag sym); [by eexists|].
  destruct (input_section sym) as [p|] eqn:Hp; [|by eexists].
  destruct (Hsym sp sym p Hsp Hp) as [isec Hisec]. rewrite Hisec. cbn [mbind option_bind].
  destruct (leader isec) as [l|] eqn:Hl.
  - destruct (Hlead p isec l Hisec Hl) as [lsec ->]. by eexists.
  - destruct (icf_eligible isec); by eexists.
Qed.

Lemma rel_symbol_in_store (s : InputSection) (rel : ElfRela) (sym : Symbol) :
  rel_symbol L s rel = Some sym -> exists sp, syms L !! sp = Some sym.
Proof.
  unfold rel_symbol. intros H. apply bind_Some in H as (f & _ & H).
  apply bind_Some in H as (p & _ & H). by exists p.
Qed.

Lemma foldM_defined {A S : Type} (f : S -> A -> option S) (l : list A) (s : S) :
  (forall s x, x ∈ l -> is_Some (f s x)) -> is_Some (foldM f s l).
Proof.
  revert s. induction l as [|x l IH]; intros s H; cbn [foldM]; [by eexists|].
  destruct (H s x) as [s1 ->]; [left|]. apply IH. intros s2 y Hy. apply H. by right.
Qed.

Lemma hash_fde_defined (ctx : bytes) (fde : FdeRecord) :
  (8 <= length (fde_contents fde))%nat -> fde_rels fde <> [] ->
  Forall (fun r => is_Some (syms L !! eh_sym r)) (tail (fde_rels fde)) ->
  is_Some (hash_fde L ctx fde).
Proof.
  intros Hlen Hne Hall. unfold hash_fde. rewrite substr_Some by done. cbn [mbind option_bind].
  destruct (fde_rels fde) as [|r rest]; [done|]. cbn [subspan1 mbind option_bind tail] in *.
  apply foldM_defined. intros c x Hx. rewrite Forall_forall in Hall.
  destruct (Hall x Hx) as [sym Hs]. unfold hash_eh_reloc. rewrite Hs. cbn [mbind option_bind].
  destruct (hash_symbol_defined c _ sym Hs) as [c1 ->]. by eexists.
Qed.

(** [compute_digest] is defined on a section that meets [digest_ok]. *)
Lemma digest_input_defined (s : InputSection) :
  digest_ok L s -> is_Some (digest_input L s).
Proof.
  intros [Hfde Hrel]. rewrite digest_input_spec. unfold fde_prefix.
  destruct (foldM_defined (hash_fde L) (fdes s)
              (prefixed (get_contents s) ++ le64 (sh_flags s)
               ++ le64 (Z.of_nat (length (fdes s))) ++ le64 (Z.of_nat (length (rels s)))))
    as [pre ->].
  { intros c fde Hin. rewrite Forall_forall in Hfde. destruct (Hfde fde Hin) as (? & ? & ?).
    by apply hash_fde_defined. }
  cbn [mbind option_bind].
  assert (is_Some (mapM (reloc_absorbed L s) (seq 0 (length (rels s))))) as [rs ->];
    [|by eexists].
  apply mapM_is_Some, Forall_forall. intros j Hj. apply elem_of_seq in Hj.
  destruct (lookup_lt_is_Some_2 (rels s) j) as [rel Hr]; [lia|].
  destruct (Hrel j rel Hr) as (has & Hhas & Hok).
  change (is_Some (reloc_absorbed L s j)). unfold reloc_absorbed.
  rewrite Hr. cbn [mbind option_bind]. rewrite Hhas. cbn [mbind option_bind]. destruct has.
  - destruct Hok as [ref ->]. by eexists.
  - destruct Hok as [sym Hs]. rewrite Hs. cbn [mbind option_bind].
    destruct (rel_symbol_in_store s rel sym Hs) as [sp Hsp].
    destruct (hash_symbol_defined [] sp sym Hsp) as [fp ->]. by eexists.
Qed.

Lemma digest_ok_resolves (s : InputSection) : digest_ok L s -> rels_resolve L s.
Proof.
  intros [_ Hrel] j rel Hr. destruct (Hrel j rel Hr) as (has & Hhas & Hok).
  exists has. split; [done|]. intros ->. destruct Hok as [sym Hs]. exists sym. split; [done|].
  intros p _ Hp. destruct (rel_symbol_in_store s rel sym Hs) as [sp Hsp]. by eapply Hsym.
Qed.

End DigestDefined.

(** [digest_ok] reads the symbols, the files and the fields of the
    section that the pass does not write. *)
Lemma digest_ok_static (L L' : Linker) (s s' : InputSection) :
  syms L' = syms L -> objs L' = objs L -> static s' = static s ->
  digest_ok L s -> digest_ok L' s'.
Proof.
  intros Hsy Hob Hst.
  assert (fdes s' = fdes s) as Hf by exact (f_equal fdes Hst).
  assert (rels s' = rels s) as Hr by exact (f_equal rels Hst).
  assert (has_fragments s' = has_fragments s) as Hh by exact (f_equal has_fragments Hst).
  assert (rel_fragments s' = rel_fragments s) as Hrf by exact (f_equal rel_fragments Hst).
  assert (file s' = file s) as Hfile by exact (f_equal file Hst).
  intros [Hfde Hrel]. split.
  - rewrite Hf, Hsy. exact Hfde.
  - intros j rel Hj. rewrite Hr in Hj. destruct (Hrel j rel Hj) as (has & Hhas & Hok).
    exists has. rewrite Hh. split; [done|]. destruct has.
    + unfold fragment_index. by rewrite Hrf, Hh.
    + unfold rel_symbol. by rewrite Hob, Hsy, Hfile.
Qed.

Lemma filter_ext_elem {A : Type} (f g : A -> bool) (l : list A) :
  (forall x, x ∈ l -> f x = g x) -> List.filter f l = List.filter g l.
Proof.
  intros H. apply List.filter_ext_in. intros x Hx. apply H. by apply list_elem_of_In.
Qed.

Lemma section_targets_length (L : Linker) (p : nat) :
  (length (section_targets L p) <= length (relocations_of L p))%nat.
Proof.
  unfold section_targets, relocations_of. destruct (secs L !! p) as [s|]; [|done].
  transitivity (length (seq 0 (length (rels s)))); [|by rewrite length_seq].
  induction (seq 0 (length (rels s))) as [|j js IH]; [done|].
  cbn [omap list_omap length]. destruct (reloc_target L s j); cbn [length]; cbn [omap] in IH; lia.
Qed.

Lemma concat_length_le {A B C : Type} (f : A -> list B) (g : A -> list C) (l : list A) :
  (forall x, x ∈ l -> length (f x) <= length (g x))%nat ->
  (length (concat (map f l)) <= length (concat (map g l)))%nat.
Proof.
  induction l as [|x l IH]; intros H; [done|]. cbn [map concat]. rewrite !length_app.
  pose proof (H x ltac:(left)). pose proof (IH (fun y Hy => H y ltac:(by right))). lia.
Qed.

Lemma run_start_idem (ks : list sort_key) (j : nat) :
  run_start ks (run_start ks j) = run_start ks j.
Proof.
  induction j as [|j IH]; [done|]. cbn [run_start].
  destruct (ks !! j) as [a|] eqn:Ha; [|by cbn [run_start]; rewrite Ha].
  destruct (ks !! S j) as [b|] eqn:Hb; [|by cbn [run_start]; rewrite Ha, Hb].
  destruct (bytes_eqb (key_digest a) (key_digest b)) eqn:He; [done|].
  cbn [run_start]. by rewrite Ha, Hb, He.
Qed.

(** The initial digests are the hashes of the bytes absorbed. *)
Lemma compute_digests_inputs (SHA256 : bytes -> bytes) (L : Linker) (ps : list nat)
  (d0 : list Digest) :
  compute_digests SHA256 L ps = Some d0 ->
  exists xs, mapM (fun p => isec ← secs L !! p; digest_input L isec) ps = Some xs /\
             d0 = map (digest_final SHA256) xs.
Proof.
  unfold compute_digests. intros H%mapM_Some.
  induction H as [|p d ps d0 Hp _ (xs & Hxs & ->)].
  - by exists [].
  - apply bind_Some in Hp as (isec & Hisec & Hp). unfold compute_digest in Hp.
    apply bind_Some in Hp as (x & Hx & [= <-]).
    exists (x :: xs). split; [|done]. apply mapM_Some. constructor.
    + by rewrite Hisec.
    + by apply mapM_Some.
Qed.

(** With a hash that tells the inputs of the rounds apart, sections
    with equal digests after some rounds had equal digests before
    them. *)
Lemma round_digests_back (SHA256 : bytes -> bytes) (edges edge_indices : list Z)
  (d0 : list Digest) (K R i j : nat) :
  graph_ok (length d0) edges edge_indices ->
  Forall (fun d => length d = HASH_SIZE) d0 ->
  (forall m, (HASH_SIZE <= length (SHA256 m))%nat) ->
  Forall (fun cur => injective_on SHA256 (round_inputs cur edges edge_indices))
    (round_history SHA256 edges edge_indices d0 K) ->
  (R <= K)%nat -> (i < length d0)%nat -> (j < length d0)%nat ->
  round_digests SHA256 edges edge_indices d0 R !! i
  = round_digests SHA256 edges edge_indices d0 R !! j ->
  d0 !! i = d0 !! j.
Proof.
  intros Hg Hsz Hout Hinj HR Hi Hj.
  assert (Hpos : (1 <= length d0)%nat) by lia.
  induction R as [|R IH]; [done|].
  change (round_digests SHA256 edges edge_indices d0 (S R))
    with (next_digests SHA256 (round_digests SHA256 edges edge_indices d0 R) edges edge_indices).
  pose proof (round_digests_length SHA256 edges edge_indices d0 R) as Hlen.
  intros Heq. apply IH; [lia|].
  apply next_digests_equal_iff in Heq as [Heq _]; [done | by rewrite Hlen | | | lia | lia].
  - by apply round_digests_sizes.
  - rewrite Forall_forall in Hinj. apply Hinj, list_elem_of_lookup. exists R.
    apply round_history_lookup. lia.
Qed.

Lemma length_concat_elem {A : Type} (ls : list (list A)) (l : list A) :
  l ∈ ls -> (length l <= length (concat ls))%nat.
Proof.
  induction ls as [|x ls IH]; intros H; [by apply elem_of_nil in H|].
  cbn [concat]. rewrite length_app. apply elem_of_cons in H as [-> | H]; [lia|].
  specialize (IH H). lia.
Qed.

(** Two sections with the same bytes absorbed have the same contents,
    as many FDE records and as many relocations. *)
Lemma digest_input_sizes (L : Linker) (a b : InputSection) (x : bytes) :
  Z.of_nat (length (contents a)) < 2 ^ 64 -> Z.of_nat (length (contents b)) < 2 ^ 64 ->
  Z.of_nat (length (fdes a)) < 2 ^ 64 -> Z.of_nat (length (fdes b)) < 2 ^ 64 ->
  Z.of_nat (length (rels a)) < 2 ^ 64 -> Z.of_nat (length (rels b)) < 2 ^ 64 ->
  digest_input L a = Some x -> digest_input L b = Some x ->
  contents a = contents b /\ length (fdes a) = length (fdes b) /\
  length (rels a) = length (rels b).
Proof.
  intros Hca Hcb Hfa Hfb Hra Hrb [ta ->]%digest_input_header [tb Heq]%digest_input_header.
  apply prefixed_app_inj in Heq as [Hc Heq]; [|done..].
  apply le64_app_inj in Heq as [_ Heq]. apply le64_app_inj in Heq as [Hnf Heq].
  apply le64_app_inj in Heq as [Hnr _].
  rewrite !Z.mod_small in Hnf, Hnr by lia.
  split; [done|]. lia.
Qed.

Section Total.
Variable std_hash : bytes -> Z.
Variable SHA256 : bytes -> bytes.
Variable L : Linker.
Hypothesis Hok : icf_input_ok L.
Hypothesis Hout : forall m, (HASH_SIZE <= length (SHA256 m))%nat.

(** The store after the leaf pass. *)
Lemma leaf_stage :
  exists st1,
    leaf_pass std_hash L = Some (mkLinker st1 (syms L) (objs L)) /\
    length st1 = length (secs L) /\
    forall p s0, secs L !! p = Some s0 ->
      exists s1, st1 !! p = Some s1 /\ static s1 = static s0 /\
        icf_eligible s1 = is_eligible s0 && negb (is_leaf s0) /\
        if is_eligible s0 && is_leaf s0
        then exists l sl, leaf_member L l sl /\ leaf_equal sl s0 /\ leader s1 = Some l /\
                          leader <$> st1 !! l = Some (Some l)
        else leader s1 = None.
Proof.
  destruct Hok as [Hleaf Hstore _ _ _ _ _ _].
  destruct (leaf_pass_spec std_hash L Hleaf) as (st & m & Hrun & Hm & Hst).
  destruct (leaf_leaders_own std_hash L Hleaf) as (L' & Hrun' & _ & _ & Hown).
  rewrite Hrun in Hrun'. injection Hrun' as <-. cbn [secs] in Hown.
  exists st. split; [done|]. split.
  { by destruct (leaf_pass_same_code _ _ _ Hrun) as (_ & _ & [? _]). }
  intros p s0 Hs0. destruct (Hstore p s0 Hs0) as [Hin Hfresh].
  destruct (Hst p s0 Hin Hs0) as (s1 & Hs1 & Hstat & _ & Hel & Hlead).
  exists s1. split_and!; try done.
  destruct (is_eligible s0 && is_leaf s0) eqn:Hlf.
  - apply andb_true_iff in Hlf as [He Hl].
    destruct (Hown p s0) as (l & sl & Hml & Heq & Hlp & Hll); [by split_and!|].
    exists l, sl. split; [done|]. split; [done|].
    rewrite Hs1 in Hlp. cbn in Hlp. split; [congruence | done].
  - congruence.
Qed.

(** The steps of the pass in turn: the leaf pass, the enumeration of
    the sections, the initial digests, the edges, the rounds, the sort,
    the election and the commit. *)
Lemma icf_sections_run (fuel : nat) :
  (forall d0 edges edge_indices,
     prepared std_hash SHA256 L = Some (d0, edges, edge_indices) ->
     Forall (fun cur => injective_on SHA256 (round_inputs cur edges edge_indices))
       (round_history SHA256 edges edge_indices d0 (10 * (length d0 + 1)))) ->
  (10 * (length (propagation_set L) + 1) <= fuel)%nat ->
  exists L' : Linker,
    icf_sections std_hash SHA256 fuel L = Some L' /\ self_led (secs L') /\
    (forall sp y p, sp ∈ all_symbols L -> syms L !! sp = Some y -> input_section y = Some p ->
       exists y' q sq',
         syms L' !! sp = Some y' /\ sym_frag y' = sym_frag y /\ sym_value y' = sym_value y /\
         input_section y' = Some q /\
         (q = p \/ exists s', secs L' !! p = Some s' /\ leader s' = Some q) /\
         secs L' !! q = Some sq' /\ (leader sq' = None \/ leader sq' = Some q)) /\
    ((forall xs, initial_inputs std_hash L = Some xs -> injective_on SHA256 xs) ->
     (forall p s, p ∈ propagation_set L -> secs L !! p = Some s ->
        Z.of_nat (length (contents s)) < 2 ^ 64 /\ Z.of_nat (length (fdes s)) < 2 ^ 64) ->
     forall p s0 s' l,
       secs L !! p = Some s0 -> secs L' !! p = Some s' -> leader s' = Some l ->
       exists sl0, secs L !! l = Some sl0 /\
         is_eligible sl0 = true /\ is_leaf sl0 = is_leaf s0 /\
         contents sl0 = contents s0 /\ length (fdes sl0) = length (fdes s0) /\
         length (rels sl0) = length (rels s0)).
Proof.
  intros Hinj Hfuel.
  destruct leaf_stage as (st1 & Hrun1 & Hlen1 & Hst1).
  destruct Hok as [Hleaf Hstore [Hne Hbig] Hnd [Hsyms Hsymp] [Hpne Hpbig] Hdig Hrelocs].
  set (L1 := mkLinker st1 (syms L) (objs L)).
  assert (Hin0 : forall p, p ∈ all_sections L -> exists s0, secs L !! p = Some s0).
  { intros p Hp. destruct (Hleaf p Hp) as (s0 & Hs0 & _). by exists s0. }
  (* the participants are the propagation set *)
  assert (Hpart : participants L1 = propagation_set L).
  { unfold participants, propagation_set. change (all_sections L1) with (all_sections L).
    apply filter_ext_elem. intros p Hp. destruct (Hin0 p Hp) as [s0 Hs0].
    destruct (Hst1 p s0 Hs0) as (s1 & Hs1 & _ & Hel & _).
    unfold eligible_in. cbn [L1 secs]. by rewrite Hs1, Hs0. }
  assert (Hptr1 : forall p, p ∈ all_sections L1 -> is_Some (secs L1 !! p)).
  { intros p Hp. destruct (Hin0 p Hp) as [s0 Hs0].
    destruct (Hst1 p s0 Hs0) as (s1 & Hs1 & _). by exists s1. }
  assert (Hpnd : NoDup (participants L1)) by (by apply participants_NoDup).
  destruct (gather_sections_run L1 Hptr1 Hpnd Hne Hbig) as (st2 & Hrun2 & Hidx & Hrest).
  set (L2 := mkLinker st2 (syms L) (objs L)). cbn [L1 syms objs] in Hrun2. fold L2 in Hrun2.
  set (ps := participants L1) in *.
  (* the sections of the store after the enumeration *)
  assert (Hst2 : forall p s0, secs L !! p = Some s0 ->
            exists s1 s2, st1 !! p = Some s1 /\ st2 !! p = Some s2 /\
              static s1 = static s0 /\ static s2 = static s0 /\
              leader s2 = leader s1 /\ icf_eligible s2 = icf_eligible s1 /\
              (forall i, ps !! i = Some p -> icf_idx s2 = Z.of_nat i) /\
              (p ∉ ps -> s2 = s1)).
  { intros p s0 Hs0. destruct (Hst1 p s0 Hs0) as (s1 & Hs1 & Hstat & _).
    destruct (decide (p ∈ ps)) as [Hp | Hp].
    - pose proof Hp as [i Hi]%list_elem_of_lookup.
      exists s1, (set_icf_idx (Z.of_nat i) s1). cbn [L1 secs] in Hidx.
      rewrite (Hidx i p Hi), Hs1. do 6 (split; [done|]). split; [|done].
      intros i' Hi'. pose proof (NoDup_lookup _ _ _ _ Hpnd Hi Hi'). by subst.
    - exists s1, s1. cbn [L1 secs] in Hrest. rewrite (Hrest p Hp).
      do 6 (split; [done|]). split; [|done].
      intros i Hi. exfalso. apply Hp. by eapply list_elem_of_lookup_2. }
  assert (Hlen2 : length st2 = length (secs L)).
  { destruct (gather_sections_same_code _ _ _ Hrun2) as (_ & _ & [Hl _]). cbn in Hl. congruence. }
  assert (Hdom : forall (st : list InputSection) p,
            length st = length (secs L) -> is_Some (st !! p) ->
            exists s0, secs L !! p = Some s0).
  { intros st p Hl Hp. apply lookup_lt_is_Some in Hp. apply lookup_lt_is_Some. lia. }
  assert (Hps : forall p, p ∈ ps <->
            exists s0, p ∈ all_sections L /\ secs L !! p = Some s0 /\
                       is_eligible s0 && negb (is_leaf s0) = true).
  { intros p. rewrite Hpart. unfold propagation_set.
    rewrite list_elem_of_In, filter_In, <- list_elem_of_In. split.
    - intros [Hp He]. destruct (Hin0 p Hp) as [s0 Hs0]. rewrite Hs0 in He. by exists s0.
    - intros (s0 & Hp & Hs0 & He). by rewrite Hs0. }
  (* the symbols and the leaders point into the store *)
  assert (Hsym2 : forall sp y p, syms L2 !! sp = Some y -> input_section y = Some p ->
            is_Some (secs L2 !! p)).
  { intros sp y p Hy Hp. destruct (Hsymp sp y p Hy Hp) as [s0 Hs0].
    destruct (Hst2 p s0 Hs0) as (_ & s2 & _ & Hs2 & _). by exists s2. }
  assert (Hlead2 : leaders_valid (secs L2)).
  { intros p s l Hs Hl. cbn [L2 secs] in *.
    destruct (Hdom st2 p Hlen2) as [s0 Hs0]; [by eexists|].
    destruct (Hst2 p s0 Hs0) as (s1 & s2 & Hs1 & Hs2 & _ & _ & Hl2 & _).
    assert (s2 = s) as -> by congruence.
    destruct (Hst1 p s0 Hs0) as (s1' & Hs1' & _ & _ & Hcase).
    assert (s1' = s1) as -> by congruence.
    destruct (is_eligible s0 && is_leaf s0).
    - destruct Hcase as (l' & sl & _ & _ & Hl1 & Hll).
      assert (l' = l) as -> by congruence.
      apply lookup_lt_is_Some. rewrite Hlen2, <- Hlen1. apply lookup_lt_is_Some.
      destruct (st1 !! l); [by eexists | done].
    - congruence. }
  (* the initial digests *)
  assert (Hd0 : exists d0, compute_digests SHA256 L2 ps = Some d0 /\
            length d0 = length ps /\ Forall (fun d => length d = HASH_SIZE) d0).
  { assert (is_Some (compute_digests SHA256 L2 ps)) as [d0 Hd0].
    { unfold compute_digests. apply mapM_is_Some, Forall_forall. intros p Hp.
      apply Hps in Hp as Hp'. destruct Hp' as (s0 & Hin & Hs0 & He).
      destruct (Hst2 p s0 Hs0) as (s1 & s2 & _ & Hs2 & _ & Hstat2 & _).
      unfold compose. change (secs L2) with st2. rewrite Hs2. cbn [mbind option_bind].
      unfold compute_digest.
      destruct (digest_input_defined L2 Hsym2 Hlead2 s2) as [ctx ->]; [|by eexists].
      apply (digest_ok_static L L2 s0 s2); try done.
      apply (Hdig p s0); [|done]. by rewrite <- Hpart. }
    exists d0. split; [done|]. unfold compute_digests in Hd0. apply mapM_Some in Hd0.
    split; [symmetry; by eapply Forall2_length|].
    apply Forall_forall. intros d [i Hi]%list_elem_of_lookup.
    destruct (Forall2_lookup_r _ _ _ _ _ Hd0 Hi) as (p & _ & Hp).
    apply bind_Some in Hp as (isec & _ & Hp). unfold compute_digest in Hp.
    apply bind_Some in Hp as (ctx & _ & [= <-]). unfold digest_final.
    rewrite length_take. specialize (Hout ctx). lia. }
  destruct Hd0 as (d0 & Hd0 & Hd0len & Hd0size).
  (* the edges *)
  assert (Helig : forall p s0, p ∈ ps -> secs L !! p = Some s0 ->
            exists s2, st2 !! p = Some s2 /\ icf_eligible s2 = true /\ static s2 = static s0).
  { intros p s0 Hp Hs0. apply Hps in Hp as (s0' & _ & Hs0' & He).
    assert (s0' = s0) as -> by congruence.
    destruct (Hst2 p s0 Hs0) as (s1 & s2 & Hs1 & Hs2 & _ & Hstat2 & _ & He2 & _).
    destruct (Hst1 p s0 Hs0) as (s1' & Hs1' & _ & He1 & _).
    assert (s1' = s1) as -> by congruence.
    exists s2. split; [done|]. split; [congruence | done]. }
  assert (Hsec2 : forall p, p ∈ ps ->
            exists s, secs L2 !! p = Some s /\ icf_eligible s = true /\ rels_resolve L2 s).
  { intros p Hp. pose proof Hp as (s0 & _ & Hs0 & _)%Hps.
    destruct (Helig p s0 Hp Hs0) as (s2 & Hs2 & He2 & Hstat2).
    exists s2. split; [done|]. split; [done|].
    apply (digest_ok_resolves L2 Hsym2), (digest_ok_static L L2 s0 s2); try done.
    apply (Hdig p s0); [|done]. by rewrite <- Hpart. }
  assert (Htot : Z.of_nat (length (concat (map (section_targets L2) ps))) < 2 ^ 32).
  { rewrite Hpart in *.
    pose proof (concat_length_le (section_targets L2) (relocations_of L) (propagation_set L))
      as Hle.
    enough (length (concat (map (section_targets L2) (propagation_set L)))
            <= length (concat (map (relocations_of L) (propagation_set L))))%nat by lia.
    apply Hle. intros p Hp. pose proof Hp as (s0 & _ & Hs0 & _)%Hps.
    destruct (Helig p s0 Hp Hs0) as (s2 & Hs2 & _ & Hstat2).
    etrans; [apply section_targets_length|]. unfold relocations_of.
    change (secs L2) with st2. rewrite Hs2, Hs0.
    assert (rels s2 = rels s0) as -> by exact (f_equal rels Hstat2). done. }
  assert (Hpne' : ps <> []) by (by rewrite Hpart).
  assert (Hpbig' : Z.of_nat (length ps) < 2 ^ 32) by (by rewrite Hpart).
  pose proof (gather_edges_run L2 ps Hsec2 Hpne' ltac:(lia) Htot) as Hge.
  set (edges := concat _) in Hge. set (edge_indices := map _ _) in Hge.
  assert (Hgraph : graph_ok (length d0) edges edge_indices).
  { rewrite Hd0len. apply edges_graph_ok. intros p t Hp Ht.
    pose proof (section_targets_valid L2 p t Ht) as He. unfold eligible_in in He.
    change (secs L2) with st2 in He. destruct (st2 !! t) as [s2|] eqn:Hs2; [|done].
    destruct (Hdom st2 t Hlen2) as [s0 Hs0]; [by eexists|].
    destruct (Hst2 t s0 Hs0) as (s1 & s2' & Hs1 & Hs2' & _ & _ & _ & He2 & Hpos & _).
    assert (s2' = s2) as -> by congruence.
    destruct (Hst1 t s0 Hs0) as (s1' & Hs1' & _ & He1 & _).
    assert (s1' = s1) as -> by congruence.
    destruct (Hstore t s0 Hs0) as [Hint _].
    assert (t ∈ ps) as [k Hk]%list_elem_of_lookup.
    { apply Hps. exists s0. split; [done|]. split; [done | congruence]. }
    assert (icf_idx_in L2 t = Z.of_nat k) as ->.
    { unfold icf_idx_in. change (secs L2) with st2. rewrite Hs2. cbn. by apply Hpos. }
    apply lookup_lt_Some in Hk. unfold to_u32. rewrite wrap_unsigned.
    rewrite Z.mod_small; lia. }
  assert (Hprep : prepared std_hash SHA256 L = Some (d0, edges, edge_indices)).
  { unfold prepared. rewrite Hrun1. cbn [mbind option_bind]. fold L1. rewrite Hrun2.
    cbn [mbind option_bind fst snd]. rewrite Hd0. cbn [mbind option_bind]. by rewrite Hge. }
  (* the rounds *)
  assert (Hpos : (1 <= length d0)%nat).
  { rewrite Hd0len. destruct ps; [done | cbn; lia]. }
  specialize (Hinj d0 edges edge_indices Hprep).
  destruct (rounds_from SHA256 edges edge_indices d0 Hpos Hgraph Hd0size Hout fuel 0 (-1)
              (replicate (length d0) (replicate HASH_SIZE 0)))
    as (r & Hr & Hub & Hlb & Hfin).
  { pose proof (count_num_classes_range (round_digests SHA256 edges edge_indices d0 0)). lia. }
  { by rewrite length_replicate. }
  { intros k _ Hk. rewrite Forall_forall in Hinj. apply Hinj.
    apply list_elem_of_lookup. exists k. apply round_history_lookup.
    change (Z.of_nat 0 mod 10) with 0 in Hk. lia. }
  { change (Z.of_nat 0 mod 10) with 0. rewrite Hd0len, Hpart. lia. }
  change (buffers (Z.of_nat 0 mod 2) (round_digests SHA256 edges edge_indices d0 0)
            (replicate (length d0) (replicate HASH_SIZE 0)))
    with [d0; replicate (length d0) (replicate HASH_SIZE 0)] in Hr.
  change (Z.of_nat 0 mod 2) with 0 in Hr. change (Z.of_nat 0) with 0 in Hr.
  set (digest := round_digests SHA256 edges edge_indices d0 (Z.to_nat (rounds_run r))) in *.
  assert (Hdlen : length digest = length ps).
  { unfold digest. by rewrite round_digests_length. }
  (* the sort and the election *)
  assert (is_Some (sort_sections (secs L2) digest ps)) as [sorted Hsort].
  { unfold sort_sections.
    assert (is_Some (mapM (section_key (secs L2) digest) ps)) as [keys ->]; [|by eexists].
    apply mapM_is_Some, Forall_forall. intros p Hp. pose proof Hp as [i Hi]%list_elem_of_lookup.
    pose proof Hp as (s0 & _ & Hs0 & _)%Hps.
    destruct (Hst2 p s0 Hs0) as (_ & s2 & _ & Hs2 & _ & _ & _ & _ & Hidx2 & _).
    unfold compose, section_key. change (secs L2) with st2. rewrite Hs2.
    cbn [mbind option_bind]. rewrite (Hidx2 i Hi), at_index_nat.
    destruct (lookup_lt_is_Some_2 digest i) as [d ->]; [|by eexists].
    apply lookup_lt_Some in Hi. lia. }
  destruct (sort_sections_facts _ _ _ _ Hsort) as (Hsorted & Hperm & Hkey).
  assert (Hnd' : NoDup (key_section <$> sorted)) by (by rewrite Hperm).
  destruct (elect_leaders_run sorted (secs L2) Hnd') as (st3 & Hel & Hin3 & Hout3).
  { intros k Hk. specialize (Hkey k Hk). unfold section_key in Hkey.
    apply bind_Some in Hkey as (isec & -> & _). by eexists. }
  change (secs L2) with st2 in *.
  assert (Hlen3 : length st3 = length (secs L)).
  { destruct (elect_leaders_same_code _ _ _ Hel) as [Hl _]. congruence. }
  (* every leader leads itself *)
  assert (Hself : self_led st3).
  { intros p s l Hs Hl.
    destruct (Hdom st3 p Hlen3) as [s0 Hs0]; [by eexists|].
    destruct (Hst2 p s0 Hs0) as (s1 & s2 & Hs1 & Hs2 & _ & _ & Hl2 & _ & _ & Hsame).
    destruct (Hst1 p s0 Hs0) as (s1' & Hs1' & _ & He1 & Hcase).
    assert (s1' = s1) as -> by congruence.
    destruct (decide (p ∈ ps)) as [Hp | Hp].
    - (* a participant *)
      assert (p ∈ key_section <$> sorted) as Hpk by (by rewrite Hperm).
      apply list_elem_of_fmap in Hpk as (k & -> & [j Hj]%list_elem_of_lookup).
      rewrite (Hin3 j k Hj), Hs2 in Hs.
      pose proof Hp as (s0' & _ & Hs0' & He)%Hps. assert (s0' = s0) as -> by congruence.
      assert (leader s2 = None) as Hnone.
      { rewrite Hl2. apply andb_true_iff in He as [He Hnl]. apply negb_true_iff in Hnl.
        by rewrite He, Hnl in Hcase. }
      case_bool_decide as Hrs; [|congruence].
      cbn in Hs. injection Hs as <-. cbn [set_leader leader] in Hl. injection Hl as <-.
      destruct (run_start_digest sorted j k Hj) as (kl & Hkl & _).
      unfold section_at. rewrite Hkl. cbn.
      pose proof (Hin3 _ kl Hkl) as Hlead. rewrite run_start_idem in Hlead.
      rewrite (bool_decide_eq_true_2 _ Hrs) in Hlead. unfold section_at in Hlead.
      rewrite Hkl in Hlead. cbn in Hlead.
      assert (is_Some (st2 !! key_section kl)) as [sl Hsl].
      { specialize (Hkey kl ltac:(by eapply list_elem_of_lookup_2)).
        unfold section_key in Hkey. apply bind_Some in Hkey as (isec & -> & _). by eexists. }
      rewrite Hsl in Hlead. eexists. split; [exact Hlead | done].
    - (* not a participant: as the leaf pass left it *)
      assert (Hkeep : forall q, q ∉ ps -> st3 !! q = st1 !! q).
      { intros q Hq. rewrite Hout3 by (by rewrite Hperm).
        change (st2 !! q = secs L1 !! q). by apply Hrest. }
      rewrite (Hkeep p Hp), Hs1 in Hs. injection Hs as <-.
      destruct (is_eligible s0 && is_leaf s0) eqn:Hlf; [|congruence].
      destruct Hcase as (l' & sl & Hml & _ & Hl1 & Hll).
      assert (l' = l) as -> by congruence.
      assert (l ∉ ps) as Hlp.
      { intros (s0l & _ & Hs0l & He)%Hps. destruct Hml as (_ & Hsl & _ & Hisleaf).
        assert (s0l = sl) as -> by congruence. rewrite Hisleaf in He.
        by rewrite andb_false_r in He. }
      rewrite (Hkeep l Hlp). destruct (st1 !! l) as [sl1|]; [|done].
      exists sl1. split; [done|]. cbn in Hll. congruence. }
  (* where a leader comes from *)
  assert (Hkpos : forall k, k ∈ sorted ->
            exists i, ps !! i = Some (key_section k) /\ digest !! i = Some (key_digest k)).
  { intros k Hk. pose proof (Hkey k Hk) as Hsk.
    assert (key_section k ∈ ps) as Hkp.
    { rewrite <- Hperm. apply list_elem_of_fmap. by exists k. }
    pose proof Hkp as [i Hi]%list_elem_of_lookup.
    exists i. split; [done|].
    apply Hps in Hkp as (s0 & _ & Hs0 & _).
    destruct (Hst2 _ s0 Hs0) as (_ & s2 & _ & Hs2 & _ & _ & _ & _ & Hidx2 & _).
    unfold section_key in Hsk. rewrite Hs2 in Hsk. cbn [mbind option_bind] in Hsk.
    rewrite (Hidx2 i Hi), at_index_nat in Hsk.
    destruct (digest !! i) as [d|]; [|done]. cbn in Hsk. by injection Hsk as <-. }
  assert (Horigin : forall p s l, st3 !! p = Some s -> leader s = Some l ->
            (exists sp sl, leaf_member L p sp /\ leaf_member L l sl /\ leaf_equal sl sp) \/
            (exists i j, ps !! i = Some p /\ ps !! j = Some l /\ digest !! i = digest !! j)).
  { intros p s l Hs Hl.
    destruct (Hdom st3 p Hlen3) as [s0 Hs0]; [by eexists|].
    destruct (Hst2 p s0 Hs0) as (s1 & s2 & Hs1 & Hs2 & _ & _ & Hl2 & _ & _ & Hsame).
    destruct (Hst1 p s0 Hs0) as (s1' & Hs1' & _ & He1 & Hcase).
    assert (s1' = s1) as -> by congruence.
    destruct (decide (p ∈ ps)) as [Hp | Hp].
    - right.
      assert (p ∈ key_section <$> sorted) as Hpk by (by rewrite Hperm).
      apply list_elem_of_fmap in Hpk as (k & -> & [j Hj]%list_elem_of_lookup).
      rewrite (Hin3 j k Hj), Hs2 in Hs.
      pose proof Hp as (s0' & _ & Hs0' & He)%Hps. assert (s0' = s0) as -> by congruence.
      assert (leader s2 = None) as Hnone.
      { rewrite Hl2. apply andb_true_iff in He as [He Hnl]. apply negb_true_iff in Hnl.
        by rewrite He, Hnl in Hcase. }
      case_bool_decide as Hrs; [|congruence].
      cbn in Hs. injection Hs as <-. cbn [set_leader leader] in Hl. injection Hl as <-.
      destruct (run_start_digest sorted j k Hj) as (kl & Hkl & Hdg).
      unfold section_at. rewrite Hkl. cbn.
      destruct (Hkpos k) as (i & Hi & Hdi); [by eapply list_elem_of_lookup_2|].
      destruct (Hkpos kl) as (i' & Hi' & Hdi'); [by eapply list_elem_of_lookup_2|].
      exists i, i'. split; [done|]. split; [done|]. by rewrite Hdi, Hdi', Hdg.
    - left.
      assert (st3 !! p = st1 !! p) as Hkeep.
      { rewrite Hout3 by (by rewrite Hperm). change (st2 !! p = secs L1 !! p). by apply Hrest. }
      rewrite Hkeep, Hs1 in Hs. injection Hs as <-.
      destruct (is_eligible s0 && is_leaf s0) eqn:Hlf; [|congruence].
      destruct Hcase as (l' & sl & Hml & Heq & Hl1 & _).
      assert (l' = l) as -> by congruence.
      apply andb_true_iff in Hlf as [He Hlf].
      exists s0, sl. split; [|done]. split; [by apply (Hstore p s0)|]. by split_and!. }
  (* the commit *)
  set (L3 := mkLinker st3 (syms L) (objs L)).
  assert (Hptr3 : forall sp y p, syms L !! sp = Some y -> input_section y = Some p ->
            is_Some (st3 !! p)).
  { intros sp y p Hy Hp. apply lookup_lt_is_Some. rewrite Hlen3.
    apply lookup_lt_is_Some. by eapply Hsymp. }
  destruct (redirect_all st3 (syms L) Hself Hptr3 (all_symbols L3) st3 (syms L) [])
    as (st' & sy' & Hrun & Hinv3); [apply commit_inv_init | exact Hsyms |].
  assert (Hc : commit L3 = Some (mkLinker st' sy' (objs L))).
  { unfold commit. change (secs L3) with st3. change (syms L3) with (syms L).
    by rewrite Hrun. }
  assert (Hlast : forall q s3, st3 !! q = Some s3 ->
            exists s', st' !! q = Some s' /\ leader s' = leader s3).
  { intros q s3 Hs3. pose proof (commit_leader L3 _ Hc q) as Hq. cbn [secs L3] in Hq.
    rewrite Hs3 in Hq. destruct (st' !! q) as [s'|]; [|done]. exists s'. split; [done|].
    cbn in Hq. congruence. }
  exists (mkLinker st' sy' (objs L)). split; [|split; [|split]].
  - unfold icf_sections. rewrite Hrun1. cbn [mbind option_bind]. fold L1. rewrite Hrun2.
    cbn [mbind option_bind fst snd]. rewrite Hd0. cbn [mbind option_bind]. rewrite Hge.
    cbn [mbind option_bind fst snd]. rewrite Hr. cbn [mbind option_bind]. rewrite Hfin.
    cbn [mbind option_bind]. change (secs L2) with st2. rewrite Hsort.
    cbn [mbind option_bind]. rewrite Hel. cbn [mbind option_bind]. exact Hc.
  - intros p s l Hs Hl. cbn [secs] in Hs.
    pose proof (commit_leader L3 _ Hc p) as Hp. cbn [secs L3] in Hp. rewrite Hs in Hp.
    destruct (st3 !! p) as [s3|] eqn:Hs3; [|done]. cbn in Hp.
    destruct (Hself p s3 l Hs3) as (sl & Hsl & Hll); [congruence|].
    pose proof (commit_leader L3 _ Hc l) as Hpl. cbn [secs L3] in Hpl. rewrite Hsl in Hpl.
    cbn [secs]. destruct (st' !! l) as [sl'|]; [|done]. exists sl'. split; [done|].
    cbn in Hpl. congruence.
  - intros sp y p Hsp Hy Hp. cbn [secs syms].
    destruct Hinv3 as [_ Hsy]. destruct (Hsy sp y Hy) as (y' & Hy' & Hfrag & Hval & _ & Hdone).
    destruct Hdone as [Hto _]; [exact Hsp|].
    rewrite Hp in Hto. cbn [folded_to] in Hto.
    destruct (Hptr3 sp y p Hy Hp) as [s3 Hs3]. rewrite Hs3 in Hto.
    destruct (Hlast p s3 Hs3) as (s' & Hs' & Hl').
    destruct (leader s3) as [l|] eqn:Hl3; [destruct (Nat.eqb_spec l p) as [-> | Hlp]|].
    + exists y', p, s'. split_and!; try done; [by left | by right].
    + destruct (Hself p s3 l Hs3 Hl3) as (sl & Hsl & Hll).
      destruct (Hlast l sl Hsl) as (sl' & Hsl' & Hll').
      exists y', l, sl'. split_and!; try done; [right; by exists s' | right; congruence].
    + exists y', p, s'. split_and!; try done; [by left | by left].
  - intros Hinj0 Hsizes p s0 s' l Hs0 Hs Hl. cbn [secs] in Hs.
    pose proof (commit_leader L3 _ Hc p) as Hp. cbn [secs L3] in Hp. rewrite Hs in Hp.
    destruct (st3 !! p) as [s3|] eqn:Hs3; [|done]. cbn in Hp.
    destruct (Horigin p s3 l Hs3)
      as [(sp & sl & Hmp & Hml & Heq) | (i & j & Hi & Hj & Hlastal)]; [congruence | |].
    + (* two leaves *)
      destruct Hmp as (_ & Hsp & Hpel & Hlp). assert (sp = s0) as -> by congruence.
      destruct Hml as (_ & Hsl & Hlel & Hll). destruct Heq as (Hc' & Hnf & _).
      exists sl. split; [done|]. split; [done|]. split; [congruence|].
      split; [exact Hc'|]. split; [done|].
      apply is_leaf_spec in Hlp as [-> _]. by apply is_leaf_spec in Hll as [-> _].
    + (* two sections of the propagation *)
      pose proof (list_elem_of_lookup_2 _ _ _ Hi) as Hpin.
      pose proof (list_elem_of_lookup_2 _ _ _ Hj) as Hlin.
      pose proof Hpin as (s0' & _ & Hs0' & Hpel)%Hps. assert (s0' = s0) as -> by congruence.
      pose proof Hlin as (sl0 & _ & Hsl0 & Hlel)%Hps.
      destruct (Hst2 p s0 Hs0) as (_ & s2 & _ & Hs2 & _ & Hstat2 & _).
      destruct (Hst2 l sl0 Hsl0) as (_ & sl2 & _ & Hsl2 & _ & Hstatl & _).
      assert (d0 !! i = d0 !! j) as Hd.
      { apply (round_digests_back SHA256 edges edge_indices d0 (10 * (length d0 + 1))
                 (Z.to_nat (rounds_run r))); try done.
        - change (Z.of_nat 0 mod 10) with 0 in Hub. lia.
        - rewrite Hd0len. by eapply lookup_lt_Some.
        - rewrite Hd0len. by eapply lookup_lt_Some. }
      destruct (compute_digests_inputs SHA256 L2 ps d0 Hd0) as (xs & Hxs & Hd0xs).
      assert (initial_inputs std_hash L = Some xs) as Hini.
      { unfold initial_inputs. rewrite Hrun1. cbn [mbind option_bind]. fold L1. rewrite Hrun2.
        cbn [mbind option_bind fst snd]. exact Hxs. }
      specialize (Hinj0 xs Hini). apply mapM_Some in Hxs.
      destruct (Forall2_lookup_l _ _ _ i p Hxs Hi) as (xi & Hxi & Hfi).
      destruct (Forall2_lookup_l _ _ _ j l Hxs Hj) as (xj & Hxj & Hfj).
      change (secs L2) with st2 in Hfi, Hfj. rewrite Hs2 in Hfi. rewrite Hsl2 in Hfj.
      cbn [mbind option_bind] in Hfi, Hfj.
      assert (xi = xj) as <-.
      { apply Hinj0; [by eapply list_elem_of_lookup_2..|].
        rewrite Hd0xs, !list_lookup_fmap, Hxi, Hxj in Hd. by injection Hd. }
      assert (contents s2 = contents s0) as Hc2 by exact (f_equal contents Hstat2).
      assert (contents sl2 = contents sl0) as Hcl by exact (f_equal contents Hstatl).
      assert (fdes s2 = fdes s0) as Hf2 by exact (f_equal fdes Hstat2).
      assert (fdes sl2 = fdes sl0) as Hfl by exact (f_equal fdes Hstatl).
      assert (rels s2 = rels s0) as Hr2 by exact (f_equal rels Hstat2).
      assert (rels sl2 = rels sl0) as Hrl by exact (f_equal rels Hstatl).
      assert (Hrels : forall q sq, q ∈ ps -> secs L !! q = Some sq ->
                Z.of_nat (length (rels sq)) < 2 ^ 64).
      { intros q sq Hq Hsq.
        pose proof (length_concat_elem (map (relocations_of L) ps) (rels sq)) as Hle.
        rewrite <- Hpart in Hrelocs.
        enough (length (rels sq) <= length (concat (map (relocations_of L) ps)))%nat by lia.
        apply Hle, list_elem_of_fmap. exists q. split; [|done].
        unfold relocations_of. by rewrite Hsq. }
      rewrite <- Hpart in Hsizes.
      destruct (Hsizes p s0 Hpin Hs0) as [Hzc Hzf]. destruct (Hsizes l sl0 Hlin Hsl0) as [Hzcl Hzfl].
      pose proof (Hrels p s0 Hpin Hs0) as Hzr. pose proof (Hrels l sl0 Hlin Hsl0) as Hzrl.
      destruct (digest_input_sizes L2 s2 sl2 xi) as (Hc' & Hnf & Hnr);
        rewrite ?Hc2, ?Hcl, ?Hf2, ?Hfl, ?Hr2, ?Hrl; try done.
      rewrite Hc2, Hcl in Hc'. rewrite Hf2, Hfl in Hnf. rewrite Hr2, Hrl in Hnr.
      apply andb_true_iff in Hpel as [Hpel Hnlp]. apply andb_true_iff in Hlel as [Hlel Hnll].
      apply negb_true_iff in Hnlp, Hnll.
      exists sl0. split; [done|]. split; [done|]. split; [congruence|]. by split_and!.
Qed.

End Total.

(** X22: the pass as a whole: on input that meets [icf_input_ok], with
    a hash of at least [HASH_SIZE] bytes that tells the inputs of the
    rounds apart, and ten rounds of fuel for every section to propagate
    and ten more, [icf_sections] is defined, and in the store it returns
    every leader leads itself. *)
Theorem X22_icf_sections_terminates (std_hash : bytes -> Z) (SHA256 : bytes -> bytes)
  (L : Linker) (fuel : nat) :
  icf_input_ok L ->
  (forall m, (HASH_SIZE <= length (SHA256 m))%nat) ->
  (forall d0 edges edge_indices,
     prepared std_hash SHA256 L = Some (d0, edges, edge_indices) ->
     Forall (fun cur => injective_on SHA256 (round_inputs cur edges edge_indices))
       (round_history SHA256 edges edge_indices d0 (10 * (length d0 + 1)))) ->
  (10 * (length (propagation_set L) + 1) <= fuel)%nat ->
  exists L' : Linker,
    icf_sections std_hash SHA256 fuel L = Some L' /\
    forall (p : nat) (s : InputSection) (l : nat),
      secs L' !! p = Some s -> leader s = Some l ->
      exists sl : InputSection, secs L' !! l = Some sl /\ leader sl = Some l.
Proof.
  intros Hok Hout Hinj Hfuel.
  destruct (icf_sections_run std_hash SHA256 L Hok Hout fuel Hinj Hfuel)
    as (L' & Hrun & Hself & _).
  exists L'. split; [exact Hrun | exact Hself].
Qed.

(** The sample input meets [icf_input_ok]. *)
Lemma two_classes_input_ok : icf_input_ok two_classes.
Proof.
  split.
  - intros p Hp. cbn in Hp. members Hp;
      (eexists; split; [reflexivity|]; split; [reflexivity|]; split; [reflexivity|]);
      intros; by apply Forall_nil.
  - intros [|[|[|p]]] s Hs; cbn in Hs; simplify_eq; (split; [|reflexivity]); cbn.
    + left.
    + right. left.
    + right. right. left.
  - split; [discriminate | cbn; lia].
  - apply (bool_decide_unpack _). vm_compute. exact I.
  - split.
    + intros sp Hsp. cbn in Hsp. members Hsp; by eexists.
    + intros [|[|[|sp]]] y p Hy Hp; cbn in Hy; simplify_eq; cbn in Hp; simplify_eq; by eexists.
  - split; [intros H; vm_compute in H; discriminate | vm_compute; reflexivity].
  - intros p s Hp Hs. vm_compute in Hp. members Hp; cbn in Hs; simplify_eq;
      (split; [by apply Forall_nil|]);
      intros [|j] rel Hrel; cbn in Hrel; simplify_eq;
      (exists false; split; [reflexivity|]; by eexists).
  - vm_compute. reflexivity.
Qed.

Lemma sample_SHA256_length (m : bytes) : (HASH_SIZE <= length (sample_SHA256 m))%nat.
Proof. unfold sample_SHA256. rewrite length_map, length_seq. unfold HASH_SIZE. lia. Qed.

Lemma X22_icf_sections_terminates_witness :
  exists L' : Linker,
    icf_sections sample_hash sample_SHA256 30 two_classes = Some L' /\
    forall (p : nat) (s : InputSection) (l : nat),
      secs L' !! p = Some s -> leader s = Some l ->
      exists sl : InputSection, secs L' !! l = Some sl /\ leader sl = Some l.
Proof.
  apply (X22_icf_sections_terminates sample_hash sample_SHA256 two_classes 30).
  - exact two_classes_input_ok.
  - exact sample_SHA256_length.
  - intros d0 edges edge_indices Hprep. vm_compute in Hprep. injection Hprep as <- <- <-.
    apply injective_history. vm_compute. reflexivity.
  - vm_compute. lia.
Defined.

(** X23: the pass folds equal code only: on input that meets
    [icf_input_ok], with sizes that fit 64 bits and a hash that tells
    apart the byte strings of the initial digests and the inputs of the
    rounds, [icf_sections] is defined, and the leader of a section in the
    store it returns is an eligible section, a leaf exactly when the
    section is one, with the same contents, as many FDE records and as
    many relocations. *)
Theorem X23_folded_sections_are_equal (std_hash : bytes -> Z) (SHA256 : bytes -> bytes)
  (L : Linker) (fuel : nat) :
  icf_input_ok L ->
  (forall m, (HASH_SIZE <= length (SHA256 m))%nat) ->
  (forall p s, p ∈ propagation_set L -> secs L !! p = Some s ->
     Z.of_nat (length (contents s)) < 2 ^ 64 /\ Z.of_nat (length (fdes s)) < 2 ^ 64) ->
  (forall xs, initial_inputs std_hash L = Some xs -> injective_on SHA256 xs) ->
  (forall d0 edges edge_indices,
     prepared std_hash SHA256 L = Some (d0, edges, edge_indices) ->
     Forall (fun cur => injective_on SHA256 (round_inputs cur edges edge_indices))
       (round_history SHA256 edges edge_indices d0 (10 * (length d0 + 1)))) ->
  (10 * (length (propagation_set L) + 1) <= fuel)%nat ->
  exists L' : Linker,
    icf_sections std_hash SHA256 fuel L = Some L' /\
    forall (p : nat) (s0 s' : InputSection) (l : nat),
      secs L !! p = Some s0 -> secs L' !! p = Some s' -> leader s' = Some l ->
      exists sl0 : InputSection,
        secs L !! l = Some sl0 /\
        is_eligible sl0 = true /\ is_leaf sl0 = is_leaf s0 /\
        contents sl0 = contents s0 /\ length (fdes sl0) = length (fdes s0) /\
        length (rels sl0) = length (rels s0).
Proof.
  intros Hok Hout Hsizes Hinj0 Hinj Hfuel.
  destruct (icf_sections_run std_hash SHA256 L Hok Hout fuel Hinj Hfuel)
    as (L' & Hrun & _ & _ & Hfold).
  exists L'. split; [exact Hrun|]. exact (Hfold Hinj0 Hsizes).
Qed.

(** So does the sample input with two sections to fold. *)
Lemma unreferenced_fold_input_ok : icf_input_ok unreferenced_fold.
Proof.
  split.
  - intros p Hp. cbn in Hp. members Hp;
      (eexists; split; [reflexivity|]; split; [reflexivity|]; split; [reflexivity|]);
      intros; by apply Forall_nil.
  - intros [|[|[|[|p]]]] s Hs; cbn in Hs; simplify_eq; (split; [|reflexivity]); cbn.
    + left.
    + right. left.
    + right. right. left.
    + right. right. right. left.
  - split; [discriminate | cbn; lia].
  - apply (bool_decide_unpack _). vm_compute. exact I.
  - split.
    + intros sp Hsp. cbn in Hsp. members Hsp; by eexists.
    + intros [|[|[|sp]]] y p Hy Hp; cbn in Hy; simplify_eq; cbn in Hp; simplify_eq; by eexists.
  - split; [intros H; vm_compute in H; discriminate | vm_compute; reflexivity].
  - intros p s Hp Hs. vm_compute in Hp. members Hp; cbn in Hs; simplify_eq;
      (split; [by apply Forall_nil|]);
      intros [|j] rel Hrel; cbn in Hrel; simplify_eq;
      (exists false; split; [reflexivity|]; by eexists).
  - vm_compute. reflexivity.
Qed.

Lemma X23_folded_sections_are_equal_witness :
  exists L' : Linker,
    icf_sections sample_hash sample_SHA256 30 unreferenced_fold = Some L' /\
    forall (p : nat) (s0 s' : InputSection) (l : nat),
      secs unreferenced_fold !! p = Some s0 -> secs L' !! p = Some s' -> leader s' = Some l ->
      exists sl0 : InputSection,
        secs unreferenced_fold !! l = Some sl0 /\
        is_eligible sl0 = true /\ is_leaf sl0 = is_leaf s0 /\
        contents sl0 = contents s0 /\ length (fdes sl0) = length (fdes s0) /\
        length (rels sl0) = length (rels s0).
Proof.
  apply (X23_folded_sections_are_equal sample_hash sample_SHA256 unreferenced_fold 30).
  - exact unreferenced_fold_input_ok.
  - exact sample_SHA256_length.
  - intros p s Hp Hs. vm_compute in Hp. members Hp; cbn in Hs; simplify_eq; cbn; lia.
  - intros xs Hxs. vm_compute in Hxs. injection Hxs as <-.
    apply injective_onb_sound. vm_compute. reflexivity.
  - intros d0 edges edge_indices Hprep. vm_compute in Hprep. injection Hprep as <- <- <-.
    apply injective_history. vm_compute. reflexivity.
  - vm_compute. lia.
Defined.

(** X24: what the pass does to a symbol: under the hypotheses of X23,
    a symbol of the files that referred to a section keeps its fragment
    and its value and refers, after the pass, to a section with the same
    contents, which in the store returned has no leader or is its own. *)
Theorem X24_symbols_keep_their_code (std_hash : bytes -> Z) (SHA256 : bytes -> bytes)
  (L : Linker) (fuel : nat) :
  icf_input_ok L ->
  (forall m, (HASH_SIZE <= length (SHA256 m))%nat) ->
  (forall p s, p ∈ propagation_set L -> secs L !! p = Some s ->
     Z.of_nat (length (contents s)) < 2 ^ 64 /\ Z.of_nat (length (fdes s)) < 2 ^ 64) ->
  (forall xs, initial_inputs std_hash L = Some xs -> injective_on SHA256 xs) ->
  (forall d0 edges edge_indices,
     prepared std_hash SHA256 L = Some (d0, edges, edge_indices) ->
     Forall (fun cur => injective_on SHA256 (round_inputs cur edges edge_indices))
       (round_history SHA256 edges edge_indices d0 (10 * (length d0 + 1)))) ->
  (10 * (length (propagation_set L) + 1) <= fuel)%nat ->
  exists L' : Linker,
    icf_sections std_hash SHA256 fuel L = Some L' /\
    forall (sp : nat) (y : Symbol) (p : nat) (s0 : InputSection),
      sp ∈ all_symbols L -> syms L !! sp = Some y -> input_section y = Some p ->
      secs L !! p = Some s0 ->
      exists (y' : Symbol) (q : nat) (sq0 sq' : InputSection),
        syms L' !! sp = Some y' /\ sym_frag y' = sym_frag y /\ sym_value y' = sym_value y /\
        input_section y' = Some q /\
        secs L !! q = Some sq0 /\ contents sq0 = contents s0 /\
        secs L' !! q = Some sq' /\ (leader sq' = None \/ leader sq' = Some q).
Proof.
  intros Hok Hout Hsizes Hinj0 Hinj Hfuel.
  destruct (icf_sections_run std_hash SHA256 L Hok Hout fuel Hinj Hfuel)
    as (L' & Hrun & _ & Hsym & Hfold).
  exists L'. split; [exact Hrun|]. intros sp y p s0 Hsp Hy Hp Hs0.
  destruct (Hsym sp y p Hsp Hy Hp) as (y' & q & sq' & Hy' & Hfrag & Hval & Hq & Hcase & Hsq' & Hl).
  destruct Hcase as [-> | (s' & Hs' & Hls')].
  - exists y', p, s0, sq'. by split_and!.
  - destruct (Hfold Hinj0 Hsizes p s0 s' q Hs0 Hs' Hls') as (sq0 & Hsq0 & _ & _ & Hc & _).
    exists y', q, sq0, sq'. by split_and!.
Qed.

Lemma X24_symbols_keep_their_code_witness :
  exists L' : Linker,
    icf_sections sample_hash sample_SHA256 30 unreferenced_fold = Some L' /\
    forall (sp : nat) (y : Symbol) (p : nat) (s0 : InputSection),
      sp ∈ all_symbols unreferenced_fold -> syms unreferenced_fold !! sp = Some y ->
      input_section y = Some p -> secs unreferenced_fold !! p = Some s0 ->
      exists (y' : Symbol) (q : nat) (sq0 sq' : InputSection),
        syms L' !! sp = Some y' /\ sym_frag y' = sym_frag y /\ sym_value y' = sym_value y /\
        input_section y' = Some q /\
        secs unreferenced_fold !! q = Some sq0 /\ contents sq0 = contents s0 /\
        secs L' !! q = Some sq' /\ (leader sq' = None \/ leader sq' = Some q).
Proof.
  apply (X24_symbols_keep_their_code sample_hash sample_SHA256 unreferenced_fold 30).
  - exact unreferenced_fold_input_ok.
  - exact sample_SHA256_length.
  - intros p s Hp Hs. vm_compute in Hp. members Hp; cbn in Hs; simplify_eq; cbn; lia.
  - intros xs Hxs. vm_compute in Hxs. injection Hxs as <-.
    apply injective_onb_sound. vm_compute. reflexivity.
  - intros d0 edges edge_indices Hprep. vm_compute in Hprep. injection Hprep as <- <- <-.
    apply injective_history. vm_compute. reflexivity.
  - vm_compute. lia.
Defined.
